(** * LaCAM / LaCAM2: a shallow embedding of the planner

    The development follows [lacam/src/planner.cpp] and
    [lacam2/src/planner.cpp].  Pointers to vertices, agents and search
    nodes are represented by their integer ids; the scratch tables of the
    planner ([occupied_now], [occupied_next], the agents' [v_now] and
    [v_next] slots) are finite maps, a null pointer being an absent key.
    Values of the C++ type [uint] are integers reduced modulo [2^32]. *)

From Stdlib Require Import ZArith QArith List Lia Permutation.
From stdpp Require Import base option list gmap.

Close Scope Q_scope.
Open Scope Z_scope.

(** ** Common data model *)

(** Vertices and agents are identified by their ids; a configuration has
    one vertex per agent. *)
Abbreviation Vertex := nat (only parsing).
Abbreviation Agent := nat (only parsing).
Abbreviation Config := (list nat) (only parsing).

Inductive Objective := OBJ_NONE | OBJ_MAKESPAN | OBJ_SUM_OF_LOSS.

Global Instance Objective_eq_dec : EqDecision Objective.
Proof. solve_decision. Defined.

(** [uint] arithmetic: 32-bit, wrapping ([UINT_MOD] is [2^32]). *)
Definition UINT_MOD : Z := 4294967296.
Definition u32 (x : Z) : Z := x mod UINT_MOD.

(** [C[i]]: configurations handed to the planner have one slot per agent. *)
Definition cfg_at (C : Config) (i : nat) : Vertex := nth i C 0%nat.

(** [is_same_config]: elementwise comparison of the vertex ids. *)
Definition is_same_config (C1 C2 : Config) : bool := bool_decide (C1 = C2).

(** The instance: graph as adjacency lists, the number of agents, starts
    and goals. *)
Record Instance := {
  neighbor : Vertex -> list Vertex;
  ins_N : nat;
  starts : Config;
  goals : Config
}.

(** The distance table is a read-only oracle [D.get(i, v)] of type [uint]. *)
Definition DistTable := Agent -> Vertex -> Z.

(** Reference formulations of the two heuristics, as closed expressions. *)
Definition dist_list (D : DistTable) (n : nat) (C : Config) : list Z :=
  map (fun i => D i (cfg_at C i)) (seq 0 n).

Definition max_dist (D : DistTable) (n : nat) (C : Config) : Z :=
  fold_right Z.max 0 (dist_list D n C).

Definition sum_dist (D : DistTable) (n : nat) (C : Config) : Z :=
  fold_right Z.add 0 (dist_list D n C).

(** A [for (i = 0; i < n; ++i) cost = body(cost, i)] loop. *)
Definition for_upto {A : Type} (n : nat) (body : A -> nat -> A) (init : A) : A :=
  fold_left body (seq 0 n) init.

Lemma for_upto_S {A : Type} (n : nat) (body : A -> nat -> A) (init : A) :
  for_upto (S n) body init = body (for_upto n body init) n.
Proof.
  unfold for_upto. rewrite seq_S, fold_left_app. reflexivity.
Qed.

Lemma dist_list_S D n C :
  dist_list D (S n) C = dist_list D n C ++ [D n (cfg_at C n)].
Proof. unfold dist_list. rewrite seq_S, map_app. reflexivity. Qed.

Lemma max_dist_S D n C :
  max_dist D (S n) C = Z.max (max_dist D n C) (D n (cfg_at C n)).
Proof.
  unfold max_dist. rewrite dist_list_S.
  induction (dist_list D n C) as [|x l IH]; simpl.
  - lia.
  - rewrite IH. lia.
Qed.

Lemma sum_dist_S D n C :
  sum_dist D (S n) C = sum_dist D n C + D n (cfg_at C n).
Proof.
  unfold sum_dist. rewrite dist_list_S.
  induction (dist_list D n C) as [|x l IH]; simpl.
  - lia.
  - rewrite IH. lia.
Qed.

Lemma sum_dist_nonneg D n C :
  (forall i v, 0 <= D i v) -> 0 <= sum_dist D n C.
Proof.
  intros HD. induction n as [|n IH].
  - reflexivity.
  - rewrite sum_dist_S. specialize (HD n (cfg_at C n)). lia.
Qed.

Lemma sum_dist_mono D n C :
  (forall i v, 0 <= D i v) -> sum_dist D n C <= sum_dist D (S n) C.
Proof. intros HD. rewrite sum_dist_S. specialize (HD n (cfg_at C n)). lia. Qed.

(** ** Heuristic loops *)

Section HValue.
Variable D : DistTable.
Hypothesis D_nonneg : forall i v, 0 <= D i v.

Lemma max_loop n C :
  for_upto n (fun cost i => Z.max cost (D i (cfg_at C i))) 0 = max_dist D n C.
Proof.
  induction n as [|n IH].
  - reflexivity.
  - rewrite for_upto_S, IH, max_dist_S. reflexivity.
Qed.

Lemma sum_loop n C :
  sum_dist D n C < UINT_MOD ->
  for_upto n (fun cost i => u32 (cost + D i (cfg_at C i))) 0 = sum_dist D n C.
Proof.
  induction n as [|n IH]; intros Hb.
  - reflexivity.
  - rewrite for_upto_S, IH.
    + rewrite sum_dist_S in *. unfold u32.
      apply Z.mod_small. split; [|assumption].
      pose proof (sum_dist_nonneg D n C D_nonneg).
      specialize (D_nonneg n (cfg_at C n)). lia.
    + pose proof (sum_dist_mono D n C D_nonneg). lia.
Qed.
End HValue.

(** ** The C++ runtime

    What the planner takes from its environment: single-precision floats
    (tie-breakers, priorities, the restart rate), the Mersenne twister,
    [std::sort], [std::shuffle] and the iteration order of a
    [std::set<HNode*>] (by address).  The standard fixes of these only
    that sorting and shuffling permute their input and that iterating a
    set visits exactly its elements. *)

Class Runtime := {
  float : Type;
  f_zero : float;
  f_one : float;
  f_of_uint : Z -> float;
  f_of_int : Z -> float;
  f_to_int : float -> Z;
  f_add : float -> float -> float;
  f_sub : float -> float -> float;
  f_div : float -> float -> float;
  f_lt : float -> float -> bool;
  rng : Type;
  get_random_float : rng -> float * rng;
  std_shuffle : rng -> list nat -> list nat * rng;
  std_shuffle_perm : forall r l, Permutation l (std_shuffle r l).1;
  std_sort : (nat -> nat -> bool) -> list nat -> list nat;
  std_sort_perm : forall lt l, Permutation l (std_sort lt l);
  set_iter : gset nat -> list nat;
  set_iter_elem : forall (s : gset nat) x, x ∈ set_iter s <-> x ∈ s
}.

(** [a >= b] on floats is [!(a < b)] (no NaN arises in the planner). *)
Definition f_ge `{Runtime} (a b : float) : bool := negb (f_lt a b).
Definition f_gt `{Runtime} (a b : float) : bool := f_lt b a.

(** ** Scratch tables of a planner

    [v_now], [v_next]: the two slots of each agent; [occupied_now],
    [occupied_next]: vertex id to agent; [tie_breakers]: vertex id to
    float (default 0); [MT]: the random generator, absent when the caller
    passed a null pointer. *)

Record Scratch `{Runtime} := mkScratch {
  v_now : gmap Agent Vertex;
  v_next : gmap Agent Vertex;
  occupied_now : gmap Vertex Agent;
  occupied_next : gmap Vertex Agent;
  tie_breakers : gmap Vertex float;
  MT : option rng
}.

Section ScratchOps.
Context `{RT : Runtime}.

Definition set_v_now (f : gmap Agent Vertex -> gmap Agent Vertex) (s : Scratch) : Scratch :=
  mkScratch _ (f (v_now s)) (v_next s) (occupied_now s) (occupied_next s) (tie_breakers s) (MT s).

Definition set_v_next (f : gmap Agent Vertex -> gmap Agent Vertex) (s : Scratch) : Scratch :=
  mkScratch _ (v_now s) (f (v_next s)) (occupied_now s) (occupied_next s) (tie_breakers s) (MT s).

Definition set_occupied_now (f : gmap Vertex Agent -> gmap Vertex Agent) (s : Scratch) : Scratch :=
  mkScratch _ (v_now s) (v_next s) (f (occupied_now s)) (occupied_next s) (tie_breakers s) (MT s).

Definition set_occupied_next (f : gmap Vertex Agent -> gmap Vertex Agent) (s : Scratch) : Scratch :=
  mkScratch _ (v_now s) (v_next s) (occupied_now s) (f (occupied_next s)) (tie_breakers s) (MT s).

(** [occupied_next[u->id] = a; a->v_next = u;] *)
Definition reserve (a : Agent) (u : Vertex) (s : Scratch) : Scratch :=
  set_v_next (insert a u) (set_occupied_next (insert u a) s).

Definition tie_breaker (s : Scratch) (v : Vertex) : float :=
  default f_zero (tie_breakers s !! v).

(** The planners' initial scratch state: every table null or zero. *)
Definition scratch_init (mt : option rng) : Scratch :=
  mkScratch _ ∅ ∅ ∅ ∅ ∅ mt.

(** The candidate loop of [funcPIBT]: for each neighbour [u], in order,
    draw [tie_breakers[u->id]] when a generator is present. *)
Fixpoint set_tie_breakers (us : list Vertex) (s : Scratch) : Scratch :=
  match us with
  | [] => s
  | u :: us' =>
      let s' :=
        match MT s with
        | None => s
        | Some r =>
            let (x, r') := get_random_float r in
            mkScratch _ (v_now s) (v_next s) (occupied_now s) (occupied_next s)
                      (<[u := x]> (tie_breakers s)) (Some r')
        end in
      set_tie_breakers us' s'
  end.

(** The comparator handed to [std::sort] in [funcPIBT]. *)
Definition cand_lt (D : DistTable) (i : Agent) (s : Scratch) (v u : Vertex) : bool :=
  f_lt (f_add (f_of_uint (D i v)) (tie_breaker s v))
       (f_add (f_of_uint (D i u)) (tie_breaker s u)).

(** [for (auto a : A) C_new[a->id] = a->v_next;] *)
Definition read_config (n : nat) (s : Scratch) : Config :=
  map (fun a => default 0%nat (v_next s !! a)) (seq 0 n).

End ScratchOps.

(** ** Valid joint moves (P2, P3, P4 of the specification) *)

Definition moves_ok (ins : Instance) (n : nat) (C1 C2 : Config) : Prop :=
  forall i, (i < n)%nat ->
    cfg_at C2 i = cfg_at C1 i \/ cfg_at C2 i ∈ neighbor ins (cfg_at C1 i).

Definition vertex_free (n : nat) (C : Config) : Prop :=
  forall i j, (i < n)%nat -> (j < n)%nat -> i <> j -> cfg_at C i <> cfg_at C j.

Definition swap_free (n : nat) (C1 C2 : Config) : Prop :=
  forall i j, (i < n)%nat -> (j < n)%nat -> i <> j ->
    ~ (cfg_at C1 i = cfg_at C2 j /\ cfg_at C1 j = cfg_at C2 i).

Definition valid_step (ins : Instance) (n : nat) (C1 C2 : Config) : Prop :=
  moves_ok ins n C1 C2 /\ vertex_free n C2 /\ swap_free n C1 C2.

(** * High-level nodes

    The nodes of the configuration graph, kept in an arena (a list): the
    id of a node is its position, [parent] and the members of
    [neighbor_set] are ids.  A frame of a search tree is the list of its
    [(who, where)] pairs. *)

Module HL.

Record HNode `{Runtime} := mkHNode {
  C : Config;
  parent : option nat;
  neighbor_set : gset nat;
  g : Z;
  h : Z;
  f : Z;
  priorities : list float;
  order : list nat;
  search_tree : list (list (Agent * Vertex))
}.

Section Nodes.
Context `{RT : Runtime}.
Variable D : DistTable.

(** [HNode::HNode], lacam2/src/planner.cpp:17, without the registration
    in the parent's neighbour set; [pp] is [parent->priorities] when there
    is a parent.  The search tree starts with the empty frame. *)
Definition HNode_init (C : Config) (parent : option nat) (pp : option (list float))
    (g h : Z) : HNode :=
  let n := length C in
  let priorities :=
    match pp with
    | None => map (fun i => f_div (f_of_uint (D i (cfg_at C i))) (f_of_uint (Z.of_nat n)))
                  (seq 0 n)
    | Some pp =>
        map (fun i =>
               let p := nth i pp f_zero in
               if negb (D i (cfg_at C i) =? 0) then f_add p f_one
               else f_sub p (f_of_int (f_to_int p)))
            (seq 0 n)
    end in
  let order :=
    std_sort (fun i j => f_gt (nth i priorities f_zero) (nth j priorities f_zero))
             (seq 0 n) in
  mkHNode _ C parent ∅ g h (u32 (g + h)) priorities order [[]].

Definition add_neighbor (x : nat) (H : HNode) : HNode :=
  mkHNode _ (C H) (parent H) ({[x]} ∪ neighbor_set H) (g H) (h H) (f H)
          (priorities H) (order H) (search_tree H).

Definition set_search_tree (t : list (list (Agent * Vertex))) (H : HNode) : HNode :=
  mkHNode _ (C H) (parent H) (neighbor_set H) (g H) (h H) (f H)
          (priorities H) (order H) t.

(** [n_to->g = g_val; n_to->f = n_to->g + n_to->h; n_to->parent = n_from;] *)
Definition set_cost (g_val : Z) (n_from : nat) (H : HNode) : HNode :=
  mkHNode _ (C H) (Some n_from) (neighbor_set H) g_val (h H) (u32 (g_val + h H))
          (priorities H) (order H) (search_tree H).

(** [new HNode(C, D, parent, g, h)]: the node gets the next id of the
    arena and enters its parent's neighbour set. *)
Definition HNode_new (nodes : list HNode) (C : Config) (parent : option nat) (g h : Z)
  : list HNode :=
  let id := length nodes in
  let pp := p ← parent; priorities <$> nodes !! p in
  let nodes' :=
    match parent with
    | Some p => alter (add_neighbor id) p nodes
    | None => nodes
    end in
  nodes' ++ [HNode_init C parent pp g h].

(** The backtracking loop: the configurations from [H] up the parent
    pointers, in the order of the [push_back]s. *)
Fixpoint backtrack (fuel : nat) (nodes : list HNode) (H : option nat) : option (list Config) :=
  match H with
  | None => Some []
  | Some id =>
      match fuel with
      | O => None
      | S fuel' =>
          node ← nodes !! id;
          rest ← backtrack fuel' nodes (parent node);
          Some (HL.C node :: rest)
      end
  end.

End Nodes.
End HL.

(** * LaCAM2 ([lacam2/src/planner.cpp]) *)

Module LaCAM2.
Import HL.

(** A low-level node: the chain of [(who, where)] pairs reached through
    its [parent] pointers, the node itself first; [depth] is the length of
    the chain ([new LNode()] is the empty chain). *)
Abbreviation LNode := (list (nat * nat)) (only parsing).

Definition LNode_root : LNode := [].
Definition LNode_new (parent : LNode) (i : Agent) (v : Vertex) : LNode := (i, v) :: parent.
Definition depth (L : LNode) : nat := length L.

Section Planner.
Context `{RT : Runtime}.
Variable ins : Instance.
Variable D : DistTable.
Variable objective : Objective.
Variable RESTART_RATE : float.
Variable FLG_SWAP : bool.

Let N := ins_N ins.

(** [Planner::get_h_value], lacam2/src/planner.cpp:261. *)
Definition get_h_value (C : Config) : Z :=
  let cost := 0 in
  match objective with
  | OBJ_MAKESPAN => for_upto N (fun cost i => Z.max cost (D i (cfg_at C i))) cost
  | _ => for_upto N (fun cost i => u32 (cost + D i (cfg_at C i))) cost
  end.

(** [Planner::get_edge_cost], lacam2/src/planner.cpp:232. *)
Definition get_edge_cost (C1 C2 : Config) : Z :=
  match objective with
  | OBJ_NONE =>
      for_upto N (fun cost i =>
        if bool_decide (cfg_at C1 i ≠ cfg_at C2 i)
        then u32 (cost + 1) else cost) 0
  | OBJ_SUM_OF_LOSS =>
      for_upto N (fun cost i =>
        if bool_decide (cfg_at C1 i ≠ cfg_at (goals ins) i)
           || bool_decide (cfg_at C2 i ≠ cfg_at (goals ins) i)
        then u32 (cost + 1) else cost) 0
  | OBJ_MAKESPAN => 1
  end.

(** ** Swap rule *)

(** The neighbours [u] of [v_puller] that the corridor walks keep: not
    [v_pusher], and not a dead end whose occupant has it as goal.  The
    walks compute [n] as the number of these and [tmp] as the last. *)
Definition corridor_live (s : Scratch) (v_pusher v_puller : Vertex) : list Vertex :=
  List.filter (fun u =>
    negb (bool_decide (u = v_pusher)
          || (bool_decide (length (neighbor ins u) = 1%nat)
              && match occupied_now s !! u with
                 | Some a => bool_decide (cfg_at (goals ins) a = u)
                 | None => false
                 end)))
    (neighbor ins v_puller).

(** The [return] expression of [is_swap_required]. *)
Definition swap_required_verdict (pusher puller : Agent) (v_pusher v_puller : Vertex) : bool :=
  (D puller v_pusher <? D puller v_puller)
  && ((D pusher v_pusher =? 0) || (D pusher v_puller <? D pusher v_pusher)).

(** [Planner::is_swap_required], lacam2/src/planner.cpp:441.  The [while]
    loop is unrolled [fuel] times; [None] when that does not reach its end. *)
Fixpoint is_swap_required (fuel : nat) (s : Scratch) (pusher puller : Agent)
    (v_pusher v_puller : Vertex) : option bool :=
  match fuel with
  | O => None
  | S fuel' =>
      if D pusher v_puller <? D pusher v_pusher then
        match corridor_live s v_pusher v_puller with
        | [] => Some (swap_required_verdict pusher puller v_pusher v_puller)
        | [tmp] => is_swap_required fuel' s pusher puller v_puller tmp
        | _ => Some false
        end
      else Some (swap_required_verdict pusher puller v_pusher v_puller)
  end.

(** [Planner::is_swap_possible], lacam2/src/planner.cpp:472. *)
Fixpoint is_swap_possible_from (fuel : nat) (s : Scratch) (v_pusher_origin : Vertex)
    (v_pusher v_puller : Vertex) : option bool :=
  match fuel with
  | O => None
  | S fuel' =>
      if bool_decide (v_puller ≠ v_pusher_origin) then
        match corridor_live s v_pusher v_puller with
        | [] => Some false
        | [tmp] => is_swap_possible_from fuel' s v_pusher_origin v_puller tmp
        | _ => Some true
        end
      else Some false
  end.

Definition is_swap_possible (fuel : nat) (s : Scratch) (v_pusher_origin v_puller_origin : Vertex)
  : option bool :=
  is_swap_possible_from fuel s v_pusher_origin v_pusher_origin v_puller_origin.

(** [a && b] where [b] is evaluated only when [a] holds. *)
Definition and_then (a : option bool) (b : option bool) : option bool :=
  match a with
  | Some true => b
  | other => other
  end.

(** The "clear operation" loop of [swap_possible_and_required]. *)
Fixpoint swap_clear_case (fuel : nat) (s : Scratch) (ai : Agent) (vi c0 : Vertex)
    (us : list Vertex) : option (option Agent) :=
  match us with
  | [] => Some None
  | u :: us' =>
      match occupied_now s !! u with
      | None => swap_clear_case fuel s ai vi c0 us'
      | Some ak =>
          ak_now ← v_now s !! ak;
          if bool_decide (c0 = ak_now) then swap_clear_case fuel s ai vi c0 us'
          else
            b ← and_then (is_swap_required fuel s ak ai vi c0)
                         (is_swap_possible fuel s c0 vi);
            if b : bool then Some (Some ak) else swap_clear_case fuel s ai vi c0 us'
      end
  end.

(** [Planner::swap_possible_and_required], lacam2/src/planner.cpp:413;
    [cands] is [C_next[i]] and [vi] is [ai->v_now]. *)
Definition swap_possible_and_required (fuel : nat) (s : Scratch) (ai : Agent) (vi : Vertex)
    (cands : list Vertex) : option (option Agent) :=
  c0 ← head cands;
  if bool_decide (c0 = vi) then Some None
  else
    usual ←
      match occupied_now s !! c0 with
      | Some aj =>
          match v_next s !! aj with
          | None =>
              aj_now ← v_now s !! aj;
              b ← and_then (is_swap_required fuel s ai aj vi aj_now)
                           (is_swap_possible fuel s aj_now vi);
              Some (if b : bool then Some aj else None)
          | Some _ => Some None
          end
      | None => Some None
      end;
    match usual with
    | Some aj => Some (Some aj)
    | None => swap_clear_case fuel s ai vi c0 (neighbor ins vi)
    end.

(** ** PIBT *)

(** The pull at the end of a successful [funcPIBT]. *)
Definition pull_swap_agent (k : nat) (swap_agent : option Agent) (vi : Vertex) (s : Scratch)
  : Scratch :=
  if FLG_SWAP then
    match swap_agent with
    | Some sa =>
        if bool_decide (k = 0%nat) && bool_decide (v_next s !! sa = None)
           && bool_decide (occupied_next s !! vi = None)
        then set_occupied_next (insert vi sa) (set_v_next (insert sa vi) s)
        else s
    | None => s
    end
  else s.

(** The main loop of [funcPIBT] over the candidates from position [k] on;
    [rec] is [funcPIBT] itself, for the priority inheritance. *)
Fixpoint pibt_loop (rec : Agent -> Scratch -> option (bool * Scratch))
    (ai : Agent) (vi : Vertex) (swap_agent : option Agent)
    (k : nat) (cands : list Vertex) (s : Scratch) : option (bool * Scratch) :=
  match cands with
  | [] =>
      (* failed to secure node *)
      Some (false, reserve ai vi s)
  | u :: rest =>
      if bool_decide (occupied_next s !! u ≠ None) then
        pibt_loop rec ai vi swap_agent (S k) rest s
      else
        let ak := occupied_now s !! u in
        if match ak with
           | Some a => bool_decide (v_next s !! a = Some vi)
           | None => false
           end
        then pibt_loop rec ai vi swap_agent (S k) rest s
        else
          let s1 := reserve ai u s in
          match ak with
          | Some a =>
              if bool_decide (a ≠ ai) && bool_decide (v_next s1 !! a = None) then
                match rec a s1 with
                | None => None
                | Some (false, s2) => pibt_loop rec ai vi swap_agent (S k) rest s2
                | Some (true, s2) => Some (true, pull_swap_agent k swap_agent vi s2)
                end
              else Some (true, pull_swap_agent k swap_agent vi s1)
          | None => Some (true, pull_swap_agent k swap_agent vi s1)
          end
  end.

(** [Planner::funcPIBT], lacam2/src/planner.cpp:344.  [fuel] bounds the
    depth of the recursion and the length of the corridor walks. *)
Fixpoint funcPIBT (fuel : nat) (ai : Agent) (s : Scratch) : option (bool * Scratch) :=
  match fuel with
  | O => None
  | S fuel' =>
      vi ← v_now s !! ai;
      let s0 := set_tie_breakers (neighbor ins vi) s in
      let sorted := std_sort (cand_lt D ai s0) (neighbor ins vi ++ [vi]) in
      plan ←
        (if FLG_SWAP then
           swap_agent ← swap_possible_and_required fuel' s0 ai vi sorted;
           Some (swap_agent, if swap_agent is Some _ then rev sorted else sorted)
         else Some (None, sorted));
      pibt_loop (funcPIBT fuel') ai vi plan.1 0 plan.2 s0
  end.

(** ** Successor generation *)

(** The "setup cache" loop of [get_new_config], for one agent. *)
Definition setup_agent (HC : Config) (s : Scratch) (a : Agent) : Scratch :=
  let s1 :=
    match v_now s !! a with
    | Some v =>
        if bool_decide (occupied_now s !! v = Some a)
        then set_occupied_now (delete v) s else s
    | None => s
    end in
  let s2 :=
    match v_next s1 !! a with
    | Some v => set_v_next (delete a) (set_occupied_next (delete v) s1)
    | None => s1
    end in
  let v := cfg_at HC a in
  set_occupied_now (insert v a) (set_v_now (insert a v) s2).

(** The "add constraints" loop, following the parent pointers from [L]. *)
Fixpoint add_constraints (HC : Config) (L : LNode) (s : Scratch) : bool * Scratch :=
  match L with
  | [] => (true, s)
  | (i, l) :: tmp =>
      if bool_decide (occupied_next s !! l ≠ None) then (false, s)
      else
        let l_pre := cfg_at HC i in
        if match occupied_next s !! l_pre, occupied_now s !! l with
           | Some x, Some y => bool_decide (x = y)
           | _, _ => false
           end
        then (false, s)
        else add_constraints HC tmp (reserve i l s)
  end.

(** The "perform PIBT" loop over [H->order]. *)
Fixpoint run_pibt (fuel : nat) (ks : list Agent) (s : Scratch) : option (bool * Scratch) :=
  match ks with
  | [] => Some (true, s)
  | k :: ks' =>
      if bool_decide (v_next s !! k = None) then
        match funcPIBT fuel k s with
        | None => None
        | Some (false, s') => Some (false, s')
        | Some (true, s') => run_pibt fuel ks' s'
        end
      else run_pibt fuel ks' s
  end.

(** [Planner::get_new_config], lacam2/src/planner.cpp:284. *)
Definition get_new_config (fuel : nat) (HC : Config) (Horder : list Agent) (L : LNode)
    (s : Scratch) : option (bool * Scratch) :=
  let s1 := fold_left (setup_agent HC) (seq 0 N) s in
  match add_constraints HC L s1 with
  | (false, s2) => Some (false, s2)
  | (true, s2) => run_pibt fuel Horder s2
  end.

(** ** The planner *)

Record Planner := mkPlanner {
  nodes : list HNode;
  OPEN : list nat;
  EXPLORED : gmap (list nat) nat;
  H_goal : option nat;
  loop_cnt : Z;
  scratch : Scratch
}.

(** [Planner::expand_lowlevel_tree], lacam2/src/planner.cpp:272: the new
    search tree of [H] and the scratch state (the generator advances). *)
Definition expand_lowlevel_tree (H : HNode) (L : LNode) (s : Scratch)
  : list LNode * Scratch :=
  if bool_decide (N <= depth L)%nat then (search_tree H, s)
  else
    let i := nth (depth L) (order H) 0%nat in
    let C0 := neighbor ins (cfg_at (HL.C H) i) ++ [cfg_at (HL.C H) i] in
    let '(C1, s') :=
      match MT s with
      | Some r =>
          let (C1, r') := std_shuffle r C0 in
          (C1, mkScratch _ (v_now s) (v_next s) (occupied_now s) (occupied_next s)
                         (tie_breakers s) (Some r'))
      | None => (C0, s)
      end in
    (search_tree H ++ map (fun v => LNode_new L i v) C1, s').

(** One relaxation of the inner loop of [rewrite]. *)
Definition relax (H_goal : option nat) (n_from : nat)
    (st : list HNode * list nat * list nat) (n_to : nat)
  : list HNode * list nat * list nat :=
  let '(nodes, Q, OPEN) := st in
  match nodes !! n_from, nodes !! n_to with
  | Some nf, Some nt =>
      let g_val := u32 (g nf + get_edge_cost (HL.C nf) (HL.C nt)) in
      if g_val <? g nt then
        let nt' := set_cost g_val n_from nt in
        let nodes' := <[n_to := nt']> nodes in
        let OPEN' :=
          match H_goal with
          | Some gl =>
              match nodes' !! gl with
              | Some gn => if f nt' <? f gn then n_to :: OPEN else OPEN
              | None => OPEN
              end
          | None => OPEN
          end in
        (nodes', Q ++ [n_to], OPEN')
      else st
  | _, _ => st
  end.

(** The [while (!Q.empty())] loop of [rewrite]. *)
Fixpoint rewrite_loop (fuel : nat) (H_goal : option nat)
    (nodes : list HNode) (Q : list nat) (OPEN : list nat)
  : option (list HNode * list nat) :=
  match Q with
  | [] => Some (nodes, OPEN)
  | n_from :: Q' =>
      match fuel with
      | O => None
      | S fuel' =>
          let nbrs :=
            match nodes !! n_from with
            | Some nf => set_iter (neighbor_set nf)
            | None => []
            end in
          let '(nodes', Q'', OPEN') :=
            fold_left (relax H_goal n_from) nbrs (nodes, Q', OPEN) in
          rewrite_loop fuel' H_goal nodes' Q'' OPEN'
      end
  end.

(** [Planner::rewrite], lacam2/src/planner.cpp:204. *)
Definition rewrite (fuel : nat) (H_from H_to : nat) (H_goal : option nat)
    (nodes : list HNode) (OPEN : list nat) : option (list HNode * list nat) :=
  rewrite_loop fuel H_goal (alter (add_neighbor H_to) H_from nodes) [H_from] OPEN.

(** The gate of every push in the main loop:
    [H_goal == nullptr || X->f < H_goal->f]. *)
Definition may_push (nodes : list HNode) (H_goal : option nat) (x : nat) : bool :=
  match H_goal with
  | None => true
  | Some gl =>
      match nodes !! x, nodes !! gl with
      | Some nx, Some gn => f nx <? f gn
      | _, _ => false
      end
  end.

(** The choice between re-insertion and restart after a hit. *)
Definition choose_insert (s : Scratch) (hit H_init : nat) : nat * Scratch :=
  match MT s with
  | Some r =>
      let (x, r') := get_random_float r in
      (if f_ge x RESTART_RATE then hit else H_init,
       mkScratch _ (v_now s) (v_next s) (occupied_now s) (occupied_next s)
                 (tie_breakers s) (Some r'))
  | None => (H_init, s)
  end.

Inductive Step := Continue (p : Planner) | Break (p : Planner).

(** The id of the initial node. *)
Definition H_init : nat := 0%nat.

(** One iteration of the [while] loop of [solve], entered with [H] on top
    of [OPEN]. *)
Definition solve_step (fuel : nat) (p : Planner) (H : nat) (rest : list nat) : option Step :=
  let cnt := loop_cnt p + 1 in
  node ← nodes p !! H;
  (* low-level search end *)
  if bool_decide (search_tree node = []) then
    Some (Continue (mkPlanner (nodes p) rest (EXPLORED p) (H_goal p) cnt (scratch p)))
  else
  (* check lower bounds *)
  if match H_goal p with
     | Some gl => match nodes p !! gl with Some gn => f gn <=? f node | None => false end
     | None => false
     end
  then Some (Continue (mkPlanner (nodes p) rest (EXPLORED p) (H_goal p) cnt (scratch p)))
  else
  (* check goal condition *)
  if bool_decide (H_goal p = None) && is_same_config (HL.C node) (goals ins) then
    Some (Break (mkPlanner (nodes p) (OPEN p) (EXPLORED p) (Some H) cnt (scratch p)))
  else
  match search_tree node with
  | [] => None
  | L :: tree =>
      (* create successors at the low-level search *)
      let '(tree', s1) := expand_lowlevel_tree (set_search_tree tree node) L (scratch p) in
      let nodes1 := <[H := set_search_tree tree' node]> (nodes p) in
      (* create successors at the high-level search *)
      res ← get_new_config fuel (HL.C node) (order node) L s1;
      let '(ok, s2) := res in
      if negb ok then
        Some (Continue (mkPlanner nodes1 (OPEN p) (EXPLORED p) (H_goal p) cnt s2))
      else
        let C_new := read_config N s2 in
        match EXPLORED p !! C_new with
        | Some hit =>
            rw ← rewrite fuel H hit (H_goal p) nodes1 (OPEN p);
            let '(nodes2, OPEN2) := rw in
            let '(H_insert, s3) := choose_insert s2 hit H_init in
            let OPEN3 :=
              if may_push nodes2 (H_goal p) H_insert then H_insert :: OPEN2 else OPEN2 in
            Some (Continue (mkPlanner nodes2 OPEN3 (EXPLORED p) (H_goal p) cnt s3))
        | None =>
            let H_new := length nodes1 in
            let nodes2 :=
              HNode_new D nodes1 C_new (Some H)
                        (u32 (g node + get_edge_cost (HL.C node) C_new))
                        (get_h_value C_new) in
            let OPEN2 :=
              if may_push nodes2 (H_goal p) H_new then H_new :: OPEN p else OPEN p in
            Some (Continue (mkPlanner nodes2 OPEN2 (<[C_new := H_new]> (EXPLORED p))
                                      (H_goal p) cnt s2))
        end
  end.

(** The [while (!OPEN.empty() && !is_expired(deadline))] loop; [deadline]
    is the number of times [is_expired] answers no. *)
Fixpoint solve_loop (fuel : nat) (deadline : nat) (p : Planner) : option Planner :=
  match OPEN p with
  | [] => Some p
  | H :: rest =>
      match deadline with
      | O => Some p
      | S deadline' =>
          match solve_step fuel p H rest with
          | None => None
          | Some (Break p') => Some p'
          | Some (Continue p') => solve_loop fuel deadline' p'
          end
      end
  end.

(** What [solve] hands back: the solution and the values written to
    [additional_info] as [optimal=], [objective=], [loop_cnt=] and
    [num_node_gen=] lines. *)
Record Result := mkResult {
  solution : list Config;
  optimal : bool;
  info_objective : Objective;
  info_loop_cnt : Z;
  num_node_gen : nat
}.

Definition initial_planner (mt : option rng) : Planner :=
  let H := HNode_new D [] (starts ins) None 0 (get_h_value (starts ins)) in
  mkPlanner H [H_init] {[ starts ins := H_init ]} None 0 (scratch_init mt).

Definition report (fuel : nat) (p : Planner) : option Result :=
  sol ←
    match H_goal p with
    | Some gl => (fun l => rev l) <$> backtrack fuel (nodes p) (Some gl)
    | None => Some []
    end;
  Some (mkResult sol
                 (bool_decide (H_goal p ≠ None) && bool_decide (OPEN p = []))
                 objective (loop_cnt p) (size (EXPLORED p))).

(** [Planner::solve], lacam2/src/planner.cpp:89. *)
Definition solve (fuel : nat) (deadline : nat) (mt : option rng) : option Result :=
  p ← solve_loop fuel deadline (initial_planner mt);
  report fuel p.

End Planner.
End LaCAM2.

(** * LaCAM ([lacam/src/planner.cpp]) *)

Module LaCAM.
Import HL.

(** Modelled from the spec: the class [Constraint] (its declaration is
    not part of [planner.cpp]).  A constraint carries the flat arrays
    [who] and [where] and their length [depth]; it is the list of the
    pairs [(who[k], where[k])], [k] from [0] on. *)
Abbreviation Constraint := (list (nat * nat)) (only parsing).

(** Modelled from the spec: [new Constraint()], the frame of depth 0. *)
Definition Constraint_root : Constraint := [].

(** Modelled from the spec: [new Constraint(M, i, v)] copies the arrays
    of [M] and appends [i] and [v]. *)
Definition Constraint_new (M : Constraint) (i : Agent) (v : Vertex) : Constraint :=
  M ++ [(i, v)].

Definition depth (M : Constraint) : nat := length M.

Section Planner.
Context `{RT : Runtime}.
Variable ins : Instance.
Variable D : DistTable.
Variable objective : Objective.
Variable RESTART_RATE : float.

Let N := ins_N ins.

(** Modelled from the spec: [new Node(C, D, parent, g, h)], the
    constructor of section 4.2 (it is not part of [planner.cpp]): costs,
    priorities, order, a search tree with the frame of depth 0, and the
    registration in the parent's neighbours. *)
Definition Node_new (nodes : list HNode) (C : Config) (parent : option nat) (g h : Z)
  : list HNode :=
  HNode_new D nodes C parent g h.

(** [Planner::get_h_value], lacam/src/planner.cpp:196. *)
Definition get_h_value (C : Config) : Z :=
  let cost := 0 in
  match objective with
  | OBJ_MAKESPAN => for_upto N (fun cost i => Z.max cost (D i (cfg_at C i))) cost
  | OBJ_SUM_OF_LOSS => for_upto N (fun cost i => u32 (cost + D i (cfg_at C i))) cost
  | OBJ_NONE => cost
  end.

(** [Planner::get_edge_cost], lacam/src/planner.cpp:175. *)
Definition get_edge_cost (C1 C2 : Config) : Z :=
  match objective with
  | OBJ_SUM_OF_LOSS =>
      for_upto N (fun cost i =>
        if bool_decide (cfg_at C1 i ≠ cfg_at (goals ins) i)
           || bool_decide (cfg_at C2 i ≠ cfg_at (goals ins) i)
        then u32 (cost + 1) else cost) 0
  | _ => 1
  end.

(** ** PIBT *)

(** The main loop of [funcPIBT(ai, aj)] over the remaining candidates;
    [rec] is [funcPIBT] itself. *)
Fixpoint pibt_loop (rec : Agent -> option Agent -> Scratch -> option (bool * Scratch))
    (ai : Agent) (vi : Vertex) (aj : option Agent)
    (cands : list Vertex) (s : Scratch) : option (bool * Scratch) :=
  match cands with
  | [] =>
      (* failed to secure node *)
      Some (false, reserve ai vi s)
  | u :: rest =>
      (* avoid vertex conflicts *)
      if bool_decide (occupied_next s !! u ≠ None) then pibt_loop rec ai vi aj rest s
      else
      (* avoid swap conflicts *)
      if match aj with
         | Some j => bool_decide (v_now s !! j = Some u)
         | None => false
         end
      then pibt_loop rec ai vi aj rest s
      else
        let ak := occupied_now s !! u in
        (* avoid swap conflicts with constraints *)
        if match ak with
           | Some a => bool_decide (v_next s !! a = Some vi)
           | None => false
           end
        then pibt_loop rec ai vi aj rest s
        else
          (* reserve next location *)
          let s1 := reserve ai u s in
          match ak with
          | None => Some (true, s1)
          | Some a =>
              (* empty or stay *)
              if bool_decide (u = vi) then Some (true, s1)
              else
                (* priority inheritance *)
                if bool_decide (v_next s1 !! a = None) then
                  match rec a (Some ai) s1 with
                  | None => None
                  | Some (false, s2) => pibt_loop rec ai vi aj rest s2
                  | Some (true, s2) => Some (true, s2)
                  end
                else Some (true, s1)
          end
  end.

(** The capacity of one entry of [C_next], a [std::array<Vertex*, 5>]
    (lacam/src/planner.cpp:21). *)
Definition C_next_size : nat := 5.

(** [Planner::funcPIBT], lacam/src/planner.cpp:270.  The candidates are
    written to [C_next[i][0..K]], [K] the number of neighbours: with more
    than [C_next_size - 1] neighbours the writes leave the array, which
    has no defined behaviour, and the model has no result ([None], as
    when [fuel] runs out). *)
Fixpoint funcPIBT (fuel : nat) (ai : Agent) (aj : option Agent) (s : Scratch)
  : option (bool * Scratch) :=
  match fuel with
  | O => None
  | S fuel' =>
      vi ← v_now s !! ai;
      let K := length (neighbor ins vi) in
      if bool_decide (C_next_size < K + 1)%nat then None
      else
        let s0 := set_tie_breakers (neighbor ins vi) s in
        let sorted := std_sort (cand_lt D ai s0) (neighbor ins vi ++ [vi]) in
        pibt_loop (funcPIBT fuel') ai vi aj sorted s0
  end.

(** ** Successor generation *)

(** The "perform PIBT" loop over [S->order]. *)
Fixpoint run_pibt (fuel : nat) (ks : list Agent) (s : Scratch) : option (bool * Scratch) :=
  match ks with
  | [] => Some (true, s)
  | k :: ks' =>
      if bool_decide (v_next s !! k = None) then
        match funcPIBT fuel k None s with
        | None => None
        | Some (false, s') => Some (false, s')
        | Some (true, s') => run_pibt fuel ks' s'
        end
      else run_pibt fuel ks' s
  end.

(** [Planner::get_new_config], lacam/src/planner.cpp:226.  The set-up loop
    and the body of the constraint loop are the same text as in LaCAM2;
    the constraints are visited from [k = 0] on. *)
Definition get_new_config (fuel : nat) (SC : Config) (Sorder : list Agent) (M : Constraint)
    (s : Scratch) : option (bool * Scratch) :=
  let s1 := fold_left (LaCAM2.setup_agent SC) (seq 0 N) s in
  match LaCAM2.add_constraints SC M s1 with
  | (false, s2) => Some (false, s2)
  | (true, s2) => run_pibt fuel Sorder s2
  end.

(** ** The planner *)

Record Planner := mkPlanner {
  nodes : list HNode;
  OPEN : list nat;
  CLOSED : gmap (list nat) nat;
  S_goal : option nat;
  loop_cnt : Z;
  scratch : Scratch
}.

(** [Planner::expand_lowlevel_tree], lacam/src/planner.cpp:207. *)
Definition expand_lowlevel_tree (S : HNode) (M : Constraint) (s : Scratch)
  : list Constraint * Scratch :=
  if bool_decide (N <= depth M)%nat then (search_tree S, s)
  else
    let i := nth (depth M) (order S) 0%nat in
    let C0 := neighbor ins (cfg_at (C S) i) ++ [cfg_at (C S) i] in
    let '(C1, s') :=
      match MT s with
      | Some r =>
          let (C1, r') := std_shuffle r C0 in
          (C1, mkScratch _ (v_now s) (v_next s) (occupied_now s) (occupied_next s)
                         (tie_breakers s) (Some r'))
      | None => (C0, s)
      end in
    (search_tree S ++ map (fun v => Constraint_new M i v) C1, s').

(** [T->neighbor[S->id] = S;] *)
Definition link (x : nat) (H : HNode) : HNode := add_neighbor x H.

(** One relaxation of the inner loop of [rewrite]; [S] and [T] are the
    arguments of [rewrite]. *)
Definition relax (S T : nat) (U : nat) (st : list HNode * list nat) (W : nat)
  : list HNode * list nat :=
  let '(nodes, Q) := st in
  if bool_decide (U = S) && bool_decide (W ≠ T) then st (* skip redundant check *)
  else
    match nodes !! U, nodes !! W with
    | Some nu, Some nw =>
        let c := u32 (g nu + get_edge_cost (C nu) (C nw)) in
        if c <? g nw then (<[W := set_cost c U nw]> nodes, Q ++ [W]) else st
    | _, _ => st
    end.

(** The [while (!Q.empty())] loop of [rewrite]. *)
Fixpoint rewrite_loop (fuel : nat) (S T : nat) (nodes : list HNode) (Q : list nat)
  : option (list HNode) :=
  match Q with
  | [] => Some nodes
  | U :: Q' =>
      match fuel with
      | O => None
      | S fuel' =>
          let nbrs :=
            match nodes !! U with
            | Some nu => set_iter (neighbor_set nu)
            | None => []
            end in
          let '(nodes', Q'') := fold_left (relax S T U) nbrs (nodes, Q') in
          rewrite_loop fuel' S T nodes' Q''
      end
  end.

(** [Planner::rewrite], lacam/src/planner.cpp:144. *)
Definition rewrite (fuel : nat) (S T : nat) (nodes : list HNode) : option (list HNode) :=
  let nodes1 := alter (link T) S nodes in
  let nodes2 := alter (link S) T nodes1 in  (* since the graph is undirected *)
  match nodes2 !! S, nodes2 !! T with
  | Some ns, Some nt =>
      let c := u32 (g ns + get_edge_cost (C ns) (C nt)) in
      if g nt <=? c then Some nodes2  (* no need to update costs *)
      else rewrite_loop fuel S T nodes2 [S]
  | _, _ => None
  end.

(** [S_goal == nullptr || X->f < S_goal->f] *)
Definition may_push (nodes : list HNode) (S_goal : option nat) (x : nat) : bool :=
  match S_goal with
  | None => true
  | Some gl =>
      match nodes !! x, nodes !! gl with
      | Some nx, Some gn => f nx <? f gn
      | _, _ => false
      end
  end.

(** Modelled from the spec: [get_random_float(MT)] (it is not part of
    [planner.cpp]) draws a float in [0, 1) from the generator; the spec
    gives it no value when there is no generator. *)
Definition draw_float (s : Scratch) : option (float * Scratch) :=
  match MT s with
  | Some r =>
      let (x, r') := get_random_float r in
      Some (x, mkScratch _ (v_now s) (v_next s) (occupied_now s) (occupied_next s)
                         (tie_breakers s) (Some r'))
  | None => None
  end.

Inductive Step := Continue (p : Planner) | Break (p : Planner).

(** The id of the initial node [S_init]. *)
Definition S_init : nat := 0%nat.

(** One iteration of the [while] loop of [solve], entered with [S] on top
    of [OPEN]. *)
Definition solve_step (fuel : nat) (p : Planner) (S : nat) (rest : list nat) : option Step :=
  let cnt := loop_cnt p + 1 in
  node ← nodes p !! S;
  (* low-level search end *)
  if bool_decide (search_tree node = []) then
    Some (Continue (mkPlanner (nodes p) rest (CLOSED p) (S_goal p) cnt (scratch p)))
  else
  (* check goal condition *)
  if bool_decide (S_goal p = None) && is_same_config (C node) (goals ins) then
    let p' := mkPlanner (nodes p) (OPEN p) (CLOSED p) (Some S) cnt (scratch p) in
    if bool_decide (objective = OBJ_NONE) then Some (Break p') else Some (Continue p')
  else
  match search_tree node with
  | [] => None
  | M :: tree =>
      (* create successors at the low-level search *)
      let '(tree', s1) := expand_lowlevel_tree (set_search_tree tree node) M (scratch p) in
      let nodes1 := <[S := set_search_tree tree' node]> (nodes p) in
      (* create successors at the high-level search *)
      res ← get_new_config fuel (C node) (order node) M s1;
      let '(ok, s2) := res in
      if negb ok then
        Some (Continue (mkPlanner nodes1 (OPEN p) (CLOSED p) (S_goal p) cnt s2))
      else
        let C_new := read_config N s2 in
        match CLOSED p !! C_new with
        | Some hit =>
            nodes2 ← rewrite fuel S hit nodes1;
            (* re-insert or random-restart *)
            dr ← draw_float s2;
            let '(x, s3) := dr in
            let T := if f_ge x RESTART_RATE then hit else S_init in
            let OPEN2 := if may_push nodes2 (S_goal p) T then T :: OPEN p else OPEN p in
            Some (Continue (mkPlanner nodes2 OPEN2 (CLOSED p) (S_goal p) cnt s3))
        | None =>
            (* insert new search node *)
            let S_new := length nodes1 in
            let nodes2 :=
              Node_new nodes1 C_new (Some S)
                       (u32 (g node + get_edge_cost (C node) C_new))
                       (get_h_value C_new) in
            let OPEN2 :=
              if may_push nodes2 (S_goal p) S_new then S_new :: OPEN p else OPEN p in
            Some (Continue (mkPlanner nodes2 OPEN2 (<[C_new := S_new]> (CLOSED p))
                                      (S_goal p) cnt s2))
        end
  end.

(** The [while (!OPEN.empty() && !is_expired(deadline))] loop; [deadline]
    is the number of times [is_expired] answers no. *)
Fixpoint solve_loop (fuel : nat) (deadline : nat) (p : Planner) : option Planner :=
  match OPEN p with
  | [] => Some p
  | S0 :: rest =>
      match deadline with
      | O => Some p
      | S deadline' =>
          match solve_step fuel p S0 rest with
          | None => None
          | Some (Break p') => Some p'
          | Some (Continue p') => solve_loop fuel deadline' p'
          end
      end
  end.

(** What [solve] hands back: the solution and the values written to
    [additional_info] as [optimal=], [objective=], [loop_cnt=] and
    [num_node_gen=] lines (the two history lines hold clock readings and
    are left out). *)
Record Result := mkResult {
  solution : list Config;
  optimal : bool;
  info_objective : Objective;
  info_loop_cnt : Z;
  num_node_gen : nat
}.

Definition initial_planner (mt : option rng) : Planner :=
  let nodes0 := Node_new [] (starts ins) None 0 (get_h_value (starts ins)) in
  mkPlanner nodes0 [S_init] {[ starts ins := S_init ]} None 0 (scratch_init mt).

Definition report (fuel : nat) (p : Planner) : option Result :=
  sol ←
    match S_goal p with
    | Some gl => (fun l => rev l) <$> backtrack fuel (nodes p) (Some gl)
    | None => Some []
    end;
  Some (mkResult sol
                 (bool_decide (S_goal p ≠ None) && bool_decide (OPEN p = []))
                 objective (loop_cnt p) (size (CLOSED p))).

(** [Planner::solve], lacam/src/planner.cpp:38. *)
Definition solve (fuel : nat) (deadline : nat) (mt : option rng) : option Result :=
  p ← solve_loop fuel deadline (initial_planner mt);
  report fuel p.

End Planner.
End LaCAM.

(** * Generic lemmas *)

Lemma alter_as_insert {A} (fn : A -> A) (l : list A) i x :
  l !! i = Some x -> alter fn i l = <[i := fn x]> l.
Proof.
  intros Hx. apply list_eq. intros j.
  rewrite list_lookup_alter, list_lookup_insert.
  pose proof (lookup_lt_Some _ _ _ Hx).
  destruct (decide (i = j)) as [->|Hne].
  - rewrite Hx. simpl. by rewrite decide_True by lia.
  - by rewrite decide_False by naive_solver.
Qed.

Lemma u32_nonneg x : 0 <= u32 x.
Proof. unfold u32, UINT_MOD. apply Z.mod_pos_bound. lia. Qed.

Lemma u32_lt x : u32 x < UINT_MOD.
Proof. unfold u32, UINT_MOD. apply Z.mod_pos_bound. lia. Qed.

Lemma u32_small x : 0 <= x < UINT_MOD -> u32 x = x.
Proof. intros Hx. unfold u32. by apply Z.mod_small. Qed.

(** Consecutive elements of a list are related. *)
Fixpoint path_ok {A} (R : A -> A -> Prop) (l : list A) : Prop :=
  match l with
  | x :: l' =>
      match l' with
      | y :: _ => R x y /\ path_ok R l'
      | [] => True
      end
  | [] => True
  end.

Lemma path_ok_snoc {A} (R : A -> A -> Prop) l x :
  path_ok R l -> (forall y, last l = Some y -> R y x) -> path_ok R (l ++ [x]).
Proof.
  induction l as [|a l IH]; simpl; [done|].
  destruct l as [|b l]; simpl in *.
  - intros _ Hl. split; [by apply Hl|done].
  - intros [Hab Hp] Hl. split; [done|]. apply IH; [done|]. done.
Qed.

Lemma path_ok_rev {A} (R : A -> A -> Prop) l :
  path_ok R l -> path_ok (fun x y => R y x) (rev l).
Proof.
  induction l as [|a l IH]; simpl; [done|].
  destruct l as [|b l].
  - done.
  - intros [Hab Hp]. apply path_ok_snoc; [by apply IH|].
    intros y Hy. simpl in Hy. rewrite last_snoc in Hy. by injection Hy as <-.
Qed.

Lemma path_ok_lookup {A} (R : A -> A -> Prop) l t x y :
  path_ok R l -> l !! t = Some x -> l !! S t = Some y -> R x y.
Proof.
  revert t. induction l as [|a l IH]; intros t; [done|].
  destruct l as [|b l]; [done|]. intros [Hab Hp].
  destruct t as [|t]; simpl.
  - by intros [= <-] [= <-].
  - intros Hx Hy. by apply (IH t Hp).
Qed.

Section CountLoop.
Variable P : nat -> bool.

(** The loops of [get_edge_cost] count the agents with a property. *)
Lemma count_loop_bounds n :
  Z.of_nat n < UINT_MOD ->
  0 <= for_upto n (fun cost i => if P i then u32 (cost + 1) else cost) 0 <= Z.of_nat n.
Proof.
  induction n as [|n IH]; intros Hn; [done|].
  rewrite for_upto_S. cbv beta. destruct IH as [IH1 IH2]; [lia|].
  destruct (P n); [|lia].
  rewrite u32_small; lia.
Qed.

Lemma count_loop_pos n i :
  Z.of_nat n < UINT_MOD -> (i < n)%nat -> P i = true ->
  1 <= for_upto n (fun cost i => if P i then u32 (cost + 1) else cost) 0.
Proof.
  induction n as [|n IH]; intros Hn Hi HP; [lia|].
  rewrite for_upto_S. cbv beta.
  pose proof (count_loop_bounds n) as [Hb1 Hb2]; [lia|].
  destruct (decide (i = n)) as [->|Hne].
  - rewrite HP. rewrite u32_small; lia.
  - assert (1 <= for_upto n (fun cost i => if P i then u32 (cost + 1) else cost) 0)
      by (apply IH; [lia|lia|done]).
    destruct (P n); [|done]. rewrite u32_small; lia.
Qed.
End CountLoop.

Lemma config_differs n (C1 C2 : list nat) :
  length C1 = n -> length C2 = n -> C1 <> C2 ->
  exists i, (i < n)%nat /\ cfg_at C1 i <> cfg_at C2 i.
Proof.
  intros H1 H2 Hne.
  destruct (decide (Forall (fun i => cfg_at C1 i = cfg_at C2 i) (seq 0 n))) as [Hall|Hex].
  - destruct Hne. apply (nth_ext _ _ 0%nat 0%nat); [congruence|].
    intros i Hi. rewrite Forall_forall in Hall. apply Hall.
    apply list_elem_of_In, in_seq. lia.
  - apply not_Forall_Exists in Hex; [|intros i; apply _].
    apply Exists_exists in Hex as (i & Hi & Hd).
    exists i. split; [|done]. apply list_elem_of_In, in_seq in Hi. lia.
Qed.

(** * Invariants of the scratch tables *)

Section TableInvariants.
Context `{RT : Runtime}.
Variable ins : Instance.
Variable n : nat.

(** Forget the [v_next] slot of one agent (its reservation was taken over
    by somebody else and it has not reserved again yet). *)
Definition unplan (x : Agent) (s : Scratch) : Scratch := set_v_next (delete x) s.

Definition unplan_opt (x : option Agent) (s : Scratch) : Scratch :=
  match x with
  | Some c => unplan c s
  | None => s
  end.

(** What holds of the tables at any time, also after a failed attempt. *)
Record tables_ok (s : Scratch) : Prop := {
  occ_now_sound : forall v a, occupied_now s !! v = Some a -> v_now s !! a = Some v;
  occ_next_sound : forall v a, occupied_next s !! v = Some a -> v_next s !! a = Some v;
  v_now_dom : forall a v, v_now s !! a = Some v -> (a < n)%nat;
  v_next_dom : forall a v, v_next s !! a = Some v -> (a < n)%nat
}.

(** The tables describe the configuration [C] being expanded. *)
Record now_ok (C : Config) (s : Scratch) : Prop := {
  now_agent : forall a, (a < n)%nat -> v_now s !! a = Some (cfg_at C a);
  now_occ : forall a, (a < n)%nat -> occupied_now s !! (cfg_at C a) = Some a
}.

(** The agents planned so far form a valid partial joint move. *)
Record plan_ok (C : Config) (s : Scratch) : Prop := {
  next_reserved : forall a v, v_next s !! a = Some v -> occupied_next s !! v = Some a;
  next_adjacent : forall a v, v_next s !! a = Some v ->
      v = cfg_at C a \/ v ∈ neighbor ins (cfg_at C a);
  next_no_swap : forall a b, (a < n)%nat -> (b < n)%nat -> a <> b ->
      v_next s !! a = Some (cfg_at C b) -> v_next s !! b <> Some (cfg_at C a)
}.

Record Inv (C : Config) (s : Scratch) : Prop := {
  inv_tables : tables_ok s;
  inv_now : now_ok C s;
  inv_plan : plan_ok C s
}.

(** Agents planned in [s] keep their plan in [s']; the others are either
    still unplanned or were made to stay where they are. *)
Definition stay_ext (C : Config) (s s' : Scratch) : Prop :=
  forall a, v_next s' !! a = v_next s !! a
            \/ (v_next s !! a = None /\ v_next s' !! a = Some (cfg_at C a)).

Definition keeps_plans (s s' : Scratch) : Prop :=
  forall a v, v_next s !! a = Some v -> v_next s' !! a = Some v.

Definition same_now (s s' : Scratch) : Prop :=
  v_now s' = v_now s /\ occupied_now s' = occupied_now s.

(** What one call of [funcPIBT] on agent [ai], entered in state [s],
    guarantees of its result. *)
Definition pibt_post (C : Config) (ai : Agent) (s : Scratch) (r : bool * Scratch) : Prop :=
  same_now s r.2 /\
  if r.1 then
    keeps_plans s r.2 /\ is_Some (v_next r.2 !! ai) /\ Inv C r.2
  else
    stay_ext C s r.2 /\
    v_next r.2 !! ai = Some (cfg_at C ai) /\
    occupied_next r.2 !! (cfg_at C ai) = Some ai /\
    Inv C (unplan_opt (occupied_next s !! (cfg_at C ai)) r.2).

End TableInvariants.

Section TableLemmas.
Context `{RT : Runtime}.
Variable ins : Instance.
Variable n : nat.
Variable C : Config.
Hypothesis C_free : vertex_free n C.

Lemma stay_ext_refl s : stay_ext C s s.
Proof. intros a. by left. Qed.

Lemma stay_ext_trans s1 s2 s3 :
  stay_ext C s1 s2 -> stay_ext C s2 s3 -> stay_ext C s1 s3.
Proof.
  intros H12 H23 a. destruct (H12 a) as [E|[E1 E2]], (H23 a) as [E'|[E1' E2']].
  - left. congruence.
  - right. split; congruence.
  - right. split; congruence.
  - congruence.
Qed.

Lemma stay_ext_keeps s s' : stay_ext C s s' -> keeps_plans s s'.
Proof.
  intros H a v Hv. destruct (H a) as [E|[E _]]; congruence.
Qed.

Lemma keeps_plans_refl s : keeps_plans s s.
Proof. by intros a v. Qed.

Lemma keeps_plans_trans s1 s2 s3 :
  keeps_plans s1 s2 -> keeps_plans s2 s3 -> keeps_plans s1 s3.
Proof. intros H12 H23 a v Hv. eauto. Qed.

Lemma same_now_refl s : same_now s s.
Proof. by split. Qed.

Lemma same_now_trans s1 s2 s3 : same_now s1 s2 -> same_now s2 s3 -> same_now s1 s3.
Proof. intros [? ?] [? ?]. split; congruence. Qed.

(** An occupant is the agent standing there. *)
Lemma occupant_at s v a :
  Inv ins n C s -> occupied_now s !! v = Some a -> (a < n)%nat /\ v = cfg_at C a.
Proof.
  intros [Ht Hn _] Hocc.
  pose proof (occ_now_sound _ _ Ht _ _ Hocc) as Hv.
  pose proof (v_now_dom _ _ Ht _ _ Hv) as Ha.
  split; [done|]. rewrite (now_agent _ _ _ Hn _ Ha) in Hv. congruence.
Qed.

Lemma same_place a b :
  (a < n)%nat -> (b < n)%nat -> cfg_at C a = cfg_at C b -> a = b.
Proof.
  intros Ha Hb E. destruct (decide (a = b)) as [|Hne]; [done|].
  by destruct (C_free a b Ha Hb Hne).
Qed.

(** Planned agents head for pairwise distinct vertices. *)
Lemma plan_injective s a b v :
  Inv ins n C s -> v_next s !! a = Some v -> v_next s !! b = Some v -> a = b.
Proof.
  intros [_ _ Hp] Ha Hb.
  pose proof (next_reserved _ _ _ _ Hp _ _ Ha).
  pose proof (next_reserved _ _ _ _ Hp _ _ Hb). congruence.
Qed.

End TableLemmas.

(** ** Reserving a vertex *)

Section ReserveLemmas.
Context `{RT : Runtime}.
Variable ins : Instance.
Variable n : nat.
Variable C : Config.
Hypothesis C_free : vertex_free n C.

Lemma unplan_absent x s : v_next s !! x = None -> unplan x s = s.
Proof.
  intros Hx. destruct s as [vn vx on ox tb mt]. unfold unplan, set_v_next. simpl in *.
  by rewrite delete_id.
Qed.

Lemma reserve_unplan a u s : reserve a u (unplan a s) = reserve a u s.
Proof.
  unfold reserve, unplan, set_v_next, set_occupied_next. simpl.
  by rewrite insert_delete_eq.
Qed.

(** An agent whose slot is free or stale reserves a free vertex next to
    it, whose occupant is not heading for the agent's own vertex. *)
Lemma reserve_inv ai u s :
  Inv ins n C (unplan ai s) ->
  (ai < n)%nat ->
  occupied_next s !! u = None ->
  (u = cfg_at C ai \/ u ∈ neighbor ins (cfg_at C ai)) ->
  (forall b, b <> ai -> occupied_now s !! u = Some b ->
             v_next s !! b <> Some (cfg_at C ai)) ->
  Inv ins n C (reserve ai u s).
Proof.
  intros [[T1 T2 T3 T4] [N1 N2] [P1 P2 P3]] Hai Hfree Hadj Hswap.
  simpl in *.
  split; split; simpl.
  - exact T1.
  - intros v a. rewrite lookup_insert_Some. intros [[<- <-]|[Hne Hv]].
    + by rewrite lookup_insert_eq.
    + pose proof (T2 _ _ Hv) as Hd. apply lookup_delete_Some in Hd as [Hna Hv'].
      by rewrite lookup_insert_ne.
  - exact T3.
  - intros a v. rewrite lookup_insert_Some. intros [[<- <-]|[Hne Hv]]; [done|].
    apply (T4 a v). by rewrite lookup_delete_ne.
  - exact N1.
  - exact N2.
  - intros a v. rewrite lookup_insert_Some. intros [[<- <-]|[Hne Hv]].
    + by rewrite lookup_insert_eq.
    + assert (occupied_next s !! v = Some a) as Hocc.
      { apply P1. by rewrite lookup_delete_ne. }
      rewrite lookup_insert_ne; [done|]. intros ->. congruence.
  - intros a v. rewrite lookup_insert_Some. intros [[<- <-]|[Hne Hv]]; [done|].
    apply P2. by rewrite lookup_delete_ne.
  - intros a b Ha Hb Hab. rewrite !lookup_insert_Some.
    intros [[<- Hu]|[Hne Hv]] [[Eb Hu']|[Hne' Hv']]; try congruence.
    + subst u. apply (Hswap b); [congruence| |done]. by apply N2.
    + subst. apply (Hswap a); [congruence| |done]. by apply N2.
    + apply (P3 a b Ha Hb Hab); by rewrite lookup_delete_ne.
Qed.

(** The last resort of [funcPIBT]: the agent takes its own vertex, also
    when some [c] had reserved it; [c] is then left with a stale slot. *)
Lemma stay_inv ai s :
  Inv ins n C (unplan ai s) ->
  (ai < n)%nat ->
  Inv ins n C (unplan_opt (occupied_next s !! cfg_at C ai) (reserve ai (cfg_at C ai) s)).
Proof.
  intros HI Hai.
  destruct (occupied_next s !! cfg_at C ai) as [c|] eqn:Hc; simpl.
  - destruct HI as [[T1 T2 T3 T4] [N1 N2] [P1 P2 P3]]. simpl in *.
    assert (c <> ai /\ v_next s !! c = Some (cfg_at C ai)) as [Hcai Hcv].
    { pose proof (T2 _ _ Hc) as Hd. apply lookup_delete_Some in Hd as [? ?]. done. }
    split; split; simpl.
    + exact T1.
    + intros v a. rewrite lookup_insert_Some. intros [[<- <-]|[Hne Hv]].
      * rewrite lookup_delete_ne by done. by rewrite lookup_insert_eq.
      * pose proof (T2 _ _ Hv) as Hd. apply lookup_delete_Some in Hd as [Hna Hv'].
        rewrite lookup_delete_ne by congruence. by rewrite lookup_insert_ne.
    + exact T3.
    + intros a v. rewrite lookup_delete_Some, lookup_insert_Some.
      intros [_ [[<- <-]|[Hne Hv]]]; [done|].
      apply (T4 a v). by rewrite lookup_delete_ne.
    + exact N1.
    + exact N2.
    + intros a v. rewrite lookup_delete_Some, lookup_insert_Some.
      intros [Hac [[<- <-]|[Hne Hv]]].
      * by rewrite lookup_insert_eq.
      * assert (occupied_next s !! v = Some a) as Hocc.
        { apply P1. by rewrite lookup_delete_ne. }
        rewrite lookup_insert_ne; [done|]. intros <-. congruence.
    + intros a v. rewrite lookup_delete_Some, lookup_insert_Some.
      intros [_ [[<- <-]|[Hne Hv]]]; [by left|].
      apply P2. by rewrite lookup_delete_ne.
    + intros a b Ha Hb Hab. rewrite !lookup_delete_Some, !lookup_insert_Some.
      intros [_ [[<- Hu]|[Hne Hv]]] [_ [[Eb Hu']|[Hne' Hv']]]; try congruence.
      * apply Hab. apply (same_place n C C_free); congruence.
      * subst. apply Hab. apply (same_place n C C_free); congruence.
      * apply (P3 a b Ha Hb Hab); by rewrite lookup_delete_ne.
  - apply reserve_inv; try done.
    + by left.
    + intros b Hb Hocc Hv.
      pose proof (now_occ _ _ _ (inv_now _ _ _ _ HI) _ Hai) as Hme.
      simpl in Hme. congruence.
Qed.

End ReserveLemmas.

(** * LaCAM2: one call of PIBT *)

Section PIBT2.
Context `{RT : Runtime}.
Variable ins : Instance.
Variable D : DistTable.
Variable FLG_SWAP : bool.
Variable n : nat.
Variable C : Config.
Hypothesis C_free : vertex_free n C.
Hypothesis G_sym :
  FLG_SWAP = true -> forall u v, u ∈ neighbor ins v -> v ∈ neighbor ins u.

Lemma set_tie_breakers_tables us s :
  v_now (set_tie_breakers us s) = v_now s /\
  v_next (set_tie_breakers us s) = v_next s /\
  occupied_now (set_tie_breakers us s) = occupied_now s /\
  occupied_next (set_tie_breakers us s) = occupied_next s.
Proof.
  revert s. induction us as [|u us IH]; intros s; simpl; [done|].
  destruct (MT s) as [r|]; [|apply IH].
  destruct (get_random_float r) as [x r'].
  destruct (IH (mkScratch _ (v_now s) (v_next s) (occupied_now s) (occupied_next s)
                          (<[u:=x]> (tie_breakers s)) (Some r'))) as (?&?&?&?).
  done.
Qed.

(** The invariants read the four tables only. *)
Lemma Inv_tables s s' :
  v_now s' = v_now s -> v_next s' = v_next s ->
  occupied_now s' = occupied_now s -> occupied_next s' = occupied_next s ->
  Inv ins n C s -> Inv ins n C s'.
Proof.
  intros E1 E2 E3 E4 [[T1 T2 T3 T4] [N1 N2] [P1 P2 P3]].
  split; split; rewrite ?E1, ?E2, ?E3, ?E4; assumption.
Qed.

Lemma swap_clear_case_occupant fuel s ai vi c0 us sa :
  LaCAM2.swap_clear_case ins D fuel s ai vi c0 us = Some (Some sa) ->
  exists w, w ∈ us /\ occupied_now s !! w = Some sa.
Proof.
  induction us as [|u us IH]; simpl; [done|].
  destruct (occupied_now s !! u) as [ak|] eqn:Hocc.
  - destruct (v_now s !! ak) as [ak_now|]; simpl; [|done].
    case_bool_decide.
    + intros Hr. destruct (IH Hr) as (w & Hw & Ho). exists w. split; [by right|done].
    + destruct (LaCAM2.and_then _ _) as [[|]|]; simpl; try done.
      * intros [= <-]. exists u. split; [by left|done].
      * intros Hr. destruct (IH Hr) as (w & Hw & Ho). exists w. split; [by right|done].
  - intros Hr. destruct (IH Hr) as (w & Hw & Ho). exists w. split; [by right|done].
Qed.

(** The agent returned by [swap_possible_and_required] stands on a
    neighbour of [ai->v_now]. *)
Lemma swap_agent_adjacent fuel s ai vi cands sa :
  (forall u, u ∈ cands -> u = vi \/ u ∈ neighbor ins vi) ->
  LaCAM2.swap_possible_and_required ins D fuel s ai vi cands = Some (Some sa) ->
  exists w, w ∈ neighbor ins vi /\ occupied_now s !! w = Some sa.
Proof.
  intros Hc. unfold LaCAM2.swap_possible_and_required.
  destruct cands as [|c0 cands]; simpl; [done|].
  case_bool_decide as Hc0; [done|].
  assert (c0 ∈ neighbor ins vi) as Hadj.
  { destruct (Hc c0) as [?|?]; [by left|done|done]. }
  destruct (occupied_now s !! c0) as [aj|] eqn:Hocc; simpl.
  - destruct (v_next s !! aj); simpl.
    + apply swap_clear_case_occupant.
    + destruct (v_now s !! aj) as [aj_now|]; simpl; [|done].
      destruct (LaCAM2.and_then _ _) as [[|]|]; simpl; try done.
      * intros [= <-]. by exists c0.
      * apply swap_clear_case_occupant.
  - apply swap_clear_case_occupant.
Qed.

(** The pull keeps the plan valid, provided the vertex the puller [ai]
    reserved is not the one the pulled agent stands on. *)
Lemma pull_swap_agent_inv k swap_agent ai s :
  Inv ins n C s ->
  (ai < n)%nat ->
  (forall sa, swap_agent = Some sa ->
     exists w, w ∈ neighbor ins (cfg_at C ai) /\ occupied_now s !! w = Some sa) ->
  (forall u b, v_next s !! ai = Some u -> occupied_now s !! u = Some b ->
     b = ai \/ is_Some (v_next s !! b)) ->
  is_Some (v_next s !! ai) ->
  Inv ins n C (LaCAM2.pull_swap_agent FLG_SWAP k swap_agent (cfg_at C ai) s).
Proof.
  intros HI Hai Hsa Hocc [u0 Hu0]. unfold LaCAM2.pull_swap_agent.
  destruct FLG_SWAP eqn:Hflag; [|done].
  destruct swap_agent as [sa|]; [|done].
  destruct (bool_decide (k = 0%nat)); simpl; [|done].
  case_bool_decide as Hfree; simpl; [|done].
  case_bool_decide as Hvi; simpl; [|done].
  destruct (Hsa sa eq_refl) as (w & Hw & Hwo).
  destruct (occupant_at ins n C s w sa HI Hwo) as [Hsan HwC].
  change (Inv ins n C (reserve sa (cfg_at C ai) s)).
  apply reserve_inv; try done.
  - by rewrite unplan_absent.
  - right. rewrite <- HwC. apply G_sym; done.
  - intros b Hb Hbo. rewrite <- HwC.
    destruct (occupant_at ins n C s _ b HI Hbo) as [Hbn Hbc].
    apply (same_place n C C_free) in Hbc; [|done|done]. subst b.
    rewrite Hu0. intros [= ->].
    destruct (Hocc w sa Hu0 Hwo) as [->|[x Hx]]; congruence.
Qed.

Lemma pull_swap_agent_frame k swap_agent vi s :
  same_now s (LaCAM2.pull_swap_agent FLG_SWAP k swap_agent vi s) /\
  keeps_plans s (LaCAM2.pull_swap_agent FLG_SWAP k swap_agent vi s).
Proof.
  unfold LaCAM2.pull_swap_agent.
  destruct FLG_SWAP; [|split; [apply same_now_refl|apply keeps_plans_refl]].
  destruct swap_agent as [sa|]; [|split; [apply same_now_refl|apply keeps_plans_refl]].
  destruct (bool_decide (k = 0%nat)); simpl;
    [|split; [apply same_now_refl|apply keeps_plans_refl]].
  case_bool_decide as Hfree; simpl; [|split; [apply same_now_refl|apply keeps_plans_refl]].
  case_bool_decide as Hvi; simpl; [|split; [apply same_now_refl|apply keeps_plans_refl]].
  split; [done|]. intros a v Hv. simpl. rewrite lookup_insert_ne; [done|]. congruence.
Qed.

Lemma pibt_post_tables ai s s' r :
  v_now s' = v_now s -> v_next s' = v_next s ->
  occupied_now s' = occupied_now s -> occupied_next s' = occupied_next s ->
  pibt_post ins n C ai s r -> pibt_post ins n C ai s' r.
Proof.
  intros E1 E2 E3 E4.
  unfold pibt_post, same_now, keeps_plans, stay_ext. by rewrite E1, E2, E3, E4.
Qed.

(** While [ai] waits for a callee, nobody takes over the reservation of
    [ai]'s own vertex. *)
Lemma holder_stable ai u s1 s2 :
  Inv ins n C s1 -> Inv ins n C (unplan ai s2) -> stay_ext C s1 s2 ->
  (ai < n)%nat -> v_next s1 !! ai = Some u -> u <> cfg_at C ai ->
  occupied_next s2 !! cfg_at C ai = occupied_next s1 !! cfg_at C ai.
Proof.
  intros H1 H2 Hst Hai Hu Hne.
  destruct (occupied_next s1 !! cfg_at C ai) as [c|] eqn:Hc.
  - pose proof (occ_next_sound _ _ (inv_tables _ _ _ _ H1) _ _ Hc) as Hcv.
    assert (c <> ai) as Hcai by congruence.
    apply (stay_ext_keeps C) in Hst. apply Hst in Hcv.
    apply (next_reserved _ _ _ _ (inv_plan _ _ _ _ H2)). simpl.
    by rewrite lookup_delete_ne.
  - destruct (occupied_next s2 !! cfg_at C ai) as [c'|] eqn:Hc'; [exfalso|done].
    pose proof (occ_next_sound _ _ (inv_tables _ _ _ _ H2) _ _ Hc') as Hd.
    pose proof (v_next_dom _ _ (inv_tables _ _ _ _ H2) _ _ Hd) as Hcn.
    simpl in Hd. apply lookup_delete_Some in Hd as [Hcai Hcv].
    destruct (Hst c') as [E|[_ E]].
    + rewrite Hcv in E. symmetry in E.
      pose proof (next_reserved _ _ _ _ (inv_plan _ _ _ _ H1) _ _ E). congruence.
    + rewrite Hcv in E. injection E as E.
      apply Hcai. apply (same_place n C C_free); done.
Qed.

Section Loop.
Variable rec : nat -> Scratch -> option (bool * Scratch).
Variable ai : nat.
Variable swap_agent : option nat.
Hypothesis ai_lt : (ai < n)%nat.
Hypothesis rec_post : forall a s r,
  rec a s = Some r -> Inv ins n C s -> (a < n)%nat -> v_next s !! a = None ->
  pibt_post ins n C a s r.

Lemma pibt_loop_post cands : forall k s r,
  (forall u, u ∈ cands -> u = cfg_at C ai \/ u ∈ neighbor ins (cfg_at C ai)) ->
  (forall sa, swap_agent = Some sa ->
     exists w, w ∈ neighbor ins (cfg_at C ai) /\ occupied_now s !! w = Some sa) ->
  Inv ins n C (unplan ai s) ->
  LaCAM2.pibt_loop FLG_SWAP rec ai (cfg_at C ai) swap_agent k cands s = Some r ->
  pibt_post ins n C ai (unplan ai s) r.
Proof.
  induction cands as [|u rest IH]; intros k s r Hc Hsa HI; simpl.
  - intros [= <-]. split; [done|]. simpl. split; [|split; [|split]].
    + intros a. simpl. destruct (decide (a = ai)) as [->|Hne].
      * right. by rewrite lookup_delete_eq, lookup_insert_eq.
      * left. by rewrite lookup_insert_ne, lookup_delete_ne.
    + by rewrite lookup_insert_eq.
    + by rewrite lookup_insert_eq.
    + by apply (stay_inv ins n C C_free ai s).
  - assert (forall u', u' ∈ rest ->
              u' = cfg_at C ai \/ u' ∈ neighbor ins (cfg_at C ai)) as Hrest.
    { intros u' Hu'. apply Hc. by right. }
    case_bool_decide as Hfree; [by apply IH|].
    assert (occupied_next s !! u = None) as Hfree'.
    { destruct (occupied_next s !! u); [by destruct Hfree|done]. }
    clear Hfree.
    destruct (match occupied_now s !! u with
              | Some a => bool_decide (v_next s !! a = Some (cfg_at C ai))
              | None => false
              end) eqn:Hhead; [by apply IH|].
    assert (Inv ins n C (reserve ai u s)) as HI1.
    { apply reserve_inv; try done.
      - apply Hc. by left.
      - intros b _ Hb. rewrite Hb in Hhead. by apply bool_decide_eq_false in Hhead. }
    assert (v_next (reserve ai u s) !! ai = Some u) as Hmine.
    { simpl. by rewrite lookup_insert_eq. }
    assert (keeps_plans (unplan ai s) (reserve ai u s)) as Hk1.
    { intros a v. simpl. rewrite lookup_delete_Some. intros [Hne Hv].
      by rewrite lookup_insert_ne. }
    assert (forall s', same_now (reserve ai u s) s' -> keeps_plans (reserve ai u s) s' ->
              Inv ins n C s' ->
              (forall b, occupied_now s !! u = Some b -> b = ai \/ is_Some (v_next s' !! b)) ->
              pibt_post ins n C ai (unplan ai s)
                (true, LaCAM2.pull_swap_agent FLG_SWAP k swap_agent (cfg_at C ai) s'))
      as Hsuccess.
    { intros s' Hsn Hkp HI' Hocc.
      destruct (pull_swap_agent_frame k swap_agent (cfg_at C ai) s') as [Hpn Hpk].
      split; [|simpl; split; [|split]].
      - simpl. eapply same_now_trans; [|exact Hpn].
        eapply same_now_trans; [|exact Hsn]. done.
      - eapply keeps_plans_trans; [|exact Hpk].
        eapply keeps_plans_trans; [exact Hk1|exact Hkp].
      - exists u. apply Hpk, Hkp, Hmine.
      - apply pull_swap_agent_inv; try done.
        + intros sa Hs. destruct (Hsa sa Hs) as (w & Hw & Hwo). exists w.
          split; [done|]. destruct Hsn as [_ Hon]. rewrite Hon. done.
        + intros u' b Hu' Hb. rewrite (Hkp _ _ Hmine) in Hu'. injection Hu' as <-.
          apply Hocc. destruct Hsn as [_ Hon]. rewrite Hon in Hb. done.
        + exists u. apply Hkp, Hmine. }
    destruct (occupied_now s !! u) as [a|] eqn:Hocc.
    + destruct (bool_decide (a ≠ ai) && bool_decide (<[ai:=u]> (v_next s) !! a = None))
        eqn:Hinh.
      * apply andb_true_iff in Hinh as [Hane Hanone].
        apply bool_decide_eq_true in Hane. apply bool_decide_eq_true in Hanone.
        change (v_next (reserve ai u s) !! a = None) in Hanone.
        destruct (occupant_at ins n C _ u a HI1 Hocc) as [Han HuC].
        destruct (rec a (reserve ai u s)) as [[[|] s2]|] eqn:Hrec; [| |done].
        -- intros [= <-].
           destruct (rec_post _ _ _ Hrec HI1 Han Hanone) as [Hsn [Hkp [Hsome HI2]]].
           simpl in *. apply Hsuccess; try done.
           intros b [= <-]. by right.
        -- destruct (rec_post _ _ _ Hrec HI1 Han Hanone) as [Hsn [Hst [Hav [Hao HI2]]]].
           simpl in Hsn, Hst, Hav, Hao, HI2.
           rewrite <- HuC in HI2. rewrite lookup_insert_eq in HI2. simpl in HI2.
           intros Hloop.
           assert (u <> cfg_at C ai) as Hune.
           { rewrite HuC. intros E. apply Hane. by apply (same_place n C C_free). }
           apply IH in Hloop; [|done| |done].
           2:{ intros sa Hs. destruct (Hsa sa Hs) as (w & Hw & Hwo). exists w.
               split; [done|]. destruct Hsn as [_ Hon]. simpl in Hon. by rewrite Hon. }
           destruct Hloop as [Hsn' Hpost]. split.
           { eapply same_now_trans; [|exact Hsn']. simpl.
             destruct Hsn as [E1 E2]. split; simpl in *; congruence. }
           assert (stay_ext C (unplan ai s) (unplan ai s2)) as Hst'.
           { intros x. simpl. destruct (decide (x = ai)) as [->|Hx].
             - left. by rewrite !lookup_delete_eq.
             - rewrite !lookup_delete_ne by done.
               destruct (Hst x) as [E|E]; simpl in E;
                 rewrite lookup_insert_ne in E by done; [by left|by right]. }
           destruct r as [[|] s3]; simpl in *.
           ++ destruct Hpost as (Hk & Hs3 & HI3). split; [|by split].
              eapply keeps_plans_trans; [|exact Hk]. by apply (stay_ext_keeps C).
           ++ destruct Hpost as (Hst3 & Hv3 & Ho3 & HI3).
              split; [|split; [done|split; [done|]]].
              ** eapply stay_ext_trans; [exact Hst'|exact Hst3].
              ** rewrite (holder_stable ai u (reserve ai u s) s2) in HI3; try done.
                 simpl in HI3. rewrite lookup_insert_ne in HI3; done.
      * intros [= <-]. apply Hsuccess; try done; [apply keeps_plans_refl|].
        intros b [= <-]. apply andb_false_iff in Hinh as [Hf|Hf].
        -- left. apply bool_decide_eq_false in Hf. by destruct (decide (a = ai)).
        -- right. apply bool_decide_eq_false in Hf.
           change (v_next (reserve ai u s) !! a <> None) in Hf.
           destruct (v_next (reserve ai u s) !! a); [by eexists|done].
    + intros [= <-]. apply Hsuccess; try done; apply keeps_plans_refl.
Qed.

End Loop.

(** [funcPIBT] on an unplanned agent, in a valid partial plan. *)
Theorem funcPIBT_post fuel : forall ai s r,
  LaCAM2.funcPIBT ins D FLG_SWAP fuel ai s = Some r ->
  Inv ins n C s -> (ai < n)%nat -> v_next s !! ai = None ->
  pibt_post ins n C ai s r.
Proof.
  induction fuel as [|fuel IH]; intros ai s r; simpl; [done|].
  intros Hrun HI Hai Hnone.
  rewrite (now_agent _ _ _ (inv_now _ _ _ _ HI) _ Hai) in Hrun. simpl in Hrun.
  set (vi := cfg_at C ai) in *.
  set (s0 := set_tie_breakers (neighbor ins vi) s) in *.
  destruct (set_tie_breakers_tables (neighbor ins vi) s) as (E1 & E2 & E3 & E4).
  fold s0 in E1, E2, E3, E4.
  set (sorted := std_sort (cand_lt D ai s0) (neighbor ins vi ++ [vi])) in *.
  assert (forall u, u ∈ sorted -> u = vi \/ u ∈ neighbor ins vi) as Hsorted.
  { intros u Hu. unfold sorted in Hu.
    rewrite <- (std_sort_perm (cand_lt D ai s0) (neighbor ins vi ++ [vi])) in Hu.
    apply elem_of_app in Hu as [Hu|Hu]; [by right|].
    apply list_elem_of_singleton in Hu. by left. }
  assert (Inv ins n C (unplan ai s0)) as HI0.
  { rewrite unplan_absent by (by rewrite E2). by apply (Inv_tables s). }
  assert (pibt_post ins n C ai (unplan ai s0) r -> pibt_post ins n C ai s r) as Hback.
  { rewrite unplan_absent by (by rewrite E2). apply pibt_post_tables; congruence. }
  apply Hback. clear Hback.
  match type of Hrun with
  | context [mbind _ ?p] => destruct p as [plan|] eqn:Hplan; simpl in Hrun; [|done]
  end.
  assert ((forall u, u ∈ plan.2 -> u = vi \/ u ∈ neighbor ins vi) /\
          (forall sa, plan.1 = Some sa ->
             exists w, w ∈ neighbor ins vi /\ occupied_now s0 !! w = Some sa))
    as [Hcands Hsa].
  { clear Hrun IH G_sym. destruct FLG_SWAP.
    - destruct (LaCAM2.swap_possible_and_required ins D fuel s0 ai vi sorted)
        as [swap_agent|] eqn:Hswap; simpl in Hplan; [|done].
      injection Hplan as <-. simpl. split.
      + intros u Hu. apply Hsorted. destruct swap_agent; [|done].
        apply list_elem_of_In, in_rev. by apply list_elem_of_In.
      + intros sa ->. by apply (swap_agent_adjacent fuel s0 ai vi sorted).
    - injection Hplan as <-. simpl. split; [done|]. by intros sa. }
  by apply (pibt_loop_post (LaCAM2.funcPIBT ins D FLG_SWAP fuel) ai plan.1 Hai IH)
    in Hrun.
Qed.

End PIBT2.

(** * LaCAM2: successor generation *)

Section NewConfig2.
Context `{RT : Runtime}.
Variable ins : Instance.
Variable D : DistTable.
Variable FLG_SWAP : bool.
Variable C : Config.

Let n := ins_N ins.

Hypothesis C_free : vertex_free n C.
Hypothesis G_sym :
  FLG_SWAP = true -> forall u v, u ∈ neighbor ins v -> v ∈ neighbor ins u.

(** The constraints of a low-level node of the node holding [C]: distinct
    agents, each sent to its vertex or next to it. *)
Definition lnode_ok (L : LaCAM2.LNode) : Prop :=
  NoDup (map fst L) /\
  forall i l, (i, l) ∈ L ->
    (i < n)%nat /\ (l = cfg_at C i \/ l ∈ neighbor ins (cfg_at C i)).

(** *** The set-up loop *)

Lemma setup_agent_v_now s k :
  v_now (LaCAM2.setup_agent C s k) = <[k := cfg_at C k]> (v_now s).
Proof.
  unfold LaCAM2.setup_agent.
  destruct (v_now s !! k) as [v|]; [case_bool_decide|]; simpl;
    match goal with |- context [match ?x with _ => _ end] => destruct x end; done.
Qed.

Lemma setup_agent_v_next s k :
  v_next (LaCAM2.setup_agent C s k) = delete k (v_next s).
Proof.
  unfold LaCAM2.setup_agent.
  destruct (v_now s !! k) as [v|]; [case_bool_decide|]; simpl;
    destruct (v_next s !! k) eqn:E; simpl; try done; by rewrite delete_id.
Qed.

Lemma setup_agent_occupied_next s k w a :
  occupied_next (LaCAM2.setup_agent C s k) !! w = Some a ->
  occupied_next s !! w = Some a /\ v_next s !! k <> Some w.
Proof.
  unfold LaCAM2.setup_agent.
  destruct (v_now s !! k) as [v|]; [case_bool_decide|]; simpl;
    destruct (v_next s !! k) as [v'|] eqn:E; simpl; try done;
    rewrite lookup_delete_Some; intros [Hne Hw]; (split; [done|congruence]).
Qed.

Lemma setup_agent_occupied_now_eq s k :
  occupied_now (LaCAM2.setup_agent C s k) !! cfg_at C k = Some k.
Proof.
  unfold LaCAM2.setup_agent.
  destruct (v_now s !! k) as [v|]; [case_bool_decide|]; simpl;
    destruct (v_next s !! k) eqn:E; simpl; by rewrite lookup_insert_eq.
Qed.

Lemma setup_agent_occupied_now_old s k w a :
  w <> cfg_at C k ->
  occupied_now (LaCAM2.setup_agent C s k) !! w = Some a ->
  occupied_now s !! w = Some a /\ ~ (a = k /\ v_now s !! k = Some w).
Proof.
  intros Hw. unfold LaCAM2.setup_agent.
  destruct (v_now s !! k) as [v|] eqn:Ev; [case_bool_decide as Hd|]; simpl;
    destruct (v_next s !! k) eqn:E; simpl;
    rewrite lookup_insert_ne by done; rewrite ?lookup_delete_Some;
    naive_solver.
Qed.

Lemma setup_agent_occupied_now_keep s k w a :
  w <> cfg_at C k -> a <> k ->
  occupied_now s !! w = Some a ->
  occupied_now (LaCAM2.setup_agent C s k) !! w = Some a.
Proof.
  intros Hw Ha Ho. unfold LaCAM2.setup_agent.
  destruct (v_now s !! k) as [v|] eqn:Ev; [case_bool_decide as Hd|]; simpl;
    destruct (v_next s !! k) eqn:E; simpl;
    rewrite lookup_insert_ne by done; try done;
    rewrite lookup_delete_ne; [done|congruence|done|congruence].
Qed.

(** After the first [k] agents were set up. *)
Record setup_upto (k : nat) (s : Scratch) : Prop := {
  su_tables : tables_ok n s;
  su_now : forall a, (a < k)%nat ->
    v_now s !! a = Some (cfg_at C a) /\ occupied_now s !! cfg_at C a = Some a;
  su_next : forall a, (a < k)%nat -> v_next s !! a = None
}.

Lemma setup_agent_step k s :
  (k < n)%nat -> setup_upto k s -> setup_upto (S k) (LaCAM2.setup_agent C s k).
Proof.
  intros Hk [[T1 T2 T3 T4] Hnow Hnext]. split; [split|..].
  - intros w a Ho. rewrite setup_agent_v_now.
    destruct (decide (w = cfg_at C k)) as [->|Hw].
    + rewrite setup_agent_occupied_now_eq in Ho. injection Ho as <-.
      by rewrite lookup_insert_eq.
    + apply setup_agent_occupied_now_old in Ho as [Ho Hnot]; [|done].
      pose proof (T1 _ _ Ho) as Hv.
      rewrite lookup_insert_ne; [done|]. intros <-. by apply Hnot.
  - intros w a Ho. rewrite setup_agent_v_next.
    apply setup_agent_occupied_next in Ho as [Ho Hnot].
    pose proof (T2 _ _ Ho) as Hv.
    rewrite lookup_delete_ne; [done|]. intros <-. by apply Hnot.
  - intros a v. rewrite setup_agent_v_now, lookup_insert_Some.
    intros [[<- _]|[_ Hv]]; [done|by eapply T3].
  - intros a v. rewrite setup_agent_v_next, lookup_delete_Some.
    intros [_ Hv]. by eapply T4.
  - intros a Ha. rewrite setup_agent_v_now.
    destruct (decide (a = k)) as [->|Hne].
    + split; [by rewrite lookup_insert_eq|apply setup_agent_occupied_now_eq].
    + destruct (Hnow a) as [Hv Ho]; [lia|].
      split; [by rewrite lookup_insert_ne|].
      apply setup_agent_occupied_now_keep; [|done|done].
      apply C_free; [lia|done|done].
  - intros a Ha. rewrite setup_agent_v_next.
    destruct (decide (a = k)) as [->|Hne].
    + by rewrite lookup_delete_eq.
    + rewrite lookup_delete_ne by done. apply Hnext. lia.
Qed.

Lemma setup_loop k s :
  (k <= n)%nat -> tables_ok n s ->
  setup_upto k (fold_left (LaCAM2.setup_agent C) (seq 0 k) s).
Proof.
  intros Hk Ht. induction k as [|k IH].
  - simpl. split; [done|intros; lia|intros; lia].
  - rewrite seq_S, fold_left_app. simpl. apply setup_agent_step; [lia|].
    apply IH. lia.
Qed.

Lemma setup_inv s :
  tables_ok n s ->
  Inv ins n C (fold_left (LaCAM2.setup_agent C) (seq 0 n) s) /\
  forall a, v_next (fold_left (LaCAM2.setup_agent C) (seq 0 n) s) !! a = None.
Proof.
  intros Ht. destruct (setup_loop n s (le_n _) Ht) as [Ht' Hnow Hnext].
  set (s' := fold_left _ _ s) in *.
  assert (forall a, v_next s' !! a = None) as Hall.
  { intros a. destruct (v_next s' !! a) as [v|] eqn:E; [|done].
    rewrite Hnext in E; [done|]. by eapply (v_next_dom _ _ Ht'). }
  split; [|done]. split; [done|split; intros a Ha; by apply Hnow|].
  split.
  - intros a v Hv. by rewrite Hall in Hv.
  - intros a v Hv. by rewrite Hall in Hv.
  - intros a b _ _ _ Hv. by rewrite Hall in Hv.
Qed.

(** *** The constraints *)

Lemma add_constraints_inv L : forall s,
  Inv ins n C s -> lnode_ok L ->
  (forall i l, (i, l) ∈ L -> v_next s !! i = None) ->
  let r := LaCAM2.add_constraints C L s in
  Inv ins n C r.2 /\ same_now s r.2 /\ keeps_plans s r.2.
Proof.
  induction L as [|[i l] L IH]; intros s HI [Hnd Hok] Hnone; simpl.
  - split; [done|]. split; [apply same_now_refl|apply keeps_plans_refl].
  - case_bool_decide as Hfree.
    { split; [done|]. split; [apply same_now_refl|apply keeps_plans_refl]. }
    assert (occupied_next s !! l = None) as Hfree'.
    { destruct (occupied_next s !! l); [by destruct Hfree|done]. }
    destruct (match occupied_next s !! cfg_at C i, occupied_now s !! l with
              | Some x, Some y => bool_decide (x = y)
              | _, _ => false
              end) eqn:Hswap.
    { split; [done|]. split; [apply same_now_refl|apply keeps_plans_refl]. }
    destruct (Hok i l) as [Hi Hadj]; [by left|].
    assert (v_next s !! i = None) as Hnone_i by (apply (Hnone i l); by left).
    assert (Inv ins n C (reserve i l s)) as HI1.
    { apply reserve_inv; try done.
      - by rewrite unplan_absent.
      - intros b Hb Ho Hv.
        pose proof (next_reserved _ _ _ _ (inv_plan _ _ _ _ HI) _ _ Hv) as Hr.
        rewrite Hr, Ho in Hswap. by rewrite bool_decide_eq_true_2 in Hswap. }
    destruct (IH (reserve i l s)) as (HI2 & Hsn & Hkp); [done| |..].
    + split; [by inversion Hnd|]. intros i' l' Hin. apply Hok. by right.
    + intros i' l' Hin. simpl. rewrite lookup_insert_ne; [apply (Hnone i' l'); by right|].
      intros ->. inversion Hnd as [|? ? Hni _]; subst. apply Hni.
      apply list_elem_of_In. apply (list_elem_of_fmap_2 fst) in Hin. done.
    + split; [done|]. split; [done|].
      intros a v Hv. apply Hkp. simpl. rewrite lookup_insert_ne; [done|congruence].
Qed.

(** *** The PIBT loop over [order] *)

Lemma tables_ok_of_unplan holder s :
  Inv ins n C (unplan_opt holder s) ->
  (forall c, holder = Some c -> (c < n)%nat) ->
  tables_ok n s.
Proof.
  destruct holder as [c|]; simpl; [|by intros []].
  intros [[T1 T2 T3 T4] _ _] Hc. simpl in *. split; [done| |done|].
  - intros v a Ho. pose proof (T2 _ _ Ho) as Hd.
    by apply lookup_delete_Some in Hd as [_ ?].
  - intros a v Hv. destruct (decide (a = c)) as [->|Hne]; [by apply Hc|].
    apply (T4 a v). by rewrite lookup_delete_ne.
Qed.

Lemma run_pibt_post fuel ks : forall s r,
  LaCAM2.run_pibt ins D FLG_SWAP fuel ks s = Some r ->
  Inv ins n C s -> (forall k, k ∈ ks -> (k < n)%nat) ->
  same_now s r.2 /\ tables_ok n r.2 /\
  (r.1 = true ->
     Inv ins n C r.2 /\ keeps_plans s r.2 /\ forall k, k ∈ ks -> is_Some (v_next r.2 !! k)).
Proof.
  induction ks as [|k ks IH]; intros s r; simpl.
  - intros [= <-] HI _. simpl. split; [apply same_now_refl|].
    split; [by destruct HI|]. intros _. split; [done|].
    split; [apply keeps_plans_refl|]. intros k Hk. by apply elem_of_nil in Hk.
  - intros Hrun HI Hks.
    assert (forall k', k' ∈ ks -> (k' < n)%nat) as Hks' by (intros; apply Hks; by right).
    case_bool_decide as Hnone.
    + destruct (LaCAM2.funcPIBT ins D FLG_SWAP fuel k s) as [[[|] s']|] eqn:Hp; [| |done].
      * apply (funcPIBT_post ins D FLG_SWAP n C C_free G_sym) in Hp; [|done|..];
          [|apply Hks; by left|done].
        destruct Hp as [Hsn (Hkp & Hsome & HI')]. simpl in *.
        destruct (IH _ _ Hrun HI' Hks') as (Hsn' & Ht & Hok).
        split; [by eapply same_now_trans|]. split; [done|].
        intros Hr. destruct (Hok Hr) as (HI'' & Hkp' & Hall).
        split; [done|]. split; [by eapply keeps_plans_trans|].
        intros k' [->|Hin]%elem_of_cons; [|by apply Hall].
        destruct Hsome as [v Hv]. exists v. by apply Hkp'.
      * injection Hrun as <-.
        pose proof Hp as Hp'.
        apply (funcPIBT_post ins D FLG_SWAP n C C_free G_sym) in Hp; [|done|..];
          [|apply Hks; by left|done].
        destruct Hp as [Hsn (Hst & Hv & Ho & HI')]. simpl in *.
        split; [done|]. split; [|done].
        eapply tables_ok_of_unplan; [exact HI'|].
        intros c Hc.
        pose proof (occ_next_sound _ _ (inv_tables _ _ _ _ HI) _ _ Hc) as Hcv.
        by eapply (v_next_dom _ _ (inv_tables _ _ _ _ HI)).
    + destruct (IH _ _ Hrun HI Hks') as (Hsn' & Ht & Hok).
      split; [done|]. split; [done|].
      intros Hr. destruct (Hok Hr) as (HI'' & Hkp' & Hall).
      split; [done|]. split; [done|].
      intros k' [->|Hin]%elem_of_cons; [|by apply Hall].
      destruct (v_next s !! k) as [v|] eqn:Hv; [|done].
      exists v. by apply Hkp'.
Qed.

(** *** [get_new_config] *)

Lemma read_config_at s a :
  (a < n)%nat -> cfg_at (read_config n s) a = default 0%nat (v_next s !! a).
Proof.
  intros Ha. unfold cfg_at, read_config.
  rewrite (nth_indep _ 0%nat (default 0%nat (v_next s !! 0%nat)))
    by (by rewrite length_map, length_seq).
  rewrite (map_nth (fun a => default 0%nat (v_next s !! a))).
  by rewrite seq_nth.
Qed.

Lemma read_config_length s : length (read_config n s) = n.
Proof. unfold read_config. by rewrite length_map, length_seq. Qed.

(** A complete valid plan reads off as a valid joint move. *)
Lemma complete_plan_valid s :
  Inv ins n C s -> (forall a, (a < n)%nat -> is_Some (v_next s !! a)) ->
  valid_step ins n C (read_config n s).
Proof.
  intros HI Hall.
  assert (forall a, (a < n)%nat -> v_next s !! a = Some (cfg_at (read_config n s) a)) as Hat.
  { intros a Ha. rewrite read_config_at by done.
    destruct (Hall a Ha) as [v ->]. done. }
  split; [|split].
  - intros i Hi.
    apply (next_adjacent _ _ _ _ (inv_plan _ _ _ _ HI) i). by apply Hat.
  - intros i j Hi Hj Hij E. apply Hij.
    apply (plan_injective ins n C s i j (cfg_at (read_config n s) i)); try done;
      [by apply Hat|rewrite E; by apply Hat].
  - intros i j Hi Hj Hij [E1 E2].
    apply (next_no_swap _ _ _ _ (inv_plan _ _ _ _ HI) j i Hj Hi); [done|..].
    + rewrite E1. by apply Hat.
    + rewrite E2. by apply Hat.
Qed.

(** [get_new_config] leaves the tables usable for the next call; when it
    reports success the agents' [v_next] slots hold a valid joint move
    out of [C]. *)
Theorem get_new_config_valid fuel order L s r :
  LaCAM2.get_new_config ins D FLG_SWAP fuel C order L s = Some r ->
  tables_ok n s -> lnode_ok L ->
  (forall k, k ∈ order <-> (k < n)%nat) ->
  tables_ok n r.2 /\
  (r.1 = true -> valid_step ins n C (read_config n r.2)).
Proof.
  unfold LaCAM2.get_new_config. fold n. intros Hrun Ht HL Horder.
  destruct (setup_inv s Ht) as [HI1 Hnone].
  set (s1 := fold_left (LaCAM2.setup_agent C) (seq 0 n) s) in *.
  destruct (add_constraints_inv L s1 HI1 HL) as (HI2 & Hsn & Hkp); [done|].
  destruct (LaCAM2.add_constraints C L s1) as [[|] s2]; simpl in *.
  - apply run_pibt_post in Hrun; [|done|by intros k Hk; apply Horder].
    destruct Hrun as (_ & Ht' & Hok). split; [done|].
    intros Hr. destruct (Hok Hr) as (HI' & _ & Hall).
    apply complete_plan_valid; [done|]. intros a Ha. by apply Hall, Horder.
  - injection Hrun as <-. simpl. split; [by destruct HI2|done].
Qed.

End NewConfig2.

(** * LaCAM: one call of PIBT and successor generation *)

Section PIBT1.
Context `{RT : Runtime}.
Variable ins : Instance.
Variable D : DistTable.
Variable C : list nat.

Let n := ins_N ins.

Hypothesis C_free : vertex_free n C.

Section Loop.
Variable rec : nat -> option nat -> Scratch -> option (bool * Scratch).
Variable ai : nat.
Variable aj : option nat.
Hypothesis ai_lt : (ai < n)%nat.
Hypothesis rec_post : forall a caller s r,
  rec a caller s = Some r -> Inv ins n C s -> (a < n)%nat -> v_next s !! a = None ->
  pibt_post ins n C a s r.

Lemma pibt_loop1_post cands : forall s r,
  (forall u, u ∈ cands -> u = cfg_at C ai \/ u ∈ neighbor ins (cfg_at C ai)) ->
  Inv ins n C (unplan ai s) ->
  LaCAM.pibt_loop rec ai (cfg_at C ai) aj cands s = Some r ->
  pibt_post ins n C ai (unplan ai s) r.
Proof.
  induction cands as [|u rest IH]; intros s r Hc HI; simpl.
  - intros [= <-]. split; [done|]. simpl. split; [|split; [|split]].
    + intros a. simpl. destruct (decide (a = ai)) as [->|Hne].
      * right. by rewrite lookup_delete_eq, lookup_insert_eq.
      * left. by rewrite lookup_insert_ne, lookup_delete_ne.
    + by rewrite lookup_insert_eq.
    + by rewrite lookup_insert_eq.
    + by apply (stay_inv ins n C C_free ai s).
  - assert (forall u', u' ∈ rest ->
              u' = cfg_at C ai \/ u' ∈ neighbor ins (cfg_at C ai)) as Hrest.
    { intros u' Hu'. apply Hc. by right. }
    case_bool_decide as Hfree; [by apply IH|].
    assert (occupied_next s !! u = None) as Hfree'.
    { destruct (occupied_next s !! u); [by destruct Hfree|done]. }
    clear Hfree.
    destruct (match aj with Some j => _ | None => false end); [by apply IH|].
    destruct (match occupied_now s !! u with
              | Some a => bool_decide (v_next s !! a = Some (cfg_at C ai))
              | None => false
              end) eqn:Hhead; [by apply IH|].
    assert (Inv ins n C (reserve ai u s)) as HI1.
    { apply reserve_inv; try done.
      - apply Hc. by left.
      - intros b _ Hb. rewrite Hb in Hhead. by apply bool_decide_eq_false in Hhead. }
    assert (v_next (reserve ai u s) !! ai = Some u) as Hmine.
    { simpl. by rewrite lookup_insert_eq. }
    assert (keeps_plans (unplan ai s) (reserve ai u s)) as Hk1.
    { intros a v. simpl. rewrite lookup_delete_Some. intros [Hne Hv].
      by rewrite lookup_insert_ne. }
    assert (forall s', same_now (reserve ai u s) s' -> keeps_plans (reserve ai u s) s' ->
              Inv ins n C s' ->
              pibt_post ins n C ai (unplan ai s) (true, s')) as Hsuccess.
    { intros s' Hsn Hkp HI'. split; [|simpl; split; [|split]].
      - simpl. eapply same_now_trans; [|exact Hsn]. done.
      - eapply keeps_plans_trans; [exact Hk1|exact Hkp].
      - exists u. apply Hkp, Hmine.
      - done. }
    destruct (occupied_now s !! u) as [a|] eqn:Hocc.
    + destruct (bool_decide (u = cfg_at C ai)) eqn:Hstay.
      { intros [= <-]. apply Hsuccess; try done; apply keeps_plans_refl. }
      apply bool_decide_eq_false in Hstay.
      destruct (bool_decide (<[ai:=u]> (v_next s) !! a = None)) eqn:Hanone.
      * apply bool_decide_eq_true in Hanone.
        change (v_next (reserve ai u s) !! a = None) in Hanone.
        destruct (occupant_at ins n C _ u a HI1 Hocc) as [Han HuC].
        assert (a <> ai) as Hane by (intros ->; by apply Hstay).
        destruct (rec a (Some ai) (reserve ai u s)) as [[[|] s2]|] eqn:Hrec; [| |done].
        -- intros [= <-].
           destruct (rec_post _ _ _ _ Hrec HI1 Han Hanone) as [Hsn [Hkp [Hsome HI2]]].
           simpl in *. by apply Hsuccess.
        -- destruct (rec_post _ _ _ _ Hrec HI1 Han Hanone)
             as [Hsn [Hst [Hav [Hao HI2]]]].
           simpl in Hsn, Hst, Hav, Hao, HI2.
           rewrite <- HuC in HI2. rewrite lookup_insert_eq in HI2. simpl in HI2.
           intros Hloop. apply IH in Hloop; [|done|done].
           destruct Hloop as [Hsn' Hpost]. split.
           { eapply same_now_trans; [|exact Hsn']. simpl.
             destruct Hsn as [E1 E2]. split; simpl in *; congruence. }
           assert (stay_ext C (unplan ai s) (unplan ai s2)) as Hst'.
           { intros x. simpl. destruct (decide (x = ai)) as [->|Hx].
             - left. by rewrite !lookup_delete_eq.
             - rewrite !lookup_delete_ne by done.
               destruct (Hst x) as [E|E]; simpl in E;
                 rewrite lookup_insert_ne in E by done; [by left|by right]. }
           destruct r as [[|] s3]; simpl in *.
           ++ destruct Hpost as (Hk & Hs3 & HI3). split; [|by split].
              eapply keeps_plans_trans; [|exact Hk]. by apply (stay_ext_keeps C).
           ++ destruct Hpost as (Hst3 & Hv3 & Ho3 & HI3).
              split; [|split; [done|split; [done|]]].
              ** eapply stay_ext_trans; [exact Hst'|exact Hst3].
              ** rewrite (holder_stable ins n C C_free ai u (reserve ai u s) s2) in HI3;
                   try done.
                 simpl in HI3. rewrite lookup_insert_ne in HI3; done.
      * intros [= <-]. apply Hsuccess; try done; apply keeps_plans_refl.
    + intros [= <-]. apply Hsuccess; try done; apply keeps_plans_refl.
Qed.

End Loop.

(** [funcPIBT] on an unplanned agent, in a valid partial plan. *)
Theorem funcPIBT1_post fuel : forall ai aj s r,
  LaCAM.funcPIBT ins D fuel ai aj s = Some r ->
  Inv ins n C s -> (ai < n)%nat -> v_next s !! ai = None ->
  pibt_post ins n C ai s r.
Proof.
  induction fuel as [|fuel IH]; intros ai aj s r; simpl; [done|].
  intros Hrun HI Hai Hnone.
  rewrite (now_agent _ _ _ (inv_now _ _ _ _ HI) _ Hai) in Hrun. simpl in Hrun.
  set (vi := cfg_at C ai) in *.
  set (s0 := set_tie_breakers (neighbor ins vi) s) in *.
  destruct (set_tie_breakers_tables (neighbor ins vi) s) as (E1 & E2 & E3 & E4).
  fold s0 in E1, E2, E3, E4.
  set (sorted := std_sort (cand_lt D ai s0) (neighbor ins vi ++ [vi])) in *.
  assert (forall u, u ∈ sorted -> u = vi \/ u ∈ neighbor ins vi) as Hsorted.
  { intros u Hu. unfold sorted in Hu.
    rewrite <- (std_sort_perm (cand_lt D ai s0) (neighbor ins vi ++ [vi])) in Hu.
    apply elem_of_app in Hu as [Hu|Hu]; [by right|].
    apply list_elem_of_singleton in Hu. by left. }
  assert (Inv ins n C (unplan ai s0)) as HI0.
  { rewrite unplan_absent by (by rewrite E2). by apply (Inv_tables ins n C s). }
  assert (pibt_post ins n C ai (unplan ai s0) r -> pibt_post ins n C ai s r) as Hback.
  { rewrite unplan_absent by (by rewrite E2). apply pibt_post_tables; congruence. }
  apply Hback. clear Hback.
  case_bool_decide; [done|].
  by apply (pibt_loop1_post (LaCAM.funcPIBT ins D fuel) ai aj Hai IH) in Hrun.
Qed.

Lemma run_pibt1_post fuel ks : forall s r,
  LaCAM.run_pibt ins D fuel ks s = Some r ->
  Inv ins n C s -> (forall k, k ∈ ks -> (k < n)%nat) ->
  same_now s r.2 /\ tables_ok n r.2 /\
  (r.1 = true ->
     Inv ins n C r.2 /\ keeps_plans s r.2 /\ forall k, k ∈ ks -> is_Some (v_next r.2 !! k)).
Proof.
  induction ks as [|k ks IH]; intros s r; simpl.
  - intros [= <-] HI _. simpl. split; [apply same_now_refl|].
    split; [by destruct HI|]. intros _. split; [done|].
    split; [apply keeps_plans_refl|]. intros k Hk. by apply elem_of_nil in Hk.
  - intros Hrun HI Hks.
    assert (forall k', k' ∈ ks -> (k' < n)%nat) as Hks' by (intros; apply Hks; by right).
    case_bool_decide as Hnone.
    + destruct (LaCAM.funcPIBT ins D fuel k None s) as [[[|] s']|] eqn:Hp; [| |done].
      * apply funcPIBT1_post in Hp; [|done|..]; [|apply Hks; by left|done].
        destruct Hp as [Hsn (Hkp & Hsome & HI')]. simpl in *.
        destruct (IH _ _ Hrun HI' Hks') as (Hsn' & Ht & Hok).
        split; [by eapply same_now_trans|]. split; [done|].
        intros Hr. destruct (Hok Hr) as (HI'' & Hkp' & Hall).
        split; [done|]. split; [by eapply keeps_plans_trans|].
        intros k' [->|Hin]%elem_of_cons; [|by apply Hall].
        destruct Hsome as [v Hv]. exists v. by apply Hkp'.
      * injection Hrun as <-.
        apply funcPIBT1_post in Hp; [|done|..]; [|apply Hks; by left|done].
        destruct Hp as [Hsn (Hst & Hv & Ho & HI')]. simpl in *.
        split; [done|]. split; [|done].
        eapply (tables_ok_of_unplan ins C); [exact HI'|].
        intros c Hc.
        pose proof (occ_next_sound _ _ (inv_tables _ _ _ _ HI) _ _ Hc) as Hcv.
        by eapply (v_next_dom _ _ (inv_tables _ _ _ _ HI)).
    + destruct (IH _ _ Hrun HI Hks') as (Hsn' & Ht & Hok).
      split; [done|]. split; [done|].
      intros Hr. destruct (Hok Hr) as (HI'' & Hkp' & Hall).
      split; [done|]. split; [done|].
      intros k' [->|Hin]%elem_of_cons; [|by apply Hall].
      destruct (v_next s !! k) as [v|] eqn:Hv; [|done].
      exists v. by apply Hkp'.
Qed.

(** [get_new_config] leaves the tables usable for the next call; when it
    reports success the agents' [v_next] slots hold a valid joint move
    out of [C]. *)
Theorem get_new_config1_valid fuel order M s r :
  LaCAM.get_new_config ins D fuel C order M s = Some r ->
  tables_ok n s -> lnode_ok ins C M ->
  (forall k, k ∈ order <-> (k < n)%nat) ->
  tables_ok n r.2 /\
  (r.1 = true -> valid_step ins n C (read_config n r.2)).
Proof.
  unfold LaCAM.get_new_config. fold n. intros Hrun Ht HL Horder.
  destruct (setup_inv ins C C_free s Ht) as [HI1 Hnone]. fold n in HI1, Hnone.
  set (s1 := fold_left (LaCAM2.setup_agent C) (seq 0 n) s) in *.
  destruct (add_constraints_inv ins C M s1 HI1 HL) as (HI2 & Hsn & Hkp); [done|].
  fold n in HI2.
  destruct (LaCAM2.add_constraints C M s1) as [[|] s2]; simpl in *.
  - apply run_pibt1_post in Hrun; [|done|by intros k Hk; apply Horder].
    destruct Hrun as (_ & Ht' & Hok). split; [done|].
    intros Hr. destruct (Hok Hr) as (HI' & _ & Hall).
    apply (complete_plan_valid ins C); [done|]. intros a Ha. by apply Hall, Horder.
  - injection Hrun as <-. simpl. split; [by destruct HI2|done].
Qed.

End PIBT1.

(** * The search graph

    What holds of the arena of high-level nodes in both planners. *)

Section Arena.
Context `{RT : Runtime} {ins : Instance} {D : DistTable} {rv : bool}.

Local Notation N := (ins_N ins).

(** What never changes of a node once it is built. *)
Record static_ok (node : HL.HNode) : Prop := {
  st_len : length (HL.C node) = N;
  st_free : vertex_free N (HL.C node);
  st_order : Permutation (seq 0 N) (HL.order node)
}.

(** A frame of the search tree of [node]: it constrains the first
    [depth] agents of [order], each to its vertex or a neighbour of it.
    The pairs are listed last first when [rv] holds (LaCAM2's parent
    chains), first first otherwise (LaCAM's arrays). *)
Record tree_ok (node : HL.HNode) (L : list (nat * nat)) : Prop := {
  tr_who : L.*1 = if rv then reverse (take (length L) (HL.order node))
                  else take (length L) (HL.order node);
  tr_where : forall i l, (i, l) ∈ L ->
    l = cfg_at (HL.C node) i \/ l ∈ neighbor ins (cfg_at (HL.C node) i)
}.

(** The pointers of a node lead to nodes of the arena, along valid joint
    moves; only the initial node has no parent. *)
Record links_ok (nodes : list HL.HNode) (id : nat) (node : HL.HNode) : Prop := {
  lk_parent : forall pid, HL.parent node = Some pid ->
    exists pn, nodes !! pid = Some pn /\
               valid_step ins N (HL.C pn) (HL.C node);
  lk_root : HL.parent node = None -> id = 0%nat;
  lk_neighbor : forall x, x ∈ HL.neighbor_set node ->
    exists xn, nodes !! x = Some xn /\
               valid_step ins N (HL.C node) (HL.C xn)
}.

Record arena_ok (nodes : list HL.HNode) : Prop := {
  ar_static : forall id node, nodes !! id = Some node -> static_ok node;
  ar_tree : forall id node L, nodes !! id = Some node ->
    L ∈ HL.search_tree node -> tree_ok node L;
  ar_links : forall id node, nodes !! id = Some node -> links_ok nodes id node;
  ar_root : exists r, nodes !! 0%nat = Some r /\ HL.C r = starts ins /\
                      HL.parent r = None /\ HL.g r = 0
}.

Lemma static_order_lt node k :
  static_ok node -> k ∈ HL.order node <-> (k < N)%nat.
Proof.
  intros [_ _ Hp]. rewrite <- Hp. rewrite list_elem_of_In, in_seq. lia.
Qed.

Lemma static_order_length node : static_ok node -> length (HL.order node) = N.
Proof. intros [_ _ Hp]. apply Permutation_length in Hp. by rewrite length_seq in Hp. Qed.

Lemma static_order_nodup node : static_ok node -> NoDup (HL.order node).
Proof. intros [_ _ Hp]. rewrite <- Hp. apply NoDup_seq. Qed.

(** A low-level node of the tree meets the requirements of
    [get_new_config]. *)
Lemma tree_lnode_ok node (L : list (nat * nat)) :
  static_ok node -> tree_ok node L -> lnode_ok ins (HL.C node) L.
Proof.
  intros Hs [Hwho Hwhere]. split.
  - change (NoDup (L.*1)). rewrite Hwho.
    assert (NoDup (take (length L) (HL.order node))) as Hnd.
    { eapply sublist_NoDup; [by apply static_order_nodup|apply sublist_take]. }
    clear Hwho. case rv; [by rewrite reverse_Permutation|done].
  - intros i l Hin. split; [|by apply Hwhere].
    apply (static_order_lt node); [done|].
    assert (i ∈ L.*1) as Hi.
    { by apply (list_elem_of_fmap_2 fst) in Hin. }
    rewrite Hwho in Hi.
    assert (i ∈ take (length L) (HL.order node)) as Hi'.
    { clear Hwho. revert Hi. case rv; [by rewrite elem_of_reverse|done]. }
    apply elem_of_take in Hi' as (j & Hj & _).
    by eapply list_elem_of_lookup_2.
Qed.

(** *** Updates of the arena *)

Lemma lookup_update_C (nodes : list HL.HNode) i node node' x xn :
  nodes !! i = Some node -> HL.C node' = HL.C node ->
  nodes !! x = Some xn ->
  exists xn', <[i := node']> nodes !! x = Some xn' /\ HL.C xn' = HL.C xn.
Proof.
  intros Hi HC Hx. pose proof (lookup_lt_Some _ _ _ Hi).
  destruct (decide (i = x)) as [->|Hne].
  - exists node'. rewrite list_lookup_insert_eq by done. split; [done|congruence].
  - exists xn. by rewrite list_lookup_insert_ne.
Qed.

Lemma links_ok_update nodes i node node' j nj :
  nodes !! i = Some node -> HL.C node' = HL.C node ->
  links_ok nodes j nj -> links_ok (<[i := node']> nodes) j nj.
Proof.
  intros Hi HC [Hp Hr Hn]. split; [|done|].
  - intros pid Hpid. destruct (Hp pid Hpid) as (pn & Hpn & Hv).
    destruct (lookup_update_C nodes i node node' pid pn Hi HC Hpn) as (pn' & ? & E).
    exists pn'. by rewrite E.
  - intros x Hx. destruct (Hn x Hx) as (xn & Hxn & Hv).
    destruct (lookup_update_C nodes i node node' x xn Hi HC Hxn) as (xn' & ? & E).
    exists xn'. by rewrite E.
Qed.

Lemma links_ok_same_C nodes j nj nj' :
  HL.C nj' = HL.C nj -> HL.parent nj' = HL.parent nj ->
  HL.neighbor_set nj' = HL.neighbor_set nj ->
  links_ok nodes j nj -> links_ok nodes j nj'.
Proof. intros E1 E2 E3 [Hp Hr Hn]. split; rewrite ?E1, ?E2, ?E3; done. Qed.

(** Replacing a node by one with the same configuration and order. *)
Lemma arena_update nodes i node node' :
  arena_ok nodes -> nodes !! i = Some node ->
  HL.C node' = HL.C node -> HL.order node' = HL.order node ->
  (forall L, L ∈ HL.search_tree node' -> tree_ok node' L) ->
  links_ok nodes i node' ->
  (i = 0%nat -> HL.parent node' = None /\ HL.g node' = 0) ->
  arena_ok (<[i := node']> nodes).
Proof.
  intros [Hs Ht Hl Hr] Hi HC HO Htree Hlinks Hroot.
  pose proof (lookup_lt_Some _ _ _ Hi) as Hlt.
  split.
  - intros j nj. rewrite list_lookup_insert_Some.
    intros [(-> & <- & _)|[_ Hj]]; [|by eapply Hs].
    destruct (Hs _ _ Hi) as [? ? ?]. split; rewrite ?HC, ?HO; done.
  - intros j nj L. rewrite list_lookup_insert_Some.
    intros [(-> & <- & _)|[_ Hj]]; [by apply Htree|by eapply Ht].
  - intros j nj. rewrite list_lookup_insert_Some.
    intros [(-> & <- & _)|[_ Hj]]; eapply links_ok_update; eauto.
  - destruct Hr as (r & Hr0 & HrC & Hrp & Hrg).
    destruct (decide (i = 0%nat)) as [->|Hne].
    + exists node'. rewrite list_lookup_insert_eq by done.
      split; [done|]. assert (r = node) as -> by congruence.
      split; [congruence|]. by apply Hroot.
    + exists r. by rewrite list_lookup_insert_ne.
Qed.

Lemma tree_ok_same node node' L :
  HL.C node' = HL.C node -> HL.order node' = HL.order node ->
  tree_ok node L -> tree_ok node' L.
Proof. intros E1 E2 [? ?]. split; rewrite ?E1, ?E2; done. Qed.

(** Replacing the search tree of a node. *)
Lemma arena_set_search_tree nodes i node tree :
  arena_ok nodes -> nodes !! i = Some node ->
  (forall L, L ∈ tree -> tree_ok node L) ->
  arena_ok (<[i := HL.set_search_tree tree node]> nodes).
Proof.
  intros Ha Hi Htree. apply (arena_update nodes i node); try done.
  - intros L HL. apply (tree_ok_same node); [done|done|by apply Htree].
  - apply (links_ok_same_C nodes i node); try done. by eapply ar_links.
  - intros ->. destruct (ar_root _ Ha) as (r & Hr & _ & Hp & Hg).
    assert (r = node) as -> by congruence. done.
Qed.

(** Entering [x] into the neighbour set of a node. *)
Lemma arena_add_neighbor nodes i node x xn :
  arena_ok nodes -> nodes !! i = Some node -> nodes !! x = Some xn ->
  valid_step ins N (HL.C node) (HL.C xn) ->
  arena_ok (alter (HL.add_neighbor x) i nodes).
Proof.
  intros Ha Hi Hx Hv. rewrite (alter_as_insert _ _ _ _ Hi).
  apply (arena_update nodes i node); try done.
  - intros L HL. apply (tree_ok_same node); [done|done|]. by eapply ar_tree.
  - destruct (ar_links _ Ha _ _ Hi) as [Hp Hr Hn]. split; [done|done|].
    intros y. simpl. rewrite elem_of_union, elem_of_singleton.
    intros [->|Hy]; [by exists xn|by apply Hn].
  - intros ->. destruct (ar_root _ Ha) as (r & Hr & _ & Hp & Hg).
    assert (r = node) as -> by congruence. done.
Qed.

(** A fresh node at the end of the arena. *)
Lemma arena_app nodes new :
  arena_ok nodes -> static_ok new ->
  (forall L, L ∈ HL.search_tree new -> tree_ok new L) ->
  links_ok (nodes ++ [new]) (length nodes) new ->
  arena_ok (nodes ++ [new]).
Proof.
  intros [Hs Ht Hl Hr] Hnew Htree Hlinks. split.
  - intros j nj. rewrite lookup_app_Some.
    intros [Hj|[_ Hj]]; [by eapply Hs|].
    apply list_lookup_singleton_Some in Hj as [_ <-]. done.
  - intros j nj L. rewrite lookup_app_Some.
    intros [Hj|[_ Hj]]; [by eapply Ht|].
    apply list_lookup_singleton_Some in Hj as [_ <-]. by apply Htree.
  - intros j nj. rewrite lookup_app_Some.
    intros [Hj|[Hge Hj]].
    + destruct (Hl _ _ Hj) as [Hp Hr' Hn]. split; [|done|].
      * intros pid Hpid. destruct (Hp pid Hpid) as (pn & Hpn & Hv).
        exists pn. split; [by apply lookup_app_l_Some|done].
      * intros x Hx. destruct (Hn x Hx) as (xn & Hxn & Hv).
        exists xn. split; [by apply lookup_app_l_Some|done].
    + apply list_lookup_singleton_Some in Hj as [Hj <-].
      assert (j = length nodes) as -> by lia. done.
  - destruct Hr as (r & Hr0 & Hrest). exists r.
    split; [by apply lookup_app_l_Some|done].
Qed.

Lemma HNode_init_static Cn par pp g h :
  length Cn = N -> vertex_free N Cn ->
  static_ok (HL.HNode_init D Cn par pp g h).
Proof.
  intros Hlen Hfree. split; simpl; [done|done|].
  rewrite Hlen. apply std_sort_perm.
Qed.

(** [new HNode(C_new, D, H, g, h)] for a valid move out of [H]. *)
Lemma arena_HNode_new nodes i node Cn g h :
  arena_ok nodes -> nodes !! i = Some node ->
  length Cn = N -> valid_step ins N (HL.C node) Cn ->
  arena_ok (HL.HNode_new D nodes Cn (Some i) g h).
Proof.
  intros Ha Hi Hlen Hv. unfold HL.HNode_new.
  set (new := HL.HNode_init D Cn (Some i) _ g h).
  pose proof (lookup_lt_Some _ _ _ Hi) as Hlt.
  assert (arena_ok (nodes ++ [new])) as Ha'.
  { apply arena_app; try done.
    - apply HNode_init_static; [done|]. by destruct Hv as (_ & ? & _).
    - intros L HL. simpl in HL. apply list_elem_of_singleton in HL as ->.
      split; [by case rv|]. intros ? ? Hin. by apply elem_of_nil in Hin.
    - split; simpl.
      + intros pid [= <-]. exists node. split; [by apply lookup_app_l_Some|done].
      + done.
      + intros x Hx. by apply not_elem_of_empty in Hx. }
  replace (alter (HL.add_neighbor (length nodes)) i nodes ++ [new])
    with (alter (HL.add_neighbor (length nodes)) i (nodes ++ [new])).
  - apply (arena_add_neighbor _ i node (length nodes) new); try done.
    + by apply lookup_app_l_Some.
    + rewrite lookup_app_r by lia. by rewrite Nat.sub_diag.
  - by rewrite alter_app_l.
Qed.

(** Every node is still there, with its configuration and heuristic
    value, and a cost that did not grow. *)
Definition arena_le (nodes nodes' : list HL.HNode) : Prop :=
  forall id node, nodes !! id = Some node ->
    exists node', nodes' !! id = Some node' /\
      HL.C node' = HL.C node /\ HL.h node' = HL.h node /\
      HL.g node' <= HL.g node.

Lemma arena_le_refl nodes : arena_le nodes nodes.
Proof. intros id node Hn. exists node. repeat split; done. Qed.

Lemma arena_le_trans n1 n2 n3 : arena_le n1 n2 -> arena_le n2 n3 -> arena_le n1 n3.
Proof.
  intros H12 H23 id node Hn.
  destruct (H12 _ _ Hn) as (node2 & Hn2 & E1 & E2 & E3).
  destruct (H23 _ _ Hn2) as (node3 & Hn3 & E1' & E2' & E3').
  exists node3. repeat split; [done|congruence|congruence|lia].
Qed.

Lemma arena_le_insert nodes i node node' :
  nodes !! i = Some node ->
  HL.C node' = HL.C node -> HL.h node' = HL.h node ->
  HL.g node' <= HL.g node ->
  arena_le nodes (<[i := node']> nodes).
Proof.
  intros Hi E1 E2 E3 j nj Hj. pose proof (lookup_lt_Some _ _ _ Hi).
  destruct (decide (i = j)) as [->|Hne].
  - exists node'. rewrite list_lookup_insert_eq by done.
    assert (nj = node) as -> by congruence. done.
  - exists nj. rewrite list_lookup_insert_ne by done. repeat split; done.
Qed.

Lemma tables_ok_tables n (s s' : Scratch) :
  v_now s' = v_now s -> v_next s' = v_next s ->
  occupied_now s' = occupied_now s -> occupied_next s' = occupied_next s ->
  tables_ok n s -> tables_ok n s'.
Proof.
  intros E1 E2 E3 E4 [T1 T2 T3 T4]. split; rewrite ?E1, ?E2, ?E3, ?E4; assumption.
Qed.

Lemma HNode_new_le nodes i node Cn g h :
  nodes !! i = Some node ->
  arena_le nodes (HL.HNode_new D nodes Cn (Some i) g h) /\
  exists new, HL.HNode_new D nodes Cn (Some i) g h !! length nodes = Some new /\
              HL.C new = Cn /\ HL.g new = g /\ HL.parent new = Some i.
Proof.
  intros Hi. unfold HL.HNode_new. split.
  - intros j nj Hj. rewrite (alter_as_insert _ _ _ _ Hi).
    destruct (arena_le_insert nodes i node (HL.add_neighbor (length nodes) node) Hi
                eq_refl eq_refl (Z.le_refl _) j nj Hj) as (nj' & Hnj' & ?).
    exists nj'. split; [by apply lookup_app_l_Some|done].
  - eexists. rewrite lookup_app_r by (by rewrite length_alter).
    rewrite length_alter, Nat.sub_diag. simpl. done.
Qed.

Lemma scratch_init_ok mt : tables_ok N (scratch_init mt).
Proof. split; simpl; intros ? ?; by rewrite lookup_empty. Qed.

(** *** Backtracking *)

(** The walk up the parent pointers lists valid moves, read backwards,
    and ends with the start configuration. *)
Lemma backtrack_valid nodes fuel : forall id l,
  arena_ok nodes ->
  HL.backtrack fuel nodes (Some id) = Some l ->
  exists node, nodes !! id = Some node /\ head l = Some (HL.C node) /\
    last l = Some (starts ins) /\
    path_ok (fun c2 c1 => valid_step ins N c1 c2) l.
Proof.
  induction fuel as [|fuel IH]; intros id l Ha; simpl; [done|].
  destruct (nodes !! id) as [node|] eqn:Hn; simpl; [|done].
  destruct (HL.parent node) as [pid|] eqn:Hp.
  - destruct (HL.backtrack fuel nodes (Some pid)) as [rest|] eqn:Hb; simpl; [|done].
    intros [= <-]. destruct (IH _ _ Ha Hb) as (pn & Hpn & Hhead & Hlast & Hpath).
    exists node. split; [done|]. split; [done|].
    destruct rest as [|c rest]; [done|]. split; [done|].
    split; [|done]. simpl in Hhead. injection Hhead as ->.
    destruct (lk_parent _ _ _ (ar_links _ Ha _ _ Hn) pid Hp) as (pn' & Hpn' & Hv).
    congruence.
  - destruct fuel; simpl; intros [= <-]; exists node;
      (split; [done|]); (split; [done|]); (split; [|done]); simpl;
      pose proof (lk_root _ _ _ (ar_links _ Ha _ _ Hn) Hp) as ->;
      destruct (ar_root _ Ha) as (r & Hr & HrC & _); congruence.
Qed.

End Arena.

(** * LaCAM2: the search graph *)

Section Graph2.
Context `{RT : Runtime}.
Variable ins : Instance.
Variable D : DistTable.
Variable objective : Objective.
Variable RESTART_RATE : float.
Variable FLG_SWAP : bool.

Let N := ins_N ins.

Hypothesis G_sym :
  FLG_SWAP = true -> forall u v, u ∈ neighbor ins v -> v ∈ neighbor ins u.

Local Notation static_ok := (static_ok (ins:=ins)).
Local Notation tree_ok := (tree_ok (ins:=ins) (rv:=true)).
Local Notation links_ok := (links_ok (ins:=ins)).
Local Notation arena_ok := (arena_ok (ins:=ins) (rv:=true)).

(** *** Cost rewriting *)

(** One relaxation, from a node [n_from] with neighbour set [S0]. *)
Lemma relax_arena H_goal n_from S0 nodes Q OPEN n_to :
  arena_ok nodes ->
  (exists nf, nodes !! n_from = Some nf /\ HL.neighbor_set nf = S0) ->
  n_to ∈ S0 ->
  let r := LaCAM2.relax ins objective H_goal n_from (nodes, Q, OPEN) n_to in
  arena_ok r.1.1 /\ arena_le nodes r.1.1 /\
  (exists nf, r.1.1 !! n_from = Some nf /\ HL.neighbor_set nf = S0).
Proof.
  intros Ha (nf & Hnf & HS) Hin. unfold LaCAM2.relax. rewrite Hnf.
  destruct (nodes !! n_to) as [nt|] eqn:Hnt;
    [|simpl; split; [done|split; [apply arena_le_refl|by exists nf]]].
  set (g_val := u32 (HL.g nf + _)).
  destruct (g_val <? HL.g nt) eqn:Hlt;
    [|simpl; split; [done|split; [apply arena_le_refl|by exists nf]]].
  apply Z.ltb_lt in Hlt. simpl.
  split; [|split].
  - apply (arena_update nodes n_to nt); try done.
    + intros L HL. apply (tree_ok_same nt); [done|done|]. by eapply ar_tree.
    + destruct (ar_links _ Ha _ _ Hnt) as [Hp Hr Hn]. split; simpl; [|done|done].
      intros pid [= <-]. exists nf. split; [done|].
      destruct (lk_neighbor _ _ _ (ar_links _ Ha _ _ Hnf) n_to) as (xn & Hxn & Hv).
      { by rewrite HS. }
      assert (xn = nt) as -> by congruence. done.
    + intros ->. destruct (ar_root _ Ha) as (r & Hr & _ & _ & Hg).
      assert (r = nt) as -> by congruence.
      pose proof (u32_nonneg (HL.g nf +
        LaCAM2.get_edge_cost ins objective (HL.C nf) (HL.C nt))).
      fold g_val in H. lia.
  - apply (arena_le_insert nodes n_to nt); simpl; try done. lia.
  - pose proof (lookup_lt_Some _ _ _ Hnt).
    destruct (decide (n_to = n_from)) as [->|Hne].
    + eexists. rewrite list_lookup_insert_eq by done. split; [done|].
      simpl. congruence.
    + exists nf. by rewrite list_lookup_insert_ne.
Qed.

Lemma relax_fold_arena H_goal n_from S0 nbrs : forall nodes Q OPEN,
  arena_ok nodes ->
  (exists nf, nodes !! n_from = Some nf /\ HL.neighbor_set nf = S0) ->
  (forall x, x ∈ nbrs -> x ∈ S0) ->
  let r := fold_left (LaCAM2.relax ins objective H_goal n_from) nbrs (nodes, Q, OPEN) in
  arena_ok r.1.1 /\ arena_le nodes r.1.1.
Proof.
  induction nbrs as [|x nbrs IH]; intros nodes Q OPEN Ha Hnf Hsub; cbn [fold_left].
  - split; [done|apply arena_le_refl].
  - destruct (relax_arena H_goal n_from S0 nodes Q OPEN x Ha Hnf) as (Ha' & Hle & Hnf').
    { apply Hsub. by left. }
    destruct (LaCAM2.relax ins objective H_goal n_from (nodes, Q, OPEN) x)
      as [[nodes' Q'] OPEN']. cbn [fst snd] in *.
    destruct (IH nodes' Q' OPEN' Ha' Hnf') as [Ha'' Hle'].
    { intros y Hy. apply Hsub. by right. }
    split; [done|]. by eapply arena_le_trans.
Qed.

Lemma rewrite_loop_arena fuel H_goal : forall Q nodes OPEN r,
  LaCAM2.rewrite_loop ins objective fuel H_goal nodes Q OPEN = Some r ->
  arena_ok nodes ->
  arena_ok r.1 /\ arena_le nodes r.1.
Proof.
  induction fuel as [|fuel IH]; intros Q nodes OPEN r; destruct Q as [|n_from Q];
    simpl; try done.
  - intros [= <-] Ha. split; [done|apply arena_le_refl].
  - intros [= <-] Ha. split; [done|apply arena_le_refl].
  - intros Hrun Ha.
    destruct (nodes !! n_from) as [nf|] eqn:Hnf.
    + destruct (relax_fold_arena H_goal n_from (HL.neighbor_set nf)
                  (set_iter (HL.neighbor_set nf)) nodes Q OPEN Ha) as [Ha' Hle].
      { by exists nf. }
      { intros x. apply set_iter_elem. }
      destruct (fold_left _ _ _) as [[nodes' Q'] OPEN']. simpl in *.
      destruct (IH _ _ _ _ Hrun Ha') as [Ha'' Hle'].
      split; [done|]. by eapply arena_le_trans.
    + simpl in Hrun. by apply IH in Hrun.
Qed.

(** [rewrite(H_from, H_to)] after [get_new_config] led from the first
    to the second. *)
Lemma rewrite_arena fuel H_from H_to H_goal nodes OPEN r nf nt :
  LaCAM2.rewrite ins objective fuel H_from H_to H_goal nodes OPEN = Some r ->
  arena_ok nodes -> nodes !! H_from = Some nf -> nodes !! H_to = Some nt ->
  valid_step ins N (HL.C nf) (HL.C nt) ->
  arena_ok r.1 /\ arena_le nodes r.1.
Proof.
  unfold LaCAM2.rewrite. intros Hrun Ha Hf Ht Hv.
  apply rewrite_loop_arena in Hrun.
  - destruct Hrun as [Ha' Hle]. split; [done|].
    eapply arena_le_trans; [|exact Hle].
    rewrite (alter_as_insert _ _ _ _ Hf). by apply (arena_le_insert nodes H_from nf).
  - by apply (arena_add_neighbor nodes H_from nf H_to nt).
Qed.

(** *** Low-level expansion *)

Lemma expand_lowlevel_tree_ok node tree L s :
  static_ok node -> tree_ok node L ->
  (forall L', L' ∈ tree -> tree_ok node L') ->
  tables_ok N s ->
  let r := LaCAM2.expand_lowlevel_tree ins (HL.set_search_tree tree node) L s in
  (forall L', L' ∈ r.1 -> tree_ok node L') /\ tables_ok N r.2.
Proof.
  intros Hst HL Htree Hs. unfold LaCAM2.expand_lowlevel_tree. fold N. simpl.
  case_bool_decide as Hd; simpl; [done|].
  set (i := nth (LaCAM2.depth L) (HL.order node) 0%nat).
  set (C0 := neighbor ins (cfg_at (HL.C node) i) ++ [cfg_at (HL.C node) i]).
  assert (HL.order node !! length L = Some i) as Hi.
  { unfold i, LaCAM2.depth. rewrite nth_lookup.
    destruct (lookup_lt_is_Some_2 (HL.order node) (length L)) as [x Hx].
    - rewrite (static_order_length node Hst). unfold LaCAM2.depth in Hd. lia.
    - by rewrite Hx. }
  assert (forall C1 L', Permutation C0 C1 ->
            L' ∈ HL.search_tree (HL.set_search_tree tree node)
                   ++ map (fun v => LaCAM2.LNode_new L i v) C1 ->
            tree_ok node L') as Hnew.
  { intros C1 L' Hperm [Hin|Hin]%elem_of_app; [by apply Htree|].
    apply list_elem_of_fmap in Hin as (v & -> & Hv).
    rewrite <- Hperm in Hv. destruct HL as [Hwho Hwhere]. split.
    - unfold LaCAM2.LNode_new. rewrite fmap_cons. cbn [length fst]. rewrite Hwho.
      rewrite (take_S_r _ _ _ Hi). by rewrite reverse_snoc.
    - intros i' l' [[= -> ->]|Hin]%elem_of_cons; [|by apply Hwhere].
      unfold C0 in Hv. apply elem_of_app in Hv as [Hv|Hv]; [by right|].
      apply list_elem_of_singleton in Hv. by left. }
  destruct (MT s) as [r|] eqn:Hmt.
  - pose proof (std_shuffle_perm r C0) as Hperm.
    destruct (std_shuffle r C0) as [C1 r']. simpl in *. split.
    + intros L'. by apply Hnew.
    + by apply (tables_ok_tables N s).
  - simpl. split; [|done]. intros L'. by apply Hnew.
Qed.

(** *** The planner *)

Record PInv (p : LaCAM2.Planner) : Prop := {
  pi_arena : arena_ok (LaCAM2.nodes p);
  pi_expl : forall c id, LaCAM2.EXPLORED p !! c = Some id ->
    exists node, LaCAM2.nodes p !! id = Some node /\ HL.C node = c;
  pi_goal : forall gl, LaCAM2.H_goal p = Some gl ->
    exists node, LaCAM2.nodes p !! gl = Some node /\ HL.C node = goals ins;
  pi_scratch : tables_ok N (LaCAM2.scratch p)
}.

Definition step_planner (st : LaCAM2.Step) : LaCAM2.Planner :=
  match st with
  | LaCAM2.Continue p => p
  | LaCAM2.Break p => p
  end.

Lemma PInv_le p nodes' OPEN' cnt s' :
  PInv p -> arena_ok nodes' -> arena_le (LaCAM2.nodes p) nodes' -> tables_ok N s' ->
  PInv (LaCAM2.mkPlanner nodes' OPEN' (LaCAM2.EXPLORED p) (LaCAM2.H_goal p) cnt s').
Proof.
  intros [Ha He Hg Hs] Ha' Hle Hs'. split; simpl; [done| |  |done].
  - intros c id Hc. destruct (He c id Hc) as (node & Hn & HC).
    destruct (Hle _ _ Hn) as (node' & Hn' & HC' & _). exists node'. split; congruence.
  - intros gl Hgl. destruct (Hg gl Hgl) as (node & Hn & HC).
    destruct (Hle _ _ Hn) as (node' & Hn' & HC' & _). exists node'. split; congruence.
Qed.

Lemma choose_insert_tables s hit root :
  let r := LaCAM2.choose_insert RESTART_RATE s hit root in
  v_now r.2 = v_now s /\ v_next r.2 = v_next s /\
  occupied_now r.2 = occupied_now s /\ occupied_next r.2 = occupied_next s.
Proof.
  unfold LaCAM2.choose_insert. destruct (MT s) as [r|]; [|done].
  by destruct (get_random_float r).
Qed.

(** One iteration of the main loop keeps the planner well formed and
    never increases a cost. *)
Lemma solve_step_inv fuel p H rest st :
  PInv p ->
  LaCAM2.solve_step ins D objective RESTART_RATE FLG_SWAP fuel p H rest = Some st ->
  PInv (step_planner st) /\
  arena_le (LaCAM2.nodes p) (LaCAM2.nodes (step_planner st)).
Proof.
  intros HP. unfold LaCAM2.solve_step.
  destruct (LaCAM2.nodes p !! H) as [node|] eqn:Hnode; simpl; [|done].
  pose proof HP as [Ha He Hg Hs].
  case_bool_decide as Hempty.
  { intros [= <-]. simpl. split; [|apply arena_le_refl].
    apply PInv_le; try done. apply arena_le_refl. }
  destruct (match LaCAM2.H_goal p with Some _ => _ | None => _ end).
  { intros [= <-]. simpl. split; [|apply arena_le_refl].
    apply PInv_le; try done. apply arena_le_refl. }
  destruct (bool_decide (LaCAM2.H_goal p = None)
            && is_same_config (HL.C node) (goals ins)) eqn:Hgoal.
  { intros [= <-]. simpl. split; [|apply arena_le_refl].
    apply andb_true_iff in Hgoal as [_ Hsame]. apply bool_decide_eq_true in Hsame.
    split; simpl; try done. intros gl [= <-]. by exists node. }
  clear Hgoal.
  destruct (HL.search_tree node) as [|L tree] eqn:Htree; [done|]. clear Hempty.
  pose proof (ar_static _ Ha _ _ Hnode) as Hst.
  assert (tree_ok node L) as HL.
  { apply (ar_tree _ Ha H node L Hnode). rewrite Htree. by left. }
  destruct (expand_lowlevel_tree_ok node tree L (LaCAM2.scratch p) Hst HL) as [Htree' Hs1];
    [|done|].
  { intros L' HL'. apply (ar_tree _ Ha H node L' Hnode). rewrite Htree. by right. }
  destruct (LaCAM2.expand_lowlevel_tree ins _ L (LaCAM2.scratch p)) as [tree' s1].
  simpl in Htree', Hs1.
  set (nodes1 := <[H := HL.set_search_tree tree' node]> (LaCAM2.nodes p)).
  assert (arena_ok nodes1) as Ha1 by (by apply arena_set_search_tree).
  assert (arena_le (LaCAM2.nodes p) nodes1) as Hle1
    by (by apply (arena_le_insert _ H node)).
  assert (nodes1 !! H = Some (HL.set_search_tree tree' node)) as Hnode1.
  { unfold nodes1. rewrite list_lookup_insert_eq; [done|]. by eapply lookup_lt_Some. }
  destruct (LaCAM2.get_new_config ins D FLG_SWAP fuel (HL.C node) (HL.order node)
              L s1) as [[ok s2]|] eqn:Hcfg; simpl; [|done].
  apply (get_new_config_valid ins D FLG_SWAP (HL.C node)) in Hcfg; try done.
  2:{ by destruct Hst. }
  2:{ by apply (tree_lnode_ok (rv:=true)). }
  2:{ intros k. by apply static_order_lt. }
  fold N in Hcfg. destruct Hcfg as [Hs2 Hvalid]. simpl in Hs2, Hvalid.
  destruct ok; simpl.
  2:{ intros [= <-]. simpl. split; [|done]. by apply PInv_le. }
  specialize (Hvalid eq_refl). fold N.
  set (C_new := read_config N s2) in *.
  destruct (LaCAM2.EXPLORED p !! C_new) as [hit|] eqn:Hhit.
  - destruct (He _ _ Hhit) as (hn & Hhn & HhC).
    destruct (Hle1 _ _ Hhn) as (hn1 & Hhn1 & HhC1 & _).
    destruct (LaCAM2.rewrite ins objective fuel H hit (LaCAM2.H_goal p) nodes1
                (LaCAM2.OPEN p)) as [[nodes2 OPEN2]|] eqn:Hrw; simpl; [|done].
    assert (valid_step ins N (HL.C (HL.set_search_tree tree' node)) (HL.C hn1))
      as Hv1.
    { simpl. rewrite HhC1, HhC. done. }
    destruct (rewrite_arena fuel H hit _ nodes1 _ _ _ hn1 Hrw Ha1 Hnode1 Hhn1 Hv1)
      as [Ha2 Hle2]. simpl in Ha2, Hle2.
    destruct (choose_insert_tables s2 hit LaCAM2.H_init) as (E1 & E2 & E3 & E4).
    destruct (LaCAM2.choose_insert RESTART_RATE s2 hit LaCAM2.H_init) as [H_insert s3].
    simpl in *. intros [= <-]. simpl.
    assert (arena_le (LaCAM2.nodes p) nodes2) as Hle by (by eapply arena_le_trans).
    split; [|done]. apply PInv_le; try done. by apply (tables_ok_tables N s2).
  - intros [= <-]. simpl.
    assert (length C_new = N) as Hlen by apply read_config_length.
    set (g_new := u32 _). set (h_new := LaCAM2.get_h_value ins D objective C_new).
    pose proof (arena_HNode_new (D:=D) nodes1 H _ C_new g_new h_new Ha1 Hnode1 Hlen Hvalid) as Ha2.
    destruct (HNode_new_le (D:=D) nodes1 H _ C_new g_new h_new Hnode1) as [Hle2 (new & Hnew & HnC & _)].
    assert (arena_le (LaCAM2.nodes p)
              (HL.HNode_new D nodes1 C_new (Some H) g_new h_new)) as Hle
      by (by eapply arena_le_trans).
    split; [|done]. split; simpl; try done.
    + intros c id. rewrite lookup_insert_Some. intros [[<- <-]|[_ Hc]].
      * by exists new.
      * destruct (He c id Hc) as (nd & Hn & HC).
        destruct (Hle _ _ Hn) as (nd' & Hn' & HC' & _). exists nd'. split; congruence.
    + intros gl Hgl. destruct (Hg gl Hgl) as (nd & Hn & HC).
      destruct (Hle _ _ Hn) as (nd' & Hn' & HC' & _). exists nd'. split; congruence.
Qed.

Lemma solve_loop_inv fuel deadline : forall p p',
  PInv p ->
  LaCAM2.solve_loop ins D objective RESTART_RATE FLG_SWAP fuel deadline p = Some p' ->
  PInv p' /\ arena_le (LaCAM2.nodes p) (LaCAM2.nodes p').
Proof.
  induction deadline as [|deadline IH]; intros p p' HP; simpl.
  - destruct (LaCAM2.OPEN p); intros [= <-]; (split; [done|apply arena_le_refl]).
  - destruct (LaCAM2.OPEN p) as [|H rest].
    { intros [= <-]. split; [done|apply arena_le_refl]. }
    destruct (LaCAM2.solve_step ins D objective RESTART_RATE FLG_SWAP fuel p H rest)
      as [st|] eqn:Hstep; [|done].
    destruct (solve_step_inv fuel p H rest st HP Hstep) as [HP' Hle].
    destruct st as [p1|p1]; simpl in *.
    + intros Hloop. destruct (IH _ _ HP' Hloop) as [HP'' Hle'].
      split; [done|]. by eapply arena_le_trans.
    + by intros [= <-].
Qed.

Hypothesis starts_len : length (starts ins) = N.
Hypothesis starts_free : vertex_free N (starts ins).

Lemma initial_planner_inv mt : PInv (LaCAM2.initial_planner ins D objective mt).
Proof.
  unfold LaCAM2.initial_planner, HL.HNode_new. simpl.
  set (root := HL.HNode_init D (starts ins) None None 0 _).
  split; simpl.
  - split.
    + intros id node Hn. apply list_lookup_singleton_Some in Hn as [_ <-].
      by apply HNode_init_static.
    + intros id node L Hn HL. apply list_lookup_singleton_Some in Hn as [_ <-].
      simpl in HL. apply list_elem_of_singleton in HL as ->.
      split; [done|]. intros ? ? Hin. by apply elem_of_nil in Hin.
    + intros id node Hn. apply list_lookup_singleton_Some in Hn as [-> <-].
      split; simpl; [done|done|]. intros x Hx. by apply not_elem_of_empty in Hx.
    + by exists root.
  - intros c id. rewrite lookup_singleton_Some. intros [<- <-]. by exists root.
  - done.
  - apply scratch_init_ok.
Qed.

End Graph2.

(** * LaCAM: the search graph *)

(** On an undirected graph a valid joint move out of a collision-free
    configuration can be taken back. *)
Lemma valid_step_sym ins n C1 C2 :
  (forall u v, u ∈ neighbor ins v -> v ∈ neighbor ins u) ->
  vertex_free n C1 -> valid_step ins n C1 C2 -> valid_step ins n C2 C1.
Proof.
  intros Hsym Hfree (Hm & Hv & Hs). split; [|split].
  - intros i Hi. destruct (Hm i Hi) as [E|Hin]; [by left|right; by apply Hsym].
  - done.
  - intros i j Hi Hj Hij [E1 E2]. by apply (Hs i j Hi Hj Hij).
Qed.

Section Graph1.
Context `{RT : Runtime}.
Variable ins : Instance.
Variable D : DistTable.
Variable objective : Objective.
Variable RESTART_RATE : float.

Let N := ins_N ins.

Hypothesis G_sym : forall u v, u ∈ neighbor ins v -> v ∈ neighbor ins u.

Local Notation static_ok := (static_ok (ins:=ins)).
Local Notation tree_ok := (tree_ok (ins:=ins) (rv:=false)).
Local Notation links_ok := (links_ok (ins:=ins)).
Local Notation arena_ok := (arena_ok (ins:=ins) (rv:=false)).

(** *** Cost rewriting *)

Lemma relax1_arena S T U S0 nodes Q W :
  arena_ok nodes ->
  (exists nu, nodes !! U = Some nu /\ HL.neighbor_set nu = S0) ->
  W ∈ S0 ->
  let r := LaCAM.relax ins objective S T U (nodes, Q) W in
  arena_ok r.1 /\ arena_le nodes r.1 /\
  (exists nu, r.1 !! U = Some nu /\ HL.neighbor_set nu = S0).
Proof.
  intros Ha (nu & Hnu & HS) Hin. unfold LaCAM.relax.
  destruct (bool_decide (U = S) && bool_decide (W ≠ T));
    [simpl; split; [done|split; [apply arena_le_refl|by exists nu]]|].
  rewrite Hnu.
  destruct (nodes !! W) as [nw|] eqn:Hnw;
    [|simpl; split; [done|split; [apply arena_le_refl|by exists nu]]].
  set (c := u32 (HL.g nu + _)).
  destruct (c <? HL.g nw) eqn:Hlt;
    [|simpl; split; [done|split; [apply arena_le_refl|by exists nu]]].
  apply Z.ltb_lt in Hlt. simpl.
  split; [|split].
  - apply (arena_update nodes W nw); try done.
    + intros L HL. apply (tree_ok_same nw); [done|done|]. by eapply ar_tree.
    + destruct (ar_links _ Ha _ _ Hnw) as [Hp Hr Hn]. split; simpl; [|done|done].
      intros pid [= <-]. exists nu. split; [done|].
      destruct (lk_neighbor _ _ _ (ar_links _ Ha _ _ Hnu) W) as (xn & Hxn & Hv).
      { by rewrite HS. }
      assert (xn = nw) as -> by congruence. done.
    + intros ->. destruct (ar_root _ Ha) as (r & Hr & _ & _ & Hg).
      assert (r = nw) as -> by congruence.
      pose proof (u32_nonneg (HL.g nu +
        LaCAM.get_edge_cost ins objective (HL.C nu) (HL.C nw))).
      fold c in H. lia.
  - apply (arena_le_insert nodes W nw); simpl; try done. lia.
  - pose proof (lookup_lt_Some _ _ _ Hnw).
    destruct (decide (W = U)) as [->|Hne].
    + eexists. rewrite list_lookup_insert_eq by done. split; [done|].
      simpl. congruence.
    + exists nu. by rewrite list_lookup_insert_ne.
Qed.

Lemma relax1_fold_arena S T U S0 nbrs : forall nodes Q,
  arena_ok nodes ->
  (exists nu, nodes !! U = Some nu /\ HL.neighbor_set nu = S0) ->
  (forall x, x ∈ nbrs -> x ∈ S0) ->
  let r := fold_left (LaCAM.relax ins objective S T U) nbrs (nodes, Q) in
  arena_ok r.1 /\ arena_le nodes r.1.
Proof.
  induction nbrs as [|x nbrs IH]; intros nodes Q Ha Hnu Hsub; cbn [fold_left].
  - split; [done|apply arena_le_refl].
  - destruct (relax1_arena S T U S0 nodes Q x Ha Hnu) as (Ha' & Hle & Hnu').
    { apply Hsub. by left. }
    destruct (LaCAM.relax ins objective S T U (nodes, Q) x) as [nodes' Q'].
    cbn [fst snd] in *.
    destruct (IH nodes' Q' Ha' Hnu') as [Ha'' Hle'].
    { intros y Hy. apply Hsub. by right. }
    split; [done|]. by eapply arena_le_trans.
Qed.

Lemma rewrite_loop1_arena fuel S T : forall Q nodes r,
  LaCAM.rewrite_loop ins objective fuel S T nodes Q = Some r ->
  arena_ok nodes ->
  arena_ok r /\ arena_le nodes r.
Proof.
  induction fuel as [|fuel IH]; intros Q nodes r; destruct Q as [|U Q];
    simpl; try done.
  - intros [= <-] Ha. split; [done|apply arena_le_refl].
  - intros [= <-] Ha. split; [done|apply arena_le_refl].
  - intros Hrun Ha.
    destruct (nodes !! U) as [nu|] eqn:Hnu.
    + destruct (relax1_fold_arena S T U (HL.neighbor_set nu)
                  (set_iter (HL.neighbor_set nu)) nodes Q Ha) as [Ha' Hle].
      { by exists nu. }
      { intros x. apply set_iter_elem. }
      destruct (fold_left _ _ _) as [nodes' Q']. simpl in *.
      destruct (IH _ _ _ Hrun Ha') as [Ha'' Hle'].
      split; [done|]. by eapply arena_le_trans.
    + simpl in Hrun. by apply IH in Hrun.
Qed.

(** [rewrite(S, T)] after [get_new_config] led from the first to the
    second: the edge is entered in both directions. *)
Lemma rewrite1_arena fuel S T nodes r ns nt :
  LaCAM.rewrite ins objective fuel S T nodes = Some r ->
  arena_ok nodes -> nodes !! S = Some ns -> nodes !! T = Some nt ->
  valid_step ins N (HL.C ns) (HL.C nt) ->
  arena_ok r /\ arena_le nodes r.
Proof.
  unfold LaCAM.rewrite. intros Hrun Ha Hs Ht Hv.
  set (nodes1 := alter (LaCAM.link T) S nodes) in *.
  assert (arena_ok nodes1) as Ha1.
  { by apply (arena_add_neighbor nodes S ns T nt). }
  assert (arena_le nodes nodes1) as Hle1.
  { unfold nodes1. rewrite (alter_as_insert _ _ _ _ Hs).
    by apply (arena_le_insert nodes S ns). }
  destruct (Hle1 _ _ Hs) as (ns1 & Hs1 & HCs & _).
  destruct (Hle1 _ _ Ht) as (nt1 & Ht1 & HCt & _).
  set (nodes2 := alter (LaCAM.link S) T nodes1) in *.
  assert (arena_ok nodes2) as Ha2.
  { apply (arena_add_neighbor nodes1 T nt1 S ns1); try done.
    rewrite HCs, HCt. apply valid_step_sym; [done| |done].
    by destruct (ar_static _ Ha _ _ Hs). }
  assert (arena_le nodes nodes2) as Hle2.
  { eapply arena_le_trans; [exact Hle1|].
    unfold nodes2. rewrite (alter_as_insert _ _ _ _ Ht1).
    by apply (arena_le_insert nodes1 T nt1). }
  revert Hrun.
  destruct (nodes2 !! S) as [ns2|]; [|done].
  destruct (nodes2 !! T) as [nt2|]; [|done].
  destruct (HL.g nt2 <=? _).
  - by intros [= <-].
  - intros Hloop. apply rewrite_loop1_arena in Hloop; [|done].
    destruct Hloop as [Ha3 Hle3]. split; [done|]. by eapply arena_le_trans.
Qed.

(** *** Low-level expansion *)

Lemma expand_lowlevel_tree1_ok node tree (M : list (nat * nat)) s :
  static_ok node -> tree_ok node M ->
  (forall L', L' ∈ tree -> tree_ok node L') ->
  tables_ok N s ->
  let r := LaCAM.expand_lowlevel_tree ins (HL.set_search_tree tree node) M s in
  (forall L', L' ∈ r.1 -> tree_ok node L') /\ tables_ok N r.2.
Proof.
  intros Hst HL Htree Hs. unfold LaCAM.expand_lowlevel_tree. fold N. simpl.
  case_bool_decide as Hd; simpl; [done|].
  set (i := nth (LaCAM.depth M) (HL.order node) 0%nat).
  set (C0 := neighbor ins (cfg_at (HL.C node) i) ++ [cfg_at (HL.C node) i]).
  assert (HL.order node !! length M = Some i) as Hi.
  { unfold i, LaCAM.depth. rewrite nth_lookup.
    destruct (lookup_lt_is_Some_2 (HL.order node) (length M)) as [x Hx].
    - rewrite (static_order_length node Hst). unfold LaCAM.depth in Hd. lia.
    - by rewrite Hx. }
  assert (forall C1 L', Permutation C0 C1 ->
            L' ∈ HL.search_tree (HL.set_search_tree tree node)
                   ++ map (fun v => LaCAM.Constraint_new M i v) C1 ->
            tree_ok node L') as Hnew.
  { intros C1 L' Hperm [Hin|Hin]%elem_of_app; [by apply Htree|].
    apply list_elem_of_fmap in Hin as (v & -> & Hv).
    rewrite <- Hperm in Hv. destruct HL as [Hwho Hwhere]. split.
    - unfold LaCAM.Constraint_new. rewrite fmap_app, length_app, Nat.add_1_r.
      cbn [length fmap list_fmap fst]. rewrite Hwho.
      by rewrite (take_S_r _ _ _ Hi).
    - unfold LaCAM.Constraint_new.
      intros i' l' [Hin|Hin]%elem_of_app; [by apply Hwhere|].
      apply list_elem_of_singleton in Hin as [= -> ->].
      unfold C0 in Hv. apply elem_of_app in Hv as [Hv|Hv]; [by right|].
      apply list_elem_of_singleton in Hv. by left. }
  destruct (MT s) as [r|] eqn:Hmt.
  - pose proof (std_shuffle_perm r C0) as Hperm.
    destruct (std_shuffle r C0) as [C1 r']. simpl in *. split.
    + intros L'. by apply Hnew.
    + by apply (tables_ok_tables N s).
  - simpl. split; [|done]. intros L'. by apply Hnew.
Qed.

(** *** The planner *)

Record PInv1 (p : LaCAM.Planner) : Prop := {
  pi1_arena : arena_ok (LaCAM.nodes p);
  pi1_closed : forall c id, LaCAM.CLOSED p !! c = Some id ->
    exists node, LaCAM.nodes p !! id = Some node /\ HL.C node = c;
  pi1_goal : forall gl, LaCAM.S_goal p = Some gl ->
    exists node, LaCAM.nodes p !! gl = Some node /\ HL.C node = goals ins;
  pi1_scratch : tables_ok N (LaCAM.scratch p)
}.

Definition step_planner1 (st : LaCAM.Step) : LaCAM.Planner :=
  match st with
  | LaCAM.Continue p => p
  | LaCAM.Break p => p
  end.

Lemma PInv1_le p nodes' OPEN' cnt s' :
  PInv1 p -> arena_ok nodes' -> arena_le (LaCAM.nodes p) nodes' -> tables_ok N s' ->
  PInv1 (LaCAM.mkPlanner nodes' OPEN' (LaCAM.CLOSED p) (LaCAM.S_goal p) cnt s').
Proof.
  intros [Ha He Hg Hs] Ha' Hle Hs'. split; simpl; [done| |  |done].
  - intros c id Hc. destruct (He c id Hc) as (node & Hn & HC).
    destruct (Hle _ _ Hn) as (node' & Hn' & HC' & _). exists node'. split; congruence.
  - intros gl Hgl. destruct (Hg gl Hgl) as (node & Hn & HC).
    destruct (Hle _ _ Hn) as (node' & Hn' & HC' & _). exists node'. split; congruence.
Qed.

Lemma draw_float_tables s x s' :
  LaCAM.draw_float s = Some (x, s') ->
  v_now s' = v_now s /\ v_next s' = v_next s /\
  occupied_now s' = occupied_now s /\ occupied_next s' = occupied_next s.
Proof.
  unfold LaCAM.draw_float. destruct (MT s) as [r|]; [|done].
  destruct (get_random_float r). by intros [= _ <-].
Qed.

(** One iteration of the main loop keeps the planner well formed and
    never increases a cost. *)
Lemma solve_step1_inv fuel p S rest st :
  PInv1 p ->
  LaCAM.solve_step ins D objective RESTART_RATE fuel p S rest = Some st ->
  PInv1 (step_planner1 st) /\
  arena_le (LaCAM.nodes p) (LaCAM.nodes (step_planner1 st)).
Proof.
  intros HP. unfold LaCAM.solve_step.
  destruct (LaCAM.nodes p !! S) as [node|] eqn:Hnode; simpl; [|done].
  pose proof HP as [Ha He Hg Hs].
  case_bool_decide as Hempty.
  { intros [= <-]. simpl. split; [|apply arena_le_refl].
    apply PInv1_le; try done. apply arena_le_refl. }
  destruct (bool_decide (LaCAM.S_goal p = None)
            && is_same_config (HL.C node) (goals ins)) eqn:Hgoal.
  { apply andb_true_iff in Hgoal as [_ Hsame]. apply bool_decide_eq_true in Hsame.
    assert (PInv1 (LaCAM.mkPlanner (LaCAM.nodes p) (LaCAM.OPEN p) (LaCAM.CLOSED p)
                     (Some S) (LaCAM.loop_cnt p + 1) (LaCAM.scratch p))) as HP'.
    { split; simpl; try done. intros gl [= <-]. by exists node. }
    destruct (bool_decide (objective = OBJ_NONE)); intros [= <-]; simpl;
      (split; [done|apply arena_le_refl]). }
  clear Hgoal.
  destruct (HL.search_tree node) as [|M tree] eqn:Htree; [done|]. clear Hempty.
  pose proof (ar_static _ Ha _ _ Hnode) as Hst.
  assert (tree_ok node M) as HM.
  { apply (ar_tree _ Ha S node M Hnode). rewrite Htree. by left. }
  destruct (expand_lowlevel_tree1_ok node tree M (LaCAM.scratch p) Hst HM) as [Htree' Hs1];
    [|done|].
  { intros L' HL'. apply (ar_tree _ Ha S node L' Hnode). rewrite Htree. by right. }
  destruct (LaCAM.expand_lowlevel_tree ins _ M (LaCAM.scratch p)) as [tree' s1].
  simpl in Htree', Hs1.
  set (nodes1 := <[S := HL.set_search_tree tree' node]> (LaCAM.nodes p)).
  assert (arena_ok nodes1) as Ha1 by (by apply arena_set_search_tree).
  assert (arena_le (LaCAM.nodes p) nodes1) as Hle1
    by (by apply (arena_le_insert _ S node)).
  assert (nodes1 !! S = Some (HL.set_search_tree tree' node)) as Hnode1.
  { unfold nodes1. rewrite list_lookup_insert_eq; [done|]. by eapply lookup_lt_Some. }
  destruct (LaCAM.get_new_config ins D fuel (HL.C node) (HL.order node) M s1)
    as [[ok s2]|] eqn:Hcfg; simpl; [|done].
  apply (get_new_config1_valid ins D (HL.C node)) in Hcfg; try done.
  2:{ by destruct Hst. }
  2:{ by apply (tree_lnode_ok (rv:=false)). }
  2:{ intros k. by apply static_order_lt. }
  fold N in Hcfg. destruct Hcfg as [Hs2 Hvalid]. simpl in Hs2, Hvalid.
  destruct ok; simpl.
  2:{ intros [= <-]. simpl. split; [|done]. by apply PInv1_le. }
  specialize (Hvalid eq_refl). fold N.
  set (C_new := read_config N s2) in *.
  destruct (LaCAM.CLOSED p !! C_new) as [hit|] eqn:Hhit.
  - destruct (He _ _ Hhit) as (hn & Hhn & HhC).
    destruct (Hle1 _ _ Hhn) as (hn1 & Hhn1 & HhC1 & _).
    destruct (LaCAM.rewrite ins objective fuel S hit nodes1) as [nodes2|] eqn:Hrw;
      simpl; [|done].
    assert (valid_step ins N (HL.C (HL.set_search_tree tree' node)) (HL.C hn1)) as Hv1.
    { simpl. rewrite HhC1, HhC. done. }
    destruct (rewrite1_arena fuel S hit nodes1 _ _ hn1 Hrw Ha1 Hnode1 Hhn1 Hv1)
      as [Ha2 Hle2].
    destruct (LaCAM.draw_float s2) as [[x s3]|] eqn:Hdraw; simpl; [|done].
    destruct (draw_float_tables s2 x s3 Hdraw) as (E1 & E2 & E3 & E4).
    intros [= <-]. simpl.
    assert (arena_le (LaCAM.nodes p) nodes2) as Hle by (by eapply arena_le_trans).
    split; [|done]. apply PInv1_le; try done. by apply (tables_ok_tables N s2).
  - intros [= <-]. simpl. unfold LaCAM.Node_new.
    assert (length C_new = N) as Hlen by apply read_config_length.
    set (g_new := u32 _). set (h_new := LaCAM.get_h_value ins D objective C_new).
    pose proof (arena_HNode_new (D:=D) nodes1 S _ C_new g_new h_new Ha1 Hnode1 Hlen Hvalid)
      as Ha2.
    destruct (HNode_new_le (D:=D) nodes1 S _ C_new g_new h_new Hnode1)
      as [Hle2 (new & Hnew & HnC & _)].
    assert (arena_le (LaCAM.nodes p)
              (HL.HNode_new D nodes1 C_new (Some S) g_new h_new)) as Hle
      by (by eapply arena_le_trans).
    split; [|done]. split; simpl; try done.
    + intros c id. rewrite lookup_insert_Some. intros [[<- <-]|[_ Hc]].
      * by exists new.
      * destruct (He c id Hc) as (nd & Hn & HC).
        destruct (Hle _ _ Hn) as (nd' & Hn' & HC' & _). exists nd'. split; congruence.
    + intros gl Hgl. destruct (Hg gl Hgl) as (nd & Hn & HC).
      destruct (Hle _ _ Hn) as (nd' & Hn' & HC' & _). exists nd'. split; congruence.
Qed.

Lemma solve_loop1_inv fuel deadline : forall p p',
  PInv1 p ->
  LaCAM.solve_loop ins D objective RESTART_RATE fuel deadline p = Some p' ->
  PInv1 p' /\ arena_le (LaCAM.nodes p) (LaCAM.nodes p').
Proof.
  induction deadline as [|deadline IH]; intros p p' HP; simpl.
  - destruct (LaCAM.OPEN p); intros [= <-]; (split; [done|apply arena_le_refl]).
  - destruct (LaCAM.OPEN p) as [|S rest].
    { intros [= <-]. split; [done|apply arena_le_refl]. }
    destruct (LaCAM.solve_step ins D objective RESTART_RATE fuel p S rest)
      as [st|] eqn:Hstep; [|done].
    destruct (solve_step1_inv fuel p S rest st HP Hstep) as [HP' Hle].
    destruct st as [p1|p1]; simpl in *.
    + intros Hloop. destruct (IH _ _ HP' Hloop) as [HP'' Hle'].
      split; [done|]. by eapply arena_le_trans.
    + by intros [= <-].
Qed.

Hypothesis starts_len : length (starts ins) = N.
Hypothesis starts_free : vertex_free N (starts ins).

Lemma initial_planner1_inv mt : PInv1 (LaCAM.initial_planner ins D objective mt).
Proof.
  unfold LaCAM.initial_planner, LaCAM.Node_new, HL.HNode_new. simpl.
  set (root := HL.HNode_init D (starts ins) None None 0 _).
  split; simpl.
  - split.
    + intros id node Hn. apply list_lookup_singleton_Some in Hn as [_ <-].
      by apply HNode_init_static.
    + intros id node L Hn HL. apply list_lookup_singleton_Some in Hn as [_ <-].
      simpl in HL. apply list_elem_of_singleton in HL as ->.
      split; [done|]. intros ? ? Hin. by apply elem_of_nil in Hin.
    + intros id node Hn. apply list_lookup_singleton_Some in Hn as [-> <-].
      split; simpl; [done|done|]. intros x Hx. by apply not_elem_of_empty in Hx.
    + by exists root.
  - intros c id. rewrite lookup_singleton_Some. intros [<- <-]. by exists root.
  - done.
  - apply scratch_init_ok.
Qed.

End Graph1.

(** * LaCAM2: costs along the parent pointers *)

Section EdgeCost2.
Variable ins : Instance.
Variable objective : Objective.

Let N := ins_N ins.
Let Nmax := Z.max (Z.of_nat N) 1.

Hypothesis N_small : Z.of_nat N < UINT_MOD.

Lemma get_edge_cost2_bounds C1 C2 :
  0 <= LaCAM2.get_edge_cost ins objective C1 C2 <= Nmax.
Proof.
  unfold LaCAM2.get_edge_cost. fold N.
  destruct objective.
  - pose proof (count_loop_bounds
      (fun i => bool_decide (cfg_at C1 i ≠ cfg_at C2 i)) N N_small). lia.
  - lia.
  - pose proof (count_loop_bounds
      (fun i => bool_decide (cfg_at C1 i ≠ cfg_at (goals ins) i)
                || bool_decide (cfg_at C2 i ≠ cfg_at (goals ins) i)) N N_small). lia.
Qed.

(** A move between different configurations costs something. *)
Lemma get_edge_cost2_pos C1 C2 :
  length C1 = N -> length C2 = N -> C1 <> C2 ->
  1 <= LaCAM2.get_edge_cost ins objective C1 C2.
Proof.
  intros H1 H2 Hne. destruct (config_differs N C1 C2 H1 H2 Hne) as (i & Hi & Hd).
  unfold LaCAM2.get_edge_cost. fold N.
  destruct objective; [|lia|].
  - apply (count_loop_pos _ N i); [done|done|]. by apply bool_decide_eq_true.
  - apply (count_loop_pos _ N i); [done|done|].
    apply orb_true_iff.
    destruct (decide (cfg_at C1 i = cfg_at (goals ins) i)) as [E|E].
    + right. apply bool_decide_eq_true. congruence.
    + left. by apply bool_decide_eq_true.
Qed.

End EdgeCost2.

Section Costs.
Context `{RT : Runtime} {ins : Instance} {D : DistTable}.

Local Notation N := (ins_N ins).
Local Notation Nmax := (Z.max (Z.of_nat (ins_N ins)) 1).

(** Costs are bounded by the age of the node, grow strictly along every
    parent pointer, and no two nodes hold the same configuration. *)
Record cost_ok (nodes : list HL.HNode) : Prop := {
  co_len : forall id node, nodes !! id = Some node -> length (HL.C node) = N;
  co_bound : forall id node, nodes !! id = Some node ->
    0 <= HL.g node <= Nmax * Z.of_nat id;
  co_parent : forall id node pid, nodes !! id = Some node ->
    HL.parent node = Some pid ->
    exists pn, nodes !! pid = Some pn /\ HL.g pn < HL.g node;
  co_inj : forall i j ni nj, nodes !! i = Some ni -> nodes !! j = Some nj ->
    HL.C ni = HL.C nj -> i = j
}.

(** Replacing a node by one with the same configuration, a cost that is
    not larger, and a parent of smaller cost. *)
Lemma cost_ok_update nodes i node node' :
  cost_ok nodes -> nodes !! i = Some node ->
  HL.C node' = HL.C node ->
  0 <= HL.g node' <= HL.g node ->
  (forall pid, HL.parent node' = Some pid ->
     exists pn, nodes !! pid = Some pn /\ pid <> i /\ HL.g pn < HL.g node') ->
  cost_ok (<[i := node']> nodes).
Proof.
  intros [Hlen Hb Hp Hinj] Hi HC Hg Hpar.
  pose proof (lookup_lt_Some _ _ _ Hi) as Hlt.
  assert (forall j nj, <[i := node']> nodes !! j = Some nj ->
            exists nj0, nodes !! j = Some nj0 /\ HL.C nj = HL.C nj0 /\
                        HL.g nj <= HL.g nj0 /\ (j <> i -> nj = nj0)) as Hold.
  { intros j nj. rewrite list_lookup_insert_Some.
    intros [(-> & <- & _)|[Hne Hj]].
    - exists node. repeat split; [done|done|lia|done].
    - exists nj. repeat split; [done|lia]. }
  split.
  - intros j nj Hj. destruct (Hold j nj Hj) as (nj0 & Hj0 & E & _). rewrite E. by eapply Hlen.
  - intros j nj Hj. destruct (Hold j nj Hj) as (nj0 & Hj0 & _ & Hle & Hsame).
    destruct (decide (j = i)) as [->|Hne].
    + apply list_lookup_insert_Some in Hj as [(_ & <- & _)|[? _]]; [|done].
      pose proof (Hb _ _ Hi). lia.
    + rewrite (Hsame Hne). by eapply Hb.
  - intros j nj pid Hj Hpid.
    destruct (decide (j = i)) as [->|Hne].
    + apply list_lookup_insert_Some in Hj as [(_ & <- & _)|[? _]]; [|done].
      destruct (Hpar pid Hpid) as (pn & Hpn & Hpi & Hlt').
      exists pn. by rewrite list_lookup_insert_ne.
    + rewrite list_lookup_insert_ne in Hj by done.
      destruct (Hp _ _ _ Hj Hpid) as (pn & Hpn & Hlt').
      destruct (decide (pid = i)) as [->|Hpi].
      * exists node'. rewrite list_lookup_insert_eq by done.
        assert (pn = node) as -> by congruence. split; [done|lia].
      * exists pn. by rewrite list_lookup_insert_ne.
  - intros j k nj nk Hj Hk E.
    destruct (Hold j nj Hj) as (nj0 & Hj0 & Ej & _).
    destruct (Hold k nk Hk) as (nk0 & Hk0 & Ek & _).
    apply (Hinj j k nj0 nk0); congruence.
Qed.

Lemma age_bound (id len : nat) (gv c : Z) :
  0 <= gv <= Nmax * Z.of_nat id -> (id < len)%nat -> 0 <= c <= Nmax ->
  Nmax * Z.of_nat len < UINT_MOD ->
  0 <= gv + c <= Nmax * Z.of_nat (S id) /\ gv + c < UINT_MOD.
Proof.
  intros Hg Hid Hc Hlen.
  assert (0 <= Nmax) by (lia).
  assert (Nmax * Z.of_nat (S id) <= Nmax * Z.of_nat len)
    by (apply Z.mul_le_mono_nonneg_l; lia).
  assert (Nmax * Z.of_nat (S id) = Nmax * Z.of_nat id + Nmax) by lia.
  lia.
Qed.

Lemma N_small_of_bound (len : nat) :
  (0 < len)%nat -> Nmax * Z.of_nat len < UINT_MOD -> Z.of_nat N < UINT_MOD.
Proof.
  intros Hlen Hb.
  assert (Nmax * 1 <= Nmax * Z.of_nat len)
    by (apply Z.mul_le_mono_nonneg_l; lia).
  lia.
Qed.

Lemma cost_ok_same nodes i node node' :
  cost_ok nodes -> nodes !! i = Some node ->
  HL.C node' = HL.C node -> HL.g node' = HL.g node ->
  HL.parent node' = HL.parent node ->
  cost_ok (<[i := node']> nodes).
Proof.
  intros Hc Hi E1 E2 E3. apply (cost_ok_update nodes i node); try done.
  - rewrite E2. pose proof (co_bound _ Hc _ _ Hi). lia.
  - rewrite E2, E3. intros pid Hpid.
    destruct (co_parent _ Hc _ _ _ Hi Hpid) as (pn & Hpn & Hlt).
    exists pn. split; [done|]. split; [|done].
    intros ->. assert (pn = node) as -> by congruence. lia.
Qed.

(** A new node for a configuration not met before, reached by a move
    of cost [cost]. *)
Lemma cost_ok_HNode_new nodes i node Cn cost :
  cost_ok nodes -> nodes !! i = Some node -> length Cn = N ->
  (forall j nj, nodes !! j = Some nj -> HL.C nj <> Cn) ->
  Nmax * Z.of_nat (length nodes) < UINT_MOD ->
  1 <= cost <= Nmax ->
  forall h, cost_ok (HL.HNode_new D nodes Cn (Some i) (u32 (HL.g node + cost)) h).
Proof.
  intros Hc Hi Hlen Hfresh Hb Hcb h. unfold HL.HNode_new.
  set (new := HL.HNode_init D Cn (Some i) _ _ h).
  pose proof (lookup_lt_Some _ _ _ Hi) as Hlt.
  destruct (age_bound i (length nodes) (HL.g node) cost) as [Hsum Hsmall];
    [by eapply co_bound|done|lia|done|].
  assert (HL.g new = HL.g node + cost) as Hgnew.
  { unfold new. simpl. apply u32_small. lia. }
  cbv iota beta. rewrite (alter_as_insert _ _ _ _ Hi).
  set (nodes1 := <[i := HL.add_neighbor (length nodes) node]> nodes).
  assert (cost_ok nodes1) as Hc1 by (by apply (cost_ok_same nodes i node)).
  assert (length nodes1 = length nodes) as Hlen1 by apply length_insert.
  assert (nodes1 !! i = Some (HL.add_neighbor (length nodes) node)) as Hi1.
  { unfold nodes1. by rewrite list_lookup_insert_eq. }
  assert (forall j nj, nodes1 !! j = Some nj -> HL.C nj <> Cn) as Hfresh1.
  { intros j nj. unfold nodes1. rewrite list_lookup_insert_Some.
    intros [(Hji & <- & _)|[_ Hj]]; [apply (Hfresh i node Hi)|by eapply Hfresh]. }
  destruct Hc1 as [Hl1 Hb1 Hp1 Hinj1]. split.
  - intros j nj [Hj|[_ Hj]]%lookup_app_Some; [by eapply Hl1|].
    by apply list_lookup_singleton_Some in Hj as [_ <-].
  - intros j nj [Hj|[Hge Hj]]%lookup_app_Some; [by eapply Hb1|].
    apply list_lookup_singleton_Some in Hj as [Hj <-].
    assert (j = length nodes) as -> by lia. rewrite Hgnew.
    assert (Nmax * Z.of_nat (S i) <= Nmax * Z.of_nat (length nodes))
      by (apply Z.mul_le_mono_nonneg_l; lia).
    lia.
  - intros j nj pid [Hj|[Hge Hj]]%lookup_app_Some Hpid.
    + destruct (Hp1 _ _ _ Hj Hpid) as (pn & Hpn & Hlt').
      exists pn. split; [by apply lookup_app_l_Some|done].
    + apply list_lookup_singleton_Some in Hj as [Hj <-]. simpl in Hpid.
      injection Hpid as <-. exists (HL.add_neighbor (length nodes) node).
      split; [by apply lookup_app_l_Some|]. rewrite Hgnew. simpl. lia.
  - intros j k nj nk [Hj|[Hjge Hj]]%lookup_app_Some [Hk|[Hkge Hk]]%lookup_app_Some E.
    + by eapply Hinj1.
    + apply list_lookup_singleton_Some in Hk as [_ <-]. by destruct (Hfresh1 _ _ Hj).
    + apply list_lookup_singleton_Some in Hj as [_ <-]. by destruct (Hfresh1 _ _ Hk).
    + apply list_lookup_singleton_Some in Hj as [Hj _].
      apply list_lookup_singleton_Some in Hk as [Hk _]. lia.
Qed.

Lemma arena_le_back nodes nodes' id node' :
  arena_le nodes nodes' -> (id < length nodes)%nat -> nodes' !! id = Some node' ->
  exists node, nodes !! id = Some node /\ HL.C node' = HL.C node.
Proof.
  intros Hle Hid Hn'. destruct (lookup_lt_is_Some_2 nodes id Hid) as [node Hn].
  destruct (Hle _ _ Hn) as (node'' & Hn'' & HC & _).
  exists node. split; [done|congruence].
Qed.

(** *** The parent chain *)





End Costs.

Section Cost2.
Context `{RT : Runtime}.
Variable ins : Instance.
Variable D : DistTable.
Variable objective : Objective.
Variable RESTART_RATE : float.
Variable FLG_SWAP : bool.

Let N := ins_N ins.
Let Nmax := Z.max (Z.of_nat N) 1.

Local Notation cost_ok := (cost_ok (ins:=ins)).

Lemma relax_cost H_goal n_from nodes Q OPEN n_to :
  cost_ok nodes -> Nmax * Z.of_nat (length nodes) < UINT_MOD ->
  let r := LaCAM2.relax ins objective H_goal n_from (nodes, Q, OPEN) n_to in
  cost_ok r.1.1 /\ length r.1.1 = length nodes.
Proof.
  intros Hc Hb. unfold LaCAM2.relax.
  destruct (nodes !! n_from) as [nf|] eqn:Hnf; [|done].
  destruct (nodes !! n_to) as [nt|] eqn:Hnt; [|done].
  set (cost := LaCAM2.get_edge_cost ins objective (HL.C nf) (HL.C nt)).
  destruct (u32 (HL.g nf + cost) <? HL.g nt) eqn:Hlt; [|done].
  apply Z.ltb_lt in Hlt. simpl. split; [|by rewrite length_insert].
  pose proof (lookup_lt_Some _ _ _ Hnf) as Hfl.
  assert (Z.of_nat N < UINT_MOD) as HN by (apply (N_small_of_bound (ins:=ins) (length nodes)); [lia|done]).
  pose proof (get_edge_cost2_bounds ins objective HN (HL.C nf) (HL.C nt)) as Hcb.
  fold N Nmax cost in Hcb.
  destruct (age_bound (ins:=ins) n_from (length nodes) (HL.g nf) cost) as [Hsum Hsmall];
    [by eapply co_bound|done|done|done|].
  rewrite u32_small in Hlt |- * by lia.
  assert (HL.C nf <> HL.C nt) as Hdiff.
  { intros E. pose proof (co_inj _ Hc _ _ _ _ Hnf Hnt E) as ->.
    assert (nf = nt) as -> by congruence. lia. }
  assert (1 <= cost) as Hpos.
  { apply get_edge_cost2_pos; [done|by eapply co_len|by eapply co_len|done]. }
  apply (cost_ok_update nodes n_to nt); try done.
  - simpl. pose proof (co_bound _ Hc _ _ Hnf). lia.
  - simpl. intros pid [= <-]. exists nf. split; [done|].
    split; [|lia]. intros ->. apply Hdiff. congruence.
Qed.

Lemma relax_fold_cost H_goal n_from nbrs : forall nodes Q OPEN,
  cost_ok nodes -> Nmax * Z.of_nat (length nodes) < UINT_MOD ->
  let r := fold_left (LaCAM2.relax ins objective H_goal n_from) nbrs (nodes, Q, OPEN) in
  cost_ok r.1.1 /\ length r.1.1 = length nodes.
Proof.
  induction nbrs as [|x nbrs IH]; intros nodes Q OPEN Hc Hb; cbn [fold_left]; [done|].
  destruct (relax_cost H_goal n_from nodes Q OPEN x Hc Hb) as [Hc' Hlen].
  destruct (LaCAM2.relax ins objective H_goal n_from (nodes, Q, OPEN) x)
    as [[nodes' Q'] OPEN']. cbn [fst snd] in *.
  destruct (IH nodes' Q' OPEN' Hc') as [Hc'' Hlen']; [by rewrite Hlen|].
  split; [done|congruence].
Qed.

Lemma rewrite_loop_cost fuel H_goal : forall Q nodes OPEN r,
  LaCAM2.rewrite_loop ins objective fuel H_goal nodes Q OPEN = Some r ->
  cost_ok nodes -> Nmax * Z.of_nat (length nodes) < UINT_MOD ->
  cost_ok r.1 /\ length r.1 = length nodes.
Proof.
  induction fuel as [|fuel IH]; intros Q nodes OPEN r; destruct Q as [|n_from Q];
    simpl; try done.
  - by intros [= <-].
  - by intros [= <-].
  - intros Hrun Hc Hb.
    set (nbrs := match nodes !! n_from with Some nf => _ | None => _ end) in *.
    destruct (relax_fold_cost H_goal n_from nbrs nodes Q OPEN Hc Hb) as [Hc' Hlen].
    destruct (fold_left _ _ _) as [[nodes' Q'] OPEN']. simpl in *.
    destruct (IH _ _ _ _ Hrun Hc') as [Hc'' Hlen']; [by rewrite Hlen|].
    split; [done|congruence].
Qed.

Lemma rewrite_cost fuel H_from H_to H_goal nodes OPEN r nf :
  LaCAM2.rewrite ins objective fuel H_from H_to H_goal nodes OPEN = Some r ->
  cost_ok nodes -> nodes !! H_from = Some nf ->
  Nmax * Z.of_nat (length nodes) < UINT_MOD ->
  cost_ok r.1 /\ length r.1 = length nodes.
Proof.
  unfold LaCAM2.rewrite. intros Hrun Hc Hf Hb.
  apply rewrite_loop_cost in Hrun.
  - rewrite length_alter in Hrun. done.
  - rewrite (alter_as_insert _ _ _ _ Hf). by apply (cost_ok_same nodes H_from nf).
  - by rewrite length_alter.
Qed.

(** *** The planner *)

(** Every node of the arena is the entry of its configuration in
    [EXPLORED]. *)
Definition explored_all (p : LaCAM2.Planner) : Prop :=
  forall id node, LaCAM2.nodes p !! id = Some node ->
    LaCAM2.EXPLORED p !! HL.C node = Some id.

Record CInv (p : LaCAM2.Planner) : Prop := {
  ci_cost : cost_ok (LaCAM2.nodes p);
  ci_explored : explored_all p
}.

(** An iteration either leaves the arena and [EXPLORED] as large as they
    were, or adds one node for a configuration not met before. *)
Definition step_shape (p p' : LaCAM2.Planner) : Prop :=
  (length (LaCAM2.nodes p') = length (LaCAM2.nodes p) /\
   LaCAM2.EXPLORED p' = LaCAM2.EXPLORED p) \/
  (exists Cn new,
     LaCAM2.EXPLORED p !! Cn = None /\
     LaCAM2.EXPLORED p' = <[Cn := length (LaCAM2.nodes p)]> (LaCAM2.EXPLORED p) /\
     length (LaCAM2.nodes p') = S (length (LaCAM2.nodes p)) /\
     LaCAM2.nodes p' !! length (LaCAM2.nodes p) = Some new /\ HL.C new = Cn).

Lemma explored_all_step p p' :
  explored_all p -> arena_le (LaCAM2.nodes p) (LaCAM2.nodes p') -> step_shape p p' ->
  explored_all p'.
Proof.
  intros He Hle [[Hlen HE]|(Cn & new & Hnone & HE & Hlen & Hnew & HC)] id node' Hn'.
  - pose proof (lookup_lt_Some _ _ _ Hn') as Hlt. rewrite Hlen in Hlt.
    destruct (arena_le_back _ _ _ _ Hle Hlt Hn') as (node & Hn & E).
    rewrite HE, E. by apply He.
  - pose proof (lookup_lt_Some _ _ _ Hn') as Hlt. rewrite Hlen in Hlt.
    rewrite HE. destruct (decide (id = length (LaCAM2.nodes p))) as [->|Hne].
    + assert (node' = new) as -> by congruence. rewrite HC. apply lookup_insert_eq.
    + assert (id < length (LaCAM2.nodes p))%nat as Hlt' by lia.
      destruct (arena_le_back _ _ _ _ Hle Hlt' Hn') as (node & Hn & E).
      rewrite E. pose proof (He _ _ Hn) as Hex.
      rewrite lookup_insert_ne; [done|]. intros Heq. rewrite Heq in Hnone. congruence.
Qed.

Lemma solve_step_cost fuel p H rest st :
  CInv p -> Nmax * Z.of_nat (length (LaCAM2.nodes p)) < UINT_MOD ->
  LaCAM2.solve_step ins D objective RESTART_RATE FLG_SWAP fuel p H rest = Some st ->
  cost_ok (LaCAM2.nodes (step_planner st)) /\ step_shape p (step_planner st).
Proof.
  intros [Hc He] Hb. unfold LaCAM2.solve_step.
  destruct (LaCAM2.nodes p !! H) as [node|] eqn:Hnode; simpl; [|done].
  case_bool_decide as Hempty.
  { intros [= <-]. simpl. split; [done|by left]. }
  destruct (match LaCAM2.H_goal p with Some _ => _ | None => _ end).
  { intros [= <-]. simpl. split; [done|by left]. }
  destruct (bool_decide (LaCAM2.H_goal p = None)
            && is_same_config (HL.C node) (goals ins)).
  { intros [= <-]. simpl. split; [done|by left]. }
  destruct (HL.search_tree node) as [|L tree] eqn:Htree; [done|]. clear Hempty.
  destruct (LaCAM2.expand_lowlevel_tree ins _ L (LaCAM2.scratch p)) as [tree' s1].
  set (nodes1 := <[H := HL.set_search_tree tree' node]> (LaCAM2.nodes p)).
  assert (cost_ok nodes1) as Hc1 by (by apply (cost_ok_same _ H node)).
  assert (length nodes1 = length (LaCAM2.nodes p)) as Hlen1 by apply length_insert.
  assert (nodes1 !! H = Some (HL.set_search_tree tree' node)) as Hnode1.
  { unfold nodes1. rewrite list_lookup_insert_eq; [done|]. by eapply lookup_lt_Some. }
  destruct (LaCAM2.get_new_config ins D FLG_SWAP fuel (HL.C node) (HL.order node)
              L s1) as [[ok s2]|]; simpl; [|done].
  destruct ok; simpl.
  2:{ intros [= <-]. simpl. split; [done|by left]. }
  fold N. set (C_new := read_config N s2).
  destruct (LaCAM2.EXPLORED p !! C_new) as [hit|] eqn:Hhit.
  - destruct (LaCAM2.rewrite ins objective fuel H hit (LaCAM2.H_goal p) nodes1
                (LaCAM2.OPEN p)) as [[nodes2 OPEN2]|] eqn:Hrw; simpl; [|done].
    destruct (rewrite_cost fuel H hit _ nodes1 _ _ _ Hrw Hc1 Hnode1) as [Hc2 Hlen2];
      [by rewrite Hlen1|].
    destruct (LaCAM2.choose_insert RESTART_RATE s2 hit LaCAM2.H_init) as [H_insert s3].
    intros [= <-]. simpl. simpl in Hc2, Hlen2.
    split; [done|]. left. simpl. split; [congruence|done].
  - intros [= <-]. simpl.
    assert (length C_new = N) as HlenC by apply read_config_length.
    split.
    + assert (Z.of_nat N < UINT_MOD) as HN.
      { apply (N_small_of_bound (ins:=ins) (length (LaCAM2.nodes p))); [|done].
        apply lookup_lt_Some in Hnode. lia. }
      assert (forall j nj, nodes1 !! j = Some nj -> HL.C nj <> C_new) as Hfresh.
      { intros j nj. unfold nodes1. rewrite list_lookup_insert_Some.
        intros [(Hj & <- & _)|[_ Hj]] E.
        - simpl in E. rewrite <- E in Hhit. by rewrite (He _ _ Hnode) in Hhit.
        - rewrite <- E in Hhit. by rewrite (He _ _ Hj) in Hhit. }
      apply (cost_ok_HNode_new (D:=D) nodes1 H (HL.set_search_tree tree' node));
        try done; try (by rewrite Hlen1).
      split.
      * apply get_edge_cost2_pos; [done| |done|].
        -- simpl. by eapply (co_len _ Hc).
        -- apply (Hfresh H _ Hnode1).
      * by apply get_edge_cost2_bounds.
    + right. destruct (HNode_new_le (D:=D) nodes1 H _ C_new
        (u32 (HL.g node + LaCAM2.get_edge_cost ins objective (HL.C node) C_new))
        (LaCAM2.get_h_value ins D objective C_new) Hnode1) as [_ (new & Hnew & HnC & _)].
      exists C_new, new. simpl. rewrite <- Hlen1. repeat split; try done.
      unfold HL.HNode_new. by rewrite length_app, length_alter, Nat.add_1_r.
Qed.

Hypothesis G_sym :
  FLG_SWAP = true -> forall u v, u ∈ neighbor ins v -> v ∈ neighbor ins u.
Hypothesis starts_len : length (starts ins) = N.
Hypothesis starts_free : vertex_free N (starts ins).

Lemma solve_loop_cost fuel deadline : forall p p',
  PInv ins p -> CInv p ->
  Nmax * Z.of_nat (length (LaCAM2.nodes p) + deadline) < UINT_MOD ->
  LaCAM2.solve_loop ins D objective RESTART_RATE FLG_SWAP fuel deadline p = Some p' ->
  CInv p'.
Proof.
  induction deadline as [|deadline IH]; intros p p' HP HC Hb; simpl.
  - by destruct (LaCAM2.OPEN p); intros [= <-].
  - destruct (LaCAM2.OPEN p) as [|H rest]; [by intros [= <-]|].
    destruct (LaCAM2.solve_step ins D objective RESTART_RATE FLG_SWAP fuel p H rest)
      as [st|] eqn:Hstep; [|done].
    assert (0 <= Nmax) as HNmax by (unfold Nmax; lia).
    assert (Nmax * Z.of_nat (length (LaCAM2.nodes p)) < UINT_MOD) as Hb0.
    { assert (Nmax * Z.of_nat (length (LaCAM2.nodes p))
              <= Nmax * Z.of_nat (length (LaCAM2.nodes p) + S deadline))
        by (apply Z.mul_le_mono_nonneg_l; lia). lia. }
    destruct (solve_step_inv ins D objective RESTART_RATE FLG_SWAP G_sym fuel p H rest st
                HP Hstep) as [HP' Hle].
    destruct (solve_step_cost fuel p H rest st HC Hb0 Hstep) as [Hc' Hshape].
    assert (CInv (step_planner st)) as HC'.
    { split; [done|]. eapply explored_all_step; [by destruct HC|done|done]. }
    destruct st as [p1|p1]; simpl in *.
    + apply IH; try done.
      assert (length (LaCAM2.nodes p1) <= S (length (LaCAM2.nodes p)))%nat as Hlen.
      { destruct Hshape as [[-> _]|(? & ? & _ & _ & -> & _)]; lia. }
      assert (Nmax * Z.of_nat (length (LaCAM2.nodes p1) + deadline)
              <= Nmax * Z.of_nat (length (LaCAM2.nodes p) + S deadline))
        by (apply Z.mul_le_mono_nonneg_l; lia). lia.
    + by intros [= <-].
Qed.

Lemma initial_planner_cost mt : CInv (LaCAM2.initial_planner ins D objective mt).
Proof.
  unfold LaCAM2.initial_planner, HL.HNode_new. simpl. split; [split|]; simpl.
  - intros id node Hn. by apply list_lookup_singleton_Some in Hn as [_ <-].
  - intros id node Hn. apply list_lookup_singleton_Some in Hn as [-> <-]. simpl. lia.
  - intros id node pid Hn. by apply list_lookup_singleton_Some in Hn as [_ <-].
  - intros i j ni nj Hi Hj _. apply list_lookup_singleton_Some in Hi as [-> _].
    by apply list_lookup_singleton_Some in Hj as [-> _].
  - intros id node Hn. apply list_lookup_singleton_Some in Hn as [-> <-]. simpl.
    apply lookup_singleton_eq.
Qed.

End Cost2.

(** * LaCAM: costs along the parent pointers *)

Section EdgeCost1.
Variable ins : Instance.
Variable objective : Objective.

Let N := ins_N ins.
Let Nmax := Z.max (Z.of_nat N) 1.

Hypothesis N_small : Z.of_nat N < UINT_MOD.

Lemma get_edge_cost1_bounds C1 C2 :
  0 <= LaCAM.get_edge_cost ins objective C1 C2 <= Nmax.
Proof.
  unfold LaCAM.get_edge_cost. fold N.
  destruct objective; [lia|lia|].
  pose proof (count_loop_bounds
    (fun i => bool_decide (cfg_at C1 i ≠ cfg_at (goals ins) i)
              || bool_decide (cfg_at C2 i ≠ cfg_at (goals ins) i)) N N_small). lia.
Qed.

(** A move between different configurations costs something. *)
Lemma get_edge_cost1_pos C1 C2 :
  length C1 = N -> length C2 = N -> C1 <> C2 ->
  1 <= LaCAM.get_edge_cost ins objective C1 C2.
Proof.
  intros H1 H2 Hne. destruct (config_differs N C1 C2 H1 H2 Hne) as (i & Hi & Hd).
  unfold LaCAM.get_edge_cost. fold N.
  destruct objective; [lia|lia|].
  apply (count_loop_pos _ N i); [done|done|].
  apply orb_true_iff.
  destruct (decide (cfg_at C1 i = cfg_at (goals ins) i)) as [E|E].
  - right. apply bool_decide_eq_true. congruence.
  - left. by apply bool_decide_eq_true.
Qed.

End EdgeCost1.

Section Cost1.
Context `{RT : Runtime}.
Variable ins : Instance.
Variable D : DistTable.
Variable objective : Objective.
Variable RESTART_RATE : float.

Let N := ins_N ins.
Let Nmax := Z.max (Z.of_nat N) 1.

Local Notation cost_ok := (cost_ok (ins:=ins)).

Lemma relax1_cost S T U nodes Q W :
  cost_ok nodes -> Nmax * Z.of_nat (length nodes) < UINT_MOD ->
  let r := LaCAM.relax ins objective S T U (nodes, Q) W in
  cost_ok r.1 /\ length r.1 = length nodes.
Proof.
  intros Hc Hb. unfold LaCAM.relax.
  destruct (bool_decide (U = S) && bool_decide (W ≠ T)); [done|].
  destruct (nodes !! U) as [nu|] eqn:Hnu; [|done].
  destruct (nodes !! W) as [nw|] eqn:Hnw; [|done].
  set (cost := LaCAM.get_edge_cost ins objective (HL.C nu) (HL.C nw)).
  destruct (u32 (HL.g nu + cost) <? HL.g nw) eqn:Hlt; [|done].
  apply Z.ltb_lt in Hlt. simpl. split; [|by rewrite length_insert].
  pose proof (lookup_lt_Some _ _ _ Hnu) as Hfl.
  assert (Z.of_nat N < UINT_MOD) as HN
    by (apply (N_small_of_bound (ins:=ins) (length nodes)); [lia|done]).
  pose proof (get_edge_cost1_bounds ins objective HN (HL.C nu) (HL.C nw)) as Hcb.
  fold N Nmax cost in Hcb.
  destruct (age_bound (ins:=ins) U (length nodes) (HL.g nu) cost) as [Hsum Hsmall];
    [by eapply co_bound|done|done|done|].
  rewrite u32_small in Hlt |- * by lia.
  assert (HL.C nu <> HL.C nw) as Hdiff.
  { intros E. pose proof (co_inj _ Hc _ _ _ _ Hnu Hnw E) as ->.
    assert (nu = nw) as -> by congruence. lia. }
  assert (1 <= cost) as Hpos.
  { apply get_edge_cost1_pos; [done|by eapply co_len|by eapply co_len|done]. }
  apply (cost_ok_update nodes W nw); try done.
  - simpl. pose proof (co_bound _ Hc _ _ Hnu). lia.
  - simpl. intros pid [= <-]. exists nu. split; [done|].
    split; [|lia]. intros ->. apply Hdiff. congruence.
Qed.

Lemma relax1_fold_cost S T U nbrs : forall nodes Q,
  cost_ok nodes -> Nmax * Z.of_nat (length nodes) < UINT_MOD ->
  let r := fold_left (LaCAM.relax ins objective S T U) nbrs (nodes, Q) in
  cost_ok r.1 /\ length r.1 = length nodes.
Proof.
  induction nbrs as [|x nbrs IH]; intros nodes Q Hc Hb; cbn [fold_left]; [done|].
  destruct (relax1_cost S T U nodes Q x Hc Hb) as [Hc' Hlen].
  destruct (LaCAM.relax ins objective S T U (nodes, Q) x) as [nodes' Q'].
  cbn [fst snd] in *.
  destruct (IH nodes' Q' Hc') as [Hc'' Hlen']; [by rewrite Hlen|].
  split; [done|congruence].
Qed.

Lemma rewrite_loop1_cost fuel S T : forall Q nodes r,
  LaCAM.rewrite_loop ins objective fuel S T nodes Q = Some r ->
  cost_ok nodes -> Nmax * Z.of_nat (length nodes) < UINT_MOD ->
  cost_ok r /\ length r = length nodes.
Proof.
  induction fuel as [|fuel IH]; intros Q nodes r; destruct Q as [|U Q];
    simpl; try done.
  - by intros [= <-].
  - by intros [= <-].
  - intros Hrun Hc Hb.
    set (nbrs := match nodes !! U with Some nu => _ | None => _ end) in *.
    destruct (relax1_fold_cost S T U nbrs nodes Q Hc Hb) as [Hc' Hlen].
    destruct (fold_left _ _ _) as [nodes' Q']. simpl in *.
    destruct (IH _ _ _ Hrun Hc') as [Hc'' Hlen']; [by rewrite Hlen|].
    split; [done|congruence].
Qed.

Lemma rewrite1_cost fuel S T nodes r ns :
  LaCAM.rewrite ins objective fuel S T nodes = Some r ->
  cost_ok nodes -> nodes !! S = Some ns ->
  Nmax * Z.of_nat (length nodes) < UINT_MOD ->
  cost_ok r /\ length r = length nodes.
Proof.
  unfold LaCAM.rewrite. intros Hrun Hc Hs Hb.
  set (nodes1 := alter (LaCAM.link T) S nodes) in *.
  assert (cost_ok nodes1) as Hc1.
  { unfold nodes1. rewrite (alter_as_insert _ _ _ _ Hs).
    by apply (cost_ok_same nodes S ns). }
  assert (length nodes1 = length nodes) as Hlen1 by apply length_alter.
  set (nodes2 := alter (LaCAM.link S) T nodes1) in *.
  assert (length nodes2 = length nodes) as Hlen2.
  { unfold nodes2. by rewrite length_alter. }
  destruct (nodes1 !! T) as [nt1|] eqn:Ht1.
  - assert (cost_ok nodes2) as Hc2.
    { unfold nodes2. rewrite (alter_as_insert _ _ _ _ Ht1).
      by apply (cost_ok_same nodes1 T nt1). }
    revert Hrun.
    destruct (nodes2 !! S) as [ns2|]; [|done].
    destruct (nodes2 !! T) as [nt2|]; [|done].
    destruct (HL.g nt2 <=? _).
    + by intros [= <-].
    + intros Hloop. apply rewrite_loop1_cost in Hloop; [|done|by rewrite Hlen2].
      destruct Hloop as [Hc3 Hlen3]. split; [done|congruence].
  - exfalso. revert Hrun. unfold nodes2 at 2.
    rewrite list_lookup_alter_eq, Ht1. simpl.
    by destruct (nodes2 !! S).
Qed.

(** *** The planner *)

Definition closed_all (p : LaCAM.Planner) : Prop :=
  forall id node, LaCAM.nodes p !! id = Some node ->
    LaCAM.CLOSED p !! HL.C node = Some id.

Record CInv1 (p : LaCAM.Planner) : Prop := {
  ci1_cost : cost_ok (LaCAM.nodes p);
  ci1_closed : closed_all p
}.

Definition step_shape1 (p p' : LaCAM.Planner) : Prop :=
  (length (LaCAM.nodes p') = length (LaCAM.nodes p) /\
   LaCAM.CLOSED p' = LaCAM.CLOSED p) \/
  (exists Cn new,
     LaCAM.CLOSED p !! Cn = None /\
     LaCAM.CLOSED p' = <[Cn := length (LaCAM.nodes p)]> (LaCAM.CLOSED p) /\
     length (LaCAM.nodes p') = S (length (LaCAM.nodes p)) /\
     LaCAM.nodes p' !! length (LaCAM.nodes p) = Some new /\ HL.C new = Cn).

Lemma closed_all_step p p' :
  closed_all p -> arena_le (LaCAM.nodes p) (LaCAM.nodes p') -> step_shape1 p p' ->
  closed_all p'.
Proof.
  intros He Hle [[Hlen HE]|(Cn & new & Hnone & HE & Hlen & Hnew & HC)] id node' Hn'.
  - pose proof (lookup_lt_Some _ _ _ Hn') as Hlt. rewrite Hlen in Hlt.
    destruct (arena_le_back _ _ _ _ Hle Hlt Hn') as (node & Hn & E).
    rewrite HE, E. by apply He.
  - pose proof (lookup_lt_Some _ _ _ Hn') as Hlt. rewrite Hlen in Hlt.
    rewrite HE. destruct (decide (id = length (LaCAM.nodes p))) as [->|Hne].
    + assert (node' = new) as -> by congruence. rewrite HC. apply lookup_insert_eq.
    + assert (id < length (LaCAM.nodes p))%nat as Hlt' by lia.
      destruct (arena_le_back _ _ _ _ Hle Hlt' Hn') as (node & Hn & E).
      rewrite E. pose proof (He _ _ Hn) as Hex.
      rewrite lookup_insert_ne; [done|]. intros Heq. rewrite Heq in Hnone. congruence.
Qed.

Lemma solve_step1_cost fuel p S rest st :
  CInv1 p -> Nmax * Z.of_nat (length (LaCAM.nodes p)) < UINT_MOD ->
  LaCAM.solve_step ins D objective RESTART_RATE fuel p S rest = Some st ->
  cost_ok (LaCAM.nodes (step_planner1 st)) /\ step_shape1 p (step_planner1 st).
Proof.
  intros [Hc He] Hb. unfold LaCAM.solve_step.
  destruct (LaCAM.nodes p !! S) as [node|] eqn:Hnode; simpl; [|done].
  case_bool_decide as Hempty.
  { intros [= <-]. simpl. split; [done|by left]. }
  destruct (bool_decide (LaCAM.S_goal p = None)
            && is_same_config (HL.C node) (goals ins)).
  { destruct (bool_decide (objective = OBJ_NONE)); intros [= <-]; simpl;
      (split; [done|by left]). }
  destruct (HL.search_tree node) as [|M tree] eqn:Htree; [done|]. clear Hempty.
  destruct (LaCAM.expand_lowlevel_tree ins _ M (LaCAM.scratch p)) as [tree' s1].
  set (nodes1 := <[S := HL.set_search_tree tree' node]> (LaCAM.nodes p)).
  assert (cost_ok nodes1) as Hc1 by (by apply (cost_ok_same _ S node)).
  assert (length nodes1 = length (LaCAM.nodes p)) as Hlen1 by apply length_insert.
  assert (nodes1 !! S = Some (HL.set_search_tree tree' node)) as Hnode1.
  { unfold nodes1. rewrite list_lookup_insert_eq; [done|]. by eapply lookup_lt_Some. }
  destruct (LaCAM.get_new_config ins D fuel (HL.C node) (HL.order node) M s1)
    as [[ok s2]|]; simpl; [|done].
  destruct ok; simpl.
  2:{ intros [= <-]. simpl. split; [done|by left]. }
  fold N. set (C_new := read_config N s2).
  destruct (LaCAM.CLOSED p !! C_new) as [hit|] eqn:Hhit.
  - destruct (LaCAM.rewrite ins objective fuel S hit nodes1) as [nodes2|] eqn:Hrw;
      simpl; [|done].
    destruct (rewrite1_cost fuel S hit nodes1 _ _ Hrw Hc1 Hnode1) as [Hc2 Hlen2];
      [by rewrite Hlen1|].
    destruct (LaCAM.draw_float s2) as [[x s3]|]; simpl; [|done].
    intros [= <-]. simpl.
    split; [done|]. left. simpl. split; [congruence|done].
  - intros [= <-]. simpl. unfold LaCAM.Node_new.
    assert (length C_new = N) as HlenC by apply read_config_length.
    split.
    + assert (Z.of_nat N < UINT_MOD) as HN.
      { apply (N_small_of_bound (ins:=ins) (length (LaCAM.nodes p))); [|done].
        apply lookup_lt_Some in Hnode. lia. }
      assert (forall j nj, nodes1 !! j = Some nj -> HL.C nj <> C_new) as Hfresh.
      { intros j nj. unfold nodes1. rewrite list_lookup_insert_Some.
        intros [(Hj & <- & _)|[_ Hj]] E.
        - simpl in E. rewrite <- E in Hhit. by rewrite (He _ _ Hnode) in Hhit.
        - rewrite <- E in Hhit. by rewrite (He _ _ Hj) in Hhit. }
      apply (cost_ok_HNode_new (D:=D) nodes1 S (HL.set_search_tree tree' node));
        try done; try (by rewrite Hlen1).
      split.
      * apply get_edge_cost1_pos; [done| |done|].
        -- simpl. by eapply (co_len _ Hc).
        -- apply (Hfresh S _ Hnode1).
      * by apply get_edge_cost1_bounds.
    + right. destruct (HNode_new_le (D:=D) nodes1 S _ C_new
        (u32 (HL.g node + LaCAM.get_edge_cost ins objective (HL.C node) C_new))
        (LaCAM.get_h_value ins D objective C_new) Hnode1) as [_ (new & Hnew & HnC & _)].
      exists C_new, new. simpl. rewrite <- Hlen1. repeat split; try done.
      unfold HL.HNode_new. by rewrite length_app, length_alter, Nat.add_1_r.
Qed.

Hypothesis G_sym : forall u v, u ∈ neighbor ins v -> v ∈ neighbor ins u.
Hypothesis starts_len : length (starts ins) = N.
Hypothesis starts_free : vertex_free N (starts ins).

Lemma solve_loop1_cost fuel deadline : forall p p',
  PInv1 ins p -> CInv1 p ->
  Nmax * Z.of_nat (length (LaCAM.nodes p) + deadline) < UINT_MOD ->
  LaCAM.solve_loop ins D objective RESTART_RATE fuel deadline p = Some p' ->
  CInv1 p'.
Proof.
  induction deadline as [|deadline IH]; intros p p' HP HC Hb; simpl.
  - by destruct (LaCAM.OPEN p); intros [= <-].
  - destruct (LaCAM.OPEN p) as [|S0 rest]; [by intros [= <-]|].
    destruct (LaCAM.solve_step ins D objective RESTART_RATE fuel p S0 rest)
      as [st|] eqn:Hstep; [|done].
    assert (0 <= Nmax) as HNmax by (unfold Nmax; lia).
    assert (Nmax * Z.of_nat (length (LaCAM.nodes p)) < UINT_MOD) as Hb0.
    { assert (Nmax * Z.of_nat (length (LaCAM.nodes p))
              <= Nmax * Z.of_nat (length (LaCAM.nodes p) + S deadline))
        by (apply Z.mul_le_mono_nonneg_l; lia). lia. }
    destruct (solve_step1_inv ins D objective RESTART_RATE G_sym fuel p S0 rest st
                HP Hstep) as [HP' Hle].
    destruct (solve_step1_cost fuel p S0 rest st HC Hb0 Hstep) as [Hc' Hshape].
    assert (CInv1 (step_planner1 st)) as HC'.
    { split; [done|]. eapply closed_all_step; [by destruct HC|done|done]. }
    destruct st as [p1|p1]; simpl in *.
    + apply IH; try done.
      assert (length (LaCAM.nodes p1) <= S (length (LaCAM.nodes p)))%nat as Hlen.
      { destruct Hshape as [[-> _]|(? & ? & _ & _ & -> & _)]; lia. }
      assert (Nmax * Z.of_nat (length (LaCAM.nodes p1) + deadline)
              <= Nmax * Z.of_nat (length (LaCAM.nodes p) + S deadline))
        by (apply Z.mul_le_mono_nonneg_l; lia). lia.
    + by intros [= <-].
Qed.

Lemma initial_planner1_cost mt : CInv1 (LaCAM.initial_planner ins D objective mt).
Proof.
  unfold LaCAM.initial_planner, LaCAM.Node_new, HL.HNode_new. simpl.
  split; [split|]; simpl.
  - intros id node Hn. by apply list_lookup_singleton_Some in Hn as [_ <-].
  - intros id node Hn. apply list_lookup_singleton_Some in Hn as [-> <-]. simpl. lia.
  - intros id node pid Hn. by apply list_lookup_singleton_Some in Hn as [_ <-].
  - intros i j ni nj Hi Hj _. apply list_lookup_singleton_Some in Hi as [-> _].
    by apply list_lookup_singleton_Some in Hj as [-> _].
  - intros id node Hn. apply list_lookup_singleton_Some in Hn as [-> <-]. simpl.
    apply lookup_singleton_eq.
Qed.

End Cost1.

(** * Solutions *)

(** Every two consecutive configurations of a solution are a valid joint
    move (P2, P3 and P4 of the specification). *)
Definition steps_valid (ins : Instance) (sol : list (list nat)) : Prop :=
  forall t C1 C2, sol !! t = Some C1 -> sol !! S t = Some C2 ->
    valid_step ins (ins_N ins) C1 C2.

Definition graph_undirected (ins : Instance) : Prop :=
  forall u v, u ∈ neighbor ins v -> v ∈ neighbor ins u.

Lemma head_rev_last {A} (l : list A) : head (rev l) = last l.
Proof.
  induction l as [|x l IH]; [done|].
  destruct l as [|y l]; [done|].
  change (last (x :: y :: l)) with (last (y :: l)). rewrite <- IH.
  simpl. destruct (rev l) as [|z r]; [done|done].
Qed.

Lemma last_rev_head {A} (l : list A) : last (rev l) = head l.
Proof. destruct l as [|x l]; [done|]. simpl. by rewrite last_snoc. Qed.

Section Solutions.
Context `{RT : Runtime}.
Variable ins : Instance.

Let N := ins_N ins.

(** What the backtracking yields on a well-formed arena: the reversed
    walk starts at the start configuration, ends at the configuration of
    the node it was started from, and makes valid moves. *)
Lemma backtrack_solution (rv : bool) nodes fuel gl l :
  arena_ok (ins:=ins) (rv:=rv) nodes ->
  HL.backtrack fuel nodes (Some gl) = Some l ->
  exists node, nodes !! gl = Some node /\
    head (rev l) = Some (starts ins) /\ last (rev l) = Some (HL.C node) /\
    steps_valid ins (rev l).
Proof.
  intros Ha Hb. destruct (backtrack_valid nodes fuel gl l Ha Hb)
    as (node & Hn & Hhead & Hlast & Hpath).
  exists node. split; [done|]. split; [by rewrite head_rev_last|].
  split; [by rewrite last_rev_head|].
  intros t C1 C2 H1 H2. apply path_ok_rev in Hpath.
  by apply (path_ok_lookup _ _ t C1 C2 Hpath).
Qed.

End Solutions.

(** * A concrete runtime and a small instance

    Exact rationals stand for the floats, a list of pre-drawn numbers for
    the generator, insertion sort (which keeps equal elements in their
    order) for [std::sort] and the identity for [std::shuffle].  The instance is a corridor 0 - 1 - 2 - 3 - 4 with a
    side cell 5 attached to 2; two agents have to exchange the two ends. *)

Module Demo.

Fixpoint insert_sorted (lt : nat -> nat -> bool) (x : nat) (l : list nat) : list nat :=
  match l with
  | [] => [x]
  | y :: l' => if lt y x then y :: insert_sorted lt x l' else x :: l
  end.

Definition insertion_sort (lt : nat -> nat -> bool) (l : list nat) : list nat :=
  fold_right (insert_sorted lt) [] l.

Lemma insert_sorted_perm lt x l : Permutation (x :: l) (insert_sorted lt x l).
Proof.
  induction l as [|y l IH]; simpl; [done|].
  destruct (lt y x); [|done]. rewrite <- IH. apply perm_swap.
Qed.

Lemma insertion_sort_perm lt l : Permutation l (insertion_sort lt l).
Proof.
  induction l as [|x l IH]; simpl; [done|].
  rewrite <- insert_sorted_perm. by constructor.
Qed.

Definition Qltb (a b : Q) : bool := if Qlt_le_dec a b then true else false.

Definition draw (r : list Q) : Q * list Q := (hd 0%Q r, tl r).

Lemma id_shuffle_perm (r : list Q) (l : list nat) : Permutation l (l, r).1.
Proof. done. Qed.

Lemma elements_elem (s : gset nat) x : x ∈ elements s <-> x ∈ s.
Proof. apply elem_of_elements. Qed.

#[export] Instance runtime : Runtime := {|
  float := Q;
  f_zero := 0%Q;
  f_one := 1%Q;
  f_of_uint := inject_Z;
  f_of_int := inject_Z;
  f_to_int := fun q => Z.quot (Qnum q) (Zpos (Qden q));
  f_add := Qplus;
  f_sub := Qminus;
  f_div := Qdiv;
  f_lt := Qltb;
  rng := list Q;
  get_random_float := draw;
  std_shuffle := fun r l => (l, r);
  std_shuffle_perm := id_shuffle_perm;
  std_sort := insertion_sort;
  std_sort_perm := insertion_sort_perm;
  set_iter := elements;
  set_iter_elem := elements_elem
|}.

(** A rational read as a float of [runtime]. *)
Definition fl (q : Q) : @float runtime := q.

Definition G3 (v : nat) : list nat :=
  match v with
  | 0 => [1] | 1 => [0; 2] | 2 => [1; 3; 5] | 3 => [2; 4] | 4 => [3] | 5 => [2]
  | _ => []
  end%nat.

Definition ins3 : Instance :=
  {| neighbor := G3; ins_N := 2; starts := [0; 4]%nat; goals := [4; 0]%nat |}.

(** Shortest-path distances to the goals of [ins3]. *)
Definition D3 (i v : nat) : Z :=
  match i with
  | O => nth v [4; 3; 2; 1; 0; 3] 0
  | _ => nth v [0; 1; 2; 3; 4; 3] 0
  end.

(** The same corridor with a goal two steps away for the first agent. *)
Definition ins_near : Instance :=
  {| neighbor := G3; ins_N := 2; starts := [0; 4]%nat; goals := [2; 4]%nat |}.

Definition D_near (i v : nat) : Z :=
  match i with
  | O => nth v [2; 1; 0; 1; 2; 1] 0
  | _ => nth v [4; 3; 2; 1; 0; 3] 0
  end.

Lemma G3_sym : graph_undirected ins3.
Proof.
  intros u v. simpl. unfold G3.
  do 6 (destruct v as [|v]; [rewrite ?elem_of_cons, elem_of_nil;
    intros H; repeat (destruct H as [->|H]; [set_solver|]); done|]).
  by intros ?%elem_of_nil.
Qed.

Lemma starts3_free : vertex_free (ins_N ins3) (starts ins3).
Proof.
  intros i j. simpl.
  destruct i as [|[|i]], j as [|[|j]]; intros Hi Hj Hij;
    try lia; try done.
Qed.

Lemma D3_nonneg : forall i v, 0 <= D3 i v.
Proof.
  intros i v. unfold D3.
  destruct i; do 6 (destruct v as [|v]; [simpl; lia|]);
    destruct v; simpl; lia.
Qed.

End Demo.

(** Equations between closed terms are settled by evaluating both sides
    on the virtual machine. *)
Ltac vm_refl :=
  lazymatch goal with |- ?a = _ => vm_cast_no_check (@eq_refl _ a) end.

(** * The heuristic *)

(** C4, as stated, fails for the first planner: with objective NONE its
    [get_h_value] takes neither branch and returns 0, while the sum of
    the distances of the start configuration of [Demo.ins3] is 8. *)
Lemma get_h_value_none_not_sum :
  LaCAM.get_h_value Demo.ins3 Demo.D3 OBJ_NONE (starts Demo.ins3)
  <> sum_dist Demo.D3 (ins_N Demo.ins3) (starts Demo.ins3).
Proof. vm_compute. discriminate. Qed.

(** C4 (amended).  [get_h_value C] is the maximum of the distances
    [d(i, C[i])] under MAKESPAN and their sum under SUM_OF_LOSS, in both
    planners (the sum as long as it fits an unsigned int); under NONE
    LaCAM2 falls through to the sum, whereas LaCAM returns 0. *)
Theorem get_h_value_cases (ins : Instance) (D : DistTable) (C : list nat) :
  (forall i v, 0 <= D i v) ->
  sum_dist D (ins_N ins) C < UINT_MOD ->
  (LaCAM.get_h_value ins D OBJ_MAKESPAN C = max_dist D (ins_N ins) C /\
   LaCAM.get_h_value ins D OBJ_SUM_OF_LOSS C = sum_dist D (ins_N ins) C /\
   LaCAM.get_h_value ins D OBJ_NONE C = 0) /\
  (LaCAM2.get_h_value ins D OBJ_MAKESPAN C = max_dist D (ins_N ins) C /\
   LaCAM2.get_h_value ins D OBJ_SUM_OF_LOSS C = sum_dist D (ins_N ins) C /\
   LaCAM2.get_h_value ins D OBJ_NONE C = sum_dist D (ins_N ins) C).
Proof.
  intros HD Hb. unfold LaCAM.get_h_value, LaCAM2.get_h_value. cbv zeta.
  rewrite max_loop, (sum_loop D HD) by done. done.
Qed.

Lemma get_h_value_cases_witness :
  (LaCAM.get_h_value Demo.ins3 Demo.D3 OBJ_MAKESPAN [0; 4]%nat = 4 /\
   LaCAM.get_h_value Demo.ins3 Demo.D3 OBJ_SUM_OF_LOSS [0; 4]%nat = 8 /\
   LaCAM.get_h_value Demo.ins3 Demo.D3 OBJ_NONE [0; 4]%nat = 0) /\
  (LaCAM2.get_h_value Demo.ins3 Demo.D3 OBJ_MAKESPAN [0; 4]%nat = 4 /\
   LaCAM2.get_h_value Demo.ins3 Demo.D3 OBJ_SUM_OF_LOSS [0; 4]%nat = 8 /\
   LaCAM2.get_h_value Demo.ins3 Demo.D3 OBJ_NONE [0; 4]%nat = 8).
Proof.
  apply (get_h_value_cases Demo.ins3 Demo.D3 [0; 4]%nat Demo.D3_nonneg).
  vm_compute. reflexivity.
Defined.

(** * Reaching the goal *)

(** The planner after the goal check has recorded the top node. *)
Definition goal_recorded1 `{Runtime} (p : LaCAM.Planner) (top : nat) : LaCAM.Planner :=
  LaCAM.mkPlanner (LaCAM.nodes p) (LaCAM.OPEN p) (LaCAM.CLOSED p) (Some top)
                  (LaCAM.loop_cnt p + 1) (LaCAM.scratch p).

Definition goal_recorded2 `{Runtime} (p : LaCAM2.Planner) (top : nat) : LaCAM2.Planner :=
  LaCAM2.mkPlanner (LaCAM2.nodes p) (LaCAM2.OPEN p) (LaCAM2.EXPLORED p) (Some top)
                   (LaCAM2.loop_cnt p + 1) (LaCAM2.scratch p).

(** An instance whose agents already stand on their goals. *)
Definition ins_done : Instance :=
  {| neighbor := Demo.G3; ins_N := 2; starts := [4; 0]%nat; goals := [4; 0]%nat |}.

Section GoalDemo.
#[local] Existing Instance Demo.runtime.

(** C3, as stated, fails for LaCAM2: under MAKESPAN its first iteration
    on [ins_done] finds the goal at the top of OPEN and leaves the loop. *)
Lemma lacam2_breaks_under_makespan :
  let p := LaCAM2.initial_planner ins_done Demo.D3 OBJ_MAKESPAN None in
  LaCAM2.OPEN p = [0%nat] /\
  (HL.C <$> LaCAM2.nodes p !! 0%nat) = Some (goals ins_done) /\
  LaCAM2.solve_step ins_done Demo.D3 OBJ_MAKESPAN 0%Q true 20 p 0 []
    = Some (LaCAM2.Break (goal_recorded2 p 0)) /\
  LaCAM2.solve_loop ins_done Demo.D3 OBJ_MAKESPAN 0%Q true 20 1000 p
    = Some (goal_recorded2 p 0).
Proof.
  intros p. split; [vm_refl|]. split; [vm_refl|]. split; vm_refl.
Qed.

End GoalDemo.

(** C3 (amended).  When the node on top of OPEN is unfinished, no goal
    node is recorded yet and its configuration equals the goals, the
    iteration records it as the goal node.  LaCAM then leaves the loop
    exactly when the objective is NONE and goes on with the next
    iteration under MAKESPAN and SUM_OF_LOSS; LaCAM2 leaves the loop
    under every objective. *)
Theorem goal_check_step `{RT : Runtime} (ins : Instance) (D : DistTable)
    (objective : Objective) (RESTART_RATE : float) (FLG_SWAP : bool)
    (fuel deadline : nat) :
  (forall p top rest node,
     LaCAM.OPEN p = top :: rest ->
     LaCAM.nodes p !! top = Some node ->
     HL.search_tree node <> [] ->
     LaCAM.S_goal p = None ->
     is_same_config (HL.C node) (goals ins) = true ->
     LaCAM.solve_loop ins D objective RESTART_RATE fuel (S deadline) p =
       if bool_decide (objective = OBJ_NONE)
       then Some (goal_recorded1 p top)
       else LaCAM.solve_loop ins D objective RESTART_RATE fuel deadline
              (goal_recorded1 p top)) /\
  (forall p top rest node,
     LaCAM2.OPEN p = top :: rest ->
     LaCAM2.nodes p !! top = Some node ->
     HL.search_tree node <> [] ->
     LaCAM2.H_goal p = None ->
     is_same_config (HL.C node) (goals ins) = true ->
     LaCAM2.solve_loop ins D objective RESTART_RATE FLG_SWAP fuel (S deadline) p =
       Some (goal_recorded2 p top)).
Proof.
  split; intros p top rest node Hopen Hnode Htree Hgoal Hsame.
  - cbn [LaCAM.solve_loop]. rewrite Hopen. unfold LaCAM.solve_step.
    rewrite Hnode. cbn [mbind option_bind].
    rewrite (bool_decide_eq_false_2 _ Htree), Hgoal, Hsame.
    rewrite bool_decide_eq_true_2 by done. cbn [andb].
    unfold goal_recorded1.
    by destruct (bool_decide (objective = OBJ_NONE)).
  - cbn [LaCAM2.solve_loop]. rewrite Hopen. unfold LaCAM2.solve_step.
    rewrite Hnode. cbn [mbind option_bind].
    rewrite (bool_decide_eq_false_2 _ Htree), Hgoal, Hsame.
    rewrite bool_decide_eq_true_2 by done. cbn [andb].
    done.
Qed.

Section GoalWitness.
#[local] Existing Instance Demo.runtime.

Lemma goal_check_step_witness :
  let p1 := LaCAM.initial_planner ins_done Demo.D3 OBJ_NONE (Some []) in
  let p2 := LaCAM2.initial_planner ins_done Demo.D3 OBJ_SUM_OF_LOSS None in
  LaCAM.solve_loop ins_done Demo.D3 OBJ_NONE 0%Q 20 1 p1
    = Some (goal_recorded1 p1 0) /\
  LaCAM2.solve_loop ins_done Demo.D3 OBJ_SUM_OF_LOSS 0%Q true 20 1 p2
    = Some (goal_recorded2 p2 0).
Proof.
  intros p1 p2. split.
  - eapply (proj1 (goal_check_step (RT:=Demo.runtime) ins_done Demo.D3 OBJ_NONE 0%Q true 20 0)
              p1 0%nat []).
    + reflexivity.
    + reflexivity.
    + vm_compute. discriminate.
    + reflexivity.
    + reflexivity.
  - eapply (proj2 (goal_check_step (RT:=Demo.runtime) ins_done Demo.D3 OBJ_SUM_OF_LOSS 0%Q true 20 0)
              p2 0%nat []).
    + reflexivity.
    + reflexivity.
    + vm_compute. discriminate.
    + reflexivity.
    + reflexivity.
Defined.

End GoalWitness.

(** * LaCAM2 never reports an optimal solution *)

Section NeverOptimal.
Context `{RT : Runtime}.
Variable ins : Instance.
Variable D : DistTable.
Variable objective : Objective.
Variable RESTART_RATE : float.
Variable FLG_SWAP : bool.

(** As long as the loop goes on no goal node is recorded; the iteration
    that records one leaves the loop with the node still on OPEN. *)
Lemma solve_step_goal fuel p H rest st :
  LaCAM2.H_goal p = None -> LaCAM2.OPEN p = H :: rest ->
  LaCAM2.solve_step ins D objective RESTART_RATE FLG_SWAP fuel p H rest = Some st ->
  match st with
  | LaCAM2.Continue p' => LaCAM2.H_goal p' = None
  | LaCAM2.Break p' => LaCAM2.H_goal p' = Some H /\ LaCAM2.OPEN p' = H :: rest
  end.
Proof.
  intros Hg Hopen. unfold LaCAM2.solve_step.
  destruct (LaCAM2.nodes p !! H) as [node|] eqn:Hnode; simpl; [|done].
  case_bool_decide as Hempty.
  { by intros [= <-]. }
  rewrite Hg.
  destruct (bool_decide (None = None) && is_same_config (HL.C node) (goals ins)).
  { by intros [= <-]. }
  destruct (HL.search_tree node) as [|L tree] eqn:Htree; [done|].
  destruct (LaCAM2.expand_lowlevel_tree ins _ L (LaCAM2.scratch p)) as [tree' s1].
  destruct (LaCAM2.get_new_config ins D FLG_SWAP fuel (HL.C node) (HL.order node)
              L s1) as [[ok s2]|]; simpl; [|done].
  destruct ok; simpl.
  2:{ by intros [= <-]. }
  destruct (LaCAM2.EXPLORED p !! _) as [hit|].
  - destruct (LaCAM2.rewrite _ _ _ _ _ _ _ _) as [[nodes2 OPEN2]|]; simpl; [|done].
    destruct (LaCAM2.choose_insert RESTART_RATE s2 hit LaCAM2.H_init) as [H_insert s3].
    by intros [= <-].
  - by intros [= <-].
Qed.

Lemma solve_loop_goal fuel deadline : forall p p',
  LaCAM2.H_goal p = None ->
  LaCAM2.solve_loop ins D objective RESTART_RATE FLG_SWAP fuel deadline p = Some p' ->
  LaCAM2.H_goal p' = None \/
  exists H rest, LaCAM2.H_goal p' = Some H /\ LaCAM2.OPEN p' = H :: rest.
Proof.
  induction deadline as [|deadline IH]; intros p p' Hg; simpl.
  - destruct (LaCAM2.OPEN p); intros [= <-]; by left.
  - destruct (LaCAM2.OPEN p) as [|H rest] eqn:Hopen.
    { intros [= <-]. by left. }
    destruct (LaCAM2.solve_step ins D objective RESTART_RATE FLG_SWAP fuel p H rest)
      as [st|] eqn:Hstep; [|done].
    pose proof (solve_step_goal fuel p H rest st Hg Hopen Hstep) as Hst.
    destruct st as [p1|p1].
    + intros Hloop. by apply (IH p1).
    + intros [= <-]. right. by exists H, rest.
Qed.

End NeverOptimal.

(** C10.  In LaCAM2 the goal node is recorded only by the iteration that
    leaves the loop, with that node still on top of OPEN.  Hence OPEN is
    not empty whenever a goal node is set, and every run reports
    [optimal=0]; in particular every run that returns a non-empty
    solution does. *)
Theorem lacam2_never_optimal `{RT : Runtime} (ins : Instance) (D : DistTable)
    (objective : Objective) (RESTART_RATE : float) (FLG_SWAP : bool)
    (fuel deadline : nat) (mt : option rng) :
  (forall p H,
     LaCAM2.solve_loop ins D objective RESTART_RATE FLG_SWAP fuel deadline
       (LaCAM2.initial_planner ins D objective mt) = Some p ->
     LaCAM2.H_goal p = Some H -> exists rest, LaCAM2.OPEN p = H :: rest) /\
  (forall r,
     LaCAM2.solve ins D objective RESTART_RATE FLG_SWAP fuel deadline mt = Some r ->
     LaCAM2.optimal r = false).
Proof.
  assert (forall p H,
     LaCAM2.solve_loop ins D objective RESTART_RATE FLG_SWAP fuel deadline
       (LaCAM2.initial_planner ins D objective mt) = Some p ->
     LaCAM2.H_goal p = Some H -> exists rest, LaCAM2.OPEN p = H :: rest) as Hopen.
  { intros p H Hloop Hg.
    destruct (solve_loop_goal ins D objective RESTART_RATE FLG_SWAP fuel deadline
                (LaCAM2.initial_planner ins D objective mt) p eq_refl Hloop)
      as [Hn|(H' & rest & Hg' & Ho)]; [congruence|].
    exists rest. congruence. }
  split; [done|]. intros r. unfold LaCAM2.solve.
  destruct (LaCAM2.solve_loop _ _ _ _ _ _ _ _) as [p|] eqn:Hloop; simpl; [|done].
  unfold LaCAM2.report.
  destruct (LaCAM2.H_goal p) as [gl|] eqn:Hg.
  - destruct (Hopen p gl eq_refl Hg) as [rest Ho].
    destruct (HL.backtrack fuel (LaCAM2.nodes p) (Some gl)); simpl; [|done].
    intros [= <-]. simpl. rewrite Ho.
    rewrite (bool_decide_eq_false_2 (_ :: _ = [])) by done. by rewrite ?andb_false_r.
  - simpl. intros [= <-]. simpl. done.
Qed.

Section NeverOptimalWitness.
#[local] Existing Instance Demo.runtime.

(** What LaCAM2 returns on [Demo.ins_near] under MAKESPAN, without a
    generator. *)
Definition demo_result2 : LaCAM2.Result :=
  default (LaCAM2.mkResult [] false OBJ_NONE 0 0)
    (LaCAM2.solve Demo.ins_near Demo.D_near OBJ_MAKESPAN (Demo.fl 0) true 20 1000 None).

Lemma demo_result2_returned :
  LaCAM2.solve Demo.ins_near Demo.D_near OBJ_MAKESPAN (Demo.fl 0) true 20 1000 None
  = Some demo_result2.
Proof. vm_refl. Qed.

Lemma lacam2_never_optimal_witness :
  LaCAM2.solution demo_result2 = [[0; 4]; [1; 4]; [2; 4]]%nat /\
  LaCAM2.optimal demo_result2 = false.
Proof.
  split; [vm_refl|].
  exact (proj2 (lacam2_never_optimal (RT:=Demo.runtime) Demo.ins_near Demo.D_near
                  OBJ_MAKESPAN (Demo.fl 0) true 20 1000 None)
           demo_result2 demo_result2_returned).
Defined.

End NeverOptimalWitness.

(** * Re-insertion and random restart *)

(** The bound check of LaCAM2's loop, [H_goal != nullptr && H->f >= H_goal->f]. *)
Definition pruned `{Runtime} (p : LaCAM2.Planner) (node : HL.HNode) : bool :=
  match LaCAM2.H_goal p with
  | Some gl =>
      match LaCAM2.nodes p !! gl with
      | Some gn => HL.f gn <=? HL.f node
      | None => false
      end
  | None => false
  end.

(** The gate of a push, read as a proposition. *)
Definition push_allowed `{Runtime} (nodes : list HL.HNode) (goal : option nat) (x : nat) : Prop :=
  goal = None \/
  exists gl gn nx, goal = Some gl /\ nodes !! gl = Some gn /\ nodes !! x = Some nx /\
                   HL.f nx < HL.f gn.

Lemma may_push_allowed `{Runtime} nodes goal x :
  LaCAM2.may_push nodes goal x = true <-> push_allowed nodes goal x.
Proof.
  unfold LaCAM2.may_push, push_allowed. destruct goal as [gl|].
  - destruct (nodes !! x) as [nx|] eqn:Hx, (nodes !! gl) as [gn|] eqn:Hg.
    + rewrite Z.ltb_lt. split.
      * intros Hlt. right. by exists gl, gn, nx.
      * intros [|(gl' & gn' & nx' & [= <-] & Hg' & Hx' & Hlt)]; [done|].
        rewrite Hg in Hg'. by simplify_eq.
    + split; [done|]. intros [|(gl' & gn' & nx' & [= <-] & Hg' & Hx' & Hlt)]; [done|].
      rewrite Hg in Hg'. done.
    + split; [done|]. intros [|(gl' & gn' & nx' & [= <-] & Hg' & Hx' & Hlt)]; done.
    + split; [done|]. intros [|(gl' & gn' & nx' & [= <-] & Hg' & Hx' & Hlt)]; done.
  - split; [by left|done].
Qed.

Lemma may_push1_allowed `{Runtime} nodes goal x :
  LaCAM.may_push nodes goal x = true <-> push_allowed nodes goal x.
Proof. apply may_push_allowed. Qed.

(** C5, as stated, fails for LaCAM2 without a generator: whatever the
    restart rate, here 0, the root is chosen and never the hit node. *)
Lemma lacam2_no_rng_restarts :
  let s := scratch_init (RT:=Demo.runtime) None in
  LaCAM2.choose_insert (Demo.fl 0) s 1 LaCAM2.H_init = (LaCAM2.H_init, s) /\
  LaCAM2.H_init <> 1%nat.
Proof. vm_compute. split; [reflexivity|discriminate]. Qed.

(** The node chosen after a hit: the hit node if the drawn number is not
    below the restart rate, the root otherwise. *)
Definition chosen `{Runtime} (RESTART_RATE x : float) (hit root : nat) : nat :=
  if f_lt x RESTART_RATE then root else hit.

Lemma choose_insert_drawn `{Runtime} RESTART_RATE s hit root r x r' :
  MT s = Some r -> get_random_float r = (x, r') ->
  (LaCAM2.choose_insert RESTART_RATE s hit root).1 = chosen RESTART_RATE x hit root.
Proof.
  intros Hmt Hx. unfold LaCAM2.choose_insert, chosen, f_ge. rewrite Hmt, Hx. simpl.
  by destruct (f_lt x RESTART_RATE).
Qed.

Lemma choose_insert_no_rng `{Runtime} RESTART_RATE s hit root :
  MT s = None -> LaCAM2.choose_insert RESTART_RATE s hit root = (root, s).
Proof. intros Hmt. unfold LaCAM2.choose_insert. by rewrite Hmt. Qed.

(** C5 (amended).  When the successor configuration is found in the
    explored set, the iteration calls [rewrite] on the top node and the
    hit node and then chooses a node to re-insert: with a generator it
    draws a number [x] and takes the hit node if [x >= RESTART_RATE] and
    the root otherwise; LaCAM2 without a generator always takes the root.
    The chosen node is pushed on OPEN exactly when no goal node is
    recorded or its [f] is strictly below the goal node's [f]. *)
Theorem hit_branch `{RT : Runtime} (ins : Instance) (D : DistTable)
    (objective : Objective) (RESTART_RATE : float) (FLG_SWAP : bool) (fuel : nat) :
  (forall p H rest node L tree tree' s1 s2 hit nodes2 OPEN2,
     LaCAM2.nodes p !! H = Some node ->
     HL.search_tree node = L :: tree ->
     pruned p node = false ->
     bool_decide (LaCAM2.H_goal p = None) && is_same_config (HL.C node) (goals ins) = false ->
     LaCAM2.expand_lowlevel_tree ins (HL.set_search_tree tree node) L (LaCAM2.scratch p)
       = (tree', s1) ->
     LaCAM2.get_new_config ins D FLG_SWAP fuel (HL.C node) (HL.order node) L s1
       = Some (true, s2) ->
     LaCAM2.EXPLORED p !! read_config (ins_N ins) s2 = Some hit ->
     LaCAM2.rewrite ins objective fuel H hit (LaCAM2.H_goal p)
       (<[H := HL.set_search_tree tree' node]> (LaCAM2.nodes p)) (LaCAM2.OPEN p)
       = Some (nodes2, OPEN2) ->
     exists T s3,
       LaCAM2.solve_step ins D objective RESTART_RATE FLG_SWAP fuel p H rest =
         Some (LaCAM2.Continue
                 (LaCAM2.mkPlanner nodes2
                    (if LaCAM2.may_push nodes2 (LaCAM2.H_goal p) T
                     then T :: OPEN2 else OPEN2)
                    (LaCAM2.EXPLORED p) (LaCAM2.H_goal p) (LaCAM2.loop_cnt p + 1) s3)) /\
       (forall r x r', MT s2 = Some r -> get_random_float r = (x, r') ->
          T = chosen RESTART_RATE x hit LaCAM2.H_init) /\
       (MT s2 = None -> T = LaCAM2.H_init) /\
       (LaCAM2.may_push nodes2 (LaCAM2.H_goal p) T = true <->
        push_allowed nodes2 (LaCAM2.H_goal p) T)) /\
  (forall p S0 rest node M tree tree' s1 s2 hit nodes2 r x r',
     LaCAM.nodes p !! S0 = Some node ->
     HL.search_tree node = M :: tree ->
     bool_decide (LaCAM.S_goal p = None) && is_same_config (HL.C node) (goals ins) = false ->
     LaCAM.expand_lowlevel_tree ins (HL.set_search_tree tree node) M (LaCAM.scratch p)
       = (tree', s1) ->
     LaCAM.get_new_config ins D fuel (HL.C node) (HL.order node) M s1
       = Some (true, s2) ->
     LaCAM.CLOSED p !! read_config (ins_N ins) s2 = Some hit ->
     LaCAM.rewrite ins objective fuel S0 hit
       (<[S0 := HL.set_search_tree tree' node]> (LaCAM.nodes p)) = Some nodes2 ->
     MT s2 = Some r -> get_random_float r = (x, r') ->
     exists s3,
       let T := chosen RESTART_RATE x hit LaCAM.S_init in
       LaCAM.solve_step ins D objective RESTART_RATE fuel p S0 rest =
         Some (LaCAM.Continue
                 (LaCAM.mkPlanner nodes2
                    (if LaCAM.may_push nodes2 (LaCAM.S_goal p) T
                     then T :: LaCAM.OPEN p else LaCAM.OPEN p)
                    (LaCAM.CLOSED p) (LaCAM.S_goal p) (LaCAM.loop_cnt p + 1) s3)) /\
       (LaCAM.may_push nodes2 (LaCAM.S_goal p) T = true <->
        push_allowed nodes2 (LaCAM.S_goal p) T)).
Proof.
  split.
  - intros p H rest node L tree tree' s1 s2 hit nodes2 OPEN2
      Hnode Htree Hprune Hgoal Hexp Hcfg Hhit Hrw.
    exists (LaCAM2.choose_insert RESTART_RATE s2 hit LaCAM2.H_init).1,
           (LaCAM2.choose_insert RESTART_RATE s2 hit LaCAM2.H_init).2.
    split; [|split; [|split]].
    + unfold LaCAM2.solve_step. rewrite Hnode. cbn [mbind option_bind].
      rewrite bool_decide_eq_false_2 by (rewrite Htree; done).
      unfold pruned in Hprune. rewrite Hprune, Hgoal, Htree, Hexp, Hcfg.
      cbn [mbind option_bind negb]. rewrite Hhit, Hrw. cbn [mbind option_bind].
      by destruct (LaCAM2.choose_insert RESTART_RATE s2 hit LaCAM2.H_init).
    + intros r x r' Hmt Hx. by apply (choose_insert_drawn _ _ _ _ r x r').
    + intros Hmt. by rewrite choose_insert_no_rng.
    + apply may_push_allowed.
  - intros p S0 rest node M tree tree' s1 s2 hit nodes2 r x r'
      Hnode Htree Hgoal Hexp Hcfg Hhit Hrw Hmt Hx.
    eexists. split; [|apply may_push1_allowed].
    unfold LaCAM.solve_step. rewrite Hnode. cbn [mbind option_bind].
    rewrite bool_decide_eq_false_2 by (rewrite Htree; done).
    rewrite Hgoal, Htree, Hexp, Hcfg.
    cbn [mbind option_bind negb]. rewrite Hhit, Hrw. cbn [mbind option_bind].
    unfold LaCAM.draw_float. rewrite Hmt, Hx. cbn [mbind option_bind].
    unfold chosen, f_ge. destruct (f_lt x RESTART_RATE); reflexivity.
Qed.

Section HitWitness.
#[local] Existing Instance Demo.runtime.

(** LaCAM2 on [Demo.ins3] after four iterations, without a generator. *)
Definition hit_state2 : LaCAM2.Planner :=
  let p0 := LaCAM2.initial_planner Demo.ins3 Demo.D3 OBJ_NONE None in
  default p0 (LaCAM2.solve_loop Demo.ins3 Demo.D3 OBJ_NONE (Demo.fl 0) false 20 4 p0).

(** LaCAM on [Demo.ins3] after four iterations, all draws being 0. *)
Definition hit_state1 : LaCAM.Planner :=
  let p0 := LaCAM.initial_planner Demo.ins3 Demo.D3 OBJ_NONE (Some []) in
  default p0 (LaCAM.solve_loop Demo.ins3 Demo.D3 OBJ_NONE (Demo.fl 0) 20 4 p0).

(** The values the fifth iteration of LaCAM2 goes through. *)
Definition hit_node2 : HL.HNode :=
  default (HL.HNode_init Demo.D3 [] None None 0 0) (LaCAM2.nodes hit_state2 !! 0%nat).
Definition hit_expand2 : list (list (nat * nat)) * Scratch :=
  LaCAM2.expand_lowlevel_tree Demo.ins3
    (HL.set_search_tree (tail (HL.search_tree hit_node2)) hit_node2)
    (hd [] (HL.search_tree hit_node2)) (LaCAM2.scratch hit_state2).
Definition hit_tables2 : Scratch :=
  (default (false, hit_expand2.2)
     (LaCAM2.get_new_config Demo.ins3 Demo.D3 false 20 (HL.C hit_node2)
        (HL.order hit_node2) (hd [] (HL.search_tree hit_node2)) hit_expand2.2)).2.
Definition hit_rewrite2 : list HL.HNode * list nat :=
  default ([], [])
    (LaCAM2.rewrite Demo.ins3 OBJ_NONE 20 0 1 (LaCAM2.H_goal hit_state2)
       (<[0%nat := HL.set_search_tree hit_expand2.1 hit_node2]> (LaCAM2.nodes hit_state2))
       (LaCAM2.OPEN hit_state2)).

(** The values the fifth iteration of LaCAM goes through. *)
Definition hit_node1 : HL.HNode :=
  default (HL.HNode_init Demo.D3 [] None None 0 0) (LaCAM.nodes hit_state1 !! 3%nat).
Definition hit_expand1 : list (list (nat * nat)) * Scratch :=
  LaCAM.expand_lowlevel_tree Demo.ins3
    (HL.set_search_tree (tail (HL.search_tree hit_node1)) hit_node1)
    (hd [] (HL.search_tree hit_node1)) (LaCAM.scratch hit_state1).
Definition hit_tables1 : Scratch :=
  (default (false, hit_expand1.2)
     (LaCAM.get_new_config Demo.ins3 Demo.D3 20 (HL.C hit_node1)
        (HL.order hit_node1) (hd [] (HL.search_tree hit_node1)) hit_expand1.2)).2.
Definition hit_rewrite1 : list HL.HNode :=
  default []
    (LaCAM.rewrite Demo.ins3 OBJ_NONE 20 3 2
       (<[3%nat := HL.set_search_tree hit_expand1.1 hit_node1]> (LaCAM.nodes hit_state1))).

Lemma hit_branch_witness :
  (exists p',
     LaCAM2.solve_step Demo.ins3 Demo.D3 OBJ_NONE (Demo.fl 0) false 20
       hit_state2 0 [3; 2; 1; 0]%nat = Some (LaCAM2.Continue p') /\
     LaCAM2.OPEN p' = LaCAM2.H_init :: LaCAM2.OPEN hit_state2) /\
  (exists p',
     LaCAM.solve_step Demo.ins3 Demo.D3 OBJ_NONE (Demo.fl 0) 20
       hit_state1 3 [3; 2; 1; 0]%nat = Some (LaCAM.Continue p') /\
     LaCAM.OPEN p' = 2%nat :: LaCAM.OPEN hit_state1).
Proof.
  split.
  - destruct (proj1 (hit_branch (RT:=Demo.runtime) Demo.ins3 Demo.D3 OBJ_NONE
                       (Demo.fl 0) false 20) hit_state2 0%nat [3; 2; 1; 0]%nat
                hit_node2 (hd [] (HL.search_tree hit_node2))
                (tail (HL.search_tree hit_node2)) hit_expand2.1 hit_expand2.2
                hit_tables2 1%nat hit_rewrite2.1 hit_rewrite2.2
                ltac:(vm_refl) ltac:(vm_refl) ltac:(vm_refl) ltac:(vm_refl)
                ltac:(vm_refl) ltac:(vm_refl) ltac:(vm_refl) ltac:(vm_refl))
      as (T & s3 & Hstep & _ & Hno & _).
    eexists. split; [exact Hstep|].
    rewrite (Hno ltac:(vm_refl)). vm_refl.
  - destruct (proj2 (hit_branch (RT:=Demo.runtime) Demo.ins3 Demo.D3 OBJ_NONE
                       (Demo.fl 0) false 20) hit_state1 3%nat [3; 2; 1; 0]%nat
                hit_node1 (hd [] (HL.search_tree hit_node1))
                (tail (HL.search_tree hit_node1)) hit_expand1.1 hit_expand1.2
                hit_tables1 2%nat hit_rewrite1 [] (Demo.fl 0) []
                ltac:(vm_refl) ltac:(vm_refl) ltac:(vm_refl) ltac:(vm_refl)
                ltac:(vm_refl) ltac:(vm_refl) ltac:(vm_refl) ltac:(vm_refl)
                ltac:(vm_refl))
      as (s3 & Hstep & _).
    eexists. split; [exact Hstep|]. vm_refl.
Defined.

End HitWitness.

(** * Costs never grow *)

(** What one relaxation [U -> W] of [rewrite] may do to the arena: nothing,
    or, when the relaxed value [c = U.g + edge_cost(U, W)] is strictly
    below [W.g], set [W.g = c], [W.f = c + W.h] and [W.parent = U]. *)
Definition relaxed `{Runtime} (cost : list nat -> list nat -> Z)
    (nodes nodes' : list HL.HNode) (U W : nat) : Prop :=
  nodes' = nodes \/
  exists nu nw,
    nodes !! U = Some nu /\ nodes !! W = Some nw /\
    let c := u32 (HL.g nu + cost (HL.C nu) (HL.C nw)) in
    c < HL.g nw /\
    nodes' = <[W := HL.mkHNode _ (HL.C nw) (Some U) (HL.neighbor_set nw) c (HL.h nw)
                      (u32 (c + HL.h nw)) (HL.priorities nw) (HL.order nw)
                      (HL.search_tree nw)]> nodes.

Lemma relax2_relaxed `{Runtime} ins objective H_goal n_from nodes Q OPEN n_to :
  relaxed (LaCAM2.get_edge_cost ins objective) nodes
    (LaCAM2.relax ins objective H_goal n_from (nodes, Q, OPEN) n_to).1.1 n_from n_to.
Proof.
  unfold LaCAM2.relax, relaxed.
  destruct (nodes !! n_from) as [nf|] eqn:Hf; [|by left].
  destruct (nodes !! n_to) as [nt|] eqn:Ht; [|by left].
  destruct (_ <? HL.g nt) eqn:Hlt; [|by left].
  right. exists nf, nt. apply Z.ltb_lt in Hlt. by repeat split.
Qed.

Lemma relax1_relaxed `{Runtime} ins objective S0 T U nodes Q W :
  relaxed (LaCAM.get_edge_cost ins objective) nodes
    (LaCAM.relax ins objective S0 T U (nodes, Q) W).1 U W.
Proof.
  unfold LaCAM.relax, relaxed.
  destruct (bool_decide (U = S0) && bool_decide (W <> T)); [by left|].
  destruct (nodes !! U) as [nu|] eqn:Hu; [|by left].
  destruct (nodes !! W) as [nw|] eqn:Hw; [|by left].
  destruct (_ <? HL.g nw) eqn:Hlt; [|by left].
  right. exists nu, nw. apply Z.ltb_lt in Hlt. by repeat split.
Qed.

(** C6.  The stored cost of a node never increases during the search:
    between any two moments of a run of either planner every node keeps
    its configuration and has a [g] that is not larger.  A relaxation of
    [rewrite] changes a node only when [U.g + edge_cost(U, W)] is
    strictly below [W.g], and then sets [g], [f] and [parent] together. *)
Theorem g_never_increases `{RT : Runtime} (ins : Instance) (D : DistTable)
    (objective : Objective) (RESTART_RATE : float) (FLG_SWAP : bool)
    (fuel : nat) (mt : option rng) :
  graph_undirected ins ->
  length (starts ins) = ins_N ins ->
  vertex_free (ins_N ins) (starts ins) ->
  (forall d e p p',
     LaCAM2.solve_loop ins D objective RESTART_RATE FLG_SWAP fuel d
       (LaCAM2.initial_planner ins D objective mt) = Some p ->
     LaCAM2.solve_loop ins D objective RESTART_RATE FLG_SWAP fuel e p = Some p' ->
     arena_le (LaCAM2.nodes p) (LaCAM2.nodes p')) /\
  (forall d e p p',
     LaCAM.solve_loop ins D objective RESTART_RATE fuel d
       (LaCAM.initial_planner ins D objective mt) = Some p ->
     LaCAM.solve_loop ins D objective RESTART_RATE fuel e p = Some p' ->
     arena_le (LaCAM.nodes p) (LaCAM.nodes p')) /\
  (forall H_goal n_from nodes Q OPEN n_to,
     relaxed (LaCAM2.get_edge_cost ins objective) nodes
       (LaCAM2.relax ins objective H_goal n_from (nodes, Q, OPEN) n_to).1.1
       n_from n_to) /\
  (forall S0 T U nodes Q W,
     relaxed (LaCAM.get_edge_cost ins objective) nodes
       (LaCAM.relax ins objective S0 T U (nodes, Q) W).1 U W).
Proof.
  intros Hsym Hlen Hfree. split; [|split; [|split]].
  - intros d e p p' Hd He.
    destruct (solve_loop_inv ins D objective RESTART_RATE FLG_SWAP (fun _ => Hsym)
                fuel d _ p (initial_planner_inv ins D objective Hlen Hfree mt) Hd)
      as [HP _].
    by destruct (solve_loop_inv ins D objective RESTART_RATE FLG_SWAP (fun _ => Hsym)
                   fuel e p p' HP He).
  - intros d e p p' Hd He.
    destruct (solve_loop1_inv ins D objective RESTART_RATE Hsym
                fuel d _ p (initial_planner1_inv ins D objective Hlen Hfree mt) Hd)
      as [HP _].
    by destruct (solve_loop1_inv ins D objective RESTART_RATE Hsym fuel e p p' HP He).
  - intros. apply relax2_relaxed.
  - intros. apply relax1_relaxed.
Qed.

Section CostWitness.
#[local] Existing Instance Demo.runtime.

(** LaCAM2 on [Demo.ins3], three iterations after [hit_state2]. *)
Definition later_state2 : LaCAM2.Planner :=
  default hit_state2
    (LaCAM2.solve_loop Demo.ins3 Demo.D3 OBJ_NONE (Demo.fl 0) false 20 3 hit_state2).

Lemma g_never_increases_witness :
  length (LaCAM2.nodes hit_state2) = 4%nat /\
  length (LaCAM2.nodes later_state2) = 6%nat /\
  arena_le (LaCAM2.nodes hit_state2) (LaCAM2.nodes later_state2).
Proof.
  split; [vm_refl|]. split; [vm_refl|].
  apply (proj1 (g_never_increases (RT:=Demo.runtime) Demo.ins3 Demo.D3 OBJ_NONE
                  (Demo.fl 0) false 20 None Demo.G3_sym eq_refl Demo.starts3_free)
           4%nat 3%nat hit_state2 later_state2); vm_refl.
Defined.

End CostWitness.

(** * Returned solutions *)

Section Reports.
Context `{RT : Runtime}.
Variable ins : Instance.
Variable objective : Objective.

(** The solution of a report is empty without a goal node and the
    reversed parent walk from the goal node otherwise. *)
Lemma report2_solution fuel p r :
  LaCAM2.report objective fuel p = Some r ->
  match LaCAM2.H_goal p with
  | None => LaCAM2.solution r = []
  | Some gl => exists l, HL.backtrack fuel (LaCAM2.nodes p) (Some gl) = Some l /\
                         LaCAM2.solution r = rev l
  end.
Proof.
  unfold LaCAM2.report. destruct (LaCAM2.H_goal p) as [gl|].
  - destruct (HL.backtrack fuel (LaCAM2.nodes p) (Some gl)) as [l|]; simpl; [|done].
    intros [= <-]. by exists l.
  - simpl. by intros [= <-].
Qed.

Lemma report1_solution fuel p r :
  LaCAM.report objective fuel p = Some r ->
  match LaCAM.S_goal p with
  | None => LaCAM.solution r = []
  | Some gl => exists l, HL.backtrack fuel (LaCAM.nodes p) (Some gl) = Some l /\
                         LaCAM.solution r = rev l
  end.
Proof.
  unfold LaCAM.report. destruct (LaCAM.S_goal p) as [gl|].
  - destruct (HL.backtrack fuel (LaCAM.nodes p) (Some gl)) as [l|]; simpl; [|done].
    intros [= <-]. by exists l.
  - simpl. by intros [= <-].
Qed.

End Reports.

Lemma steps_valid_nil ins : steps_valid ins [].
Proof. intros t C1 C2 H1. by rewrite lookup_nil in H1. Qed.

(** C1.  In every solution returned by [solve], of either planner, any
    two consecutive configurations [C_t], [C_t+1] are a valid joint move:
    every agent stays or moves to a neighbour, no two agents share a
    vertex in [C_t+1], and no two agents exchange their vertices.  (A
    run of LaCAM in which PIBT plans an agent on a vertex with more than
    four neighbours overruns the candidate array and returns nothing.) *)
Theorem solutions_are_valid `{RT : Runtime} (ins : Instance) (D : DistTable)
    (objective : Objective) (RESTART_RATE : float) (FLG_SWAP : bool)
    (fuel deadline : nat) (mt : option rng) :
  graph_undirected ins ->
  length (starts ins) = ins_N ins ->
  vertex_free (ins_N ins) (starts ins) ->
  (forall r,
     LaCAM.solve ins D objective RESTART_RATE fuel deadline mt = Some r ->
     steps_valid ins (LaCAM.solution r)) /\
  (forall r,
     LaCAM2.solve ins D objective RESTART_RATE FLG_SWAP fuel deadline mt = Some r ->
     steps_valid ins (LaCAM2.solution r)).
Proof.
  intros Hsym Hlen Hfree. split; intros r.
  - unfold LaCAM.solve.
    destruct (LaCAM.solve_loop _ _ _ _ _ _ _) as [p|] eqn:Hloop; simpl; [|done].
    intros Hrep. apply report1_solution in Hrep.
    destruct (solve_loop1_inv ins D objective RESTART_RATE Hsym fuel deadline _ p
                (initial_planner1_inv ins D objective Hlen Hfree mt) Hloop) as [HP _].
    destruct (LaCAM.S_goal p) as [gl|].
    + destruct Hrep as (l & Hb & ->).
      destruct (backtrack_solution ins false _ _ _ _ (pi1_arena _ _ HP) Hb)
        as (node & _ & _ & _ & Hv). exact Hv.
    + rewrite Hrep. apply steps_valid_nil.
  - unfold LaCAM2.solve.
    destruct (LaCAM2.solve_loop _ _ _ _ _ _ _ _) as [p|] eqn:Hloop; simpl; [|done].
    intros Hrep. apply report2_solution in Hrep.
    destruct (solve_loop_inv ins D objective RESTART_RATE FLG_SWAP (fun _ => Hsym)
                fuel deadline _ p
                (initial_planner_inv ins D objective Hlen Hfree mt) Hloop) as [HP _].
    destruct (LaCAM2.H_goal p) as [gl|].
    + destruct Hrep as (l & Hb & ->).
      destruct (backtrack_solution ins true _ _ _ _ (pi_arena _ _ HP) Hb)
        as (node & _ & _ & _ & Hv). exact Hv.
    + rewrite Hrep. apply steps_valid_nil.
Qed.

Section SolutionWitness.
#[local] Existing Instance Demo.runtime.

(** What LaCAM returns on [Demo.ins_near] under NONE, all draws being 0. *)
Definition demo_result1 : LaCAM.Result :=
  default (LaCAM.mkResult [] false OBJ_NONE 0 0)
    (LaCAM.solve Demo.ins_near Demo.D_near OBJ_NONE (Demo.fl 0) 20 1000 (Some [])).

Lemma demo_result1_returned :
  LaCAM.solve Demo.ins_near Demo.D_near OBJ_NONE (Demo.fl 0) 20 1000 (Some [])
  = Some demo_result1.
Proof. vm_refl. Qed.

Lemma solutions_are_valid_witness :
  (LaCAM.solution demo_result1 = [[0; 4]; [1; 4]; [2; 4]]%nat /\
   steps_valid Demo.ins_near (LaCAM.solution demo_result1)) /\
  (LaCAM2.solution demo_result2 = [[0; 4]; [1; 4]; [2; 4]]%nat /\
   steps_valid Demo.ins_near (LaCAM2.solution demo_result2)).
Proof.
  split; (split; [vm_refl|]).
  - exact (proj1 (solutions_are_valid (RT:=Demo.runtime) Demo.ins_near Demo.D_near
                    OBJ_NONE (Demo.fl 0) true 20 1000 (Some [])
                    Demo.G3_sym eq_refl Demo.starts3_free)
             demo_result1 demo_result1_returned).
  - exact (proj2 (solutions_are_valid (RT:=Demo.runtime) Demo.ins_near Demo.D_near
                    OBJ_MAKESPAN (Demo.fl 0) true 20 1000 None
                    Demo.G3_sym eq_refl Demo.starts3_free)
             demo_result2 demo_result2_returned).
Defined.

End SolutionWitness.

(** * Backtracking *)


Section Walk.
Context `{RT : Runtime}.
Variable ins : Instance.
Variable rv : bool.


End Walk.






Section BacktrackWitness.
#[local] Existing Instance Demo.runtime.


End BacktrackWitness.

(** * Failed priority inheritance *)

(** How the candidate loop of [funcPIBT] comes out of one candidate. *)
Inductive Attempt `{Runtime} :=
| Skipped                (* a [continue] before the reservation *)
| Secured (s : Scratch)  (* [return true] *)
| Refused (s : Scratch)  (* the priority inheritance failed: [continue] *)
| Unfinished.            (* the callee has no result *)

(** The body of the candidate loop of LaCAM2 (lacam2/src/planner.cpp:376),
    up to the pull of the swap agent. *)
Definition attempt2 `{Runtime} (rec : Agent -> Scratch -> option (bool * Scratch))
    (ai : Agent) (vi u : Vertex) (s : Scratch) : Attempt :=
  if bool_decide (occupied_next s !! u ≠ None) then Skipped
  else
    let ak := occupied_now s !! u in
    if match ak with
       | Some a => bool_decide (v_next s !! a = Some vi)
       | None => false
       end
    then Skipped
    else
      let s1 := reserve ai u s in
      match ak with
      | Some a =>
          if bool_decide (a ≠ ai) && bool_decide (v_next s1 !! a = None) then
            match rec a s1 with
            | None => Unfinished
            | Some (false, s2) => Refused s2
            | Some (true, s2) => Secured s2
            end
          else Secured s1
      | None => Secured s1
      end.

(** The body of the candidate loop of LaCAM (lacam/src/planner.cpp:292). *)
Definition attempt1 `{Runtime}
    (rec : Agent -> option Agent -> Scratch -> option (bool * Scratch))
    (ai : Agent) (vi : Vertex) (aj : option Agent) (u : Vertex) (s : Scratch) : Attempt :=
  if bool_decide (occupied_next s !! u ≠ None) then Skipped
  else
  if match aj with
     | Some j => bool_decide (v_now s !! j = Some u)
     | None => false
     end
  then Skipped
  else
    let ak := occupied_now s !! u in
    if match ak with
       | Some a => bool_decide (v_next s !! a = Some vi)
       | None => false
       end
    then Skipped
    else
      let s1 := reserve ai u s in
      match ak with
      | None => Secured s1
      | Some a =>
          if bool_decide (u = vi) then Secured s1
          else
            if bool_decide (v_next s1 !! a = None) then
              match rec a (Some ai) s1 with
              | None => Unfinished
              | Some (false, s2) => Refused s2
              | Some (true, s2) => Secured s2
              end
            else Secured s1
      end.

(** [tries attempt cands s rest s']: the candidate loop, entered with the
    candidates [cands] and the tables [s], comes to try the candidates
    [rest] with the tables [s']; every candidate in between was skipped
    or ended in a failed priority inheritance. *)
Inductive tries `{Runtime} (attempt : Vertex -> Scratch -> Attempt)
  : list Vertex -> Scratch -> list Vertex -> Scratch -> Prop :=
| tries_here cands s : tries attempt cands s cands s
| tries_skipped u rest s rest' s' :
    attempt u s = Skipped -> tries attempt rest s rest' s' ->
    tries attempt (u :: rest) s rest' s'
| tries_refused u rest s s2 rest' s' :
    attempt u s = Refused s2 -> tries attempt rest s2 rest' s' ->
    tries attempt (u :: rest) s rest' s'.

(** The loops are the iteration of these bodies. *)
Lemma pibt_loop2_attempt `{RT : Runtime} FLG_SWAP rec ai vi swap_agent k u rest s :
  LaCAM2.pibt_loop FLG_SWAP rec ai vi swap_agent k (u :: rest) s =
  match attempt2 rec ai vi u s with
  | Skipped => LaCAM2.pibt_loop FLG_SWAP rec ai vi swap_agent (S k) rest s
  | Refused s2 => LaCAM2.pibt_loop FLG_SWAP rec ai vi swap_agent (S k) rest s2
  | Secured s2 => Some (true, LaCAM2.pull_swap_agent FLG_SWAP k swap_agent vi s2)
  | Unfinished => None
  end.
Proof.
  cbn [LaCAM2.pibt_loop]. unfold attempt2.
  case_bool_decide; [done|].
  destruct (occupied_now s !! u) as [a|]; [|done].
  case_bool_decide; [done|].
  destruct (_ && _); [|done].
  by destruct (rec a (reserve ai u s)) as [[[|] s2]|].
Qed.

Lemma pibt_loop1_attempt `{RT : Runtime} rec ai vi aj u rest s :
  LaCAM.pibt_loop rec ai vi aj (u :: rest) s =
  match attempt1 rec ai vi aj u s with
  | Skipped => LaCAM.pibt_loop rec ai vi aj rest s
  | Refused s2 => LaCAM.pibt_loop rec ai vi aj rest s2
  | Secured s2 => Some (true, s2)
  | Unfinished => None
  end.
Proof.
  cbn [LaCAM.pibt_loop]. unfold attempt1.
  case_bool_decide; [done|].
  destruct (match aj with Some j => _ | None => _ end); [done|].
  destruct (occupied_now s !! u) as [a|]; [|done].
  case_bool_decide; [done|].
  case_bool_decide; [done|].
  case_bool_decide; [|done].
  by destruct (rec a (Some ai) (reserve ai u s)) as [[[|] s2]|].
Qed.

Lemma tries_loop2 `{RT : Runtime} FLG_SWAP rec ai vi swap_agent cands s rest s' :
  tries (attempt2 rec ai vi) cands s rest s' ->
  forall k,
    LaCAM2.pibt_loop FLG_SWAP rec ai vi swap_agent k cands s =
    LaCAM2.pibt_loop FLG_SWAP rec ai vi swap_agent
      (k + (length cands - length rest)) rest s'.
Proof.
  induction 1 as [cands s|u rest s rest' s' Ha Ht IH|u rest s s2 rest' s' Ha Ht IH];
    intros k.
  - f_equal. lia.
  - rewrite pibt_loop2_attempt, Ha, IH. f_equal.
    assert (length rest' <= length rest)%nat; [|simpl; lia].
    clear -Ht. induction Ht; simpl; lia.
  - rewrite pibt_loop2_attempt, Ha, IH. f_equal.
    assert (length rest' <= length rest)%nat; [|simpl; lia].
    clear -Ht. induction Ht; simpl; lia.
Qed.

Lemma tries_loop1 `{RT : Runtime} rec ai vi aj cands s rest s' :
  tries (attempt1 rec ai vi aj) cands s rest s' ->
  LaCAM.pibt_loop rec ai vi aj cands s = LaCAM.pibt_loop rec ai vi aj rest s'.
Proof.
  induction 1 as [cands s|u rest s rest' s' Ha Ht IH|u rest s s2 rest' s' Ha Ht IH].
  - done.
  - by rewrite pibt_loop1_attempt, Ha.
  - by rewrite pibt_loop1_attempt, Ha.
Qed.

Section FailedInheritance.
Context `{RT : Runtime}.
Variable ins : Instance.
Variable n : nat.
Variable C : list nat.
Hypothesis C_free : vertex_free n C.

(** The tables after a failed callee [ak] that stands on [u]. *)
Definition undone (ai u ak : nat) (s' : Scratch) : Prop :=
  occupied_next s' !! u = Some ak /\ v_next s' !! ak = Some u /\
  forall v, occupied_next s' !! v <> Some ai.

(** The only entry of [occupied_next] that maps to [ai] is that of [u]. *)
Definition holds_only (ai u : nat) (s : Scratch) : Prop :=
  forall v, occupied_next s !! v = Some ai <-> v = u.

(** The candidates of [ai]. *)
Definition candidates_of (ai : nat) (cands : list nat) : Prop :=
  forall u, u ∈ cands -> u = cfg_at C ai \/ u ∈ neighbor ins (cfg_at C ai).

(** What holds when [ai] comes to a candidate: but for the entry
    [ai->v_next], which may be stale, the tables are a valid partial
    plan. *)
Definition at_candidate (ai : nat) (s : Scratch) : Prop := Inv ins n C (unplan ai s).

Lemma at_candidate_free ai s v : at_candidate ai s -> occupied_next s !! v <> Some ai.
Proof.
  intros HI Hv.
  pose proof (occ_next_sound _ _ (inv_tables _ _ _ _ HI) v ai) as Hsound.
  unfold unplan in Hsound. simpl in Hsound. specialize (Hsound Hv).
  by rewrite lookup_delete_eq in Hsound.
Qed.

Lemma reserve_holds_only ai u s : at_candidate ai s -> holds_only ai u (reserve ai u s).
Proof.
  intros HI v. simpl. split.
  - intros Hv. destruct (decide (v = u)) as [->|Hne]; [done|].
    rewrite lookup_insert_ne in Hv by done. by apply at_candidate_free in Hv.
  - intros ->. by rewrite lookup_insert_eq.
Qed.

(** What a failed priority inheritance leaves. *)
Definition refusal_ok (attempt : Vertex -> Scratch -> Attempt) (ai : nat) : Prop :=
  forall u s s2,
    at_candidate ai s -> (u = cfg_at C ai \/ u ∈ neighbor ins (cfg_at C ai)) ->
    attempt u s = Refused s2 ->
    exists ak, occupied_now s !! u = Some ak /\ ak <> ai /\
               holds_only ai u (reserve ai u s) /\
               undone ai u ak s2 /\ at_candidate ai s2.

Lemma callee_refused ai u ak s s2 :
  (ai < n)%nat ->
  at_candidate ai s ->
  (u = cfg_at C ai \/ u ∈ neighbor ins (cfg_at C ai)) ->
  occupied_next s !! u = None ->
  occupied_now s !! u = Some ak ->
  v_next s !! ak <> Some (cfg_at C ai) ->
  v_next (reserve ai u s) !! ak = None ->
  (Inv ins n C (reserve ai u s) -> (ak < n)%nat ->
   pibt_post ins n C ak (reserve ai u s) (false, s2)) ->
  ak <> ai /\ holds_only ai u (reserve ai u s) /\ undone ai u ak s2 /\ at_candidate ai s2.
Proof.
  intros Hai HI Hadj Hfree Hocc Hhead Hanone Hpost.
  assert (Inv ins n C (reserve ai u s)) as HI1.
  { apply reserve_inv; try done. intros b _ Hb. congruence. }
  destruct (occupant_at ins n C _ u ak HI1 Hocc) as [Han HuC].
  assert (ak <> ai) as Hne.
  { intros ->. simpl in Hanone. by rewrite lookup_insert_eq in Hanone. }
  destruct (Hpost HI1 Han) as [_ (_ & Hstay & Hown & HI2)]. simpl in *.
  rewrite <- HuC in Hstay, Hown, HI2. rewrite lookup_insert_eq in HI2. simpl in HI2.
  split; [done|]. split; [by apply reserve_holds_only|].
  split; [|done]. split; [done|]. split; [done|].
  intros v. by apply at_candidate_free.
Qed.

Lemma attempt2_refusal_ok rec ai :
  (ai < n)%nat ->
  (forall a s r,
     rec a s = Some r -> Inv ins n C s -> (a < n)%nat -> v_next s !! a = None ->
     pibt_post ins n C a s r) ->
  refusal_ok (attempt2 rec ai (cfg_at C ai)) ai.
Proof.
  intros Hai Hrec u s s2 HI Hadj. unfold attempt2.
  case_bool_decide as Hfree; [done|].
  assert (occupied_next s !! u = None) as Hfree'.
  { destruct (occupied_next s !! u); [by destruct Hfree|done]. }
  destruct (occupied_now s !! u) as [a|] eqn:Hocc; [|done].
  case_bool_decide as Hhead; [done|].
  destruct (bool_decide (a ≠ ai) && bool_decide (v_next (reserve ai u s) !! a = None))
    eqn:Hinh; [|done].
  apply andb_true_iff in Hinh as [_ Hanone]. apply bool_decide_eq_true in Hanone.
  destruct (rec a (reserve ai u s)) as [[[|] s2']|] eqn:Hcall; try done.
  intros [= <-]. exists a. split; [done|].
  apply callee_refused; try done.
  intros HI1 Han. by apply (Hrec _ _ _ Hcall).
Qed.

Lemma attempt1_refusal_ok rec ai aj :
  (ai < n)%nat ->
  (forall a caller s r,
     rec a caller s = Some r -> Inv ins n C s -> (a < n)%nat -> v_next s !! a = None ->
     pibt_post ins n C a s r) ->
  refusal_ok (attempt1 rec ai (cfg_at C ai) aj) ai.
Proof.
  intros Hai Hrec u s s2 HI Hadj. unfold attempt1.
  case_bool_decide as Hfree; [done|].
  assert (occupied_next s !! u = None) as Hfree'.
  { destruct (occupied_next s !! u); [by destruct Hfree|done]. }
  destruct (match aj with Some j => _ | None => _ end); [done|].
  destruct (occupied_now s !! u) as [a|] eqn:Hocc; [|done].
  case_bool_decide as Hhead; [done|].
  case_bool_decide as Hown; [done|].
  case_bool_decide as Hanone; [|done].
  destruct (rec a (Some ai) (reserve ai u s)) as [[[|] s2']|] eqn:Hcall; try done.
  intros [= <-]. exists a. split; [done|].
  apply callee_refused; try done.
  intros HI1 Han. by apply (Hrec _ _ _ _ Hcall).
Qed.

(** Every state in which the loop of [ai] comes to a candidate is one in
    which only [ai->v_next] may be stale. *)
Lemma tries_at_candidate attempt ai cands s rest s' :
  refusal_ok attempt ai ->
  tries attempt cands s rest s' ->
  candidates_of ai cands -> at_candidate ai s ->
  candidates_of ai rest /\ at_candidate ai s'.
Proof.
  intros Hok Ht. induction Ht as [cands s|u rest s rest' s' Ha Ht IH|u rest s s2 rest' s' Ha Ht IH];
    intros Hc HI.
  - done.
  - apply IH; [|done]. intros u' Hu'. apply Hc. by right.
  - destruct (Hok u s s2 HI (Hc u ltac:(by left)) Ha) as (ak & _ & _ & _ & _ & HI2).
    apply IH; [|done]. intros u' Hu'. apply Hc. by right.
Qed.

(** The whole loop of [ai], from the entry of [funcPIBT(ai)]. *)
Lemma loop_reservations attempt ai cands s :
  refusal_ok attempt ai ->
  candidates_of ai cands -> at_candidate ai s ->
  forall rest s', tries attempt cands s rest s' ->
    (forall v, occupied_next s' !! v <> Some ai) /\
    forall u rest' s2, rest = u :: rest' -> attempt u s' = Refused s2 ->
      (exists ak, occupied_now s' !! u = Some ak /\ ak <> ai /\
                  holds_only ai u (reserve ai u s') /\ undone ai u ak s2) /\
      tries attempt cands s rest' s2.
Proof.
  intros Hok Hc HI rest s' Ht.
  destruct (tries_at_candidate attempt ai cands s rest s' Hok Ht Hc HI) as [Hc' HI'].
  split; [intros v; by apply at_candidate_free|].
  intros u rest' s2 -> Ha.
  destruct (Hok u s' s2 HI' (Hc' u ltac:(by left)) Ha) as (ak & Hocc & Hne & Hh & Hu & _).
  split; [by exists ak|].
  remember (u :: rest') as r eqn:Er. clear -Ht Ha Er.
  induction Ht as [cands s| |]; subst.
  - eapply tries_refused; [exact Ha|constructor].
  - eapply tries_skipped; [done|]. by apply IHHt.
  - eapply tries_refused; [done|]. by apply IHHt.
Qed.

End FailedInheritance.

(** C8.  One invocation of [funcPIBT(ai)], entered with valid tables in
    which [ai] has no plan, whatever the order of its candidates.  Every
    time the loop of [ai] comes to a candidate, no entry of
    [occupied_next] maps to [ai].  When [ai] then reserves the vertex [u]
    of an agent [ak] and the call for [ak] returns false, [ai] held the
    entry of [u] and no other during the call, and the failed callee has
    taken its own vertex: [occupied_next[u]] is [ak], [ak->v_next] is
    [u], and again no entry maps to [ai] when the loop goes on with the
    next candidate.  This holds for every failed inheritance of the
    invocation, the stale [ai->v_next] of the earlier ones included. *)
Theorem failed_inheritance_undone `{RT : Runtime} (ins : Instance) (D : DistTable)
    (FLG_SWAP : bool) (C : list nat) (ai : nat) (s : Scratch) (fuel : nat)
    (cands : list nat) :
  vertex_free (ins_N ins) C ->
  (FLG_SWAP = true -> graph_undirected ins) ->
  Inv ins (ins_N ins) C s -> (ai < ins_N ins)%nat -> v_next s !! ai = None ->
  candidates_of ins C ai cands ->
  let vi := cfg_at C ai in
  let s0 := set_tie_breakers (neighbor ins vi) s in
  (forall swap_agent rest s',
     tries (attempt2 (LaCAM2.funcPIBT ins D FLG_SWAP fuel) ai vi) cands s0 rest s' ->
     LaCAM2.pibt_loop FLG_SWAP (LaCAM2.funcPIBT ins D FLG_SWAP fuel) ai vi swap_agent
       0 cands s0 =
     LaCAM2.pibt_loop FLG_SWAP (LaCAM2.funcPIBT ins D FLG_SWAP fuel) ai vi swap_agent
       (length cands - length rest) rest s' /\
     (forall v, occupied_next s' !! v <> Some ai) /\
     forall u rest' s2,
       rest = u :: rest' ->
       attempt2 (LaCAM2.funcPIBT ins D FLG_SWAP fuel) ai vi u s' = Refused s2 ->
       (exists ak, occupied_now s' !! u = Some ak /\ ak <> ai /\
                   holds_only ai u (reserve ai u s') /\ undone ai u ak s2) /\
       tries (attempt2 (LaCAM2.funcPIBT ins D FLG_SWAP fuel) ai vi) cands s0 rest' s2) /\
  (forall aj rest s',
     tries (attempt1 (LaCAM.funcPIBT ins D fuel) ai vi aj) cands s0 rest s' ->
     LaCAM.pibt_loop (LaCAM.funcPIBT ins D fuel) ai vi aj cands s0 =
     LaCAM.pibt_loop (LaCAM.funcPIBT ins D fuel) ai vi aj rest s' /\
     (forall v, occupied_next s' !! v <> Some ai) /\
     forall u rest' s2,
       rest = u :: rest' ->
       attempt1 (LaCAM.funcPIBT ins D fuel) ai vi aj u s' = Refused s2 ->
       (exists ak, occupied_now s' !! u = Some ak /\ ak <> ai /\
                   holds_only ai u (reserve ai u s') /\ undone ai u ak s2) /\
       tries (attempt1 (LaCAM.funcPIBT ins D fuel) ai vi aj) cands s0 rest' s2).
Proof.
  intros Hfree Hsym HI Hai Hnone Hc vi s0.
  destruct (set_tie_breakers_tables (neighbor ins vi) s) as (E1 & E2 & E3 & E4).
  fold s0 in E1, E2, E3, E4.
  assert (at_candidate ins (ins_N ins) C ai s0) as HI0.
  { unfold at_candidate. rewrite unplan_absent by (by rewrite E2).
    by apply (Inv_tables ins (ins_N ins) C s). }
  split.
  - intros swap_agent rest s' Ht.
    split; [exact (tries_loop2 FLG_SWAP _ ai vi swap_agent cands s0 rest s' Ht 0%nat)|].
    apply (loop_reservations ins (ins_N ins) C _ ai cands s0); try done.
    apply attempt2_refusal_ok; try done.
    intros a s1 r. by apply (funcPIBT_post ins D FLG_SWAP (ins_N ins) C Hfree Hsym fuel).
  - intros aj rest s' Ht.
    split; [exact (tries_loop1 _ ai vi aj cands s0 rest s' Ht)|].
    apply (loop_reservations ins (ins_N ins) C _ ai cands s0); try done.
    apply attempt1_refusal_ok; try done.
    intros a caller s1 r. by apply (funcPIBT1_post ins D C Hfree fuel a caller).
Qed.

Section InheritanceWitness.
#[local] Existing Instance Demo.runtime.

(** The tables for the configuration in which agent 0 stands in the dead
    end 0 of [Demo.ins3] and agent 1 next to it. *)
Definition blocked_tables : Scratch :=
  fold_left (LaCAM2.setup_agent [0; 1]%nat) (seq 0 2) (scratch_init None).

Lemma blocked_free : vertex_free (ins_N Demo.ins3) [0; 1]%nat.
Proof.
  intros i j. simpl.
  destruct i as [|[|i]], j as [|[|j]]; intros Hi Hj Hij; try lia; try done.
Qed.

Lemma blocked_inv : Inv Demo.ins3 (ins_N Demo.ins3) [0; 1]%nat blocked_tables.
Proof.
  apply (setup_inv Demo.ins3 [0; 1]%nat blocked_free).
  apply (scratch_init_ok (ins:=Demo.ins3)).
Qed.

(** Four agents on the graph of [Demo.ins3]: agent 0 stands on the
    branching vertex 2, agent 1 in the dead end 5, and agents 2 and 3 in
    the corridor that ends in 0. *)
Definition crowd_C : Config := [2; 5; 1; 0]%nat.

Definition ins_crowd : Instance :=
  {| neighbor := Demo.G3; ins_N := 4; starts := crowd_C; goals := [4; 5; 1; 0]%nat |}.

Definition crowd_tables : Scratch :=
  fold_left (LaCAM2.setup_agent crowd_C) (seq 0 4) (scratch_init None).

(** The tables after the first and after the second failed inheritance
    of agent 0, which tries the vertices 5, 1, 3 and 2 in this order. *)
Definition crowd_once2 : Scratch :=
  match attempt2 (LaCAM2.funcPIBT ins_crowd Demo.D3 true 20) 0 (cfg_at crowd_C 0) 5
          (set_tie_breakers (neighbor ins_crowd (cfg_at crowd_C 0)) crowd_tables) with
  | Refused s2 => s2
  | _ => crowd_tables
  end.
Definition crowd_twice2 : Scratch :=
  match attempt2 (LaCAM2.funcPIBT ins_crowd Demo.D3 true 20) 0 (cfg_at crowd_C 0) 1
          crowd_once2 with
  | Refused s2 => s2
  | _ => crowd_tables
  end.
Definition crowd_once1 : Scratch :=
  match attempt1 (LaCAM.funcPIBT ins_crowd Demo.D3 20) 0 (cfg_at crowd_C 0) None 5
          (set_tie_breakers (neighbor ins_crowd (cfg_at crowd_C 0)) crowd_tables) with
  | Refused s2 => s2
  | _ => crowd_tables
  end.
Definition crowd_twice1 : Scratch :=
  match attempt1 (LaCAM.funcPIBT ins_crowd Demo.D3 20) 0 (cfg_at crowd_C 0) None 1
          crowd_once1 with
  | Refused s2 => s2
  | _ => crowd_tables
  end.

Lemma crowd_free : vertex_free (ins_N ins_crowd) crowd_C.
Proof.
  intros i j. simpl.
  destruct i as [|[|[|[|i]]]], j as [|[|[|[|j]]]]; intros Hi Hj Hij; try lia; try done.
Qed.

Lemma crowd_inv : Inv ins_crowd (ins_N ins_crowd) crowd_C crowd_tables.
Proof.
  apply (setup_inv ins_crowd crowd_C crowd_free).
  apply (scratch_init_ok (ins:=ins_crowd)).
Qed.

Lemma crowd_candidates : candidates_of ins_crowd crowd_C 0 [5; 1; 3; 2]%nat.
Proof. intros u Hu. simpl. set_solver. Qed.

Lemma crowd_tries2 :
  tries (attempt2 (LaCAM2.funcPIBT ins_crowd Demo.D3 true 20) 0 (cfg_at crowd_C 0))
        [5; 1; 3; 2]%nat
        (set_tie_breakers (neighbor ins_crowd (cfg_at crowd_C 0)) crowd_tables)
        [1; 3; 2]%nat crowd_once2.
Proof. eapply tries_refused; [vm_refl|constructor]. Qed.

Lemma crowd_tries1 :
  tries (attempt1 (LaCAM.funcPIBT ins_crowd Demo.D3 20) 0 (cfg_at crowd_C 0) None)
        [5; 1; 3; 2]%nat
        (set_tie_breakers (neighbor ins_crowd (cfg_at crowd_C 0)) crowd_tables)
        [1; 3; 2]%nat crowd_once1.
Proof. eapply tries_refused; [vm_refl|constructor]. Qed.

Lemma failed_inheritance_undone_witness :
  ((forall v, occupied_next crowd_once2 !! v <> Some 0%nat) /\
   (exists ak, occupied_now crowd_once2 !! 1%nat = Some ak /\ ak <> 0%nat /\
               holds_only 0 1 (reserve 0 1 crowd_once2) /\ undone 0 1 ak crowd_twice2) /\
   read_config 4 crowd_twice2 = [1; 5; 1; 0]%nat) /\
  ((forall v, occupied_next crowd_once1 !! v <> Some 0%nat) /\
   (exists ak, occupied_now crowd_once1 !! 1%nat = Some ak /\ ak <> 0%nat /\
               holds_only 0 1 (reserve 0 1 crowd_once1) /\ undone 0 1 ak crowd_twice1) /\
   read_config 4 crowd_twice1 = [1; 5; 1; 0]%nat).
Proof.
  pose proof (failed_inheritance_undone (RT:=Demo.runtime) ins_crowd Demo.D3 true
                crowd_C 0 crowd_tables 20 [5; 1; 3; 2]%nat crowd_free
                (fun _ => Demo.G3_sym) crowd_inv ltac:(simpl; lia) ltac:(vm_refl)
                crowd_candidates) as [H2 H1].
  split.
  - destruct (H2 None [1; 3; 2]%nat crowd_once2 crowd_tries2) as (_ & Hfree & Hnext).
    split; [exact Hfree|]. split; [|vm_refl].
    exact (proj1 (Hnext 1%nat [3; 2]%nat crowd_twice2 eq_refl ltac:(vm_refl))).
  - destruct (H1 None [1; 3; 2]%nat crowd_once1 crowd_tries1) as (_ & Hfree & Hnext).
    split; [exact Hfree|]. split; [|vm_refl].
    exact (proj1 (Hnext 1%nat [3; 2]%nat crowd_twice1 eq_refl ltac:(vm_refl))).
Defined.

End InheritanceWitness.

(** * Further properties of the planners *)

(** ** Edge costs *)

(** The number of agents below [n] with the property [P]. *)
Definition count_agents (P : nat -> bool) (n : nat) : Z :=
  Z.of_nat (length (List.filter P (seq 0 n))).

Lemma count_agents_S P n :
  count_agents P (S n) = count_agents P n + (if P n then 1 else 0).
Proof.
  unfold count_agents. rewrite seq_S, List.filter_app, length_app. simpl.
  destruct (P n); simpl; lia.
Qed.

Lemma count_agents_le P n : 0 <= count_agents P n <= Z.of_nat n.
Proof.
  induction n as [|n IH]; [done|].
  rewrite count_agents_S. destruct (P n); lia.
Qed.

Lemma count_loop_exact (P : nat -> bool) n :
  Z.of_nat n < UINT_MOD ->
  for_upto n (fun cost i => if P i then u32 (cost + 1) else cost) 0 = count_agents P n.
Proof.
  induction n as [|n IH]; intros Hn; [done|].
  rewrite for_upto_S, count_agents_S. cbv beta. rewrite IH by lia.
  pose proof (count_agents_le P n).
  destruct (P n); [|lia]. rewrite u32_small; lia.
Qed.

(** X1.  The cost of an edge between two configurations: LaCAM2 counts
    the agents that change their vertex under NONE, both planners count
    the agents that are off their goal before or after the move under
    SUM_OF_LOSS, and the cost is 1 in every other case (MAKESPAN, and
    NONE in LaCAM).  [N] is assumed to fit an unsigned int. *)
Theorem edge_cost_counts (ins : Instance) (C1 C2 : list nat) :
  Z.of_nat (ins_N ins) < UINT_MOD ->
  let moved i := bool_decide (cfg_at C1 i <> cfg_at C2 i) in
  let off_goal i := bool_decide (cfg_at C1 i <> cfg_at (goals ins) i)
                    || bool_decide (cfg_at C2 i <> cfg_at (goals ins) i) in
  LaCAM2.get_edge_cost ins OBJ_NONE C1 C2 = count_agents moved (ins_N ins) /\
  LaCAM2.get_edge_cost ins OBJ_SUM_OF_LOSS C1 C2 = count_agents off_goal (ins_N ins) /\
  LaCAM2.get_edge_cost ins OBJ_MAKESPAN C1 C2 = 1 /\
  LaCAM.get_edge_cost ins OBJ_SUM_OF_LOSS C1 C2 = count_agents off_goal (ins_N ins) /\
  LaCAM.get_edge_cost ins OBJ_MAKESPAN C1 C2 = 1 /\
  LaCAM.get_edge_cost ins OBJ_NONE C1 C2 = 1.
Proof.
  intros HN moved off_goal. unfold LaCAM2.get_edge_cost, LaCAM.get_edge_cost.
  rewrite (count_loop_exact moved), (count_loop_exact off_goal) by done. done.
Qed.

Lemma edge_cost_counts_witness :
  LaCAM2.get_edge_cost Demo.ins3 OBJ_NONE [0; 4]%nat [1; 4]%nat = 1 /\
  LaCAM2.get_edge_cost Demo.ins3 OBJ_SUM_OF_LOSS [3; 0]%nat [4; 0]%nat = 1 /\
  LaCAM.get_edge_cost Demo.ins3 OBJ_SUM_OF_LOSS [0; 4]%nat [1; 3]%nat = 2.
Proof.
  destruct (edge_cost_counts Demo.ins3 [0; 4]%nat [1; 4]%nat eq_refl)
    as (H1 & _).
  destruct (edge_cost_counts Demo.ins3 [3; 0]%nat [4; 0]%nat eq_refl)
    as (_ & H2 & _).
  destruct (edge_cost_counts Demo.ins3 [0; 4]%nat [1; 3]%nat eq_refl)
    as (_ & _ & _ & H3 & _).
  split; [exact H1|]. split; [exact H2|exact H3].
Defined.

(** ** Construction of high-level nodes *)

(** Two nodes that differ at most in their neighbour sets. *)
Definition same_but_neighbors `{Runtime} (a b : HL.HNode) : Prop :=
  HL.C a = HL.C b /\ HL.parent a = HL.parent b /\ HL.g a = HL.g b /\
  HL.h a = HL.h b /\ HL.f a = HL.f b /\ HL.priorities a = HL.priorities b /\
  HL.order a = HL.order b /\ HL.search_tree a = HL.search_tree b.

(** [new HNode(C, D, parent, g, h)] appends one node to the arena.
    The new node holds the given configuration, parent, [g] and [h], has
    [f = g + h] in unsigned arithmetic, no neighbours, a search tree
    with the empty frame only, one priority per agent and as [order] a
    permutation of the agents.  Its id enters the neighbour set of the
    parent; nothing else changes in the nodes that were there. *)
Lemma HNode_new_spec `{RT : Runtime} (D : DistTable) (nodes : list HL.HNode)
    (C : list nat) (parent : option nat) (g h : Z) :
  let nodes' := HL.HNode_new D nodes C parent g h in
  length nodes' = S (length nodes) /\
  (exists new,
     nodes' !! length nodes = Some new /\
     HL.C new = C /\ HL.parent new = parent /\ HL.g new = g /\ HL.h new = h /\
     HL.f new = u32 (g + h) /\ HL.neighbor_set new = ∅ /\
     HL.search_tree new = [[]] /\
     length (HL.priorities new) = length C /\
     Permutation (seq 0 (length C)) (HL.order new)) /\
  (forall id node, nodes !! id = Some node ->
     exists node', nodes' !! id = Some node' /\ same_but_neighbors node' node /\
       HL.neighbor_set node' =
         if bool_decide (parent = Some id)
         then {[length nodes]} ∪ HL.neighbor_set node
         else HL.neighbor_set node).
Proof.
  unfold HL.HNode_new. cbv zeta.
  set (old := match parent with
              | Some p => alter (HL.add_neighbor (length nodes)) p nodes
              | None => nodes
              end).
  assert (length old = length nodes) as Hlen.
  { unfold old. destruct parent; [apply length_alter|done]. }
  split; [|split].
  - rewrite length_app, Hlen. simpl. lia.
  - eexists. split.
    + rewrite lookup_app_r by lia. by rewrite Hlen, Nat.sub_diag.
    + unfold HL.HNode_init. simpl. repeat split; try done.
      * destruct (_ ≫= _); by rewrite length_map, length_seq.
      * apply std_sort_perm.
  - intros id node Hn. pose proof (lookup_lt_Some _ _ _ Hn) as Hlt.
    rewrite lookup_app_l by lia. unfold old.
    destruct parent as [p|].
    + destruct (decide (p = id)) as [->|Hne].
      * rewrite list_lookup_alter_eq, Hn. simpl. eexists. split; [done|].
        rewrite bool_decide_eq_true_2 by done. by repeat split.
      * rewrite list_lookup_alter_ne by done. exists node. split; [done|].
        rewrite bool_decide_eq_false_2 by congruence. by repeat split.
    + exists node. split; [done|]. by repeat split.
Qed.

(** ** Successor generation *)

Section Honoured.
Context `{RT : Runtime}.
Variable ins : Instance.
Variable C : list nat.

(** When all constraints of a low-level node could be installed, every
    constrained agent is planned to its vertex. *)
Lemma add_constraints_honoured L : forall s,
  Inv ins (ins_N ins) C s -> lnode_ok ins C L ->
  (forall i l, (i, l) ∈ L -> v_next s !! i = None) ->
  (LaCAM2.add_constraints C L s).1 = true ->
  forall i l, (i, l) ∈ L -> v_next (LaCAM2.add_constraints C L s).2 !! i = Some l.
Proof.
  induction L as [|[i l] L IH]; intros s HI HL Hnone Hok i' l' Hin.
  { by apply elem_of_nil in Hin. }
  pose proof (add_constraints_inv ins C ((i, l) :: L) s HI HL Hnone) as Hinv.
  destruct HL as [Hnd Hadj]. simpl in Hok, Hinv |- *.
  destruct (bool_decide (occupied_next s !! l <> None)) eqn:Hfree; [done|].
  apply bool_decide_eq_false in Hfree.
  destruct (match occupied_next s !! cfg_at C i with
            | Some x => _
            | None => false
            end) eqn:Hswap; [done|].
  assert (forall i0 l0, (i0, l0) ∈ L -> v_next (reserve i l s) !! i0 = None) as Hnone'.
  { intros i0 l0 Hin0. simpl. rewrite lookup_insert_ne; [apply (Hnone i0 l0); by right|].
    intros ->. inversion Hnd as [|? ? Hni _]; subst. apply Hni.
    apply list_elem_of_In. by apply (list_elem_of_fmap_2 fst) in Hin0. }
  assert (lnode_ok ins C L) as HL'.
  { split; [by inversion Hnd|]. intros i0 l0 Hin0. apply Hadj. by right. }
  assert (Inv ins (ins_N ins) C (reserve i l s)) as HI1.
  { destruct (Hadj i l) as [Hi Had]; [by left|].
    apply reserve_inv; try done.
    - rewrite unplan_absent; [done|]. apply (Hnone i l). by left.
    - destruct (occupied_next s !! l) eqn:E; [|done]. by destruct Hfree.
    - intros b Hb Ho Hv.
      pose proof (next_reserved _ _ _ _ (inv_plan _ _ _ _ HI) _ _ Hv) as Hr.
      rewrite Hr, Ho in Hswap. by rewrite bool_decide_eq_true_2 in Hswap. }
  apply elem_of_cons in Hin as [[= -> ->]|Hin].
  - destruct (add_constraints_inv ins C L (reserve i l s) HI1 HL' Hnone')
      as (_ & _ & Hkp).
    apply Hkp. simpl. apply lookup_insert_eq.
  - by apply (IH (reserve i l s)).
Qed.

End Honoured.

(** The configuration read from the tables moves validly from [C] and
    sends every constrained agent to its vertex. *)
Definition successor_ok `{Runtime} (ins : Instance) (C : list nat)
    (L : list (nat * nat)) (s : Scratch) : Prop :=
  valid_step ins (ins_N ins) C (read_config (ins_N ins) s) /\
  forall i l, (i, l) ∈ L -> cfg_at (read_config (ins_N ins) s) i = l.

(** X3.  When [get_new_config] succeeds on a collision-free
    configuration [C], with tables that are consistent, an order that
    lists every agent and constraints on distinct agents that send each
    to its vertex or next to it, the configuration it leaves in [v_next]
    is a valid joint move from [C] in which every constrained agent is
    at its constrained vertex.  Whatever the outcome, the tables stay
    consistent.  For LaCAM2 with the swap rule the graph is undirected;
    LaCAM has no outcome when PIBT plans an agent on a vertex with more
    than four neighbours, which overruns its candidate array. *)
Theorem get_new_config_honours `{RT : Runtime} (ins : Instance) (D : DistTable)
    (FLG_SWAP : bool) (C order : list nat) (L : list (nat * nat)) (s : Scratch)
    (fuel : nat) :
  vertex_free (ins_N ins) C ->
  (FLG_SWAP = true -> graph_undirected ins) ->
  tables_ok (ins_N ins) s ->
  lnode_ok ins C L ->
  (forall k, k ∈ order <-> (k < ins_N ins)%nat) ->
  (forall r, LaCAM2.get_new_config ins D FLG_SWAP fuel C order L s = Some r ->
     tables_ok (ins_N ins) r.2 /\ (r.1 = true -> successor_ok ins C L r.2)) /\
  (forall r, LaCAM.get_new_config ins D fuel C order L s = Some r ->
     tables_ok (ins_N ins) r.2 /\ (r.1 = true -> successor_ok ins C L r.2)).
Proof.
  intros Hfree Hsym Ht HL Horder.
  destruct (setup_inv ins C Hfree s Ht) as [HI1 Hnone].
  set (s1 := fold_left (LaCAM2.setup_agent C) (seq 0 (ins_N ins)) s) in *.
  assert (forall i l, (i, l) ∈ L -> v_next s1 !! i = None) as Hnone' by done.
  pose proof (add_constraints_inv ins C L s1 HI1 HL Hnone') as (HI2 & _ & _).
  pose proof (add_constraints_honoured ins C L s1 HI1 HL Hnone') as Hhon.
  assert (forall i l, (i, l) ∈ L -> (i < ins_N ins)%nat) as Hdom.
  { intros i l Hin. by destruct (proj2 HL i l Hin). }
  split; intros r Hrun.
  - split; [by apply (get_new_config_valid ins D FLG_SWAP C Hfree Hsym fuel order L s)|].
    intros Hr. split.
    { by apply (get_new_config_valid ins D FLG_SWAP C Hfree Hsym fuel order L s r). }
    unfold LaCAM2.get_new_config in Hrun. fold s1 in Hrun.
    destruct (LaCAM2.add_constraints C L s1) as [[|] s2]; simpl in *.
    + apply (run_pibt_post ins D FLG_SWAP C Hfree Hsym) in Hrun;
        [|done|by intros k Hk; apply Horder].
      destruct Hrun as (_ & _ & Hok). destruct (Hok Hr) as (_ & Hkp & _).
      intros i l Hin. rewrite read_config_at by by eapply Hdom.
      by rewrite (Hkp i l (Hhon eq_refl i l Hin)).
    + injection Hrun as <-. done.
  - split; [by apply (get_new_config1_valid ins D C Hfree fuel order L s)|].
    intros Hr. split.
    { by apply (get_new_config1_valid ins D C Hfree fuel order L s r). }
    unfold LaCAM.get_new_config in Hrun. fold s1 in Hrun.
    destruct (LaCAM2.add_constraints C L s1) as [[|] s2]; simpl in *.
    + apply (run_pibt1_post ins D C Hfree) in Hrun;
        [|done|by intros k Hk; apply Horder].
      destruct Hrun as (_ & _ & Hok). destruct (Hok Hr) as (_ & Hkp & _).
      intros i l Hin. rewrite read_config_at by by eapply Hdom.
      by rewrite (Hkp i l (Hhon eq_refl i l Hin)).
    + injection Hrun as <-. done.
Qed.

Section SuccessorWitness.
#[local] Existing Instance Demo.runtime.

(** Agent 0 of [Demo.ins3] is constrained to step from 0 to 1. *)
Definition step_constraint : list (nat * nat) := [(0, 1)]%nat.

Definition successor2 : bool * Scratch :=
  default (false, scratch_init None)
    (LaCAM2.get_new_config Demo.ins3 Demo.D3 true 20 [0; 4]%nat [0; 1]%nat
       step_constraint (scratch_init None)).

Definition successor1 : bool * Scratch :=
  default (false, scratch_init None)
    (LaCAM.get_new_config Demo.ins3 Demo.D3 20 [0; 4]%nat [0; 1]%nat
       step_constraint (scratch_init None)).

Lemma step_constraint_ok : lnode_ok Demo.ins3 [0; 4]%nat step_constraint.
Proof.
  split.
  - simpl. apply NoDup_cons. split; [apply not_elem_of_nil|apply NoDup_nil_2].
  - intros i l Hin. apply list_elem_of_singleton in Hin as [= -> ->].
    split; [simpl; lia|]. right. simpl. set_solver.
Qed.

Lemma both_agents k : k ∈ [0; 1]%nat <-> (k < ins_N Demo.ins3)%nat.
Proof.
  simpl. rewrite !elem_of_cons, elem_of_nil. lia.
Qed.

Lemma get_new_config_honours_witness :
  (read_config 2 successor2.2 = [1; 3]%nat /\
   successor_ok Demo.ins3 [0; 4]%nat step_constraint successor2.2) /\
  (read_config 2 successor1.2 = [1; 3]%nat /\
   successor_ok Demo.ins3 [0; 4]%nat step_constraint successor1.2).
Proof.
  destruct (get_new_config_honours (RT:=Demo.runtime) Demo.ins3 Demo.D3 true
              [0; 4]%nat [0; 1]%nat step_constraint (scratch_init None) 20
              Demo.starts3_free (fun _ => Demo.G3_sym)
              (scratch_init_ok (ins:=Demo.ins3) None) step_constraint_ok both_agents)
    as [H2 H1].
  split; (split; [vm_refl|]).
  - exact (proj2 (H2 successor2 ltac:(vm_refl)) ltac:(vm_refl)).
  - exact (proj2 (H1 successor1 ltac:(vm_refl)) ltac:(vm_refl)).
Defined.

End SuccessorWitness.

(** ** The nodes of a search *)

(** A node of the arena [nodes] with id [id] is well formed: it holds a
    collision-free configuration with one vertex per agent, its order
    lists every agent once, the initial node is the only one without a
    parent, and its parent and its neighbours are nodes of the arena one
    valid joint move away. *)
Definition node_wellformed `{Runtime} (ins : Instance) (nodes : list HL.HNode)
    (id : nat) (node : HL.HNode) : Prop :=
  length (HL.C node) = ins_N ins /\
  vertex_free (ins_N ins) (HL.C node) /\
  Permutation (seq 0 (ins_N ins)) (HL.order node) /\
  (HL.parent node = None -> id = 0%nat /\ HL.C node = starts ins) /\
  (forall pid, HL.parent node = Some pid ->
     exists pn, nodes !! pid = Some pn /\
                valid_step ins (ins_N ins) (HL.C pn) (HL.C node)) /\
  (forall x, x ∈ HL.neighbor_set node ->
     exists xn, nodes !! x = Some xn /\
                valid_step ins (ins_N ins) (HL.C node) (HL.C xn)).

Lemma arena_node_wellformed `{Runtime} ins (rv : bool) nodes id node :
  arena_ok (ins:=ins) (rv:=rv) nodes -> nodes !! id = Some node ->
  node_wellformed ins nodes id node.
Proof.
  intros Ha Hn.
  destruct (ar_static _ Ha _ _ Hn) as [Hlen Hfree Hord].
  destruct (ar_links _ Ha _ _ Hn) as [Hpar Hroot Hnb].
  split; [done|]. split; [done|]. split; [done|]. split; [|by split].
  intros Hp. pose proof (Hroot Hp) as ->. split; [done|].
  destruct (ar_root _ Ha) as (r & Hr & HC & _). congruence.
Qed.

(** X4.  Every node that a run of either planner has created is well
    formed, at every moment of the run, provided the graph is undirected
    and the starts are collision-free, one per agent.  (A run of LaCAM
    ends without a state as soon as PIBT plans an agent on a vertex with
    more than four neighbours, where its candidate array is overrun.) *)
Theorem reachable_nodes_wellformed `{RT : Runtime} (ins : Instance) (D : DistTable)
    (objective : Objective) (RESTART_RATE : float) (FLG_SWAP : bool)
    (fuel deadline : nat) (mt : option rng) :
  graph_undirected ins ->
  length (starts ins) = ins_N ins ->
  vertex_free (ins_N ins) (starts ins) ->
  (forall p id node,
     LaCAM2.solve_loop ins D objective RESTART_RATE FLG_SWAP fuel deadline
       (LaCAM2.initial_planner ins D objective mt) = Some p ->
     LaCAM2.nodes p !! id = Some node ->
     node_wellformed ins (LaCAM2.nodes p) id node) /\
  (forall p id node,
     LaCAM.solve_loop ins D objective RESTART_RATE fuel deadline
       (LaCAM.initial_planner ins D objective mt) = Some p ->
     LaCAM.nodes p !! id = Some node ->
     node_wellformed ins (LaCAM.nodes p) id node).
Proof.
  intros Hsym Hlen Hfree. split; intros p id node Hloop Hn.
  - destruct (solve_loop_inv ins D objective RESTART_RATE FLG_SWAP (fun _ => Hsym)
                fuel deadline _ p (initial_planner_inv ins D objective Hlen Hfree mt)
                Hloop) as [HP _].
    by apply (arena_node_wellformed ins true _ _ _ (pi_arena _ _ HP)).
  - destruct (solve_loop1_inv ins D objective RESTART_RATE Hsym
                fuel deadline _ p (initial_planner1_inv ins D objective Hlen Hfree mt)
                Hloop) as [HP _].
    by apply (arena_node_wellformed ins false _ _ _ (pi1_arena _ _ HP)).
Qed.

Section NodesWitness.
#[local] Existing Instance Demo.runtime.

Definition hit_node2_later : HL.HNode :=
  default hit_node2 (LaCAM2.nodes later_state2 !! 5%nat).

Lemma reachable_nodes_wellformed_witness :
  HL.C hit_node2_later = [1; 2]%nat /\
  node_wellformed Demo.ins3 (LaCAM2.nodes later_state2) 5 hit_node2_later.
Proof.
  split; [vm_refl|].
  apply (proj1 (reachable_nodes_wellformed (RT:=Demo.runtime) Demo.ins3 Demo.D3
                  OBJ_NONE (Demo.fl 0) false 20 7 None
                  Demo.G3_sym eq_refl Demo.starts3_free)); vm_refl.
Defined.

End NodesWitness.

(** ** The explored set and the costs *)

(** [M] maps exactly the configurations of the nodes to their ids. *)
Definition indexes `{Runtime} (M : gmap (list nat) nat) (nodes : list HL.HNode) : Prop :=
  forall c id, M !! c = Some id <->
    exists node, nodes !! id = Some node /\ HL.C node = c.

(** The cost of a node is at most [max(N, 1)] times its id, so 0 for the
    initial node, and strictly above the cost of its parent. *)
Definition costs_descend `{Runtime} (ins : Instance) (nodes : list HL.HNode) : Prop :=
  forall id node, nodes !! id = Some node ->
    0 <= HL.g node <= Z.max (Z.of_nat (ins_N ins)) 1 * Z.of_nat id /\
    forall pid, HL.parent node = Some pid ->
      exists pn, nodes !! pid = Some pn /\ HL.g pn < HL.g node.

Lemma cost_ok_descend `{Runtime} ins nodes :
  cost_ok (ins:=ins) nodes -> costs_descend ins nodes.
Proof.
  intros Hc id node Hn. split; [by apply (co_bound _ Hc)|].
  intros pid Hp. by apply (co_parent _ Hc id).
Qed.

(** X5.  At every moment of a run of either planner the explored set
    ([EXPLORED], [CLOSED]) maps exactly the configurations of the nodes
    created so far to these nodes, so that no two nodes hold the same
    configuration; the initial node has cost 0 and every other node a
    cost strictly above its parent's, so that the parent pointers never
    form a cycle.  The run is short enough for the costs to fit an
    unsigned int. *)
Theorem reachable_index_and_costs `{RT : Runtime} (ins : Instance) (D : DistTable)
    (objective : Objective) (RESTART_RATE : float) (FLG_SWAP : bool)
    (fuel deadline : nat) (mt : option rng) :
  graph_undirected ins ->
  length (starts ins) = ins_N ins ->
  vertex_free (ins_N ins) (starts ins) ->
  Z.max (Z.of_nat (ins_N ins)) 1 * Z.of_nat (1 + deadline) < UINT_MOD ->
  (forall p,
     LaCAM2.solve_loop ins D objective RESTART_RATE FLG_SWAP fuel deadline
       (LaCAM2.initial_planner ins D objective mt) = Some p ->
     indexes (LaCAM2.EXPLORED p) (LaCAM2.nodes p) /\
     costs_descend ins (LaCAM2.nodes p)) /\
  (forall p,
     LaCAM.solve_loop ins D objective RESTART_RATE fuel deadline
       (LaCAM.initial_planner ins D objective mt) = Some p ->
     indexes (LaCAM.CLOSED p) (LaCAM.nodes p) /\
     costs_descend ins (LaCAM.nodes p)).
Proof.
  intros Hsym Hlen Hfree Hb. split; intros p Hloop.
  - pose proof (initial_planner_inv ins D objective Hlen Hfree mt) as HP0.
    pose proof (initial_planner_cost ins D objective Hlen mt) as HC0.
    destruct (solve_loop_inv ins D objective RESTART_RATE FLG_SWAP (fun _ => Hsym)
                fuel deadline _ p HP0 Hloop) as [HP _].
    pose proof (solve_loop_cost ins D objective RESTART_RATE FLG_SWAP (fun _ => Hsym)
                  Hlen fuel deadline _ p HP0 HC0 Hb Hloop) as [Hc He].
    split; [|by apply cost_ok_descend].
    intros c id. split.
    + apply (pi_expl _ _ HP).
    + intros (node & Hn & <-). by apply He.
  - pose proof (initial_planner1_inv ins D objective Hlen Hfree mt) as HP0.
    pose proof (initial_planner1_cost ins D objective Hlen mt) as HC0.
    destruct (solve_loop1_inv ins D objective RESTART_RATE Hsym
                fuel deadline _ p HP0 Hloop) as [HP _].
    pose proof (solve_loop1_cost ins D objective RESTART_RATE Hsym
                  Hlen fuel deadline _ p HP0 HC0 Hb Hloop) as [Hc He].
    split; [|by apply cost_ok_descend].
    intros c id. split.
    + apply (pi1_closed _ _ HP).
    + intros (node & Hn & <-). by apply He.
Qed.

Section IndexWitness.
#[local] Existing Instance Demo.runtime.

Lemma reachable_index_and_costs_witness :
  size (LaCAM.CLOSED hit_state1) = 4%nat /\
  indexes (LaCAM.CLOSED hit_state1) (LaCAM.nodes hit_state1) /\
  costs_descend Demo.ins3 (LaCAM.nodes hit_state1).
Proof.
  split; [vm_refl|].
  apply (proj2 (reachable_index_and_costs (RT:=Demo.runtime) Demo.ins3 Demo.D3
                  OBJ_NONE (Demo.fl 0) false 20 4 (Some [])
                  Demo.G3_sym eq_refl Demo.starts3_free eq_refl)).
  vm_refl.
Defined.

End IndexWitness.

(** ** Counters *)

Section Counters2.
Context `{RT : Runtime}.
Variable ins : Instance.
Variable D : DistTable.
Variable objective : Objective.
Variable RESTART_RATE : float.
Variable FLG_SWAP : bool.

Lemma relax2_length H_goal n_from st n_to :
  length (LaCAM2.relax ins objective H_goal n_from st n_to).1.1 = length st.1.1.
Proof.
  destruct st as [[nodes Q] OPEN]. unfold LaCAM2.relax. simpl.
  destruct (nodes !! n_from); [|done]. destruct (nodes !! n_to); [|done].
  destruct (_ <? _); [|done]. simpl. apply length_insert.
Qed.

Lemma relax2_fold_length H_goal n_from nbrs : forall st,
  length (fold_left (LaCAM2.relax ins objective H_goal n_from) nbrs st).1.1
  = length st.1.1.
Proof.
  induction nbrs as [|x nbrs IH]; intros st; [done|].
  cbn [fold_left]. by rewrite IH, relax2_length.
Qed.

Lemma rewrite_loop2_length fuel H_goal : forall nodes Q OPEN r,
  LaCAM2.rewrite_loop ins objective fuel H_goal nodes Q OPEN = Some r ->
  length r.1 = length nodes.
Proof.
  induction fuel as [|fuel IH]; intros nodes Q OPEN r; destruct Q as [|q Q]; simpl;
    try (by intros [= <-]).
  pose proof (relax2_fold_length H_goal q
    (match nodes !! q with Some nf => set_iter (HL.neighbor_set nf) | None => [] end)
    (nodes, Q, OPEN)) as Hlen.
  destruct (fold_left _ _ _) as [[nodes' Q'] OPEN']. simpl in Hlen.
  intros Hrun. by rewrite (IH _ _ _ _ Hrun).
Qed.

Lemma rewrite2_length fuel H_from H_to H_goal nodes OPEN r :
  LaCAM2.rewrite ins objective fuel H_from H_to H_goal nodes OPEN = Some r ->
  length r.1 = length nodes.
Proof.
  unfold LaCAM2.rewrite. intros Hrun.
  by rewrite (rewrite_loop2_length _ _ _ _ _ _ Hrun), length_alter.
Qed.

(** One iteration counts once and creates at most one node, which it
    enters in [EXPLORED] under a configuration that was not there. *)
Lemma solve_step2_counts fuel p H rest st :
  LaCAM2.solve_step ins D objective RESTART_RATE FLG_SWAP fuel p H rest = Some st ->
  let p' := step_planner st in
  LaCAM2.loop_cnt p' = LaCAM2.loop_cnt p + 1 /\
  (length (LaCAM2.nodes p) <= length (LaCAM2.nodes p') <= S (length (LaCAM2.nodes p)))%nat /\
  (size (LaCAM2.EXPLORED p) = length (LaCAM2.nodes p) ->
   size (LaCAM2.EXPLORED p') = length (LaCAM2.nodes p')).
Proof.
  unfold LaCAM2.solve_step.
  destruct (LaCAM2.nodes p !! H) as [node|] eqn:Hnode; simpl; [|done].
  case_bool_decide as Hempty.
  { intros [= <-]. simpl. split; [done|]. split; [lia|done]. }
  destruct (match LaCAM2.H_goal p with Some _ => _ | None => _ end).
  { intros [= <-]. simpl. split; [done|]. split; [lia|done]. }
  destruct (bool_decide (LaCAM2.H_goal p = None)
            && is_same_config (HL.C node) (goals ins)).
  { intros [= <-]. simpl. split; [done|]. split; [lia|done]. }
  destruct (HL.search_tree node) as [|L tree] eqn:Htree; [done|].
  destruct (LaCAM2.expand_lowlevel_tree ins _ L (LaCAM2.scratch p)) as [tree' s1].
  set (nodes1 := <[H := HL.set_search_tree tree' node]> (LaCAM2.nodes p)).
  assert (length nodes1 = length (LaCAM2.nodes p)) as Hlen1 by apply length_insert.
  destruct (LaCAM2.get_new_config ins D FLG_SWAP fuel (HL.C node) (HL.order node)
              L s1) as [[ok s2]|]; simpl; [|done].
  destruct ok; simpl.
  2:{ intros [= <-]. simpl. split; [done|]. rewrite Hlen1. split; [lia|done]. }
  destruct (LaCAM2.EXPLORED p !! _) as [hit|] eqn:Hhit.
  - destruct (LaCAM2.rewrite ins objective fuel H hit (LaCAM2.H_goal p) nodes1
                (LaCAM2.OPEN p)) as [[nodes2 OPEN2]|] eqn:Hrw; simpl; [|done].
    apply rewrite2_length in Hrw. simpl in Hrw.
    destruct (LaCAM2.choose_insert RESTART_RATE s2 hit LaCAM2.H_init) as [H_insert s3].
    intros [= <-]. simpl. split; [done|]. rewrite Hrw, Hlen1. split; [lia|done].
  - intros [= <-]. simpl. split; [done|].
    assert (length (HL.HNode_new D nodes1 (read_config (ins_N ins) s2) (Some H)
              (u32 (HL.g node + LaCAM2.get_edge_cost ins objective (HL.C node)
                                  (read_config (ins_N ins) s2)))
              (LaCAM2.get_h_value ins D objective (read_config (ins_N ins) s2)))
            = S (length (LaCAM2.nodes p))) as Hnew.
    { rewrite (proj1 (HNode_new_spec D nodes1 _ _ _ _)). by rewrite Hlen1. }
    rewrite Hnew. split; [lia|]. intros Hsize.
    rewrite map_size_insert_None by done. by rewrite Hsize.
Qed.

Lemma solve_loop2_counts fuel deadline : forall p p',
  LaCAM2.solve_loop ins D objective RESTART_RATE FLG_SWAP fuel deadline p = Some p' ->
  LaCAM2.loop_cnt p <= LaCAM2.loop_cnt p' <= LaCAM2.loop_cnt p + Z.of_nat deadline /\
  Z.of_nat (length (LaCAM2.nodes p')) - Z.of_nat (length (LaCAM2.nodes p))
    <= LaCAM2.loop_cnt p' - LaCAM2.loop_cnt p /\
  (length (LaCAM2.nodes p) <= length (LaCAM2.nodes p'))%nat /\
  (size (LaCAM2.EXPLORED p) = length (LaCAM2.nodes p) ->
   size (LaCAM2.EXPLORED p') = length (LaCAM2.nodes p')).
Proof.
  induction deadline as [|deadline IH]; intros p p'; simpl.
  - destruct (LaCAM2.OPEN p); intros [= <-]; (split; [lia|]); (split; [lia|]); done.
  - destruct (LaCAM2.OPEN p) as [|H rest].
    { intros [= <-]. split; [lia|]. split; [lia|]. done. }
    destruct (LaCAM2.solve_step ins D objective RESTART_RATE FLG_SWAP fuel p H rest)
      as [st|] eqn:Hstep; [|done].
    destruct (solve_step2_counts fuel p H rest st Hstep) as (Hcnt & Hlen & Hsize).
    destruct st as [p1|p1]; simpl in *.
    + intros Hloop. destruct (IH _ _ Hloop) as (Hcnt' & Hlen' & Hle' & Hsize').
      split; [lia|]. split; [lia|]. split; [lia|]. intros Hs. by apply Hsize', Hsize.
    + intros [= <-]. split; [lia|]. split; [lia|]. split; [lia|done].
Qed.

End Counters2.

Section Counters1.
Context `{RT : Runtime}.
Variable ins : Instance.
Variable D : DistTable.
Variable objective : Objective.
Variable RESTART_RATE : float.

Lemma relax1_length S0 T U st W :
  length (LaCAM.relax ins objective S0 T U st W).1 = length st.1.
Proof.
  destruct st as [nodes Q]. unfold LaCAM.relax. simpl.
  destruct (_ && _); [done|].
  destruct (nodes !! U); [|done]. destruct (nodes !! W); [|done].
  destruct (_ <? _); [|done]. simpl. apply length_insert.
Qed.

Lemma relax1_fold_length S0 T U nbrs : forall st,
  length (fold_left (LaCAM.relax ins objective S0 T U) nbrs st).1 = length st.1.
Proof.
  induction nbrs as [|x nbrs IH]; intros st; [done|].
  cbn [fold_left]. by rewrite IH, relax1_length.
Qed.

Lemma rewrite_loop1_length fuel S0 T : forall nodes Q r,
  LaCAM.rewrite_loop ins objective fuel S0 T nodes Q = Some r ->
  length r = length nodes.
Proof.
  induction fuel as [|fuel IH]; intros nodes Q r; destruct Q as [|q Q]; simpl;
    try (by intros [= <-]).
  pose proof (relax1_fold_length S0 T q
    (match nodes !! q with Some nu => set_iter (HL.neighbor_set nu) | None => [] end)
    (nodes, Q)) as Hlen.
  destruct (fold_left _ _ _) as [nodes' Q']. simpl in Hlen.
  intros Hrun. by rewrite (IH _ _ _ Hrun).
Qed.

Lemma rewrite1_length fuel S0 T nodes r :
  LaCAM.rewrite ins objective fuel S0 T nodes = Some r -> length r = length nodes.
Proof.
  unfold LaCAM.rewrite.
  set (nodes2 := alter (LaCAM.link S0) T (alter (LaCAM.link T) S0 nodes)).
  assert (length nodes2 = length nodes) as Hlen2.
  { unfold nodes2. by rewrite !length_alter. }
  destruct (nodes2 !! S0) as [ns|]; [|done]. destruct (nodes2 !! T) as [nt|]; [|done].
  destruct (_ <=? _); [by intros [= <-]|].
  intros Hrun. by rewrite (rewrite_loop1_length _ _ _ _ _ _ Hrun).
Qed.

Lemma solve_step1_counts fuel p S0 rest st :
  LaCAM.solve_step ins D objective RESTART_RATE fuel p S0 rest = Some st ->
  let p' := step_planner1 st in
  LaCAM.loop_cnt p' = LaCAM.loop_cnt p + 1 /\
  (length (LaCAM.nodes p) <= length (LaCAM.nodes p') <= S (length (LaCAM.nodes p)))%nat /\
  (size (LaCAM.CLOSED p) = length (LaCAM.nodes p) ->
   size (LaCAM.CLOSED p') = length (LaCAM.nodes p')).
Proof.
  unfold LaCAM.solve_step.
  destruct (LaCAM.nodes p !! S0) as [node|] eqn:Hnode; simpl; [|done].
  case_bool_decide as Hempty.
  { intros [= <-]. simpl. split; [done|]. split; [lia|done]. }
  destruct (bool_decide (LaCAM.S_goal p = None)
            && is_same_config (HL.C node) (goals ins)).
  { destruct (bool_decide (objective = OBJ_NONE)); intros [= <-]; simpl;
      (split; [done|]); (split; [lia|done]). }
  destruct (HL.search_tree node) as [|M tree] eqn:Htree; [done|].
  destruct (LaCAM.expand_lowlevel_tree ins _ M (LaCAM.scratch p)) as [tree' s1].
  set (nodes1 := <[S0 := HL.set_search_tree tree' node]> (LaCAM.nodes p)).
  assert (length nodes1 = length (LaCAM.nodes p)) as Hlen1 by apply length_insert.
  destruct (LaCAM.get_new_config ins D fuel (HL.C node) (HL.order node) M s1)
    as [[ok s2]|]; simpl; [|done].
  destruct ok; simpl.
  2:{ intros [= <-]. simpl. split; [done|]. rewrite Hlen1. split; [lia|done]. }
  destruct (LaCAM.CLOSED p !! _) as [hit|] eqn:Hhit.
  - destruct (LaCAM.rewrite ins objective fuel S0 hit nodes1) as [nodes2|] eqn:Hrw;
      simpl; [|done].
    apply rewrite1_length in Hrw.
    destruct (LaCAM.draw_float s2) as [[x s3]|]; simpl; [|done].
    intros [= <-]. simpl. split; [done|]. rewrite Hrw, Hlen1. split; [lia|done].
  - intros [= <-]. simpl. split; [done|].
    assert (length (LaCAM.Node_new D nodes1 (read_config (ins_N ins) s2) (Some S0)
              (u32 (HL.g node + LaCAM.get_edge_cost ins objective (HL.C node)
                                  (read_config (ins_N ins) s2)))
              (LaCAM.get_h_value ins D objective (read_config (ins_N ins) s2)))
            = S (length (LaCAM.nodes p))) as Hnew.
    { unfold LaCAM.Node_new.
      rewrite (proj1 (HNode_new_spec D nodes1 _ _ _ _)). by rewrite Hlen1. }
    rewrite Hnew. split; [lia|]. intros Hsize.
    rewrite map_size_insert_None by done. by rewrite Hsize.
Qed.

Lemma solve_loop1_counts fuel deadline : forall p p',
  LaCAM.solve_loop ins D objective RESTART_RATE fuel deadline p = Some p' ->
  LaCAM.loop_cnt p <= LaCAM.loop_cnt p' <= LaCAM.loop_cnt p + Z.of_nat deadline /\
  Z.of_nat (length (LaCAM.nodes p')) - Z.of_nat (length (LaCAM.nodes p))
    <= LaCAM.loop_cnt p' - LaCAM.loop_cnt p /\
  (length (LaCAM.nodes p) <= length (LaCAM.nodes p'))%nat /\
  (size (LaCAM.CLOSED p) = length (LaCAM.nodes p) ->
   size (LaCAM.CLOSED p') = length (LaCAM.nodes p')).
Proof.
  induction deadline as [|deadline IH]; intros p p'; simpl.
  - destruct (LaCAM.OPEN p); intros [= <-]; (split; [lia|]); (split; [lia|]); done.
  - destruct (LaCAM.OPEN p) as [|S0 rest].
    { intros [= <-]. split; [lia|]. split; [lia|]. done. }
    destruct (LaCAM.solve_step ins D objective RESTART_RATE fuel p S0 rest)
      as [st|] eqn:Hstep; [|done].
    destruct (solve_step1_counts fuel p S0 rest st Hstep) as (Hcnt & Hlen & Hsize).
    destruct st as [p1|p1]; simpl in *.
    + intros Hloop. destruct (IH _ _ Hloop) as (Hcnt' & Hlen' & Hle' & Hsize').
      split; [lia|]. split; [lia|]. split; [lia|]. intros Hs. by apply Hsize', Hsize.
    + intros [= <-]. split; [lia|]. split; [lia|]. split; [lia|done].
Qed.

End Counters1.

(** The number of times the body of the [while] loop of [solve] is
    executed in a run from [p] with [deadline] iterations allowed. *)
Fixpoint iterations2 `{RT : Runtime} (ins : Instance) (D : DistTable)
    (objective : Objective) (RESTART_RATE : float) (FLG_SWAP : bool)
    (fuel deadline : nat) (p : LaCAM2.Planner) : nat :=
  match LaCAM2.OPEN p, deadline with
  | H :: rest, S deadline' =>
      match LaCAM2.solve_step ins D objective RESTART_RATE FLG_SWAP fuel p H rest with
      | Some (LaCAM2.Continue p') =>
          S (iterations2 ins D objective RESTART_RATE FLG_SWAP fuel deadline' p')
      | Some (LaCAM2.Break _) => 1
      | None => 0
      end
  | _, _ => 0
  end.

Fixpoint iterations1 `{RT : Runtime} (ins : Instance) (D : DistTable)
    (objective : Objective) (RESTART_RATE : float)
    (fuel deadline : nat) (p : LaCAM.Planner) : nat :=
  match LaCAM.OPEN p, deadline with
  | S0 :: rest, S deadline' =>
      match LaCAM.solve_step ins D objective RESTART_RATE fuel p S0 rest with
      | Some (LaCAM.Continue p') =>
          S (iterations1 ins D objective RESTART_RATE fuel deadline' p')
      | Some (LaCAM.Break _) => 1
      | None => 0
      end
  | _, _ => 0
  end.

Lemma iterations2_le `{RT : Runtime} ins D objective RESTART_RATE FLG_SWAP fuel deadline :
  forall p,
  (iterations2 ins D objective RESTART_RATE FLG_SWAP fuel deadline p <= deadline)%nat.
Proof.
  induction deadline as [|deadline IH]; intros p; simpl.
  - by destruct (LaCAM2.OPEN p).
  - destruct (LaCAM2.OPEN p) as [|H rest]; [lia|].
    destruct (LaCAM2.solve_step _ _ _ _ _ _ _ _ _) as [[p'|p']|]; [|lia|lia].
    specialize (IH p'). lia.
Qed.

Lemma iterations1_le `{RT : Runtime} ins D objective RESTART_RATE fuel deadline :
  forall p,
  (iterations1 ins D objective RESTART_RATE fuel deadline p <= deadline)%nat.
Proof.
  induction deadline as [|deadline IH]; intros p; simpl.
  - by destruct (LaCAM.OPEN p).
  - destruct (LaCAM.OPEN p) as [|S0 rest]; [lia|].
    destruct (LaCAM.solve_step _ _ _ _ _ _ _ _) as [[p'|p']|]; [|lia|lia].
    specialize (IH p'). lia.
Qed.

Lemma solve_loop2_exact `{RT : Runtime} ins D objective RESTART_RATE FLG_SWAP fuel deadline :
  forall p p',
  LaCAM2.solve_loop ins D objective RESTART_RATE FLG_SWAP fuel deadline p = Some p' ->
  LaCAM2.loop_cnt p' = LaCAM2.loop_cnt p
    + Z.of_nat (iterations2 ins D objective RESTART_RATE FLG_SWAP fuel deadline p).
Proof.
  induction deadline as [|deadline IH]; intros p p'; simpl.
  - destruct (LaCAM2.OPEN p); intros [= <-]; lia.
  - destruct (LaCAM2.OPEN p) as [|H rest]; [intros [= <-]; lia|].
    destruct (LaCAM2.solve_step ins D objective RESTART_RATE FLG_SWAP fuel p H rest)
      as [st|] eqn:Hstep; [|done].
    destruct (solve_step2_counts ins D objective RESTART_RATE FLG_SWAP fuel p H rest st
                Hstep) as (Hcnt & _).
    destruct st as [p1|p1]; simpl in *.
    + intros Hloop. rewrite (IH _ _ Hloop), Hcnt. lia.
    + intros [= <-]. lia.
Qed.

Lemma solve_loop1_exact `{RT : Runtime} ins D objective RESTART_RATE fuel deadline :
  forall p p',
  LaCAM.solve_loop ins D objective RESTART_RATE fuel deadline p = Some p' ->
  LaCAM.loop_cnt p' = LaCAM.loop_cnt p
    + Z.of_nat (iterations1 ins D objective RESTART_RATE fuel deadline p).
Proof.
  induction deadline as [|deadline IH]; intros p p'; simpl.
  - destruct (LaCAM.OPEN p); intros [= <-]; lia.
  - destruct (LaCAM.OPEN p) as [|S0 rest]; [intros [= <-]; lia|].
    destruct (LaCAM.solve_step ins D objective RESTART_RATE fuel p S0 rest)
      as [st|] eqn:Hstep; [|done].
    destruct (solve_step1_counts ins D objective RESTART_RATE fuel p S0 rest st
                Hstep) as (Hcnt & _).
    destruct st as [p1|p1]; simpl in *.
    + intros Hloop. rewrite (IH _ _ Hloop), Hcnt. lia.
    + intros [= <-]. lia.
Qed.

(** X6.  What [solve] reports, for either planner: [loop_cnt] is exactly
    the number of times the body of the search loop was executed, which
    is at most the number the deadline allows, and [num_node_gen], the
    size of the explored set, is at least 1 (the initial node) and at
    most [1 + loop_cnt], one node per iteration; the objective reported
    is the one given. *)
Theorem reported_counters `{RT : Runtime} (ins : Instance) (D : DistTable)
    (objective : Objective) (RESTART_RATE : float) (FLG_SWAP : bool)
    (fuel deadline : nat) (mt : option rng) :
  (forall r,
     LaCAM2.solve ins D objective RESTART_RATE FLG_SWAP fuel deadline mt = Some r ->
     LaCAM2.info_loop_cnt r
       = Z.of_nat (iterations2 ins D objective RESTART_RATE FLG_SWAP fuel deadline
                     (LaCAM2.initial_planner ins D objective mt)) /\
     0 <= LaCAM2.info_loop_cnt r <= Z.of_nat deadline /\
     1 <= Z.of_nat (LaCAM2.num_node_gen r) <= 1 + LaCAM2.info_loop_cnt r /\
     LaCAM2.info_objective r = objective) /\
  (forall r,
     LaCAM.solve ins D objective RESTART_RATE fuel deadline mt = Some r ->
     LaCAM.info_loop_cnt r
       = Z.of_nat (iterations1 ins D objective RESTART_RATE fuel deadline
                     (LaCAM.initial_planner ins D objective mt)) /\
     0 <= LaCAM.info_loop_cnt r <= Z.of_nat deadline /\
     1 <= Z.of_nat (LaCAM.num_node_gen r) <= 1 + LaCAM.info_loop_cnt r /\
     LaCAM.info_objective r = objective).
Proof.
  split; intros r.
  - unfold LaCAM2.solve.
    destruct (LaCAM2.solve_loop _ _ _ _ _ _ _ _) as [p|] eqn:Hloop; simpl; [|done].
    destruct (solve_loop2_counts ins D objective RESTART_RATE FLG_SWAP fuel deadline
                _ p Hloop) as (Hcnt & Hlen & Hle & Hsize).
    pose proof (solve_loop2_exact _ _ _ _ _ _ _ _ _ Hloop) as Hex.
    unfold LaCAM2.initial_planner in Hcnt, Hlen, Hle, Hsize. simpl in *.
    rewrite map_size_singleton in Hsize. specialize (Hsize eq_refl).
    unfold LaCAM2.report.
    destruct (match LaCAM2.H_goal p with Some _ => _ | None => _ end); simpl; [|done].
    intros [= <-]. simpl. rewrite Hsize.
    split; [exact Hex|]. split; [lia|]. split; [lia|done].
  - unfold LaCAM.solve.
    destruct (LaCAM.solve_loop _ _ _ _ _ _ _) as [p|] eqn:Hloop; simpl; [|done].
    destruct (solve_loop1_counts ins D objective RESTART_RATE fuel deadline
                _ p Hloop) as (Hcnt & Hlen & Hle & Hsize).
    pose proof (solve_loop1_exact _ _ _ _ _ _ _ _ Hloop) as Hex.
    unfold LaCAM.initial_planner, LaCAM.Node_new in Hcnt, Hlen, Hle, Hsize. simpl in *.
    rewrite map_size_singleton in Hsize. specialize (Hsize eq_refl).
    unfold LaCAM.report.
    destruct (match LaCAM.S_goal p with Some _ => _ | None => _ end); simpl; [|done].
    intros [= <-]. simpl. rewrite Hsize.
    split; [exact Hex|]. split; [lia|]. split; [lia|done].
Qed.

Section CountersWitness.
#[local] Existing Instance Demo.runtime.

Lemma reported_counters_witness :
  (LaCAM2.info_loop_cnt demo_result2 = 3 /\ LaCAM2.num_node_gen demo_result2 = 3%nat) /\
  LaCAM2.info_loop_cnt demo_result2
    = Z.of_nat (iterations2 Demo.ins_near Demo.D_near OBJ_MAKESPAN (Demo.fl 0) true 20 1000
                  (LaCAM2.initial_planner Demo.ins_near Demo.D_near OBJ_MAKESPAN None)) /\
  0 <= LaCAM2.info_loop_cnt demo_result2 <= 1000 /\
  1 <= Z.of_nat (LaCAM2.num_node_gen demo_result2)
    <= 1 + LaCAM2.info_loop_cnt demo_result2 /\
  LaCAM2.info_objective demo_result2 = OBJ_MAKESPAN.
Proof.
  split; [split; vm_refl|].
  exact (proj1 (reported_counters (RT:=Demo.runtime) Demo.ins_near Demo.D_near
                  OBJ_MAKESPAN (Demo.fl 0) true 20 1000 None)
           demo_result2 demo_result2_returned).
Defined.

End CountersWitness.

(** ** The contract of [funcPIBT] *)

(** X7.  A call of [funcPIBT] for an agent [ai] without a plan, on
    consistent tables for a collision-free configuration, never touches
    [v_now] and [occupied_now].  If it returns true, [ai] has a next
    vertex, every agent planned before has kept its next vertex, and the
    reservations are consistent: adjacent or equal to the current vertex,
    one agent per vertex, no two agents exchanging vertices.  If it
    returns false, [ai] is made to stay where it is and holds that vertex
    in [occupied_next], and every other agent has kept its plan or, if it
    had none, has none still or stays as well.  LaCAM keeps the
    candidates in an array of five vertices: its call has a result only
    if [ai] stands on a vertex with at most four neighbours. *)
Theorem funcPIBT_contract `{RT : Runtime} (ins : Instance) (D : DistTable)
    (FLG_SWAP : bool) (C : list nat) (ai : nat) (s : Scratch) :
  vertex_free (ins_N ins) C ->
  (FLG_SWAP = true -> graph_undirected ins) ->
  Inv ins (ins_N ins) C s ->
  (ai < ins_N ins)%nat ->
  v_next s !! ai = None ->
  (forall fuel r,
     LaCAM2.funcPIBT ins D FLG_SWAP fuel ai s = Some r ->
     pibt_post ins (ins_N ins) C ai s r) /\
  (forall fuel aj r,
     LaCAM.funcPIBT ins D fuel ai aj s = Some r ->
     (length (neighbor ins (cfg_at C ai)) + 1 <= LaCAM.C_next_size)%nat /\
     pibt_post ins (ins_N ins) C ai s r).
Proof.
  intros Hfree Hsym HI Hai Hnone. split.
  - intros fuel r Hrun.
    by apply (funcPIBT_post ins D FLG_SWAP (ins_N ins) C Hfree Hsym fuel ai s r).
  - intros fuel aj r Hrun. split.
    + destruct fuel as [|fuel]; simpl in Hrun; [done|].
      rewrite (now_agent _ _ _ (inv_now _ _ _ _ HI) _ Hai) in Hrun. simpl in Hrun.
      case_bool_decide; [done|lia].
    + by apply (funcPIBT1_post ins D C Hfree fuel ai aj s r).
Qed.

Section ContractWitness.
#[local] Existing Instance Demo.runtime.

(** Agent 1 of [blocked_tables], whose goal is the dead end that agent 0
    occupies, steps back to 2 by the swap rule and pulls agent 0 after
    it. *)
Definition blocked_pull2 : bool * Scratch :=
  default (false, blocked_tables)
    (LaCAM2.funcPIBT Demo.ins3 Demo.D3 true 20 1 blocked_tables).

Lemma funcPIBT_contract_witness :
  blocked_pull2.1 = true /\
  read_config 2 blocked_pull2.2 = [1; 2]%nat /\
  pibt_post Demo.ins3 (ins_N Demo.ins3) [0; 1]%nat 1 blocked_tables blocked_pull2.
Proof.
  split; [vm_refl|]. split; [vm_refl|].
  apply (proj1 (funcPIBT_contract (RT:=Demo.runtime) Demo.ins3 Demo.D3 true
                  [0; 1]%nat 1 blocked_tables blocked_free (fun _ => Demo.G3_sym)
                  blocked_inv ltac:(simpl; lia)
                  ltac:(vm_refl)) 20%nat).
  vm_refl.
Defined.

End ContractWitness.

(** ** The swap rule of LaCAM2 *)

Section SwapWalk.
Context `{RT : Runtime}.
Variable ins : Instance.
Variable D : DistTable.
Hypothesis D_nonneg : forall i v, 0 <= D i v.

(** The walk of [is_swap_required] goes on only while the pusher gets
    nearer to its goal, so it ends within [d + 1] rounds where [d] is the
    distance of the pusher at the start; more fuel changes nothing. *)
Lemma is_swap_required_ends fuel : forall s pusher puller v_pusher v_puller,
  (Z.to_nat (D pusher v_pusher) < fuel)%nat ->
  exists b,
    LaCAM2.is_swap_required ins D fuel s pusher puller v_pusher v_puller = Some b /\
    forall fuel', (Z.to_nat (D pusher v_pusher) < fuel')%nat ->
      LaCAM2.is_swap_required ins D fuel' s pusher puller v_pusher v_puller = Some b.
Proof.
  induction fuel as [|fuel IH]; intros s pusher puller v_pusher v_puller Hf; [lia|].
  pose proof (D_nonneg pusher v_pusher) as Hp.
  pose proof (D_nonneg pusher v_puller) as Hq.
  cbn [LaCAM2.is_swap_required].
  destruct (D pusher v_puller <? D pusher v_pusher) eqn:Hlt.
  - apply Z.ltb_lt in Hlt.
    destruct (LaCAM2.corridor_live ins s v_pusher v_puller) as [|tmp [|tmp' l]] eqn:Hlive.
    + eexists. split; [done|]. intros [|fuel'] Hf'; [lia|].
      cbn [LaCAM2.is_swap_required]. rewrite (proj2 (Z.ltb_lt _ _) Hlt), Hlive. done.
    + destruct (IH s pusher puller v_puller tmp) as (b & Hb & Hind); [lia|].
      exists b. split; [done|]. intros [|fuel'] Hf'; [lia|].
      cbn [LaCAM2.is_swap_required]. rewrite (proj2 (Z.ltb_lt _ _) Hlt), Hlive.
      apply Hind. lia.
    + eexists. split; [done|]. intros [|fuel'] Hf'; [lia|].
      cbn [LaCAM2.is_swap_required]. rewrite (proj2 (Z.ltb_lt _ _) Hlt), Hlive. done.
  - eexists. split; [done|]. intros [|fuel'] Hf'; [lia|].
    cbn [LaCAM2.is_swap_required]. by rewrite Hlt.
Qed.

End SwapWalk.

(** X8.  [is_swap_required] terminates: its loop continues only while the
    pusher's distance to its goal strictly decreases, so with [d] the
    distance at the start it returns within [d + 1] rounds, and the
    answer does not depend on the bound given to the loop.  When the
    puller is not on the pusher's way the answer is the final test on the
    two start vertices. *)
Theorem is_swap_required_terminates `{RT : Runtime} (ins : Instance) (D : DistTable)
    (s : Scratch) (pusher puller v_pusher v_puller : nat) :
  (forall i v, 0 <= D i v) ->
  (exists b, forall fuel, (Z.to_nat (D pusher v_pusher) < fuel)%nat ->
     LaCAM2.is_swap_required ins D fuel s pusher puller v_pusher v_puller = Some b) /\
  (D pusher v_pusher <= D pusher v_puller ->
   forall fuel, (0 < fuel)%nat ->
     LaCAM2.is_swap_required ins D fuel s pusher puller v_pusher v_puller =
     Some (LaCAM2.swap_required_verdict D pusher puller v_pusher v_puller)).
Proof.
  intros HD. split.
  - destruct (is_swap_required_ends ins D HD (S (Z.to_nat (D pusher v_pusher)))
                s pusher puller v_pusher v_puller) as (b & _ & Hb); [lia|].
    by exists b.
  - intros Hle [|fuel] Hf; [lia|]. cbn [LaCAM2.is_swap_required].
    by rewrite (proj2 (Z.ltb_ge _ _) Hle).
Qed.

Section SwapWalkWitness.
#[local] Existing Instance Demo.runtime.

Lemma is_swap_required_terminates_witness :
  LaCAM2.is_swap_required Demo.ins3 Demo.D3 5 blocked_tables 1 0 1 0 = Some true /\
  exists b, forall fuel, (Z.to_nat (Demo.D3 1 1) < fuel)%nat ->
    LaCAM2.is_swap_required Demo.ins3 Demo.D3 fuel blocked_tables 1 0 1 0 = Some b.
Proof.
  split; [vm_refl|].
  exact (proj1 (is_swap_required_terminates (RT:=Demo.runtime) Demo.ins3 Demo.D3
                  blocked_tables 1 0 1 0 Demo.D3_nonneg)).
Defined.

End SwapWalkWitness.

(** X9.  An agent that [swap_possible_and_required] selects for a swap
    with [ai] stands on a neighbour of the vertex of [ai], and [ai]'s best
    candidate is not its own vertex; the candidates are the neighbours of
    that vertex and the vertex itself, in some order. *)
Theorem swap_agent_is_neighbour `{RT : Runtime} (ins : Instance) (D : DistTable)
    (fuel : nat) (s : Scratch) (ai vi : nat) (cands : list nat) (sa : nat) :
  Permutation (neighbor ins vi ++ [vi]) cands ->
  LaCAM2.swap_possible_and_required ins D fuel s ai vi cands = Some (Some sa) ->
  head cands <> Some vi /\
  exists w, w ∈ neighbor ins vi /\ occupied_now s !! w = Some sa.
Proof.
  intros Hperm Hrun. split.
  - intros Hhd. unfold LaCAM2.swap_possible_and_required in Hrun.
    rewrite Hhd in Hrun. simpl in Hrun.
    by rewrite bool_decide_eq_true_2 in Hrun.
  - apply (swap_agent_adjacent ins D fuel s ai vi cands sa); [|done].
    intros u Hu. rewrite <- Hperm in Hu.
    apply elem_of_app in Hu as [Hu|Hu]; [by right|].
    apply list_elem_of_singleton in Hu. by left.
Qed.

Section SwapAgentWitness.
#[local] Existing Instance Demo.runtime.

Lemma swap_agent_is_neighbour_witness :
  head [0; 1; 2]%nat <> Some 1%nat /\
  exists w, w ∈ neighbor Demo.ins3 1 /\ occupied_now blocked_tables !! w = Some 0%nat.
Proof.
  apply (swap_agent_is_neighbour (RT:=Demo.runtime) Demo.ins3 Demo.D3 19
           blocked_tables 1 1 [0; 1; 2]%nat 0).
  - simpl. apply perm_skip, perm_swap.
  - vm_refl.
Defined.

End SwapAgentWitness.

(** ** Expansion of the low-level tree *)

(** The search tree [tree'] is [tree] after the expansion of the frame
    [L] of a node with configuration [C] and order [order]: unchanged
    when [L] constrains all [n] agents already, and otherwise [tree]
    followed by one frame for every vertex that the next agent of the
    order can go to, its neighbours and its own vertex. *)
Definition expanded (ins : Instance) (C order : list nat)
    (extend : list (nat * nat) -> nat -> nat -> list (nat * nat))
    (tree : list (list (nat * nat))) (L : list (nat * nat))
    (tree' : list (list (nat * nat))) : Prop :=
  let i := nth (length L) order 0%nat in
  let v := cfg_at C i in
  if bool_decide (ins_N ins <= length L)%nat then tree' = tree
  else exists cands,
    Permutation (neighbor ins v ++ [v]) cands /\
    tree' = tree ++ map (extend L i) cands.

(** The tables agree up to the state of the generator. *)
Definition same_tables `{Runtime} (s s' : Scratch) : Prop :=
  v_now s' = v_now s /\ v_next s' = v_next s /\
  occupied_now s' = occupied_now s /\ occupied_next s' = occupied_next s /\
  tie_breakers s' = tie_breakers s.

(** [expand_lowlevel_tree] leaves the frames already in the search
    tree where they are and appends, unless the frame has full depth,
    one frame per candidate vertex of the agent that is next in the
    order of the node, each extending the frame by that agent and the
    vertex.  Only the generator may change in the tables, and without a
    generator the candidates come in the order neighbours first, own
    vertex last. *)
Lemma expand_lowlevel_tree_spec `{RT : Runtime} (ins : Instance) (H : HL.HNode)
    (L : list (nat * nat)) (s : Scratch) :
  let r2 := LaCAM2.expand_lowlevel_tree ins H L s in
  let r1 := LaCAM.expand_lowlevel_tree ins H L s in
  let i := nth (length L) (HL.order H) 0%nat in
  let v := cfg_at (HL.C H) i in
  (expanded ins (HL.C H) (HL.order H) LaCAM2.LNode_new (HL.search_tree H) L r2.1 /\
   same_tables s r2.2 /\
   (MT s = None -> (length L < ins_N ins)%nat ->
    r2 = (HL.search_tree H ++ map (LaCAM2.LNode_new L i) (neighbor ins v ++ [v]), s))) /\
  (expanded ins (HL.C H) (HL.order H) LaCAM.Constraint_new (HL.search_tree H) L r1.1 /\
   same_tables s r1.2 /\
   (MT s = None -> (length L < ins_N ins)%nat ->
    r1 = (HL.search_tree H ++ map (LaCAM.Constraint_new L i) (neighbor ins v ++ [v]), s))).
Proof.
  cbv zeta. unfold LaCAM2.expand_lowlevel_tree, LaCAM.expand_lowlevel_tree, expanded,
    LaCAM2.depth, LaCAM.depth.
  destruct (bool_decide (ins_N ins <= length L)%nat) eqn:Hfull.
  - apply bool_decide_eq_true in Hfull.
    split; (split; [done|]); (split; [by repeat split|]); intros _ Hlt; lia.
  - destruct (MT s) as [r|] eqn:Hmt.
    + pose proof (std_shuffle_perm r
        (neighbor ins (cfg_at (HL.C H) (nth (length L) (HL.order H) 0%nat))
         ++ [cfg_at (HL.C H) (nth (length L) (HL.order H) 0%nat)])) as Hperm.
      destruct (std_shuffle r _) as [C1 r']. simpl in Hperm.
      split; (split; [by exists C1|]); (split; [by repeat split|done]).
    + split; (split; [by eexists|]); (split; [by repeat split|done]).
Qed.

(** ** The stack of open nodes *)

(** Every id of the list is the id of a node of an arena of [n] nodes. *)
Definition ids_valid (l : list nat) (n : nat) : Prop := Forall (fun x => (x < n)%nat) l.

Lemma ids_valid_mono l n m : (n <= m)%nat -> ids_valid l n -> ids_valid l m.
Proof.
  intros Hle Hv. eapply Forall_impl; [exact Hv|]. intros x Hx. simpl in Hx. lia.
Qed.

Section Open2.
Context `{RT : Runtime}.
Variable ins : Instance.
Variable D : DistTable.
Variable objective : Objective.
Variable RESTART_RATE : float.
Variable FLG_SWAP : bool.

(** [rewrite] only pushes nodes of the arena, and none while no goal
    node is recorded. *)
Lemma relax2_open H_goal n_from st n_to :
  let r := LaCAM2.relax ins objective H_goal n_from st n_to in
  (ids_valid st.2 (length st.1.1) -> ids_valid r.2 (length st.1.1)) /\
  (H_goal = None -> r.2 = st.2).
Proof.
  destruct st as [[nodes Q] OPEN]. unfold LaCAM2.relax. simpl.
  destruct (nodes !! n_from); [|done]. destruct (nodes !! n_to) as [nt|] eqn:Hto; [|done].
  destruct (_ <? _); [|done]. simpl. split.
  - intros Hv. destruct H_goal as [gl|]; [|done].
    destruct (_ !! gl); [|done]. destruct (_ <? _); [|done].
    apply Forall_cons. split; [by eapply lookup_lt_Some|done].
  - by intros ->.
Qed.

Lemma relax2_fold_open H_goal n_from nbrs : forall st,
  let r := fold_left (LaCAM2.relax ins objective H_goal n_from) nbrs st in
  (ids_valid st.2 (length st.1.1) -> ids_valid r.2 (length st.1.1)) /\
  (H_goal = None -> r.2 = st.2).
Proof.
  induction nbrs as [|x nbrs IH]; intros st; [done|].
  cbn [fold_left]. cbv zeta.
  destruct (relax2_open H_goal n_from st x) as [Hv Hn].
  destruct (IH (LaCAM2.relax ins objective H_goal n_from st x)) as [Hv' Hn'].
  rewrite relax2_length in Hv'. split.
  - intros H0. by apply Hv', Hv.
  - intros H0. by rewrite (Hn' H0), (Hn H0).
Qed.

Lemma rewrite_loop2_open fuel H_goal : forall nodes Q OPEN r,
  LaCAM2.rewrite_loop ins objective fuel H_goal nodes Q OPEN = Some r ->
  (ids_valid OPEN (length nodes) -> ids_valid r.2 (length nodes)) /\
  (H_goal = None -> r.2 = OPEN).
Proof.
  induction fuel as [|fuel IH]; intros nodes Q OPEN r; destruct Q as [|q Q]; simpl;
    try (by intros [= <-]).
  set (nbrs := match nodes !! q with
               | Some nf => set_iter (HL.neighbor_set nf)
               | None => []
               end).
  pose proof (relax2_fold_length ins objective H_goal q nbrs (nodes, Q, OPEN)) as Hlen.
  destruct (relax2_fold_open H_goal q nbrs (nodes, Q, OPEN)) as [Hv Hn].
  destruct (fold_left _ _ _) as [[nodes' Q'] OPEN']. simpl in *.
  intros Hrun. destruct (IH _ _ _ _ Hrun) as [Hv' Hn']. rewrite Hlen in Hv'. split.
  - intros H0. by apply Hv', Hv.
  - intros H0. by rewrite (Hn' H0), (Hn H0).
Qed.

Lemma rewrite2_open fuel H_from H_to H_goal nodes OPEN r :
  LaCAM2.rewrite ins objective fuel H_from H_to H_goal nodes OPEN = Some r ->
  (ids_valid OPEN (length nodes) -> ids_valid r.2 (length nodes)) /\
  (H_goal = None -> r.2 = OPEN).
Proof.
  unfold LaCAM2.rewrite. intros Hrun.
  destruct (rewrite_loop2_open _ _ _ _ _ _ Hrun) as [Hv Hn].
  by rewrite length_alter in Hv.
Qed.

End Open2.

Section OpenLoop2.
Context `{RT : Runtime}.
Variable ins : Instance.
Variable D : DistTable.
Variable objective : Objective.
Variable RESTART_RATE : float.
Variable FLG_SWAP : bool.

Lemma choose_insert_cases s hit root :
  (LaCAM2.choose_insert RESTART_RATE s hit root).1 = hit \/
  (LaCAM2.choose_insert RESTART_RATE s hit root).1 = root.
Proof.
  unfold LaCAM2.choose_insert. destruct (MT s) as [r|]; [|by right].
  destruct (get_random_float r) as [x r']. simpl. destruct (f_ge x RESTART_RATE); auto.
Qed.

Lemma solve_step2_open fuel p H rest st :
  PInv ins p ->
  LaCAM2.OPEN p = H :: rest ->
  ids_valid (LaCAM2.OPEN p) (length (LaCAM2.nodes p)) ->
  LaCAM2.solve_step ins D objective RESTART_RATE FLG_SWAP fuel p H rest = Some st ->
  ids_valid (LaCAM2.OPEN (step_planner st)) (length (LaCAM2.nodes (step_planner st))).
Proof.
  intros HP Hopen Hv. unfold LaCAM2.solve_step.
  assert (ids_valid rest (length (LaCAM2.nodes p))) as Hrest.
  { rewrite Hopen in Hv. by apply Forall_cons in Hv as [_ Hv]. }
  assert (0 < length (LaCAM2.nodes p))%nat as Hpos.
  { rewrite Hopen in Hv. apply Forall_cons in Hv as [Hv _]. lia. }
  destruct (LaCAM2.nodes p !! H) as [node|] eqn:Hnode; simpl; [|done].
  case_bool_decide as Hempty.
  { by intros [= <-]. }
  destruct (match LaCAM2.H_goal p with Some _ => _ | None => _ end).
  { by intros [= <-]. }
  destruct (bool_decide (LaCAM2.H_goal p = None)
            && is_same_config (HL.C node) (goals ins)).
  { by intros [= <-]. }
  destruct (HL.search_tree node) as [|L tree] eqn:Htree; [done|].
  destruct (LaCAM2.expand_lowlevel_tree ins _ L (LaCAM2.scratch p)) as [tree' s1].
  set (nodes1 := <[H := HL.set_search_tree tree' node]> (LaCAM2.nodes p)).
  assert (length nodes1 = length (LaCAM2.nodes p)) as Hlen1 by apply length_insert.
  destruct (LaCAM2.get_new_config ins D FLG_SWAP fuel (HL.C node) (HL.order node)
              L s1) as [[ok s2]|]; simpl; [|done].
  destruct ok; simpl.
  2:{ intros [= <-]. simpl. by rewrite Hlen1. }
  destruct (LaCAM2.EXPLORED p !! _) as [hit|] eqn:Hhit.
  - destruct (LaCAM2.rewrite ins objective fuel H hit (LaCAM2.H_goal p) nodes1
                (LaCAM2.OPEN p)) as [[nodes2 OPEN2]|] eqn:Hrw; simpl; [|done].
    pose proof (rewrite2_length _ _ _ _ _ _ _ _ _ Hrw) as Hlen2.
    destruct (rewrite2_open _ _ _ _ _ _ _ _ _ Hrw) as [Hv2 _]. simpl in Hlen2, Hv2.
    rewrite Hlen1 in Hv2, Hlen2. specialize (Hv2 Hv).
    pose proof (choose_insert_cases s2 hit LaCAM2.H_init) as Hcases.
    destruct (LaCAM2.choose_insert RESTART_RATE s2 hit LaCAM2.H_init) as [H_insert s3].
    intros [= <-]. simpl in *. rewrite Hlen2.
    destruct (LaCAM2.may_push nodes2 (LaCAM2.H_goal p) H_insert); [|done].
    apply Forall_cons. split; [|done].
    destruct Hcases as [->| ->]; [|done].
    destruct (pi_expl _ _ HP _ _ Hhit) as (nd & Hnd & _). by eapply lookup_lt_Some.
  - intros [= <-]. simpl.
    rewrite (proj1 (HNode_new_spec D nodes1 _ _ _ _)), Hlen1.
    destruct (LaCAM2.may_push _ _ _).
    + apply Forall_cons. split; [lia|]. by apply (ids_valid_mono _ (length (LaCAM2.nodes p))); [lia|].
    + by apply (ids_valid_mono _ (length (LaCAM2.nodes p))); [lia|].
Qed.

Lemma solve_loop2_open fuel deadline : forall p p',
  PInv ins p ->
  (FLG_SWAP = true -> graph_undirected ins) ->
  ids_valid (LaCAM2.OPEN p) (length (LaCAM2.nodes p)) ->
  LaCAM2.solve_loop ins D objective RESTART_RATE FLG_SWAP fuel deadline p = Some p' ->
  ids_valid (LaCAM2.OPEN p') (length (LaCAM2.nodes p')).
Proof.
  induction deadline as [|deadline IH]; intros p p' HP Hsym Hv; simpl.
  - intros Hrun. assert (p' = p) as -> by (destruct (LaCAM2.OPEN p); congruence). done.
  - destruct (LaCAM2.OPEN p) as [|H rest] eqn:Hopen.
    { intros [= <-]. by rewrite Hopen. }
    destruct (LaCAM2.solve_step ins D objective RESTART_RATE FLG_SWAP fuel p H rest)
      as [st|] eqn:Hstep; [|done].
    rewrite <- Hopen in Hv.
    pose proof (solve_step2_open fuel p H rest st HP Hopen Hv Hstep) as Hv'.
    destruct (solve_step_inv ins D objective RESTART_RATE FLG_SWAP Hsym fuel p H rest st
                HP Hstep) as [HP' _].
    destruct st as [p1|p1]; simpl in *.
    + intros Hloop. by apply (IH p1).
    + by intros [= <-].
Qed.

End OpenLoop2.

Section OpenLoop1.
Context `{RT : Runtime}.
Variable ins : Instance.
Variable D : DistTable.
Variable objective : Objective.
Variable RESTART_RATE : float.

Lemma solve_step1_open fuel p S0 rest st :
  PInv1 ins p ->
  LaCAM.OPEN p = S0 :: rest ->
  ids_valid (LaCAM.OPEN p) (length (LaCAM.nodes p)) ->
  LaCAM.solve_step ins D objective RESTART_RATE fuel p S0 rest = Some st ->
  ids_valid (LaCAM.OPEN (step_planner1 st)) (length (LaCAM.nodes (step_planner1 st))).
Proof.
  intros HP Hopen Hv. unfold LaCAM.solve_step.
  assert (ids_valid rest (length (LaCAM.nodes p))) as Hrest.
  { rewrite Hopen in Hv. by apply Forall_cons in Hv as [_ Hv]. }
  assert (0 < length (LaCAM.nodes p))%nat as Hpos.
  { rewrite Hopen in Hv. apply Forall_cons in Hv as [Hv _]. lia. }
  destruct (LaCAM.nodes p !! S0) as [node|] eqn:Hnode; simpl; [|done].
  case_bool_decide as Hempty.
  { by intros [= <-]. }
  destruct (bool_decide (LaCAM.S_goal p = None)
            && is_same_config (HL.C node) (goals ins)).
  { by destruct (bool_decide (objective = OBJ_NONE)); intros [= <-]. }
  destruct (HL.search_tree node) as [|M tree] eqn:Htree; [done|].
  destruct (LaCAM.expand_lowlevel_tree ins _ M (LaCAM.scratch p)) as [tree' s1].
  set (nodes1 := <[S0 := HL.set_search_tree tree' node]> (LaCAM.nodes p)).
  assert (length nodes1 = length (LaCAM.nodes p)) as Hlen1 by apply length_insert.
  destruct (LaCAM.get_new_config ins D fuel (HL.C node) (HL.order node) M s1)
    as [[ok s2]|]; simpl; [|done].
  destruct ok; simpl.
  2:{ intros [= <-]. simpl. by rewrite Hlen1. }
  destruct (LaCAM.CLOSED p !! _) as [hit|] eqn:Hhit.
  - destruct (LaCAM.rewrite ins objective fuel S0 hit nodes1) as [nodes2|] eqn:Hrw;
      simpl; [|done].
    apply rewrite1_length in Hrw. rewrite Hlen1 in Hrw.
    destruct (LaCAM.draw_float s2) as [[x s3]|]; simpl; [|done].
    intros [= <-]. simpl. rewrite Hrw.
    destruct (LaCAM.may_push nodes2 (LaCAM.S_goal p) _); [|done].
    apply Forall_cons. split; [|done].
    destruct (f_ge x RESTART_RATE); [|done].
    destruct (pi1_closed _ _ HP _ _ Hhit) as (nd & Hnd & _). by eapply lookup_lt_Some.
  - intros [= <-]. simpl. unfold LaCAM.Node_new.
    rewrite (proj1 (HNode_new_spec D nodes1 _ _ _ _)), Hlen1.
    destruct (LaCAM.may_push _ _ _).
    + apply Forall_cons. split; [lia|].
      by apply (ids_valid_mono _ (length (LaCAM.nodes p))); [lia|].
    + by apply (ids_valid_mono _ (length (LaCAM.nodes p))); [lia|].
Qed.

Lemma solve_loop1_open fuel deadline : forall p p',
  PInv1 ins p ->
  graph_undirected ins ->
  ids_valid (LaCAM.OPEN p) (length (LaCAM.nodes p)) ->
  LaCAM.solve_loop ins D objective RESTART_RATE fuel deadline p = Some p' ->
  ids_valid (LaCAM.OPEN p') (length (LaCAM.nodes p')).
Proof.
  induction deadline as [|deadline IH]; intros p p' HP Hsym Hv; simpl.
  - intros Hrun. assert (p' = p) as -> by (destruct (LaCAM.OPEN p); congruence). done.
  - destruct (LaCAM.OPEN p) as [|S0 rest] eqn:Hopen.
    { intros [= <-]. by rewrite Hopen. }
    destruct (LaCAM.solve_step ins D objective RESTART_RATE fuel p S0 rest)
      as [st|] eqn:Hstep; [|done].
    rewrite <- Hopen in Hv.
    pose proof (solve_step1_open fuel p S0 rest st HP Hopen Hv Hstep) as Hv'.
    destruct (solve_step1_inv ins D objective RESTART_RATE Hsym fuel p S0 rest st
                HP Hstep) as [HP' _].
    destruct st as [p1|p1]; simpl in *.
    + intros Hloop. by apply (IH p1).
    + by intros [= <-].
Qed.

End OpenLoop1.

(** X11.  At every moment of a run of either planner every entry of the
    stack OPEN is the id of a node that exists, so the top of the stack
    can always be dereferenced; and the [rewrite] of LaCAM2 leaves OPEN
    as it is as long as no goal node is recorded. *)
Theorem open_ids_valid `{RT : Runtime} (ins : Instance) (D : DistTable)
    (objective : Objective) (RESTART_RATE : float) (FLG_SWAP : bool)
    (fuel deadline : nat) (mt : option rng) :
  graph_undirected ins ->
  length (starts ins) = ins_N ins ->
  vertex_free (ins_N ins) (starts ins) ->
  (forall p,
     LaCAM2.solve_loop ins D objective RESTART_RATE FLG_SWAP fuel deadline
       (LaCAM2.initial_planner ins D objective mt) = Some p ->
     ids_valid (LaCAM2.OPEN p) (length (LaCAM2.nodes p))) /\
  (forall p,
     LaCAM.solve_loop ins D objective RESTART_RATE fuel deadline
       (LaCAM.initial_planner ins D objective mt) = Some p ->
     ids_valid (LaCAM.OPEN p) (length (LaCAM.nodes p))) /\
  (forall H_from H_to nodes OPEN r,
     LaCAM2.rewrite ins objective fuel H_from H_to None nodes OPEN = Some r ->
     r.2 = OPEN).
Proof.
  intros Hsym Hlen Hfree. split; [|split].
  - intros p Hloop.
    apply (solve_loop2_open ins D objective RESTART_RATE FLG_SWAP fuel deadline
             (LaCAM2.initial_planner ins D objective mt) p); try done.
    + by apply initial_planner_inv.
    + unfold LaCAM2.initial_planner. simpl. apply Forall_cons. split; [|done].
      unfold LaCAM2.H_init. simpl. lia.
  - intros p Hloop.
    apply (solve_loop1_open ins D objective RESTART_RATE fuel deadline
             (LaCAM.initial_planner ins D objective mt) p); try done.
    + by apply initial_planner1_inv.
    + unfold LaCAM.initial_planner. simpl. apply Forall_cons. split; [|done].
      unfold LaCAM.S_init. simpl. lia.
  - intros H_from H_to nodes OPEN r Hrw.
    by apply (rewrite2_open ins objective fuel H_from H_to None nodes OPEN r Hrw).
Qed.

Section OpenWitness.
#[local] Existing Instance Demo.runtime.

Lemma open_ids_valid_witness :
  LaCAM2.OPEN later_state2 = [5; 4; 0; 0; 3; 2; 1; 0]%nat /\
  ids_valid (LaCAM2.OPEN later_state2) (length (LaCAM2.nodes later_state2)).
Proof.
  split; [vm_refl|].
  apply (proj1 (open_ids_valid (RT:=Demo.runtime) Demo.ins3 Demo.D3 OBJ_NONE
                  (Demo.fl 0) false 20 7 None
                  Demo.G3_sym eq_refl Demo.starts3_free)).
  vm_refl.
Defined.

End OpenWitness.

(** ** Settled costs in LaCAM2 *)

(** The edge from [U] to its neighbour [W] cannot improve the cost of
    [W]: [W.g <= U.g + edge_cost(U, W)]. *)
Definition edge_settled `{Runtime} (ins : Instance) (objective : Objective)
    (nodes : list HL.HNode) (U W : nat) : Prop :=
  forall nu nw, nodes !! U = Some nu -> nodes !! W = Some nw ->
    W ∈ HL.neighbor_set nu ->
    HL.g nw <= HL.g nu + LaCAM2.get_edge_cost ins objective (HL.C nu) (HL.C nw).

(** All edges are settled. *)
Definition all_settled `{Runtime} (ins : Instance) (objective : Objective)
    (nodes : list HL.HNode) : Prop :=
  forall U W, edge_settled ins objective nodes U W.

Section Settled2.
Context `{RT : Runtime}.
Variable ins : Instance.
Variable objective : Objective.

Local Notation Nmax := (Z.max (Z.of_nat (ins_N ins)) 1).
Local Notation cost_ok := (cost_ok (ins:=ins)).
Local Notation settled := (edge_settled ins objective).

(** A relaxation changes no neighbour set and no configuration. *)
Lemma relax2_frame H_goal n_from st n_to id :
  (fun n => (HL.C n, HL.neighbor_set n))
    <$> (LaCAM2.relax ins objective H_goal n_from st n_to).1.1 !! id
  = (fun n => (HL.C n, HL.neighbor_set n)) <$> st.1.1 !! id.
Proof.
  destruct st as [[nodes Q] OPEN]. unfold LaCAM2.relax. simpl.
  destruct (nodes !! n_from); [|done]. destruct (nodes !! n_to) as [nt|] eqn:Hto; [|done].
  destruct (_ <? _); [|done]. simpl.
  destruct (decide (id = n_to)) as [->|Hne].
  - rewrite list_lookup_insert_eq by by eapply lookup_lt_Some. by rewrite Hto.
  - by rewrite list_lookup_insert_ne.
Qed.

Lemma relax2_fold_frame H_goal n_from nbrs id : forall st,
  (fun n => (HL.C n, HL.neighbor_set n))
    <$> (fold_left (LaCAM2.relax ins objective H_goal n_from) nbrs st).1.1 !! id
  = (fun n => (HL.C n, HL.neighbor_set n)) <$> st.1.1 !! id.
Proof.
  induction nbrs as [|x nbrs IH]; intros st; [done|].
  cbn [fold_left]. by rewrite IH, relax2_frame.
Qed.

(** One relaxation, in the middle of the loop over the neighbours of
    [n_from]: the edges from nodes that are not queued stay settled, and
    the edge just looked at is settled as well. *)
Lemma relax2_settled H_goal n_from nodes Q OPEN n_to (seen : list nat) :
  cost_ok nodes -> Nmax * Z.of_nat (length nodes) < UINT_MOD ->
  (forall U W, U <> n_from -> U ∉ Q -> settled nodes U W) ->
  (forall W, W ∈ seen -> settled nodes n_from W) ->
  let r := LaCAM2.relax ins objective H_goal n_from (nodes, Q, OPEN) n_to in
  (forall U W, U <> n_from -> U ∉ r.1.2 -> settled r.1.1 U W) /\
  (forall W, W ∈ n_to :: seen -> settled r.1.1 n_from W).
Proof.
  intros Hc Hb Hothers Hdone. unfold LaCAM2.relax.
  destruct (nodes !! n_from) as [nf|] eqn:Hnf.
  2:{ simpl. split; [done|]. intros W _ nu nw Hu. congruence. }
  destruct (nodes !! n_to) as [nt|] eqn:Hnt.
  2:{ simpl. split; [done|]. intros W [->|HW]%elem_of_cons; [|by apply Hdone].
      intros nu nw _ Hw. congruence. }
  set (cost := LaCAM2.get_edge_cost ins objective (HL.C nf) (HL.C nt)).
  pose proof (lookup_lt_Some _ _ _ Hnf) as Hfl.
  assert (Z.of_nat (ins_N ins) < UINT_MOD) as HN
    by (apply (N_small_of_bound (ins:=ins) (length nodes)); [lia|done]).
  pose proof (get_edge_cost2_bounds ins objective HN (HL.C nf) (HL.C nt)) as Hcb.
  fold cost in Hcb.
  destruct (age_bound (ins:=ins) n_from (length nodes) (HL.g nf) cost) as [Hsum Hsmall];
    [by eapply co_bound|done|done|done|].
  rewrite u32_small by lia.
  destruct (HL.g nf + cost <? HL.g nt) eqn:Hlt; simpl.
  - apply Z.ltb_lt in Hlt.
    assert (n_to <> n_from) as Hne.
    { intros ->. assert (nf = nt) as -> by congruence. lia. }
    pose proof (lookup_lt_Some _ _ _ Hnt) as Htl.
    split.
    + intros U W HU HQ nu nw. rewrite not_elem_of_app, list_elem_of_singleton in HQ.
      destruct HQ as [HQ HUt].
      rewrite list_lookup_insert_ne by done. intros Hu.
      destruct (decide (W = n_to)) as [->|HW].
      * rewrite list_lookup_insert_eq by done. intros [= <-] Hin. simpl.
        pose proof (Hothers U n_to HU HQ nu nt Hu Hnt Hin). lia.
      * rewrite list_lookup_insert_ne by done. intros Hw Hin.
        by apply (Hothers U W HU HQ).
    + intros W HW nu nw. rewrite list_lookup_insert_ne by done.
      intros Hu. assert (nu = nf) as -> by congruence.
      destruct (decide (W = n_to)) as [->|HWt].
      * rewrite list_lookup_insert_eq by done. intros [= <-] Hin. simpl. fold cost. lia.
      * rewrite list_lookup_insert_ne by done. intros Hw Hin.
        apply elem_of_cons in HW as [->|HW]; [done|].
        by apply (Hdone W HW nf nw).
  - apply Z.ltb_ge in Hlt. split; [done|].
    intros W [->|HW]%elem_of_cons; [|by apply Hdone].
    intros nu nw Hu Hw _. assert (nu = nf) as -> by congruence.
    assert (nw = nt) as -> by congruence. fold cost. lia.
Qed.

Lemma relax2_fold_settled H_goal n_from nbrs : forall nodes Q OPEN (seen : list nat),
  cost_ok nodes -> Nmax * Z.of_nat (length nodes) < UINT_MOD ->
  (forall U W, U <> n_from -> U ∉ Q -> settled nodes U W) ->
  (forall W, W ∈ seen -> settled nodes n_from W) ->
  let r := fold_left (LaCAM2.relax ins objective H_goal n_from) nbrs (nodes, Q, OPEN) in
  (forall U W, U <> n_from -> U ∉ r.1.2 -> settled r.1.1 U W) /\
  (forall W, W ∈ nbrs ++ seen -> settled r.1.1 n_from W).
Proof.
  induction nbrs as [|x nbrs IH]; intros nodes Q OPEN seen Hc Hb Hothers Hdone;
    cbn [fold_left]; [done|].
  destruct (relax2_settled H_goal n_from nodes Q OPEN x seen Hc Hb Hothers Hdone)
    as [Hothers' Hdone'].
  destruct (relax_cost ins objective H_goal n_from nodes Q OPEN x Hc Hb) as [Hc' Hlen].
  destruct (LaCAM2.relax ins objective H_goal n_from (nodes, Q, OPEN) x)
    as [[nodes' Q'] OPEN']. cbn [fst snd] in *.
  destruct (IH nodes' Q' OPEN' (x :: seen) Hc') as [Ho Hd]; [by rewrite Hlen|done|done|].
  split; [done|]. intros W HW. apply Hd.
  clear -HW. set_solver.
Qed.

(** When the queue of [rewrite] is empty, every edge is settled. *)
Lemma rewrite_loop2_settled fuel H_goal : forall Q nodes OPEN r,
  LaCAM2.rewrite_loop ins objective fuel H_goal nodes Q OPEN = Some r ->
  cost_ok nodes -> Nmax * Z.of_nat (length nodes) < UINT_MOD ->
  (forall U W, U ∉ Q -> settled nodes U W) ->
  all_settled ins objective r.1.
Proof.
  induction fuel as [|fuel IH]; intros Q nodes OPEN r; destruct Q as [|n_from Q];
    simpl; try done.
  - intros [= <-] _ _ Hs U W. apply Hs, not_elem_of_nil.
  - intros [= <-] _ _ Hs U W. apply Hs, not_elem_of_nil.
  - intros Hrun Hc Hb Hs.
    set (nbrs := match nodes !! n_from with Some nf => _ | None => _ end) in *.
    destruct (relax2_fold_settled H_goal n_from nbrs nodes Q OPEN [] Hc Hb)
      as [Hothers Hdone].
    { intros U W HU HQ. apply Hs. rewrite not_elem_of_cons. done. }
    { intros W HW. by apply elem_of_nil in HW. }
    destruct (relax_fold_cost ins objective H_goal n_from nbrs nodes Q OPEN Hc Hb)
      as [Hc' Hlen].
    pose proof (relax2_fold_frame H_goal n_from nbrs n_from (nodes, Q, OPEN)) as Hframe.
    destruct (fold_left _ _ _) as [[nodes' Q'] OPEN']. simpl in *.
    apply (IH _ _ _ _ Hrun Hc'); [by rewrite Hlen|].
    intros U W HU. destruct (decide (U = n_from)) as [->|Hne]; [|by apply Hothers].
    intros nu nw Hu Hw Hin. apply (Hdone W); try done.
    rewrite app_nil_r. unfold nbrs. rewrite Hu in Hframe. simpl in Hframe.
    destruct (nodes !! n_from) as [nf|]; [|done]. simpl in Hframe.
    injection Hframe as _ Hn. apply set_iter_elem. by rewrite <- Hn.
Qed.

(** Replacing a node by one with the same configuration, cost and
    neighbours keeps the edges settled. *)
Lemma settled_same nodes i node node' :
  all_settled ins objective nodes -> nodes !! i = Some node ->
  HL.C node' = HL.C node -> HL.g node' = HL.g node ->
  HL.neighbor_set node' = HL.neighbor_set node ->
  all_settled ins objective (<[i := node']> nodes).
Proof.
  intros Hs Hi EC Eg En U W nu nw Hu Hw Hin.
  pose proof (lookup_lt_Some _ _ _ Hi) as Hlt.
  assert (exists nu0, nodes !! U = Some nu0 /\ HL.C nu = HL.C nu0 /\
            HL.g nu = HL.g nu0 /\ HL.neighbor_set nu = HL.neighbor_set nu0)
    as (nu0 & Hu0 & EuC & Eug & Eun).
  { destruct (decide (U = i)) as [->|Hne].
    - rewrite list_lookup_insert_eq in Hu by done. injection Hu as <-. by exists node.
    - rewrite list_lookup_insert_ne in Hu by done. by exists nu. }
  assert (exists nw0, nodes !! W = Some nw0 /\ HL.C nw = HL.C nw0 /\ HL.g nw = HL.g nw0)
    as (nw0 & Hw0 & EwC & Ewg).
  { destruct (decide (W = i)) as [->|Hne].
    - rewrite list_lookup_insert_eq in Hw by done. injection Hw as <-. by exists node.
    - rewrite list_lookup_insert_ne in Hw by done. by exists nw. }
  rewrite EuC, Eug, EwC, Ewg. apply (Hs U W nu0 nw0 Hu0 Hw0). by rewrite <- Eun.
Qed.

(** [rewrite] starts from settled edges, adds the edge from [H_from] to
    [H_to] and ends with all edges settled again. *)
Lemma rewrite2_settled fuel H_from H_to H_goal nodes OPEN r nf :
  LaCAM2.rewrite ins objective fuel H_from H_to H_goal nodes OPEN = Some r ->
  cost_ok nodes -> nodes !! H_from = Some nf ->
  Nmax * Z.of_nat (length nodes) < UINT_MOD ->
  all_settled ins objective nodes ->
  all_settled ins objective r.1.
Proof.
  unfold LaCAM2.rewrite. intros Hrun Hc Hf Hb Hs.
  apply rewrite_loop2_settled in Hrun; [done| | |].
  - rewrite (alter_as_insert _ _ _ _ Hf). by apply (cost_ok_same nodes H_from nf).
  - by rewrite length_alter.
  - intros U W HU nu nw. rewrite not_elem_of_cons in HU. destruct HU as [HU _].
    rewrite list_lookup_alter_ne by done. intros Hu.
    destruct (decide (W = H_from)) as [->|Hne].
    + rewrite list_lookup_alter_eq, Hf. simpl. intros [= <-] Hin. simpl.
      by apply (Hs U H_from nu nf).
    + rewrite list_lookup_alter_ne by done. intros Hw Hin. by apply (Hs U W).
Qed.

End Settled2.

Section SettledLoop2.
Context `{RT : Runtime}.
Variable ins : Instance.
Variable D : DistTable.
Variable objective : Objective.
Variable RESTART_RATE : float.
Variable FLG_SWAP : bool.

Local Notation Nmax := (Z.max (Z.of_nat (ins_N ins)) 1).

(** A new node comes with the one edge from its parent, which is settled
    by the cost the node is given. *)
Lemma settled_new nodes H node Cn h :
  all_settled ins objective nodes ->
  arena_ok (ins:=ins) (rv:=true) nodes -> cost_ok (ins:=ins) nodes ->
  nodes !! H = Some node ->
  Nmax * Z.of_nat (length nodes) < UINT_MOD ->
  all_settled ins objective
    (HL.HNode_new D nodes Cn (Some H)
       (u32 (HL.g node + LaCAM2.get_edge_cost ins objective (HL.C node) Cn)) h).
Proof.
  intros Hs Ha Hc Hn Hb.
  set (gv := u32 (HL.g node + LaCAM2.get_edge_cost ins objective (HL.C node) Cn)).
  destruct (HNode_new_spec D nodes Cn (Some H) gv h)
    as (Hlen & (new & Hnew & HnC & _ & Hng & _ & _ & Hnn & _) & Hold).
  pose proof (lookup_lt_Some _ _ _ Hn) as HH.
  assert (Z.of_nat (ins_N ins) < UINT_MOD) as HN
    by (apply (N_small_of_bound (ins:=ins) (length nodes)); [lia|done]).
  pose proof (get_edge_cost2_bounds ins objective HN (HL.C node) Cn) as Hcb.
  destruct (age_bound (ins:=ins) H (length nodes) (HL.g node)
              (LaCAM2.get_edge_cost ins objective (HL.C node) Cn)) as [_ Hsmall];
    [by eapply co_bound|done|done|done|].
  assert (gv = HL.g node + LaCAM2.get_edge_cost ins objective (HL.C node) Cn) as Hgv.
  { unfold gv. apply u32_small. pose proof (co_bound _ Hc _ _ Hn). lia. }
  intros U W nu nw Hu Hw Hin.
  pose proof (lookup_lt_Some _ _ _ Hu) as HU. rewrite Hlen in HU.
  destruct (decide (U = length nodes)) as [->|HUn].
  { rewrite Hnew in Hu. injection Hu as <-. rewrite Hnn in Hin.
    by apply not_elem_of_empty in Hin. }
  destruct (nodes !! U) as [nu0|] eqn:Hu0.
  2:{ apply lookup_ge_None in Hu0. lia. }
  destruct (Hold U nu0 Hu0) as (nu' & Hu' & Hsame & Hnb).
  assert (nu' = nu) as -> by congruence.
  destruct Hsame as (EuC & _ & Eug & _).
  destruct (decide (W = length nodes)) as [->|HWn].
  - rewrite Hnew in Hw. injection Hw as <-.
    rewrite Hnb in Hin. case_bool_decide as HP.
    + injection HP as <-. assert (nu0 = node) as -> by congruence.
      rewrite HnC, Hng, EuC, Eug. lia.
    + destruct (lk_neighbor _ _ _ (ar_links _ Ha _ _ Hu0) _ Hin) as (xn & Hxn & _).
      apply lookup_lt_Some in Hxn. lia.
  - pose proof (lookup_lt_Some _ _ _ Hw) as HW. rewrite Hlen in HW.
    destruct (nodes !! W) as [nw0|] eqn:Hw0.
    2:{ apply lookup_ge_None in Hw0. lia. }
    destruct (Hold W nw0 Hw0) as (nw' & Hw' & (EwC & _ & Ewg & _) & _).
    assert (nw' = nw) as -> by congruence.
    rewrite EuC, Eug, EwC, Ewg. apply (Hs U W nu0 nw0 Hu0 Hw0).
    rewrite Hnb in Hin. case_bool_decide; [|done].
    apply elem_of_union in Hin as [Hin|Hin]; [|done].
    apply elem_of_singleton in Hin. lia.
Qed.

Lemma solve_step2_settled fuel p H rest st :
  PInv ins p -> CInv ins p ->
  Nmax * Z.of_nat (length (LaCAM2.nodes p)) < UINT_MOD ->
  all_settled ins objective (LaCAM2.nodes p) ->
  LaCAM2.solve_step ins D objective RESTART_RATE FLG_SWAP fuel p H rest = Some st ->
  all_settled ins objective (LaCAM2.nodes (step_planner st)).
Proof.
  intros HP [Hc He] Hb Hs. unfold LaCAM2.solve_step.
  destruct (LaCAM2.nodes p !! H) as [node|] eqn:Hnode; simpl; [|done].
  pose proof (pi_arena _ _ HP) as Ha.
  case_bool_decide as Hempty.
  { by intros [= <-]. }
  destruct (match LaCAM2.H_goal p with Some _ => _ | None => _ end).
  { by intros [= <-]. }
  destruct (bool_decide (LaCAM2.H_goal p = None)
            && is_same_config (HL.C node) (goals ins)).
  { by intros [= <-]. }
  destruct (HL.search_tree node) as [|L tree] eqn:Htree; [done|]. clear Hempty.
  pose proof (ar_static _ Ha _ _ Hnode) as Hst.
  assert (tree_ok (ins:=ins) (rv:=true) node L) as HL.
  { apply (ar_tree _ Ha H node L Hnode). rewrite Htree. by left. }
  destruct (expand_lowlevel_tree_ok ins node tree L (LaCAM2.scratch p) Hst HL)
    as [Htree' _]; [|apply (pi_scratch _ _ HP)|].
  { intros L' HL'. apply (ar_tree _ Ha H node L' Hnode). rewrite Htree. by right. }
  destruct (LaCAM2.expand_lowlevel_tree ins _ L (LaCAM2.scratch p)) as [tree' s1].
  simpl in Htree'.
  set (nodes1 := <[H := HL.set_search_tree tree' node]> (LaCAM2.nodes p)).
  assert (arena_ok (ins:=ins) (rv:=true) nodes1) as Ha1
    by (by apply arena_set_search_tree).
  assert (all_settled ins objective nodes1) as Hs1 by (by apply (settled_same _ _ _ H node)).
  assert (cost_ok (ins:=ins) nodes1) as Hc1 by (by apply (cost_ok_same _ H node)).
  assert (length nodes1 = length (LaCAM2.nodes p)) as Hlen1 by apply length_insert.
  assert (nodes1 !! H = Some (HL.set_search_tree tree' node)) as Hnode1.
  { unfold nodes1. rewrite list_lookup_insert_eq; [done|]. by eapply lookup_lt_Some. }
  destruct (LaCAM2.get_new_config ins D FLG_SWAP fuel (HL.C node) (HL.order node)
              L s1) as [[ok s2]|]; simpl; [|done].
  destruct ok; simpl.
  2:{ by intros [= <-]. }
  destruct (LaCAM2.EXPLORED p !! _) as [hit|] eqn:Hhit.
  - destruct (LaCAM2.rewrite ins objective fuel H hit (LaCAM2.H_goal p) nodes1
                (LaCAM2.OPEN p)) as [[nodes2 OPEN2]|] eqn:Hrw; simpl; [|done].
    pose proof (rewrite2_settled ins objective fuel H hit _ nodes1 _ _ _ Hrw Hc1 Hnode1)
      as Hs2.
    destruct (LaCAM2.choose_insert RESTART_RATE s2 hit LaCAM2.H_init) as [H_insert s3].
    intros [= <-]. simpl. apply Hs2; [by rewrite Hlen1|done].
  - intros [= <-]. simpl.
    apply (settled_new nodes1 H (HL.set_search_tree tree' node)); try done.
    by rewrite Hlen1.
Qed.

Hypothesis G_sym : FLG_SWAP = true -> graph_undirected ins.
Hypothesis starts_len : length (starts ins) = ins_N ins.

Lemma solve_loop2_settled fuel deadline : forall p p',
  PInv ins p -> CInv ins p ->
  Nmax * Z.of_nat (length (LaCAM2.nodes p) + deadline) < UINT_MOD ->
  all_settled ins objective (LaCAM2.nodes p) ->
  LaCAM2.solve_loop ins D objective RESTART_RATE FLG_SWAP fuel deadline p = Some p' ->
  all_settled ins objective (LaCAM2.nodes p').
Proof.
  induction deadline as [|deadline IH]; intros p p' HP HC Hb Hs; simpl.
  - by destruct (LaCAM2.OPEN p); intros [= <-].
  - destruct (LaCAM2.OPEN p) as [|H rest]; [by intros [= <-]|].
    destruct (LaCAM2.solve_step ins D objective RESTART_RATE FLG_SWAP fuel p H rest)
      as [st|] eqn:Hstep; [|done].
    assert (Nmax * Z.of_nat (length (LaCAM2.nodes p)) < UINT_MOD) as Hb0.
    { assert (Nmax * Z.of_nat (length (LaCAM2.nodes p))
              <= Nmax * Z.of_nat (length (LaCAM2.nodes p) + S deadline))
        by (apply Z.mul_le_mono_nonneg_l; lia). lia. }
    pose proof (solve_step2_settled fuel p H rest st HP HC Hb0 Hs Hstep) as Hs'.
    destruct (solve_step_inv ins D objective RESTART_RATE FLG_SWAP G_sym fuel p H rest st
                HP Hstep) as [HP' Hle].
    destruct (solve_step_cost ins D objective RESTART_RATE FLG_SWAP fuel p H rest st
                HC Hb0 Hstep) as [Hc' Hshape].
    assert (CInv ins (step_planner st)) as HC'.
    { split; [done|].
      apply (explored_all_step ins p (step_planner st)); [by destruct HC|done|done]. }
    destruct st as [p1|p1]; simpl in *.
    + apply IH; try done.
      assert (length (LaCAM2.nodes p1) <= S (length (LaCAM2.nodes p)))%nat as Hlen.
      { destruct Hshape as [[-> _]|(? & ? & _ & _ & -> & _)]; lia. }
      assert (Nmax * Z.of_nat (length (LaCAM2.nodes p1) + deadline)
              <= Nmax * Z.of_nat (length (LaCAM2.nodes p) + S deadline))
        by (apply Z.mul_le_mono_nonneg_l; lia). lia.
    + by intros [= <-].
Qed.

End SettledLoop2.

(** X12.  The costs of LaCAM2 are settled at every moment of a run: for
    every node [U] and every member [W] of its neighbour set,
    [W.g <= U.g + edge_cost(U, W)], so that no edge found so far can
    lower a cost any further.  [rewrite] restores this after adding an
    edge, and a new node is created with exactly the cost that settles
    the edge from its parent.  The run is short enough for the costs to
    fit an unsigned int. *)
Theorem lacam2_costs_settled `{RT : Runtime} (ins : Instance) (D : DistTable)
    (objective : Objective) (RESTART_RATE : float) (FLG_SWAP : bool)
    (fuel deadline : nat) (mt : option rng) (p : LaCAM2.Planner) :
  graph_undirected ins ->
  length (starts ins) = ins_N ins ->
  vertex_free (ins_N ins) (starts ins) ->
  Z.max (Z.of_nat (ins_N ins)) 1 * Z.of_nat (1 + deadline) < UINT_MOD ->
  LaCAM2.solve_loop ins D objective RESTART_RATE FLG_SWAP fuel deadline
    (LaCAM2.initial_planner ins D objective mt) = Some p ->
  all_settled ins objective (LaCAM2.nodes p).
Proof.
  intros Hsym Hlen Hfree Hb Hloop.
  apply (solve_loop2_settled ins D objective RESTART_RATE FLG_SWAP (fun _ => Hsym)
           Hlen fuel deadline (LaCAM2.initial_planner ins D objective mt) p); try done.
  - by apply initial_planner_inv.
  - by apply initial_planner_cost.
  - intros U W nu nw Hu Hw Hin. unfold LaCAM2.initial_planner, HL.HNode_new in Hu.
    simpl in Hu. apply list_lookup_singleton_Some in Hu as [_ <-].
    simpl in Hin. by apply not_elem_of_empty in Hin.
Qed.

Section SettledWitness.
#[local] Existing Instance Demo.runtime.

Lemma lacam2_costs_settled_witness :
  map HL.g (LaCAM2.nodes later_state2) = [0; 2; 3; 5; 1; 3] /\
  all_settled Demo.ins3 OBJ_NONE (LaCAM2.nodes later_state2).
Proof.
  split; [vm_refl|].
  apply (lacam2_costs_settled (RT:=Demo.runtime) Demo.ins3 Demo.D3 OBJ_NONE
           (Demo.fl 0) false 20 7 None later_state2
           Demo.G3_sym eq_refl Demo.starts3_free eq_refl).
  vm_refl.
Defined.

End SettledWitness.

(** ** The first solution ends the search *)

Section FirstSolution.
Context `{RT : Runtime}.
Variable ins : Instance.
Variable D : DistTable.
Variable RESTART_RATE : float.

(** LaCAM2: once a goal node is recorded, a later deadline changes
    nothing. *)
Lemma solve_loop2_stable objective FLG_SWAP fuel d : forall p p' e,
  LaCAM2.H_goal p = None ->
  LaCAM2.solve_loop ins D objective RESTART_RATE FLG_SWAP fuel d p = Some p' ->
  LaCAM2.H_goal p' <> None ->
  LaCAM2.solve_loop ins D objective RESTART_RATE FLG_SWAP fuel (d + e) p = Some p'.
Proof.
  induction d as [|d IH]; intros p p' e Hg; simpl.
  - intros Hrun Hg'. assert (p' = p) as -> by (destruct (LaCAM2.OPEN p); congruence).
    congruence.
  - destruct (LaCAM2.OPEN p) as [|H rest] eqn:Hopen.
    { intros [= <-]. congruence. }
    destruct (LaCAM2.solve_step ins D objective RESTART_RATE FLG_SWAP fuel p H rest)
      as [st|] eqn:Hstep; [|done].
    pose proof (solve_step_goal ins D objective RESTART_RATE FLG_SWAP fuel p H rest st
                  Hg Hopen Hstep) as Hst.
    destruct st as [p1|p1]; [|done].
    intros Hrun Hg'. by apply IH.
Qed.

(** LaCAM under NONE: an iteration that goes on has recorded no goal
    node. *)
Lemma solve_step1_goal fuel p S0 rest p1 :
  LaCAM.S_goal p = None ->
  LaCAM.solve_step ins D OBJ_NONE RESTART_RATE fuel p S0 rest = Some (LaCAM.Continue p1) ->
  LaCAM.S_goal p1 = None.
Proof.
  intros Hg. unfold LaCAM.solve_step.
  destruct (LaCAM.nodes p !! S0) as [node|]; simpl; [|done].
  case_bool_decide as Hempty.
  { by intros [= <-]. }
  destruct (bool_decide (LaCAM.S_goal p = None)
            && is_same_config (HL.C node) (goals ins)).
  { destruct (bool_decide (OBJ_NONE = OBJ_NONE)) eqn:E; [done|].
    by apply bool_decide_eq_false in E. }
  destruct (HL.search_tree node) as [|M tree]; [done|].
  destruct (LaCAM.expand_lowlevel_tree ins _ M (LaCAM.scratch p)) as [tree' s1].
  destruct (LaCAM.get_new_config ins D fuel (HL.C node) (HL.order node) M s1)
    as [[ok s2]|]; simpl; [|done].
  destruct ok; simpl.
  2:{ by intros [= <-]. }
  destruct (LaCAM.CLOSED p !! _) as [hit|].
  - destruct (LaCAM.rewrite _ _ _ _ _ _) as [nodes2|]; simpl; [|done].
    destruct (LaCAM.draw_float s2) as [[x s3]|]; simpl; [|done].
    by intros [= <-].
  - by intros [= <-].
Qed.

Lemma solve_loop1_stable fuel d : forall p p' e,
  LaCAM.S_goal p = None ->
  LaCAM.solve_loop ins D OBJ_NONE RESTART_RATE fuel d p = Some p' ->
  LaCAM.S_goal p' <> None ->
  LaCAM.solve_loop ins D OBJ_NONE RESTART_RATE fuel (d + e) p = Some p'.
Proof.
  induction d as [|d IH]; intros p p' e Hg; simpl.
  - intros Hrun Hg'. assert (p' = p) as -> by (destruct (LaCAM.OPEN p); congruence).
    congruence.
  - destruct (LaCAM.OPEN p) as [|S0 rest] eqn:Hopen.
    { intros [= <-]. congruence. }
    destruct (LaCAM.solve_step ins D OBJ_NONE RESTART_RATE fuel p S0 rest)
      as [st|] eqn:Hstep; [|done].
    destruct st as [p1|p1]; [|done].
    intros Hrun Hg'. apply IH; [|done|done].
    by apply (solve_step1_goal fuel p S0 rest p1).
Qed.

End FirstSolution.

(** X13.  LaCAM2 under every objective, and LaCAM under NONE, stop at the
    first solution: when [solve] returns a solution that is not empty
    within some number of iterations, it returns the very same result
    with every larger number of iterations. *)
Theorem first_solution_final `{RT : Runtime} (ins : Instance) (D : DistTable)
    (objective : Objective) (RESTART_RATE : float) (FLG_SWAP : bool)
    (fuel d e : nat) (mt : option rng) :
  (forall r,
     LaCAM2.solve ins D objective RESTART_RATE FLG_SWAP fuel d mt = Some r ->
     LaCAM2.solution r <> [] ->
     LaCAM2.solve ins D objective RESTART_RATE FLG_SWAP fuel (d + e) mt = Some r) /\
  (forall r,
     LaCAM.solve ins D OBJ_NONE RESTART_RATE fuel d mt = Some r ->
     LaCAM.solution r <> [] ->
     LaCAM.solve ins D OBJ_NONE RESTART_RATE fuel (d + e) mt = Some r).
Proof.
  split; intros r.
  - unfold LaCAM2.solve.
    destruct (LaCAM2.solve_loop _ _ _ _ _ _ d _) as [p|] eqn:Hloop; simpl; [|done].
    intros Hrep Hsol.
    rewrite (solve_loop2_stable ins D RESTART_RATE objective FLG_SWAP fuel d
               (LaCAM2.initial_planner ins D objective mt) p e eq_refl Hloop); [done|].
    intros Hg. apply report2_solution in Hrep. by rewrite Hg in Hrep.
  - unfold LaCAM.solve.
    destruct (LaCAM.solve_loop _ _ _ _ _ d _) as [p|] eqn:Hloop; simpl; [|done].
    intros Hrep Hsol.
    rewrite (solve_loop1_stable ins D RESTART_RATE fuel d
               (LaCAM.initial_planner ins D OBJ_NONE mt) p e eq_refl Hloop); [done|].
    intros Hg. apply report1_solution in Hrep. by rewrite Hg in Hrep.
Qed.

Section FirstSolutionWitness.
#[local] Existing Instance Demo.runtime.

Lemma demo_result2_found : LaCAM2.solution demo_result2 <> [].
Proof. intros E. vm_compute in E. discriminate. Qed.

Lemma first_solution_final_witness :
  LaCAM2.solve Demo.ins_near Demo.D_near OBJ_MAKESPAN (Demo.fl 0) true 20 (3 + 5) None
  = Some demo_result2.
Proof.
  apply (proj1 (first_solution_final (RT:=Demo.runtime) Demo.ins_near Demo.D_near
                  OBJ_MAKESPAN (Demo.fl 0) true 20 3 5 None)).
  - vm_refl.
  - exact demo_result2_found.
Defined.

End FirstSolutionWitness.

(** ** [rewrite] and the neighbour sets *)

Section RewriteFrame.
Context `{RT : Runtime}.
Variable ins : Instance.
Variable objective : Objective.

Local Notation view := (fun n : HL.HNode => (HL.C n, HL.neighbor_set n)).

Lemma rewrite_loop2_frame fuel H_goal id : forall nodes Q OPEN r,
  LaCAM2.rewrite_loop ins objective fuel H_goal nodes Q OPEN = Some r ->
  view <$> r.1 !! id = view <$> nodes !! id.
Proof.
  induction fuel as [|fuel IH]; intros nodes Q OPEN r; destruct Q as [|q Q]; simpl;
    try (by intros [= <-]).
  pose proof (relax2_fold_frame ins objective H_goal q
    (match nodes !! q with Some nf => set_iter (HL.neighbor_set nf) | None => [] end)
    id (nodes, Q, OPEN)) as Hfr.
  destruct (fold_left _ _ _) as [[nodes' Q'] OPEN']. simpl in Hfr.
  intros Hrun. by rewrite (IH _ _ _ _ Hrun).
Qed.

Lemma relax1_frame S0 T U st W id :
  view <$> (LaCAM.relax ins objective S0 T U st W).1 !! id = view <$> st.1 !! id.
Proof.
  destruct st as [nodes Q]. unfold LaCAM.relax. simpl.
  destruct (_ && _); [done|].
  destruct (nodes !! U); [|done]. destruct (nodes !! W) as [nw|] eqn:Hw; [|done].
  destruct (_ <? _); [|done]. simpl.
  destruct (decide (id = W)) as [->|Hne].
  - rewrite list_lookup_insert_eq by by eapply lookup_lt_Some. by rewrite Hw.
  - by rewrite list_lookup_insert_ne.
Qed.

Lemma relax1_fold_frame S0 T U nbrs id : forall st,
  view <$> (fold_left (LaCAM.relax ins objective S0 T U) nbrs st).1 !! id
  = view <$> st.1 !! id.
Proof.
  induction nbrs as [|x nbrs IH]; intros st; [done|].
  cbn [fold_left]. by rewrite IH, relax1_frame.
Qed.

Lemma rewrite_loop1_frame fuel S0 T id : forall nodes Q r,
  LaCAM.rewrite_loop ins objective fuel S0 T nodes Q = Some r ->
  view <$> r !! id = view <$> nodes !! id.
Proof.
  induction fuel as [|fuel IH]; intros nodes Q r; destruct Q as [|q Q]; simpl;
    try (by intros [= <-]).
  pose proof (relax1_fold_frame S0 T q
    (match nodes !! q with Some nu => set_iter (HL.neighbor_set nu) | None => [] end)
    id (nodes, Q)) as Hfr.
  destruct (fold_left _ _ _) as [nodes' Q']. simpl in Hfr.
  intros Hrun. by rewrite (IH _ _ _ Hrun).
Qed.

End RewriteFrame.

(** The node [n'] is the node [n] with the ids [extra] added to its
    neighbour set; the configuration is the same. *)
Definition gained `{Runtime} (extra : gset nat) (n n' : HL.HNode) : Prop :=
  HL.C n' = HL.C n /\ HL.neighbor_set n' = extra ∪ HL.neighbor_set n.

(** X14.  [rewrite] records the edge it is called for and nothing else:
    it keeps the number of nodes and every configuration, adds [H_to] to
    the neighbour set of [H_from] (LaCAM also [S] to that of [T]) and
    leaves all other neighbour sets as they are. *)
Theorem rewrite_records_edge `{RT : Runtime} (ins : Instance) (objective : Objective)
    (fuel : nat) (H_from H_to : nat) (nodes : list HL.HNode) :
  (forall H_goal OPEN r,
     LaCAM2.rewrite ins objective fuel H_from H_to H_goal nodes OPEN = Some r ->
     length r.1 = length nodes /\
     forall id n, nodes !! id = Some n ->
       exists n', r.1 !! id = Some n' /\
         gained (if bool_decide (id = H_from) then {[H_to]} else ∅) n n') /\
  (forall r,
     LaCAM.rewrite ins objective fuel H_from H_to nodes = Some r ->
     length r = length nodes /\
     forall id n, nodes !! id = Some n ->
       exists n', r !! id = Some n' /\
         gained ((if bool_decide (id = H_from) then {[H_to]} else ∅) ∪
                 (if bool_decide (id = H_to) then {[H_from]} else ∅)) n n').
Proof.
  split.
  - intros H_goal OPEN r Hrw. split; [by apply (rewrite2_length _ _ _ _ _ _ _ _ _ Hrw)|].
    intros id n Hn. unfold LaCAM2.rewrite in Hrw.
    pose proof (rewrite_loop2_frame ins objective fuel H_goal id _ _ _ _ Hrw) as Hfr.
    destruct (decide (id = H_from)) as [->|Hne].
    + rewrite list_lookup_alter_eq, Hn in Hfr. simpl in Hfr.
      destruct (r.1 !! H_from) as [n'|]; [|done]. injection Hfr as HC Hnb.
      exists n'. split; [done|]. by rewrite bool_decide_eq_true_2.
    + rewrite list_lookup_alter_ne, Hn in Hfr by done. simpl in Hfr.
      destruct (r.1 !! id) as [n'|]; [|done]. injection Hfr as HC Hnb.
      exists n'. split; [done|]. rewrite bool_decide_eq_false_2 by done.
      split; [done|]. rewrite Hnb. set_solver.
  - intros r Hrw. split; [by apply (rewrite1_length _ _ _ _ _ _ _ Hrw)|].
    intros id n Hn. unfold LaCAM.rewrite in Hrw.
    set (nodes2 := alter (LaCAM.link H_from) H_to (alter (LaCAM.link H_to) H_from nodes))
      in *.
    assert (exists n2, nodes2 !! id = Some n2 /\
              gained ((if bool_decide (id = H_from) then {[H_to]} else ∅) ∪
                      (if bool_decide (id = H_to) then {[H_from]} else ∅)) n n2)
      as (n2 & Hn2 & HC2 & Hnb2).
    { unfold nodes2. destruct (decide (id = H_to)) as [->|Hto].
      - rewrite list_lookup_alter_eq.
        destruct (decide (H_to = H_from)) as [->|Hfrom].
        + rewrite list_lookup_alter_eq, Hn. simpl. eexists. split; [done|].
          rewrite !bool_decide_eq_true_2 by done. split; [done|]. simpl. set_solver.
        + rewrite list_lookup_alter_ne, Hn by done. simpl. eexists. split; [done|].
          rewrite bool_decide_eq_false_2, bool_decide_eq_true_2 by done.
          split; [done|]. simpl. set_solver.
      - rewrite list_lookup_alter_ne by done.
        destruct (decide (id = H_from)) as [->|Hfrom].
        + rewrite list_lookup_alter_eq, Hn. simpl. eexists. split; [done|].
          rewrite bool_decide_eq_true_2, bool_decide_eq_false_2 by done.
          split; [done|]. simpl. set_solver.
        + rewrite list_lookup_alter_ne, Hn by done. eexists. split; [done|].
          rewrite !bool_decide_eq_false_2 by done. split; [done|]. set_solver. }
    assert (view_eq : (fun n : HL.HNode => (HL.C n, HL.neighbor_set n)) <$> r !! id
                      = Some (HL.C n2, HL.neighbor_set n2)).
    { destruct (nodes2 !! H_from) as [ns|]; [|done].
      destruct (nodes2 !! H_to) as [nt|]; [|done].
      destruct (_ <=? _).
      - injection Hrw as <-. by rewrite Hn2.
      - rewrite (rewrite_loop1_frame ins objective fuel H_from H_to id _ _ _ Hrw).
        by rewrite Hn2. }
    destruct (r !! id) as [n'|]; [|done]. injection view_eq as HC Hnb.
    exists n'. split; [done|]. split; congruence.
Qed.

Section RewriteWitness.
#[local] Existing Instance Demo.runtime.

Lemma rewrite_records_edge_witness :
  length hit_rewrite2.1 = 4%nat /\
  forall id n,
    (<[0%nat := HL.set_search_tree hit_expand2.1 hit_node2]> (LaCAM2.nodes hit_state2))
      !! id = Some n ->
    exists n', hit_rewrite2.1 !! id = Some n' /\
      gained (if bool_decide (id = 0%nat) then {[1%nat]} else ∅) n n'.
Proof.
  destruct (proj1 (rewrite_records_edge (RT:=Demo.runtime) Demo.ins3 OBJ_NONE 20 0 1
                     (<[0%nat := HL.set_search_tree hit_expand2.1 hit_node2]>
                        (LaCAM2.nodes hit_state2)))
              (LaCAM2.H_goal hit_state2) (LaCAM2.OPEN hit_state2) hit_rewrite2
              ltac:(vm_refl)) as [Hlen Hnodes].
  split; [|exact Hnodes]. rewrite Hlen. vm_refl.
Defined.

End RewriteWitness.

(** ** The swap rule on graphs without branching *)

Section NoBranching.
Context `{RT : Runtime}.
Variable ins : Instance.
Variable D : DistTable.
Hypothesis G_sym : graph_undirected ins.
Hypothesis G_thin : forall v, (length (neighbor ins v) <= 2)%nat.

Lemma filter_drops {A} (f : A -> bool) (x : A) (l : list A) :
  x ∈ l -> f x = false -> (length (List.filter f l) < length l)%nat.
Proof.
  induction l as [|y l IH]; intros Hin Hf; [by apply elem_of_nil in Hin|].
  apply elem_of_cons in Hin as [->|Hin]; simpl.
  - rewrite Hf. pose proof (List.filter_length_le f l). lia.
  - specialize (IH Hin Hf). destruct (f y); simpl; lia.
Qed.

Lemma corridor_live_in s vp vq u :
  u ∈ LaCAM2.corridor_live ins s vp vq -> u ∈ neighbor ins vq.
Proof.
  unfold LaCAM2.corridor_live. rewrite !list_elem_of_In, List.filter_In. tauto.
Qed.

Lemma corridor_live_thin s vp vq :
  vp ∈ neighbor ins vq -> (length (LaCAM2.corridor_live ins s vp vq) <= 1)%nat.
Proof.
  intros Hadj. unfold LaCAM2.corridor_live.
  pose proof (G_thin vq).
  pose proof (filter_drops
    (fun u => negb (bool_decide (u = vp)
          || (bool_decide (length (neighbor ins u) = 1%nat)
              && match occupied_now s !! u with
                 | Some a => bool_decide (cfg_at (goals ins) a = u)
                 | None => false
                 end))) vp (neighbor ins vq) Hadj) as Hd.
  simpl in Hd. rewrite bool_decide_eq_true_2 in Hd by done.
  specialize (Hd eq_refl). lia.
Qed.

Lemma is_swap_possible_from_thin fuel : forall s origin vp vq,
  vp ∈ neighbor ins vq ->
  LaCAM2.is_swap_possible_from ins fuel s origin vp vq <> Some true.
Proof.
  induction fuel as [|fuel IH]; intros s origin vp vq Hadj; simpl; [done|].
  case_bool_decide; [|done].
  pose proof (corridor_live_thin s vp vq Hadj) as Hlen.
  destruct (LaCAM2.corridor_live ins s vp vq) as [|tmp [|tmp' l]] eqn:Hlive;
    [done| |simpl in Hlen; lia].
  apply IH, G_sym, (corridor_live_in s vp vq). rewrite Hlive. by left.
Qed.

Lemma and_then_true a b : LaCAM2.and_then a b = Some true -> b = Some true.
Proof. by destruct a as [[|]|]. Qed.

Lemma swap_clear_case_thin fuel s ai vi c0 us sa :
  c0 ∈ neighbor ins vi ->
  LaCAM2.swap_clear_case ins D fuel s ai vi c0 us <> Some (Some sa).
Proof.
  intros Hadj. induction us as [|u us IH]; simpl; [done|].
  destruct (occupied_now s !! u) as [ak|]; [|done].
  destruct (v_now s !! ak) as [ak_now|]; simpl; [|done].
  case_bool_decide; [done|].
  destruct (LaCAM2.and_then _ _) as [[|]|] eqn:Hb; simpl; [|done|done].
  apply and_then_true in Hb.
  by apply (is_swap_possible_from_thin fuel s c0 c0 vi) in Hb.
Qed.

End NoBranching.

(** X15.  On an undirected graph in which no vertex has more than two
    neighbours (a path or a ring), [is_swap_possible] never answers yes
    for a pusher next to the puller, whatever bound its loop is given, and
    so [swap_possible_and_required] selects no agent: with consistent
    tables the swap rule of LaCAM2 stays idle on such graphs. *)
Theorem no_swap_without_branching `{RT : Runtime} (ins : Instance) (D : DistTable)
    (fuel : nat) (s : Scratch) (ai vi : nat) (cands : list nat) :
  graph_undirected ins ->
  (forall v, (length (neighbor ins v) <= 2)%nat) ->
  (forall v a, occupied_now s !! v = Some a -> v_now s !! a = Some v) ->
  Permutation (neighbor ins vi ++ [vi]) cands ->
  (forall v_pusher v_puller, v_pusher ∈ neighbor ins v_puller ->
     LaCAM2.is_swap_possible ins fuel s v_pusher v_puller <> Some true) /\
  forall sa, LaCAM2.swap_possible_and_required ins D fuel s ai vi cands <> Some (Some sa).
Proof.
  intros Hsym Hthin Hocc Hperm. split.
  - intros vp vq Hadj. by apply is_swap_possible_from_thin.
  - intros sa. unfold LaCAM2.swap_possible_and_required.
    destruct cands as [|c0 cands]; simpl; [done|].
    case_bool_decide as Hc0; [done|].
    assert (c0 ∈ neighbor ins vi) as Hadj.
    { assert (c0 ∈ neighbor ins vi ++ [vi]) as Hin by (rewrite Hperm; by left).
      apply elem_of_app in Hin as [Hin|Hin]; [done|].
      by apply list_elem_of_singleton in Hin. }
    destruct (occupied_now s !! c0) as [aj|] eqn:Haj; simpl;
      [|by apply swap_clear_case_thin].
    destruct (v_next s !! aj); simpl; [by apply swap_clear_case_thin|].
    rewrite (Hocc _ _ Haj). simpl.
    destruct (LaCAM2.and_then _ _) as [[|]|] eqn:Hb; simpl;
      [|by apply swap_clear_case_thin|done].
    apply and_then_true in Hb.
    by apply (is_swap_possible_from_thin ins Hsym Hthin fuel s c0 c0 vi) in Hb.
Qed.

(** A ring of four vertices on which two agents have to exchange their
    places, with the distances to their goals. *)
Definition G_ring (v : nat) : list nat :=
  match v with
  | 0 => [1; 3] | 1 => [0; 2] | 2 => [1; 3] | 3 => [2; 0]
  | _ => []
  end%nat.

Definition ins_ring : Instance :=
  {| neighbor := G_ring; ins_N := 2; starts := [0; 1]%nat; goals := [1; 0]%nat |}.

Definition D_ring (i v : nat) : Z :=
  match i with
  | O => nth v [1; 0; 1; 2] 0
  | _ => nth v [0; 1; 2; 1] 0
  end.

Lemma G_ring_sym : graph_undirected ins_ring.
Proof.
  intros u v. simpl. unfold G_ring.
  do 4 (destruct v as [|v]; [rewrite ?elem_of_cons, elem_of_nil;
    intros H; repeat (destruct H as [->|H]; [set_solver|]); done|]).
  by intros ?%elem_of_nil.
Qed.

Lemma G_ring_thin v : (length (neighbor ins_ring v) <= 2)%nat.
Proof. simpl. unfold G_ring. do 4 (destruct v as [|v]; [simpl; lia|]). simpl. lia. Qed.

Section NoBranchingWitness.
#[local] Existing Instance Demo.runtime.

Lemma no_swap_without_branching_witness :
  LaCAM2.swap_possible_and_required ins_ring D_ring 10 blocked_tables 1 1 [0; 1; 2]%nat
    = Some None /\
  (forall v_pusher v_puller, v_pusher ∈ neighbor ins_ring v_puller ->
     LaCAM2.is_swap_possible ins_ring 10 blocked_tables v_pusher v_puller <> Some true) /\
  forall sa,
    LaCAM2.swap_possible_and_required ins_ring D_ring 10 blocked_tables 1 1 [0; 1; 2]%nat
      <> Some (Some sa).
Proof.
  split; [vm_refl|].
  apply (no_swap_without_branching (RT:=Demo.runtime) ins_ring D_ring 10
           blocked_tables 1 1 [0; 1; 2]%nat G_ring_sym G_ring_thin).
  - apply (occ_now_sound _ _
      (inv_tables _ _ _ _
         (proj1 (setup_inv Demo.ins3 [0; 1]%nat blocked_free _
                   (scratch_init_ok (ins:=Demo.ins3) None))))).
  - simpl. apply perm_skip, perm_swap.
Defined.

End NoBranchingWitness.

(** ** Constraints that cannot be met *)

Section Clash.
Context `{RT : Runtime}.
Variable C : Config.

Lemma add_constraints_distinct L : forall s,
  (LaCAM2.add_constraints C L s).1 = true ->
  NoDup (map snd L) /\ forall i l, (i, l) ∈ L -> occupied_next s !! l = None.
Proof.
  induction L as [|[i l] L IH]; intros s Hrun; simpl in *.
  - split; [constructor|]. by intros i l ?%elem_of_nil.
  - case_bool_decide as Hocc; [done|].
    assert (occupied_next s !! l = None) as Hl.
    { destruct (occupied_next s !! l); [|done]. by destruct Hocc. }
    destruct (match occupied_next s !! cfg_at C i with
              | Some x => _ | None => _ end); [done|].
    destruct (IH _ Hrun) as [Hnd Hfree]. split.
    + apply NoDup_cons. split; [|done].
      intros Hin. apply list_elem_of_fmap in Hin as ([j l'] & -> & Hin). simpl in *.
      specialize (Hfree j l' Hin). simpl in Hfree. by rewrite lookup_insert_eq in Hfree.
    + intros j l' Hin. apply elem_of_cons in Hin as [[= -> ->]|Hin]; [done|].
      specialize (Hfree j l' Hin). simpl in Hfree.
      destruct (decide (l = l')) as [->|Hne]; [by rewrite lookup_insert_eq in Hfree|].
      by rewrite lookup_insert_ne in Hfree.
Qed.

Lemma add_constraints_swap_pending L : forall s i j,
  occupied_next s !! cfg_at C j = Some i ->
  occupied_now s !! cfg_at C i = Some i ->
  (j, cfg_at C i) ∈ L ->
  (LaCAM2.add_constraints C L s).1 = false.
Proof.
  induction L as [|[i' l'] L IH]; intros s i j Hnext Hnow Hin; simpl.
  - by apply elem_of_nil in Hin.
  - case_bool_decide as Hocc; [done|].
    assert (occupied_next s !! l' = None) as Hl.
    { destruct (occupied_next s !! l'); [|done]. by destruct Hocc. }
    apply elem_of_cons in Hin as [[= <- <-]|Hin].
    + rewrite Hnext, Hnow. by rewrite bool_decide_eq_true_2.
    + destruct (match occupied_next s !! cfg_at C i' with
                | Some x => _ | None => _ end); [done|].
      apply (IH _ i j); [|done|done]. simpl.
      rewrite lookup_insert_ne; [done|]. intros ->. congruence.
Qed.

Lemma add_constraints_swap L1 : forall s i j L2,
  occupied_now s !! cfg_at C i = Some i ->
  (j, cfg_at C i) ∈ L2 ->
  (LaCAM2.add_constraints C (L1 ++ (i, cfg_at C j) :: L2) s).1 = false.
Proof.
  induction L1 as [|[i' l'] L1 IH]; intros s i j L2 Hnow Hin; simpl.
  - case_bool_decide; [done|].
    destruct (match occupied_next s !! cfg_at C i with
              | Some x => _ | None => _ end); [done|].
    apply (add_constraints_swap_pending _ _ i j); [|done|done].
    simpl. by rewrite lookup_insert_eq.
  - case_bool_decide; [done|].
    destruct (match occupied_next s !! cfg_at C i' with
              | Some x => _ | None => _ end); [done|].
    by apply IH.
Qed.

End Clash.

(** X16.  Constraints that cannot be met together are rejected before any
    planning: when the frame sends two agents to one vertex, or makes two
    agents exchange their vertices, [get_new_config] of both planners
    returns [false] right after the constraint loop, whatever bound the
    inner loops are given and whatever the order of the frame. *)
Theorem clashing_constraints_rejected `{RT : Runtime} (ins : Instance) (D : DistTable)
    (FLG_SWAP : bool) (C order : list nat) (L : list (nat * nat)) (s : Scratch)
    (fuel : nat) :
  vertex_free (ins_N ins) C ->
  tables_ok (ins_N ins) s ->
  (~ NoDup (map snd L) \/
   exists i j, (i < ins_N ins)%nat /\ (j < ins_N ins)%nat /\ i <> j /\
               (i, cfg_at C j) ∈ L /\ (j, cfg_at C i) ∈ L) ->
  exists s',
    LaCAM2.get_new_config ins D FLG_SWAP fuel C order L s = Some (false, s') /\
    LaCAM.get_new_config ins D fuel C order L s = Some (false, s').
Proof.
  intros Hfree Ht Hclash.
  destruct (setup_inv ins C Hfree s Ht) as [HI1 _].
  unfold LaCAM2.get_new_config, LaCAM.get_new_config.
  set (s1 := fold_left (LaCAM2.setup_agent C) (seq 0 (ins_N ins)) s) in *.
  assert ((LaCAM2.add_constraints C L s1).1 = false) as Hrej.
  { destruct Hclash as [Hdup|(i & j & Hi & Hj & Hij & Hin1 & Hin2)].
    - destruct (LaCAM2.add_constraints C L s1).1 eqn:E; [|done].
      by destruct (add_constraints_distinct C L s1 E).
    - pose proof (now_occ _ _ _ (inv_now _ _ _ _ HI1)) as Hnow.
      apply list_elem_of_split in Hin1 as (L1 & L2 & ->).
      apply elem_of_app in Hin2 as [Hin2|Hin2].
      + apply list_elem_of_split in Hin2 as (La & Lb & ->).
        rewrite <- app_assoc. simpl.
        apply add_constraints_swap; [by apply Hnow|].
        apply elem_of_app. right. by left.
      + apply elem_of_cons in Hin2 as [[= ? ?]|Hin2]; [done|].
        apply add_constraints_swap; [by apply Hnow|done]. }
  destruct (LaCAM2.add_constraints C L s1) as [[|] s2]; simpl in Hrej; [done|].
  by exists s2.
Qed.

Section ClashWitness.
#[local] Existing Instance Demo.runtime.

Lemma clashing_constraints_rejected_witness :
  exists s',
    LaCAM2.get_new_config Demo.ins3 Demo.D3 true 20 [0; 1]%nat [0; 1]%nat
      [(1, 1); (0, 1)]%nat (scratch_init None) = Some (false, s') /\
    LaCAM.get_new_config Demo.ins3 Demo.D3 20 [0; 1]%nat [0; 1]%nat
      [(1, 1); (0, 1)]%nat (scratch_init None) = Some (false, s').
Proof.
  apply (clashing_constraints_rejected (RT:=Demo.runtime) Demo.ins3 Demo.D3 true
           [0; 1]%nat [0; 1]%nat [(1, 1); (0, 1)]%nat (scratch_init None) 20
           blocked_free (scratch_init_ok (ins:=Demo.ins3) None)).
  left. simpl. intros Hnd. apply NoDup_cons in Hnd as [Hin _]. apply Hin. by left.
Defined.

End ClashWitness.

(** * Priorities and order of a node *)

(** ** [std::sort] of libstdc++ *)

(** [std::sort] as libstdc++ implements it ([bits/stl_algo.h] and
    [bits/stl_heap.h]): an introsort that partitions ranges of more than
    16 elements around a median of three, falls back to heap sort when
    the recursion gets deeper than [2 * lg n], and finishes with an
    insertion sort.  The array is a list, iterators are indices, and
    every write is an exchange of two elements: where the library
    carries a value in a local variable while it shifts other elements
    ([__unguarded_linear_insert], [__adjust_heap], [__push_heap],
    [__pop_heap]), the model keeps that value in the vacated slot.
    The library's loops without a bound check stop here at the ends of
    the array; with a strict weak ordering they never get there. *)
Module Libstdcxx.

Section Sort.
Variable comp : nat -> nat -> bool.

Definition at_index (v : list nat) (i : nat) : nat := nth i v 0%nat.

(** [std::iter_swap]. *)
Definition iter_swap (i j : nat) (v : list nat) : list nat :=
  if (i <? length v)%nat && (j <? length v)%nat
  then <[i := at_index v j]> (<[j := at_index v i]> v)
  else v.

(** [__unguarded_linear_insert(last)]. *)
Fixpoint unguarded_linear_insert (last : nat) (v : list nat) : list nat :=
  match last with
  | O => v
  | S next =>
      if comp (at_index v last) (at_index v next)
      then unguarded_linear_insert next (iter_swap last next v)
      else v
  end.

(** [std::move_backward(first, i, i + 1); *first = val], the element
    at [i] travelling [k = i - first] places down. *)
Fixpoint move_to_front (k i : nat) (v : list nat) : list nat :=
  match k with
  | O => v
  | S k' => move_to_front k' (pred i) (iter_swap i (pred i) v)
  end.

(** The [for] loop of [__insertion_sort(first, last)], from [i] on. *)
Fixpoint insertion_loop (n first i : nat) (v : list nat) : list nat :=
  match n with
  | O => v
  | S n' =>
      insertion_loop n' first (S i)
        (if comp (at_index v i) (at_index v first)
         then move_to_front (i - first) i v
         else unguarded_linear_insert i v)
  end.

Definition insertion_sort (first last : nat) (v : list nat) : list nat :=
  if (first =? last)%nat then v
  else insertion_loop (last - S first) first (S first) v.

(** [__unguarded_insertion_sort(first, last)], from [i] on. *)
Fixpoint unguarded_insertion_sort (n i : nat) (v : list nat) : list nat :=
  match n with
  | O => v
  | S n' => unguarded_insertion_sort n' (S i) (unguarded_linear_insert i v)
  end.

Definition S_threshold : nat := 16.

(** [__final_insertion_sort(first, last)]. *)
Definition final_insertion_sort (first last : nat) (v : list nat) : list nat :=
  if (S_threshold <? last - first)%nat then
    unguarded_insertion_sort (last - (first + S_threshold)) (first + S_threshold)
      (insertion_sort first (first + S_threshold) v)
  else insertion_sort first last v.

(** [__move_median_to_first(result, a, b, c)]. *)
Definition move_median_to_first (result a b c : nat) (v : list nat) : list nat :=
  if comp (at_index v a) (at_index v b) then
    if comp (at_index v b) (at_index v c) then iter_swap result b v
    else if comp (at_index v a) (at_index v c) then iter_swap result c v
    else iter_swap result a v
  else if comp (at_index v a) (at_index v c) then iter_swap result a v
  else if comp (at_index v b) (at_index v c) then iter_swap result c v
  else iter_swap result b v.

(** [while (comp(first, pivot)) ++first;] *)
Fixpoint scan_up (fuel : nat) (v : list nat) (pivot first : nat) : nat :=
  match fuel with
  | O => first
  | S fuel' =>
      if comp (at_index v first) (at_index v pivot)
      then scan_up fuel' v pivot (S first) else first
  end.

(** [while (comp(pivot, last)) --last;] *)
Fixpoint scan_down (v : list nat) (pivot last : nat) : nat :=
  match last with
  | O => O
  | S last' =>
      if comp (at_index v pivot) (at_index v last)
      then scan_down v pivot last' else last
  end.

(** [__unguarded_partition(first, last, pivot)]. *)
Fixpoint unguarded_partition (fuel : nat) (first last pivot : nat) (v : list nat)
  : nat * list nat :=
  match fuel with
  | O => (first, v)
  | S fuel' =>
      let first1 := scan_up (length v - first) v pivot first in
      let last1 := scan_down v pivot (pred last) in
      if negb (first1 <? last1)%nat then (first1, v)
      else unguarded_partition fuel' (S first1) last1 pivot (iter_swap first1 last1 v)
  end.

(** [__unguarded_partition_pivot(first, last)]. *)
Definition unguarded_partition_pivot (first last : nat) (v : list nat) : nat * list nat :=
  let mid := (first + (last - first) / 2)%nat in
  unguarded_partition (length v) (S first) last first
    (move_median_to_first first (S first) mid (pred last) v).

(** [__push_heap(first, holeIndex, topIndex, value)], the value standing
    in the hole. *)
Fixpoint push_heap (fuel : nat) (first holeIndex topIndex : nat) (v : list nat)
  : list nat :=
  match fuel with
  | O => v
  | S fuel' =>
      let parent := ((holeIndex - 1) / 2)%nat in
      if (topIndex <? holeIndex)%nat
         && comp (at_index v (first + parent)) (at_index v (first + holeIndex))
      then push_heap fuel' first parent topIndex
             (iter_swap (first + holeIndex) (first + parent) v)
      else v
  end.

(** The first loop of [__adjust_heap]; [holeIndex] and [secondChild]
    are equal at its head. *)
Fixpoint sift_down (fuel : nat) (first len holeIndex : nat) (v : list nat)
  : nat * list nat :=
  match fuel with
  | O => (holeIndex, v)
  | S fuel' =>
      if (holeIndex <? (len - 1) / 2)%nat then
        let secondChild := (2 * (holeIndex + 1))%nat in
        let secondChild :=
          if comp (at_index v (first + secondChild)) (at_index v (first + (secondChild - 1)))
          then (secondChild - 1)%nat else secondChild in
        sift_down fuel' first len secondChild
          (iter_swap (first + holeIndex) (first + secondChild) v)
      else (holeIndex, v)
  end.

(** [__adjust_heap(first, holeIndex, len, value)]. *)
Definition adjust_heap (first holeIndex len : nat) (v : list nat) : list nat :=
  let topIndex := holeIndex in
  let '(hole, v1) := sift_down len first len holeIndex v in
  let '(hole, v2) :=
    if Nat.even len && (hole =? (len - 2) / 2)%nat then
      let secondChild := (2 * (hole + 1))%nat in
      ((secondChild - 1)%nat, iter_swap (first + hole) (first + (secondChild - 1)) v1)
    else (hole, v1) in
  push_heap (S hole) first hole topIndex v2.

(** The loop of [__make_heap(first, last)], from [parent] down. *)
Fixpoint make_heap_loop (parent : nat) (first len : nat) (v : list nat) : list nat :=
  let v' := adjust_heap first parent len v in
  match parent with
  | O => v'
  | S parent' => make_heap_loop parent' first len v'
  end.

Definition make_heap (first last : nat) (v : list nat) : list nat :=
  let len := (last - first)%nat in
  if (len <? 2)%nat then v else make_heap_loop ((len - 2) / 2) first len v.

(** [__sort_heap(first, last)]: [n] times [--last; __pop_heap(first,
    last, last)]. *)
Fixpoint sort_heap (n : nat) (first last : nat) (v : list nat) : list nat :=
  match n with
  | O => v
  | S n' =>
      let last' := pred last in
      sort_heap n' first last'
        (adjust_heap first 0 (last' - first) (iter_swap first last' v))
  end.

(** [__partial_sort(first, last, last)]: [__heap_select] has nothing to
    select beyond [middle = last]. *)
Definition partial_sort (first last : nat) (v : list nat) : list nat :=
  sort_heap (last - first - 1) first last (make_heap first last v).

(** [__introsort_loop(first, last, depth_limit)]. *)
Fixpoint introsort_loop (depth_limit : nat) (first last : nat) (v : list nat)
  : list nat :=
  match depth_limit with
  | O => if (S_threshold <? last - first)%nat then partial_sort first last v else v
  | S depth_limit' =>
      if (S_threshold <? last - first)%nat then
        let '(cut, v1) := unguarded_partition_pivot first last v in
        introsort_loop depth_limit' first cut (introsort_loop depth_limit' cut last v1)
      else v
  end.

(** [std::sort(first, last, comp)] on the whole array. *)
Definition sort (v : list nat) : list nat :=
  let n := length v in
  if (n =? 0)%nat then v
  else final_insertion_sort 0 n (introsort_loop (2 * Nat.log2 n) 0 n v).

End Sort.

(** The sort only exchanges elements. *)
Section SortPerm.
Variable comp : nat -> nat -> bool.

Lemma insert_exchange (l : list nat) : forall i x y,
  l !! i = Some y -> Permutation (y :: <[i := x]> l) (x :: l).
Proof.
  induction l as [|a l IH]; intros [|i] x y; simpl; try done.
  - intros [= ->]. apply perm_swap.
  - intros Hy. rewrite perm_swap. rewrite (IH i x y Hy). apply perm_swap.
Qed.

Lemma iter_swap_perm i j v : Permutation v (iter_swap i j v).
Proof.
  unfold iter_swap, at_index.
  destruct (i <? length v)%nat eqn:Hi; [|done].
  destruct (j <? length v)%nat eqn:Hj; [|done]. simpl.
  apply Nat.ltb_lt in Hi, Hj.
  destruct (lookup_lt_is_Some_2 v i Hi) as [xi Hxi].
  destruct (lookup_lt_is_Some_2 v j Hj) as [xj Hxj].
  rewrite (nth_lookup_Some _ _ _ _ Hxi), (nth_lookup_Some _ _ _ _ Hxj).
  pose proof (insert_exchange v j xi xj Hxj) as H1.
  assert (<[j := xi]> v !! i = Some xi) as Hxi'.
  { destruct (decide (i = j)) as [->|Hne].
    - by rewrite list_lookup_insert_eq.
    - by rewrite list_lookup_insert_ne. }
  pose proof (insert_exchange _ i xj xi Hxi') as H2.
  apply (Permutation_cons_inv (a:=xi)). by rewrite H2, H1.
Qed.

Lemma unguarded_linear_insert_perm last : forall v,
  Permutation v (unguarded_linear_insert comp last v).
Proof.
  induction last as [|next IH]; intros v; simpl; [done|].
  destruct (comp _ _); [|done]. rewrite <- IH. apply iter_swap_perm.
Qed.

Lemma move_to_front_perm k : forall i v, Permutation v (move_to_front k i v).
Proof.
  induction k as [|k IH]; intros i v; simpl; [done|].
  rewrite <- IH. apply iter_swap_perm.
Qed.

Lemma insertion_loop_perm n first : forall i v,
  Permutation v (insertion_loop comp n first i v).
Proof.
  induction n as [|n IH]; intros i v; simpl; [done|].
  rewrite <- IH. destruct (comp _ _).
  - apply move_to_front_perm.
  - apply unguarded_linear_insert_perm.
Qed.

Lemma introsort_insertion_perm first last v :
  Permutation v (insertion_sort comp first last v).
Proof.
  unfold insertion_sort. destruct (_ =? _)%nat; [done|]. apply insertion_loop_perm.
Qed.

Lemma unguarded_insertion_sort_perm n : forall i v,
  Permutation v (unguarded_insertion_sort comp n i v).
Proof.
  induction n as [|n IH]; intros i v; simpl; [done|].
  rewrite <- IH. apply unguarded_linear_insert_perm.
Qed.

Lemma final_insertion_sort_perm first last v :
  Permutation v (final_insertion_sort comp first last v).
Proof.
  unfold final_insertion_sort. destruct (_ <? _)%nat.
  - rewrite <- unguarded_insertion_sort_perm. apply introsort_insertion_perm.
  - apply introsort_insertion_perm.
Qed.

Lemma move_median_to_first_perm result a b c v :
  Permutation v (move_median_to_first comp result a b c v).
Proof.
  unfold move_median_to_first.
  repeat (destruct (comp _ _)); apply iter_swap_perm.
Qed.

Lemma unguarded_partition_perm fuel : forall first last pivot v,
  Permutation v (unguarded_partition comp fuel first last pivot v).2.
Proof.
  induction fuel as [|fuel IH]; intros first last pivot v; simpl; [done|].
  destruct (negb _); [done|]. rewrite <- IH. apply iter_swap_perm.
Qed.

Lemma unguarded_partition_pivot_perm first last v :
  Permutation v (unguarded_partition_pivot comp first last v).2.
Proof.
  unfold unguarded_partition_pivot. rewrite <- unguarded_partition_perm.
  apply move_median_to_first_perm.
Qed.

Lemma push_heap_perm fuel : forall first holeIndex topIndex v,
  Permutation v (push_heap comp fuel first holeIndex topIndex v).
Proof.
  induction fuel as [|fuel IH]; intros first holeIndex topIndex v; simpl; [done|].
  destruct (_ && _); [|done]. rewrite <- IH. apply iter_swap_perm.
Qed.

Lemma sift_down_perm fuel : forall first len holeIndex v,
  Permutation v (sift_down comp fuel first len holeIndex v).2.
Proof.
  induction fuel as [|fuel IH]; intros first len holeIndex v; simpl; [done|].
  destruct (_ <? _)%nat; [|done]. rewrite <- IH. apply iter_swap_perm.
Qed.

Lemma adjust_heap_perm first holeIndex len v :
  Permutation v (adjust_heap comp first holeIndex len v).
Proof.
  unfold adjust_heap.
  pose proof (sift_down_perm len first len holeIndex v) as H1.
  destruct (sift_down comp len first len holeIndex v) as [hole v1]. simpl in H1.
  destruct (Nat.even len && _).
  - rewrite <- push_heap_perm. rewrite <- iter_swap_perm. done.
  - by rewrite <- push_heap_perm.
Qed.

Lemma make_heap_loop_perm parent : forall first len v,
  Permutation v (make_heap_loop comp parent first len v).
Proof.
  induction parent as [|parent IH]; intros first len v; simpl.
  - apply adjust_heap_perm.
  - rewrite <- IH. apply adjust_heap_perm.
Qed.

Lemma sort_heap_perm n : forall first last v,
  Permutation v (sort_heap comp n first last v).
Proof.
  induction n as [|n IH]; intros first last v; simpl; [done|].
  rewrite <- IH, <- adjust_heap_perm. apply iter_swap_perm.
Qed.

Lemma partial_sort_perm first last v : Permutation v (partial_sort comp first last v).
Proof.
  unfold partial_sort. rewrite <- sort_heap_perm. unfold make_heap.
  destruct (_ <? _)%nat; [done|]. apply make_heap_loop_perm.
Qed.

Lemma introsort_loop_perm depth_limit : forall first last v,
  Permutation v (introsort_loop comp depth_limit first last v).
Proof.
  induction depth_limit as [|d IH]; intros first last v; simpl.
  - destruct (_ <? _)%nat; [|done]. apply partial_sort_perm.
  - destruct (_ <? _)%nat; [|done].
    pose proof (unguarded_partition_pivot_perm first last v) as H1.
    destruct (unguarded_partition_pivot comp first last v) as [cut v1]. simpl in H1.
    by rewrite <- !IH.
Qed.

Lemma sort_perm v : Permutation v (sort comp v).
Proof.
  unfold sort. destruct (_ =? _)%nat; [done|].
  rewrite <- final_insertion_sort_perm. apply introsort_loop_perm.
Qed.

End SortPerm.

(** The environment of [Demo.runtime] with this [std::sort]. *)
#[export] Instance runtime : Runtime := {|
  float := Q;
  f_zero := 0%Q;
  f_one := 1%Q;
  f_of_uint := inject_Z;
  f_of_int := inject_Z;
  f_to_int := fun q => Z.quot (Qnum q) (Zpos (Qden q));
  f_add := Qplus;
  f_sub := Qminus;
  f_div := Qdiv;
  f_lt := Demo.Qltb;
  rng := list Q;
  get_random_float := Demo.draw;
  std_shuffle := fun r l => (l, r);
  std_shuffle_perm := Demo.id_shuffle_perm;
  std_sort := sort;
  std_sort_perm := sort_perm;
  set_iter := elements;
  set_iter_elem := Demo.elements_elem
|}.

End Libstdcxx.

(** ** The node constructor *)






Section PrioritiesWitness.
#[local] Existing Instance Demo.runtime.



End PrioritiesWitness.
